(** * Control execution tree: result groups (control/controlexecute/result_group.go)

    A shallow embedding of the [ResultGroup] tree of the control execution
    engine: construction from a mod tree, the name lookups, the traversals
    that count runs and collect tag keys, the upward aggregation of
    summaries, severities, durations and dimension keys through the
    [Parent] chain, and the dispatch loop of [execute].

    Go pointers ([*ResultGroup], [*ControlRun]) are indices into two arenas
    kept in the [World]; a method that mutates its receiver becomes a
    computation in the state-and-failure monad [M]. *)

From Stdlib Require Import ZArith Lia.
From stdpp Require Import base option list strings gmap sorting.

Set Default Proof Using "Type".

(** ** Go machine integers *)

(** Go's [int] (and [time.Duration], an [int64]) on a 64-bit platform:
    arithmetic wraps around in two's complement. *)
Definition int_min : Z := (- 2 ^ 63)%Z.
Definition int_max : Z := (2 ^ 63 - 1)%Z.

Definition wrap_int (z : Z) : Z := ((z + 2 ^ 63) `mod` 2 ^ 64 - 2 ^ 63)%Z.

Definition int_add (a b : Z) : Z := wrap_int (a + b).
Definition int_sub (a b : Z) : Z := wrap_int (a - b).

Definition in_int (z : Z) : Prop := (int_min <= z <= int_max)%Z.

(** ** A state-and-failure monad *)

Section Monad.
Context {S : Type}.

Definition ST (A : Type) : Type := S -> option (A * S).

Definition ret {A} (a : A) : ST A := fun s => Some (a, s).

Definition bind {A B} (m : ST A) (k : A -> ST B) : ST B :=
  fun s => match m s with
           | Some (a, s') => k a s'
           | None => None
           end.

Definition fail {A} : ST A := fun _ => None.

Definition get : ST S := fun s => Some (s, s).
Definition modify (f : S -> S) : ST unit := fun s => Some (tt, f s).

(** A Go [for _, x := range xs] loop whose body is a computation. *)
Fixpoint for_each {A} (xs : list A) (body : A -> ST unit) : ST unit :=
  match xs with
  | [] => ret tt
  | x :: xs' => bind (body x) (fun _ => for_each xs' body)
  end.
End Monad.

Arguments ST : clear implicits.

Notation "'let*' x ':=' c 'in' k" := (bind c (fun x => k))
  (at level 10, x name, c at level 100, k at level 200,
   format "'[v' 'let*'  x  ':='  c  'in' '/' k ']'").
Notation "c1 ';;;' c2" := (bind c1 (fun _ => c2))
  (at level 100, c2 at level 200, right associativity).

(** ** package controlstatus *)

Module controlstatus.
Record StatusSummary : Type := mkStatusSummary {
  Alarm : Z;
  Ok : Z;
  Info : Z;
  Skip : Z;
  Error : Z
}.

(** The zero value [StatusSummary{}]. *)
Definition zero : StatusSummary := mkStatusSummary 0 0 0 0 0.

(** Field-wise [+=] of Go ints: what [updateSummary] and
    [updateSeverityCounts] do to their accumulator. *)
Definition add (a b : StatusSummary) : StatusSummary :=
  {| Alarm := int_add (Alarm a) (Alarm b);
     Ok := int_add (Ok a) (Ok b);
     Info := int_add (Info a) (Info b);
     Skip := int_add (Skip a) (Skip b);
     Error := int_add (Error a) (Error b) |}.

(** Field-wise sum of a list of summaries, with Go's addition. *)
Definition sum (l : list StatusSummary) : StatusSummary :=
  foldr add zero l.
End controlstatus.

Abbreviation StatusSummary := controlstatus.StatusSummary.

Global Instance StatusSummary_eq_dec : EqDecision StatusSummary.
Proof. solve_decision. Defined.

(** ** package modconfig: the mod tree handed to the builder *)

Module modconfig.
Record Mod : Type := mkMod { ModName : string }.

(** What every tree item exposes: [Name()], [GetTitle()],
    [GetDescription()], [GetTags()], [GetMod()] (may be nil). *)
Record ItemBase : Type := mkItemBase {
  FullName : string;
  Title : string;
  Description : string;
  Tags : gmap string string;
  ItemMod : option Mod
}.

Record Control : Type := mkControl {
  ControlBase : ItemBase;
  ControlSeverity : string
}.

(** [ModTreeItem] is an interface; the code distinguishes by type
    assertion [*Control], [*Benchmark] and anything else (a [*Mod], say). *)
#[warnings="-register-all"]
Inductive ModTreeItem : Type :=
| ControlItem (c : Control)
| BenchmarkItem (b : ItemBase) (children : list ModTreeItem)
| OtherItem (b : ItemBase) (children : list ModTreeItem).

Definition base (i : ModTreeItem) : ItemBase :=
  match i with
  | ControlItem c => ControlBase c
  | BenchmarkItem b _ => b
  | OtherItem b _ => b
  end.

Definition Name (i : ModTreeItem) : string := FullName (base i).
Definition GetTitle (i : ModTreeItem) : string := Title (base i).
Definition GetDescription (i : ModTreeItem) : string := Description (base i).
Definition GetTags (i : ModTreeItem) : gmap string string := Tags (base i).
Definition GetMod (i : ModTreeItem) : option Mod := ItemMod (base i).
Definition GetChildren (i : ModTreeItem) : list ModTreeItem :=
  match i with
  | ControlItem _ => []
  | BenchmarkItem _ cs => cs
  | OtherItem _ cs => cs
  end.

Definition ControlName (c : Control) : string := FullName (ControlBase c).

Definition dot : Ascii.ascii := Ascii.ascii_of_nat 46.

(** Splitting a name at the dots ([strings.Split(fullName, ".")]). *)
Fixpoint split_dots (acc : string) (s : string) : list string :=
  match s with
  | EmptyString => [String.rev acc]
  | String a s' =>
      if Ascii.eqb a dot then String.rev acc :: split_dots EmptyString s'
      else split_dots (String a acc) s'
  end.

(** Modelled from the spec: modconfig.UnqualifiedResourceName is not in
    src. Full names are [mod.type.name] and unqualified names [type.name]
    (as built in modconfig/dashboard.go); the short name of a three-part
    name drops the mod, any other name is returned unchanged. *)
Definition UnqualifiedResourceName (fullName : string) : string :=
  match split_dots EmptyString fullName with
  | [_; ty; n] => ty +:+ "." +:+ n
  | _ => fullName
  end.
End modconfig.

(** ** The heap of result groups and control runs *)

(** A [*ResultGroup]. *)
Abbreviation loc := nat.
(** A [*ControlRun]. *)
Abbreviation rloc := nat.

Module GroupSummary.
Record t : Type := mk {
  Status : StatusSummary;
  Severity : gmap string StatusSummary
}.
End GroupSummary.

(** [NewGroupSummary]. *)
Definition NewGroupSummary : GroupSummary.t :=
  GroupSummary.mk controlstatus.zero ∅.

Record ResultGroup : Type := mkResultGroup {
  GroupId : string;
  Title : string;
  Description : string;
  Tags : gmap string string;
  Summary : GroupSummary.t;
  Groups : list loc;
  ControlRuns : list rloc;
  Severity : gmap string StatusSummary;
  GroupItem : option modconfig.ModTreeItem;
  Parent : option loc;
  Duration : Z;
  DimensionKeys : list string
}.

Inductive RunStatus : Type :=
| RunReady | RunStarted | RunComplete | RunError.

(** Modelled from the spec: the ControlRun struct is not in src. Spec §3
    gives it a reference to its control, a status, the StatusSummary of its
    own rows, the rows themselves (of which the dimension keys are kept
    here), a duration, an error (absent unless it failed) and a
    back-reference to its owning group. *)
Record ControlRun : Type := mkControlRun {
  Control : modconfig.Control;
  RunSummary : StatusSummary;
  Status : RunStatus;
  RunKeys : list string;
  RunErr : option string;
  RunDuration : Z;
  Group : loc
}.

(** Lock events of the per-group mutexes. *)
Inductive Event : Type :=
| EvLock (l : loc)
| EvUnlock (l : loc).

Record World : Type := mkWorld {
  groups : list ResultGroup;
  runs : list ControlRun;
  (** groups whose [updateLock] is currently locked *)
  held : list loc;
  (** every Lock and Unlock so far, oldest first *)
  trace : list Event
}.

Definition M (A : Type) : Type := ST World A.

Definition empty_world : World := mkWorld [] [] [] [].

(** ** Heap primitives *)

(** Dereferencing a [*ResultGroup]; a pointer outside the arena is a nil
    dereference, which panics. *)
Definition getGroup (l : loc) : M ResultGroup :=
  fun w => match groups w !! l with
           | Some g => Some (g, w)
           | None => None
           end.

Definition setGroup (l : loc) (g : ResultGroup) : M unit :=
  fun w => Some (tt, mkWorld (<[l := g]> (groups w)) (runs w) (held w) (trace w)).

Definition modifyGroup (l : loc) (f : ResultGroup -> ResultGroup) : M unit :=
  let* g := getGroup l in setGroup l (f g).

(** [&ResultGroup{...}]: a fresh object at the end of the arena. *)
Definition allocGroup (g : ResultGroup) : M loc :=
  fun w => Some (length (groups w),
                 mkWorld (groups w ++ [g]) (runs w) (held w) (trace w)).

Definition getRun (r : rloc) : M ControlRun :=
  fun w => match runs w !! r with
           | Some c => Some (c, w)
           | None => None
           end.

Definition setRun (r : rloc) (c : ControlRun) : M unit :=
  fun w => Some (tt, mkWorld (groups w) (<[r := c]> (runs w)) (held w) (trace w)).

Definition modifyRun (r : rloc) (f : ControlRun -> ControlRun) : M unit :=
  let* c := getRun r in setRun r (f c).

Definition allocRun (c : ControlRun) : M rloc :=
  fun w => Some (length (runs w),
                 mkWorld (groups w) (runs w ++ [c]) (held w) (trace w)).

(** Field updates of a [ResultGroup]. *)
Definition with_Summary (s : GroupSummary.t) (g : ResultGroup) : ResultGroup :=
  mkResultGroup (GroupId g) (Title g) (Description g) (Tags g) s (Groups g)
    (ControlRuns g) (Severity g) (GroupItem g) (Parent g) (Duration g)
    (DimensionKeys g).

Definition with_Groups (gs : list loc) (g : ResultGroup) : ResultGroup :=
  mkResultGroup (GroupId g) (Title g) (Description g) (Tags g) (Summary g) gs
    (ControlRuns g) (Severity g) (GroupItem g) (Parent g) (Duration g)
    (DimensionKeys g).

Definition with_ControlRuns (rs : list rloc) (g : ResultGroup) : ResultGroup :=
  mkResultGroup (GroupId g) (Title g) (Description g) (Tags g) (Summary g)
    (Groups g) rs (Severity g) (GroupItem g) (Parent g) (Duration g)
    (DimensionKeys g).

Definition with_Duration (d : Z) (g : ResultGroup) : ResultGroup :=
  mkResultGroup (GroupId g) (Title g) (Description g) (Tags g) (Summary g)
    (Groups g) (ControlRuns g) (Severity g) (GroupItem g) (Parent g) d
    (DimensionKeys g).

Definition with_DimensionKeys (ks : list string) (g : ResultGroup) : ResultGroup :=
  mkResultGroup (GroupId g) (Title g) (Description g) (Tags g) (Summary g)
    (Groups g) (ControlRuns g) (Severity g) (GroupItem g) (Parent g)
    (Duration g) ks.

(** ** Building the tree *)

Record Workspace : Type := mkWorkspace { WsMod : modconfig.Mod }.
Record ExecutionTree : Type := mkExecutionTree { workspace : Workspace }.

Definition RootResultGroupName : string := "root_result_group".

(** The loop of [ControlRunCount] over the child groups. *)
Fixpoint count_groups (rec : loc -> option nat) (gs : list loc) (count : nat)
  : option nat :=
  match gs with
  | [] => Some count
  | g :: gs' =>
      match rec g with
      | Some n => count_groups rec gs' (count + n)
      | None => None
      end
  end.

(** [ControlRunCount]: the runs of a group and of the groups below it. The
    recursion follows pointers, so it carries fuel; [None] is fuel
    exhausted or a nil dereference. (A count of objects in memory cannot
    overflow Go's int; it is a [nat] here.) *)
Fixpoint ControlRunCount_fuel (fuel : nat) (h : list ResultGroup) (r : loc)
  : option nat :=
  match fuel with
  | O => None
  | S fuel' =>
      match h !! r with
      | Some g =>
          count_groups (ControlRunCount_fuel fuel' h) (Groups g)
            (length (ControlRuns g))
      | None => None
      end
  end.

Definition ControlRunCount (r : loc) : M nat :=
  fun w => match ControlRunCount_fuel (length (groups w)) (groups w) r with
           | Some n => Some (n, w)
           | None => None
           end.

(** Modelled from the spec: ExecutionTree.AddControl and NewControlRun are
    not in src. Spec §4.1: for a control, attach a new ControlRun directly
    under the current group; spec §3: a run is created with status ready
    and a back-reference to its owning group. *)
Definition AddControl (control : modconfig.Control) (group : loc) : M unit :=
  let* run := allocRun {| Control := control;
                          RunSummary := controlstatus.zero;
                          Status := RunReady;
                          RunKeys := [];
                          RunErr := None;
                          RunDuration := 0;
                          Group := group |} in
  modifyGroup group (fun g => with_ControlRuns (ControlRuns g ++ [run]) g).

(** [NewResultGroup] creates a result group from a ModTreeItem. *)
Fixpoint NewResultGroup (executionTree : ExecutionTree)
    (treeItem : modconfig.ModTreeItem) (parent : loc) {struct treeItem} : M loc :=
  (* only show qualified group names for controls from dependent mods *)
  let groupId := modconfig.Name treeItem in
  let groupId :=
    match modconfig.GetMod treeItem with
    | Some mod_ =>
        if String.eqb (modconfig.ModName mod_)
             (modconfig.ModName (WsMod (workspace executionTree)))
        then modconfig.UnqualifiedResourceName groupId
        else groupId
    | None => groupId
    end in
  let* group := allocGroup {| GroupId := modconfig.Name treeItem;
                              Title := modconfig.GetTitle treeItem;
                              Description := modconfig.GetDescription treeItem;
                              Tags := modconfig.GetTags treeItem;
                              GroupItem := Some treeItem;
                              Parent := Some parent;
                              Groups := [];
                              Summary := NewGroupSummary;
                              Severity := ∅;
                              ControlRuns := [];
                              Duration := 0;
                              DimensionKeys := [] |} in
  (* add child groups for children which are benchmarks *)
  let children :=
    fix children (cs : list modconfig.ModTreeItem) : M unit :=
      match cs with
      | [] => ret tt
      | c :: cs' =>
          match c with
          | modconfig.BenchmarkItem _ _ =>
              (* create a result group for this item *)
              let* benchmarkGroup := NewResultGroup executionTree c group in
              (* if the group has any control runs, add to tree *)
              let* n := ControlRunCount benchmarkGroup in
              if (0 <? n)%nat
              then modifyGroup group
                     (fun g => with_Groups (Groups g ++ [benchmarkGroup]) g)
              else ret tt
          | _ => ret tt
          end ;;;
          match c with
          | modconfig.ControlItem control => AddControl control group
          | _ => ret tt
          end ;;;
          children cs'
      end in
  (* treeItem.GetChildren(): a control has none *)
  match treeItem with
  | modconfig.ControlItem _ => children []
  | modconfig.BenchmarkItem _ cs => children cs
  | modconfig.OtherItem _ cs => children cs
  end ;;;
  ret group.

(** [NewRootResultGroup] creates a ResultGroup to act as the root node of a
    control execution tree. *)
Definition NewRootResultGroup (executionTree : ExecutionTree)
    (rootItems : list modconfig.ModTreeItem) : M loc :=
  let* root := allocGroup {| GroupId := RootResultGroupName;
                             Title := EmptyString;
                             Description := EmptyString;
                             Groups := [];
                             Tags := ∅;
                             Summary := NewGroupSummary;
                             Severity := ∅;
                             ControlRuns := [];
                             GroupItem := None;
                             Parent := None;
                             Duration := 0;
                             DimensionKeys := [] |} in
  for_each rootItems (fun item =>
    match item with
    | modconfig.ControlItem control =>
        (* if root item is a control, add control run *)
        AddControl control root
    | _ =>
        (* create a result group for this item *)
        let* itemGroup := NewResultGroup executionTree item root in
        modifyGroup root (fun g => with_Groups (Groups g ++ [itemGroup]) g)
    end) ;;;
  ret root.

(** ** Lookups *)

(** The loop of [GetGroupByName] over [r.Groups]. *)
Fixpoint find_group (h : list ResultGroup) (name : string) (gs : list loc)
  : option (option loc) :=
  match gs with
  | [] => Some None
  | group :: gs' =>
      match h !! group with
      | Some g =>
          if String.eqb (GroupId g) name then Some (Some group)
          else find_group h name gs'
      | None => None
      end
  end.

(** [GetGroupByName] finds an immediate child ResultGroup with a specific
    name. The result [None] is nil. *)
Definition GetGroupByName (r : loc) (name : string) : M (option loc) :=
  let* g := getGroup r in
  fun w => match find_group (groups w) name (Groups g) with
           | Some res => Some (res, w)
           | None => None
           end.

(** The loop of [GetChildGroupByName] over [r.Groups]; [rec] is the
    recursive call on a child. *)
Fixpoint find_child_group (rec : loc -> option (option loc))
    (h : list ResultGroup) (name : string) (gs : list loc)
  : option (option loc) :=
  match gs with
  | [] => Some None
  | group :: gs' =>
      match h !! group with
      | Some g =>
          if String.eqb (GroupId g) name then Some (Some group)
          else match rec group with
               | Some (Some child) => Some (Some child)
               | Some None => find_child_group rec h name gs'
               | None => None
               end
      | None => None
      end
  end.

Fixpoint GetChildGroupByName_fuel (fuel : nat) (h : list ResultGroup)
    (name : string) (r : loc) : option (option loc) :=
  match fuel with
  | O => None
  | S fuel' =>
      match h !! r with
      | Some g =>
          find_child_group (GetChildGroupByName_fuel fuel' h name) h name
            (Groups g)
      | None => None
      end
  end.

(** [GetChildGroupByName] finds a nested child ResultGroup with a specific
    name. *)
Definition GetChildGroupByName (r : loc) (name : string) : M (option loc) :=
  fun w =>
    match GetChildGroupByName_fuel (length (groups w)) (groups w) name r with
    | Some res => Some (res, w)
    | None => None
    end.

(** The loop of [GetControlRunByName] over [r.ControlRuns]. *)
Fixpoint find_run (rs : list ControlRun) (name : string) (cs : list rloc)
  : option (option rloc) :=
  match cs with
  | [] => Some None
  | run :: cs' =>
      match rs !! run with
      | Some c =>
          if String.eqb (modconfig.ControlName (Control c)) name
          then Some (Some run)
          else find_run rs name cs'
      | None => None
      end
  end.

(** [GetControlRunByName] finds a child ControlRun with a specific control
    name. *)
Definition GetControlRunByName (r : loc) (name : string) : M (option rloc) :=
  let* g := getGroup r in
  fun w => match find_run (runs w) name (ControlRuns g) with
           | Some res => Some (res, w)
           | None => None
           end.

(** ** Go library functions used by the aggregation *)

Module utils.
(** Modelled from the spec: utils.StringSliceDistinct is not in src; spec
    §4.3 has it deduplicate the key list. The order it leaves is not
    relied on: its only caller with an ordered result sorts afterwards. *)
Definition StringSliceDistinct (slice : list string) : list string :=
  remove_dups slice.
End utils.

Module sort.
(** Go's [sort.Strings]: increasing order, strings compared byte-wise. *)
Definition Strings (l : list string) : list string := merge_sort String.le l.
End sort.

Module time.
(** [time.Duration] is an int64 count of nanoseconds. *)
Definition Millisecond : Z := 1000000.
Definition minDuration : Z := int_min.
Definition maxDuration : Z := int_max.

(** [uint64(x)] of an int64. *)
Definition uint64 (x : Z) : Z := (x `mod` 2 ^ 64)%Z.

(** [lessThanHalf] reports whether x+x < y but avoids overflow, assuming
    x and y are both positive. *)
Definition lessThanHalf (x y : Z) : bool :=
  (uint64 (uint64 x + uint64 x) <? uint64 y)%Z.

(** [Duration.Round] of Go's standard library: the nearest multiple of
    [m], halfway values away from zero, saturating at the ends of the
    range; [d % m] truncates toward zero. *)
Definition Round (d m : Z) : Z :=
  if (m <=? 0)%Z then d
  else
    let r := Z.rem d m in
    if (d <? 0)%Z then
      let r := int_sub 0 r in
      if lessThanHalf r m then int_add d r
      else
        let d1 := int_add (int_sub d m) r in
        if (d1 <? d)%Z then d1 else minDuration
    else
      if lessThanHalf r m then int_sub d r
      else
        let d1 := int_sub (int_add d m) r in
        if (d <? d1)%Z then d1 else maxDuration.
End time.

(** ** The group mutex *)

(** [r.updateLock.Lock()]. A sync.Mutex is not reentrant: locking a mutex
    that this task already holds blocks forever. *)
Definition Lock (l : loc) : M unit :=
  fun w => if bool_decide (l ∈ held w) then None
           else Some (tt, mkWorld (groups w) (runs w) (l :: held w)
                            (trace w ++ [EvLock l])).

(** [r.updateLock.Unlock()]; unlocking an unlocked mutex is a fatal
    error. *)
Definition Unlock (l : loc) : M unit :=
  fun w => if bool_decide (l ∈ held w)
           then Some (tt, mkWorld (groups w) (runs w)
                            (filter (λ x, x ≠ l) (held w))
                            (trace w ++ [EvUnlock l]))
           else None.

(** ** Upward aggregation *)

(** Each method locks its receiver, defers the unlock to its return,
    mutates the receiver and calls itself on [r.Parent]; the recursion
    follows pointers and carries fuel. *)

Fixpoint addDimensionKeys_fuel (fuel : nat) (r : loc) (keys : list string)
  : M unit :=
  match fuel with
  | O => fail
  | S fuel' =>
      Lock r ;;;
      modifyGroup r
        (fun g => with_DimensionKeys (DimensionKeys g ++ keys) g) ;;;
      (let* g := getGroup r in
       match Parent g with
       | Some parent => addDimensionKeys_fuel fuel' parent keys
       | None => ret tt
       end) ;;;
      modifyGroup r
        (fun g => with_DimensionKeys
                    (utils.StringSliceDistinct (DimensionKeys g)) g) ;;;
      modifyGroup r
        (fun g => with_DimensionKeys (sort.Strings (DimensionKeys g)) g) ;;;
      (* deferred *)
      Unlock r
  end.

Fixpoint addDuration_fuel (fuel : nat) (r : loc) (d : Z) : M unit :=
  match fuel with
  | O => fail
  | S fuel' =>
      Lock r ;;;
      modifyGroup r
        (fun g => with_Duration
                    (int_add (Duration g) (time.Round d time.Millisecond)) g) ;;;
      (let* g := getGroup r in
       match Parent g with
       | Some parent =>
           addDuration_fuel fuel' parent (time.Round d time.Millisecond)
       | None => ret tt
       end) ;;;
      (* deferred *)
      Unlock r
  end.

Fixpoint updateSummary_fuel (fuel : nat) (r : loc) (summary : StatusSummary)
  : M unit :=
  match fuel with
  | O => fail
  | S fuel' =>
      Lock r ;;;
      modifyGroup r
        (fun g =>
           let st := GroupSummary.Status (Summary g) in
           with_Summary
             (GroupSummary.mk
                {| controlstatus.Skip :=
                     int_add (controlstatus.Skip st) (controlstatus.Skip summary);
                   controlstatus.Alarm :=
                     int_add (controlstatus.Alarm st) (controlstatus.Alarm summary);
                   controlstatus.Info :=
                     int_add (controlstatus.Info st) (controlstatus.Info summary);
                   controlstatus.Ok :=
                     int_add (controlstatus.Ok st) (controlstatus.Ok summary);
                   controlstatus.Error :=
                     int_add (controlstatus.Error st) (controlstatus.Error summary) |}
                (GroupSummary.Severity (Summary g))) g) ;;;
      (let* g := getGroup r in
       match Parent g with
       | Some parent => updateSummary_fuel fuel' parent summary
       | None => ret tt
       end) ;;;
      (* deferred *)
      Unlock r
  end.

Fixpoint updateSeverityCounts_fuel (fuel : nat) (r : loc) (severity : string)
    (summary : StatusSummary) : M unit :=
  match fuel with
  | O => fail
  | S fuel' =>
      Lock r ;;;
      (let* g := getGroup r in
       (* val, exists := r.Severity[severity] *)
       let val :=
         match Severity g !! severity with
         | Some v => v
         | None => controlstatus.zero
         end in
       let val :=
         {| controlstatus.Alarm :=
              int_add (controlstatus.Alarm val) (controlstatus.Alarm summary);
            controlstatus.Error :=
              int_add (controlstatus.Error val) (controlstatus.Error summary);
            controlstatus.Info :=
              int_add (controlstatus.Info val) (controlstatus.Info summary);
            controlstatus.Ok :=
              int_add (controlstatus.Ok val) (controlstatus.Ok summary);
            controlstatus.Skip :=
              int_add (controlstatus.Skip val) (controlstatus.Skip summary) |} in
       (* r.Summary.Severity[severity] = val *)
       setGroup r
         (with_Summary
            (GroupSummary.mk (GroupSummary.Status (Summary g))
               (<[severity := val]> (GroupSummary.Severity (Summary g)))) g) ;;;
       match Parent g with
       | Some parent => updateSeverityCounts_fuel fuel' parent severity summary
       | None => ret tt
       end) ;;;
      (* deferred *)
      Unlock r
  end.

(** The methods proper. A chain of parents longer than the arena passes
    through some group twice, and the second Lock of that group never
    returns, so fuel equal to the size of the arena loses nothing. *)
Definition addDimensionKeys (r : loc) (keys : list string) : M unit :=
  fun w => addDimensionKeys_fuel (length (groups w)) r keys w.

Definition addDuration (r : loc) (d : Z) : M unit :=
  fun w => addDuration_fuel (length (groups w)) r d w.

Definition updateSummary (r : loc) (summary : StatusSummary) : M unit :=
  fun w => updateSummary_fuel (length (groups w)) r summary w.

Definition updateSeverityCounts (r : loc) (severity : string)
    (summary : StatusSummary) : M unit :=
  fun w => updateSeverityCounts_fuel (length (groups w)) r severity summary w.

(** ** Completion of a control run *)

(** A Go [StatusSummary] value: every counter is an int. *)
Definition valid_summary (s : StatusSummary) : Prop :=
  in_int (controlstatus.Alarm s) /\ in_int (controlstatus.Ok s) /\
  in_int (controlstatus.Info s) /\ in_int (controlstatus.Skip s) /\
  in_int (controlstatus.Error s).

Definition with_run_result (summary : StatusSummary) (st : RunStatus)
    (d : Z) (keys : list string) (c : ControlRun) : ControlRun :=
  mkControlRun (Control c) summary st keys (RunErr c) d (Group c).

(** Modelled from the spec: the code of ControlRun that runs when a control
    finishes is not in src. Spec §4.3: the run computes its own
    StatusSummary, its duration and the dimension keys of its rows, then
    pushes the summary update (and, if its control declares a severity, the
    severity update), the duration update and the dimension-key update to
    its owning group. *)
Definition complete_run (run : rloc) (summary : StatusSummary) (d : Z)
    (keys : list string) : M unit :=
  let* c := getRun run in
  setRun run (with_run_result summary RunComplete d keys c) ;;;
  updateSummary (Group c) summary ;;;
  (if String.eqb (modconfig.ControlSeverity (Control c)) EmptyString
   then ret tt
   else updateSeverityCounts (Group c)
          (modconfig.ControlSeverity (Control c)) summary) ;;;
  addDuration (Group c) d ;;;
  addDimensionKeys (Group c) keys.

(** One run that has not reached a terminal state finishes. *)
Inductive completes (w w' : World) : Prop :=
| completes_intro (run : rloc) (c : ControlRun) (summary : StatusSummary)
    (d : Z) (keys : list string) :
    runs w !! run = Some c ->
    Status c = RunReady \/ Status c = RunStarted ->
    (* the summary and the duration are Go values *)
    valid_summary summary -> in_int d ->
    complete_run run summary d keys w = Some (tt, w') ->
    completes w w'.

(** ** Execution: the dispatch loop *)

Inductive Outcome : Type :=
| Returned
| Panicked (v : string).

(** What the surroundings answer at the [n]-th control run the walk
    reaches, and what a run's own [execute] does. *)
Record Env : Type := mkEnv {
  (** [ctx.Err()]: [Some cause] once the context is cancelled *)
  ctxErr : nat -> option string;
  (** [viper.GetBool(constants.ArgDryRun)] *)
  dryRun : nat -> bool;
  (** the error of [parallelismLock.Acquire(ctx, 1)], [None] for nil *)
  acquireErr : nat -> option string;
  (** [run.execute(c, client)]: its effect on the tree, and whether it
      returned or panicked *)
  runExecute : rloc -> World -> Outcome * World
}.

Inductive Action : Type :=
| ActSetError (run : rloc) (err : string)
| ActSkip (run : rloc)
| ActAcquire
| ActGo (run : rloc)
| ActExecute (run : rloc)
| ActRelease.

Global Instance Action_eq_dec : EqDecision Action.
Proof. solve_decision. Defined.

Record Sched : Type := mkSched {
  world : World;
  (** control runs the walk has reached so far *)
  clock : nat;
  (** limiter slots acquired and not yet released *)
  slots : nat;
  (** goroutines started by [go], oldest first *)
  spawned : list rloc;
  (** the panic in flight in the running goroutine *)
  panicking : option string;
  (** calls made so far, oldest first *)
  log : list Action
}.

Definition X (A : Type) : Type := ST Sched A.

Definition lift {A} (m : M A) : X A :=
  fun s => match m (world s) with
           | Some (a, w') =>
               Some (a, mkSched w' (clock s) (slots s) (spawned s)
                          (panicking s) (log s))
           | None => None
           end.

Definition emit (a : Action) : X unit :=
  modify (fun s => mkSched (world s) (clock s) (slots s) (spawned s)
                     (panicking s) (log s ++ [a])).

(** The walk reaches another control run. *)
Definition tick : X nat :=
  fun s => Some (clock s, mkSched (world s) (S (clock s)) (slots s)
                            (spawned s) (panicking s) (log s)).

(** One unit of the status error, and one of the status skip. *)
Definition error_unit : StatusSummary :=
  {| controlstatus.Alarm := 0; controlstatus.Ok := 0; controlstatus.Info := 0;
     controlstatus.Skip := 0; controlstatus.Error := 1 |}.

Definition skip_unit : StatusSummary :=
  {| controlstatus.Alarm := 0; controlstatus.Ok := 0; controlstatus.Info := 0;
     controlstatus.Skip := 1; controlstatus.Error := 0 |}.

(** Modelled from the spec: the fields of ControlRun are not in src. The
    run in its error state (spec §3, §7): the status is error, the error
    is recorded on the run, and the run's own summary is a single
    error. *)
Definition with_run_error (err : string) (c : ControlRun) : ControlRun :=
  mkControlRun (Control c) error_unit RunError (RunKeys c) (Some err)
    (RunDuration c) (Group c).

(** Modelled from the spec: the fields of ControlRun are not in src. The
    run in its skipped state (spec §3, §8): terminal without an error,
    with a single skip as its own summary and nothing in any other
    counter. *)
Definition with_run_skipped (c : ControlRun) : ControlRun :=
  mkControlRun (Control c) skip_unit RunComplete (RunKeys c) (RunErr c)
    (RunDuration c) (Group c).

(** Modelled from the spec: what a ControlRun does with its result when it
    reaches a terminal state is not in src. Spec §4.3: whatever the
    terminal state, the run pushes three updates to its owning group: its
    summary (and, if its control declares a severity, the severity counts),
    its duration and the dimension keys of its rows. *)
Definition push_updates (c : ControlRun) (summary : StatusSummary) : M unit :=
  updateSummary (Group c) summary ;;;
  (if String.eqb (modconfig.ControlSeverity (Control c)) EmptyString
   then ret tt
   else updateSeverityCounts (Group c)
          (modconfig.ControlSeverity (Control c)) summary) ;;;
  addDuration (Group c) (RunDuration c) ;;;
  addDimensionKeys (Group c) (RunKeys c).

(** Modelled from the spec: ControlRun.setError is not in src. Spec §4.2
    and §7: the run is marked as errored and the error is recorded on the
    run; this is a terminal state, and the error is folded into the
    aggregate counts as a single error (spec §4.3, §7, §8): the run's own
    summary is one error, and it is pushed to the owning group and from
    there to every ancestor. *)
Definition setError (run : rloc) (err : string) : X unit :=
  emit (ActSetError run err) ;;;
  lift (let* c := getRun run in
        setRun run (with_run_error err c) ;;;
        push_updates (with_run_error err c) error_unit).

(** Modelled from the spec: ControlRun.skip is not in src. Spec §3 and
    §4.2: an explicit skip takes the run to its terminal state without
    executing it; spec §4.3 and §8: the skipped run is aggregated like any
    other terminal run, as a single skip and nothing in any other
    counter. *)
Definition skip (run : rloc) : X unit :=
  emit (ActSkip run) ;;;
  lift (let* c := getRun run in
        setRun run (with_run_skipped c) ;;;
        push_updates (with_run_skipped c) skip_unit).

(** [parallelismLock.Acquire(ctx, 1)]: blocks until a slot is free or the
    context is cancelled; the surroundings decide which. *)
Definition Acquire (env : Env) (n : nat) : X (option string) :=
  match acquireErr env n with
  | Some err => ret (Some err)
  | None =>
      emit ActAcquire ;;;
      modify (fun s => mkSched (world s) (clock s) (S (slots s)) (spawned s)
                         (panicking s) (log s)) ;;;
      ret None
  end.

(** [parallelismLock.Release(1)]; releasing more than is held panics. *)
Definition Release : X unit :=
  fun s => match slots s with
           | O => None
           | S n => Some (tt, mkSched (world s) (clock s) n (spawned s)
                                (panicking s) (log s ++ [ActRelease]))
           end.

(** [go func(...){...}(ctx, controlRun)]: the goroutine is started and the
    loop goes on. *)
Definition go (run : rloc) : X unit :=
  emit (ActGo run) ;;;
  modify (fun s => mkSched (world s) (clock s) (slots s) (spawned s ++ [run])
                     (panicking s) (log s)).

(** [helpers.ToError] turns the value of a panic into an error; both are
    strings here. *)
Definition ToError (v : string) : string := v.

(** [recover()]: the value of the panic in flight, which it stops. *)
Definition recover : X (option string) :=
  fun s => Some (panicking s,
                 mkSched (world s) (clock s) (slots s) (spawned s) None (log s)).

Inductive Exit : Type :=
| ExitNormal
| ExitPanic (v : string).

(** The end of a goroutine's function: a panic still in flight leaves it. *)
Definition goroutine_exit : X Exit :=
  fun s => Some (match panicking s with
                 | Some v => ExitPanic v
                 | None => ExitNormal
                 end, s).

(** [run.execute(c, client)] inside the goroutine. *)
Definition run_execute (env : Env) (run : rloc) : X unit :=
  emit (ActExecute run) ;;;
  fun s =>
    let (out, w') := runExecute env run (world s) in
    Some (tt, mkSched w' (clock s) (slots s) (spawned s)
                (match out with
                 | Returned => panicking s
                 | Panicked v => Some v
                 end) (log s)).

(** The body of the goroutine that [execute] starts for a run: the call of
    [run.execute], then the deferred function, which runs however the call
    ended. *)
Definition dispatched (env : Env) (run : rloc) : X Exit :=
  run_execute env run ;;;
  (* defer func() { *)
  (let* r := recover in
   match r with
   | Some v =>
       (* if the Execute panic'ed, set it as an error *)
       setError run (ToError v)
   | None => ret tt
   end) ;;;
  (* Release in defer, so that we don't retain the lock even if there's a
     panic inside *)
  Release ;;;
  (* }() *)
  goroutine_exit.

(** One iteration of the loop of [execute] over [r.ControlRuns]. *)
Definition execute_run (env : Env) (controlRun : rloc) : X unit :=
  let* n := tick in
  match ctxErr env n with
  | Some cause =>
      (* utils.IsContextCancelled(ctx) *)
      setError controlRun cause
  | None =>
      if dryRun env n then skip controlRun
      else
        let* err := Acquire env n in
        match err with
        | Some e => setError controlRun e
        | None => go controlRun
        end
  end.

Fixpoint execute_fuel (fuel : nat) (env : Env) (r : loc) : X unit :=
  match fuel with
  | O => fail
  | S fuel' =>
      let* g := lift (getGroup r) in
      for_each (ControlRuns g) (execute_run env) ;;;
      for_each (Groups g) (execute_fuel fuel' env)
  end.

(** [execute]: dispatch the group's own runs, then walk the child groups. *)
Definition execute (env : Env) (r : loc) : X unit :=
  fun s => execute_fuel (length (groups (world s))) env r s.

(** ** Specification vocabulary *)

(** The common shape of the four aggregation methods: lock, change the
    receiver, recurse to the parent, change the receiver again, unlock. *)
Fixpoint upward_fuel (pre post : ResultGroup -> ResultGroup) (fuel : nat)
    (r : loc) : M unit :=
  match fuel with
  | O => fail
  | S fuel' =>
      Lock r ;;;
      modifyGroup r pre ;;;
      (let* g := getGroup r in
       match Parent g with
       | Some parent => upward_fuel pre post fuel' parent
       | None => ret tt
       end) ;;;
      modifyGroup r post ;;;
      Unlock r
  end.

(** The receiver followed by its parent, grandparent, ... up to the root. *)
Fixpoint ancestors_fuel (fuel : nat) (h : list ResultGroup) (l : loc)
  : list loc :=
  match fuel with
  | O => []
  | S fuel' =>
      match h !! l with
      | Some g =>
          l :: match Parent g with
               | Some p => ancestors_fuel fuel' h p
               | None => []
               end
      | None => []
      end
  end.

Definition ancestors (h : list ResultGroup) (l : loc) : list loc :=
  ancestors_fuel (length h) h l.

(** What the mutations along a chain amount to. *)
Definition alter_chain (f : ResultGroup -> ResultGroup) (chain : list loc)
    (h : list ResultGroup) : list ResultGroup :=
  foldr (alter f) h chain.

(** The effect of each method on a group of the chain. *)
Definition add_keys (keys : list string) (g : ResultGroup) : ResultGroup :=
  with_DimensionKeys
    (sort.Strings (utils.StringSliceDistinct (DimensionKeys g ++ keys))) g.

Definition add_duration (d : Z) (g : ResultGroup) : ResultGroup :=
  with_Duration (int_add (Duration g) d) g.

Definition add_status (s : StatusSummary) (g : ResultGroup) : ResultGroup :=
  with_Summary
    (GroupSummary.mk (controlstatus.add (GroupSummary.Status (Summary g)) s)
       (GroupSummary.Severity (Summary g))) g.

Definition set_severity (severity : string) (s : StatusSummary)
    (g : ResultGroup) : ResultGroup :=
  with_Summary
    (GroupSummary.mk (GroupSummary.Status (Summary g))
       (<[severity :=
            controlstatus.add (default controlstatus.zero (Severity g !! severity)) s]>
          (GroupSummary.Severity (Summary g)))) g.

(** The shape of the heap that the builder leaves: a tree in which
    children are allocated after their parent, child and parent links
    agree, a group that holds anything is attached to its parent, every
    run is listed once by the group it points to, and no mutex is held. *)
Record wf_tree (w : World) : Prop := mk_wf_tree {
  wf_children : forall i g c,
    groups w !! i = Some g -> c ∈ Groups g ->
    i < c /\ exists gc, groups w !! c = Some gc /\ Parent gc = Some i;
  wf_nodup : forall i g, groups w !! i = Some g -> NoDup (Groups g);
  wf_parent : forall i g p,
    groups w !! i = Some g -> Parent g = Some p -> p < i;
  wf_attached : forall i g p gp,
    groups w !! i = Some g -> Parent g = Some p -> groups w !! p = Some gp ->
    ControlRuns g <> [] \/ Groups g <> [] -> i ∈ Groups gp;
  wf_runs : forall i g r,
    groups w !! i = Some g -> r ∈ ControlRuns g ->
    exists c, runs w !! r = Some c /\ Group c = i;
  wf_runs_nodup : forall i g, groups w !! i = Some g -> NoDup (ControlRuns g);
  wf_run_group : forall r c,
    runs w !! r = Some c ->
    exists g, groups w !! Group c = Some g /\ r ∈ ControlRuns g;
  wf_unlocked : held w = []
}.

(** The state in which execution starts: nothing aggregated, every run
    ready. *)
Record fresh (w : World) : Prop := mk_fresh {
  fresh_group : forall i g,
    groups w !! i = Some g ->
    Summary g = NewGroupSummary /\ Severity g = ∅ /\ Duration g = 0%Z /\
    DimensionKeys g = [];
  fresh_run : forall r c,
    runs w !! r = Some c ->
    Status c = RunReady /\ RunSummary c = controlstatus.zero /\
    RunKeys c = []
}.

Definition status_of (w : World) (l : loc) : StatusSummary :=
  match groups w !! l with
  | Some g => GroupSummary.Status (Summary g)
  | None => controlstatus.zero
  end.

Definition run_summary_of (w : World) (r : rloc) : StatusSummary :=
  match runs w !! r with
  | Some c => RunSummary c
  | None => controlstatus.zero
  end.

(** The summary invariant: the Status of a group is the sum of the
    summaries of its direct runs plus the Status of its child groups. *)
Definition summary_inv (w : World) : Prop :=
  forall i g,
    groups w !! i = Some g ->
    GroupSummary.Status (Summary g) =
      controlstatus.add
        (controlstatus.sum (run_summary_of w <$> ControlRuns g))
        (controlstatus.sum (status_of w <$> Groups g)).

(** A run is in the subtree of a group when the group is on the chain of
    the run's owner. *)
Definition in_subtree (w : World) (i : loc) (c : ControlRun) : Prop :=
  i ∈ ancestors (groups w) (Group c).

(** The dimension-key invariant: sorted, without duplicates, and exactly
    the keys of the runs of the subtree. *)
Definition keys_inv (w : World) : Prop :=
  forall i g,
    groups w !! i = Some g ->
    StronglySorted String.le (DimensionKeys g) /\
    NoDup (DimensionKeys g) /\
    forall k, k ∈ DimensionKeys g <->
              exists r c, runs w !! r = Some c /\ in_subtree w i c /\
                          k ∈ RunKeys c.

(** Proper descendants of a group in depth-first pre-order. *)
Fixpoint preorder_groups (rec : loc -> option (list loc)) (gs : list loc)
  : option (list loc) :=
  match gs with
  | [] => Some []
  | g :: gs' =>
      match rec g, preorder_groups rec gs' with
      | Some below, Some rest => Some (g :: below ++ rest)
      | _, _ => None
      end
  end.

Fixpoint descendants_fuel (fuel : nat) (h : list ResultGroup) (r : loc)
  : option (list loc) :=
  match fuel with
  | O => None
  | S fuel' =>
      match h !! r with
      | Some g => preorder_groups (descendants_fuel fuel' h) (Groups g)
      | None => None
      end
  end.

Definition descendants (h : list ResultGroup) (r : loc) : option (list loc) :=
  descendants_fuel (length h) h r.

Definition group_named (h : list ResultGroup) (name : string) (l : loc) : bool :=
  match h !! l with
  | Some g => String.eqb (GroupId g) name
  | None => false
  end.

Definition run_named (rs : list ControlRun) (name : string) (r : rloc) : bool :=
  match rs !! r with
  | Some c => String.eqb (modconfig.ControlName (Control c)) name
  | None => false
  end.

(** The mutexes held after a sequence of lock events, and the largest
    number held at once along it. *)
Fixpoint locks_after (held : list loc) (tr : list Event) : list loc :=
  match tr with
  | [] => held
  | EvLock l :: tr' => locks_after (l :: held) tr'
  | EvUnlock l :: tr' => locks_after (filter (λ x, x ≠ l) held) tr'
  end.

Fixpoint max_held (held : list loc) (tr : list Event) : nat :=
  match tr with
  | [] => length held
  | EvLock l :: tr' => length held `max` max_held (l :: held) tr'
  | EvUnlock l :: tr' =>
      length held `max` max_held (filter (λ x, x ≠ l) held) tr'
  end.

(** [n] calls one after the other. *)
Fixpoint repeat_call (n : nat) (m : M unit) : M unit :=
  match n with
  | O => ret tt
  | S n' => m ;;; repeat_call n' m
  end.

(** The children loop of [NewResultGroup], named. *)
Fixpoint build_children (executionTree : ExecutionTree) (group : loc)
    (cs : list modconfig.ModTreeItem) : M unit :=
  match cs with
  | [] => ret tt
  | c :: cs' =>
      match c with
      | modconfig.BenchmarkItem _ _ =>
          let* benchmarkGroup := NewResultGroup executionTree c group in
          let* n := ControlRunCount benchmarkGroup in
          if (0 <? n)%nat
          then modifyGroup group
                 (fun g => with_Groups (Groups g ++ [benchmarkGroup]) g)
          else ret tt
      | _ => ret tt
      end ;;;
      match c with
      | modconfig.ControlItem control => AddControl control group
      | _ => ret tt
      end ;;;
      build_children executionTree group cs'
  end.

(** The group that [NewResultGroup] allocates before it walks the
    children. *)
Definition new_group (treeItem : modconfig.ModTreeItem) (parent : loc)
  : ResultGroup :=
  {| GroupId := modconfig.Name treeItem;
     Title := modconfig.GetTitle treeItem;
     Description := modconfig.GetDescription treeItem;
     Tags := modconfig.GetTags treeItem;
     GroupItem := Some treeItem;
     Parent := Some parent;
     Groups := [];
     Summary := NewGroupSummary;
     Severity := ∅;
     ControlRuns := [];
     Duration := 0;
     DimensionKeys := [] |}.

(** The pruning property of a built tree below its root: every attached
    child of a group other than the root has at least one control run. *)
Definition pruned_below (w : World) (root : loc) : Prop :=
  forall i g c,
    root < i -> groups w !! i = Some g -> c ∈ Groups g ->
    exists n, ControlRunCount c w = Some (n, w) /\ 0 < n.

(** Parents are allocated before their children. *)
Definition parents_below (h : list ResultGroup) : Prop :=
  forall i g p, h !! i = Some g -> Parent g = Some p -> p < i.

Definition lock_pattern (chain : list loc) : list Event :=
  (EvLock <$> chain) ++ (EvUnlock <$> reverse chain).

Definition after_chain (f : ResultGroup -> ResultGroup) (l : loc) (w : World)
  : World :=
  mkWorld (alter_chain f (ancestors (groups w) l) (groups w)) (runs w)
    (held w) (trace w ++ lock_pattern (ancestors (groups w) l)).

Definition shape_preserving (f : ResultGroup -> ResultGroup) : Prop :=
  forall g, Parent (f g) = Parent g /\ Groups (f g) = Groups g /\
            ControlRuns (f g) = ControlRuns g.

(** Two worlds with the same tree: same links, same run lists, same
    owners, same locks. *)
Record same_shape (w w' : World) : Prop := mk_same_shape {
  ss_groups : forall i,
    (fun g => (Parent g, Groups g, ControlRuns g)) <$> groups w' !! i =
    (fun g => (Parent g, Groups g, ControlRuns g)) <$> groups w !! i;
  ss_runs : forall r, Group <$> runs w' !! r = Group <$> runs w !! r;
  ss_held : held w' = held w
}.

Definition severity_step (c : ControlRun) (summary : StatusSummary) (w : World)
  : World :=
  if String.eqb (modconfig.ControlSeverity (Control c)) EmptyString then w
  else after_chain
         (set_severity (modconfig.ControlSeverity (Control c)) summary)
         (Group c) w.

(** The world after [complete_run]. *)
Definition completed (r : rloc) (c : ControlRun) (summary : StatusSummary)
    (d : Z) (keys : list string) (w : World) : World :=
  after_chain (add_keys keys) (Group c)
    (after_chain (add_duration (time.Round d time.Millisecond)) (Group c)
       (severity_step c summary
          (after_chain (add_status summary) (Group c)
             (mkWorld (groups w)
                (<[r := with_run_result summary RunComplete d keys c]> (runs w))
                (held w) (trace w))))).

(** Runs that have not finished have contributed nothing. *)
Definition unfinished_zero (w : World) : Prop :=
  forall r c,
    runs w !! r = Some c ->
    Status c = RunReady \/ Status c = RunStarted ->
    RunSummary c = controlstatus.zero /\ RunKeys c = [].

(** Everything that holds between two completions. *)
Record quiet (w : World) : Prop := mk_quiet {
  quiet_wf : wf_tree w;
  quiet_summary : summary_inv w;
  quiet_keys : keys_inv w;
  quiet_unfinished : unfinished_zero w
}.

(** A group with at least one control run in its subtree. *)
Definition counts_pos (w : World) (c : loc) : Prop :=
  exists n, ControlRunCount_fuel (length (groups w)) (groups w) c = Some n /\
            0 < n.

Definition nonempty (g : ResultGroup) : Prop :=
  ControlRuns g <> [] \/ Groups g <> [].

(** A group whose children and runs are in order, with nothing aggregated
    yet. *)
Record group_ok (w : World) (i : loc) (g : ResultGroup) : Prop := mk_group_ok {
  go_children : forall c, c ∈ Groups g ->
    i < c /\ exists gc, groups w !! c = Some gc /\ Parent gc = Some i;
  go_nodup : NoDup (Groups g);
  go_runs : forall r, r ∈ ControlRuns g ->
    exists c, runs w !! r = Some c /\ Group c = i;
  go_runs_nodup : NoDup (ControlRuns g);
  go_fresh : Summary g = NewGroupSummary /\ Severity g = ∅ /\
             Duration g = 0%Z /\ DimensionKeys g = []
}.

(** A group below [a]: its parent is [a] or below [a], it is attached if it
    holds anything, and its own attached children count a control run. *)
Record link_ok (w : World) (a i : loc) (g : ResultGroup) : Prop := mk_link_ok {
  lo_parent : exists p gp,
    Parent g = Some p /\ a <= p < i /\ groups w !! p = Some gp /\
    (nonempty g -> i ∈ Groups gp);
  lo_pruned : forall c, c ∈ Groups g -> counts_pos w c
}.

Record run_ok (w : World) (a : loc) (r : rloc) (c : ControlRun) : Prop :=
  mk_run_ok {
  ro_group : a <= Group c /\
             exists g, groups w !! Group c = Some g /\ r ∈ ControlRuns g;
  ro_fresh : Status c = RunReady /\ RunSummary c = controlstatus.zero /\
             RunKeys c = [];
  ro_duration : RunDuration c = 0%Z
}.

(** The part of the heap built under the group [a]. *)
Record under_ok (w : World) (a : loc) (ra : rloc) : Prop := mk_under_ok {
  uo_groups : forall i g, a <= i -> groups w !! i = Some g -> group_ok w i g;
  uo_links : forall i g, a < i -> groups w !! i = Some g -> link_ok w a i g;
  uo_runs : forall r c, ra <= r -> runs w !! r = Some c -> run_ok w a r c
}.

(** A step of the builder under [a]: groups above [a] and runs stay, the
    group [a] keeps its identity and only gains children and runs. *)
Record grows (a : loc) (w w' : World) : Prop := mk_grows {
  gr_above : forall j x, a < j -> groups w !! j = Some x -> groups w' !! j = Some x;
  gr_at : forall g, groups w !! a = Some g ->
    exists g', groups w' !! a = Some g' /\
               Parent g' = Parent g /\ GroupId g' = GroupId g /\
               Groups g ⊆ Groups g' /\ ControlRuns g ⊆ ControlRuns g';
  gr_runs : forall r c, runs w !! r = Some c -> runs w' !! r = Some c;
  gr_len : length (groups w) <= length (groups w');
  gr_rlen : length (runs w) <= length (runs w');
  gr_held : held w' = held w;
  gr_trace : trace w' = trace w
}.

(** What [NewResultGroup] leaves: the heap it found, and after it the new
    group with everything built under it. *)
Record built (treeItem : modconfig.ModTreeItem) (parent : loc) (w w' : World)
  : Prop := mk_built {
  bt_groups : forall j x, groups w !! j = Some x -> groups w' !! j = Some x;
  bt_runs : forall r c, runs w !! r = Some c -> runs w' !! r = Some c;
  bt_rlen : length (runs w) <= length (runs w');
  bt_held : held w' = held w;
  bt_trace : trace w' = trace w;
  bt_root : exists g,
    groups w' !! length (groups w) = Some g /\ Parent g = Some parent /\
    GroupId g = modconfig.Name treeItem;
  bt_under : under_ok w' (length (groups w)) (length (runs w));
  bt_pruned : forall g c,
    groups w' !! length (groups w) = Some g -> c ∈ Groups g -> counts_pos w' c
}.

(** [NewResultGroup] returns, and leaves a well-built subtree. *)
Definition builds (treeItem : modconfig.ModTreeItem) : Prop :=
  forall executionTree parent w,
    exists w',
      NewResultGroup executionTree treeItem parent w =
        Some (length (groups w), w') /\
      built treeItem parent w w'.

(** The attached children of [a] count at least one control run each. *)
Definition pruned_at (w : World) (a : loc) : Prop :=
  forall g c, groups w !! a = Some g -> c ∈ Groups g -> counts_pos w c.

(** The loop of [NewRootResultGroup] over the root items. *)
Definition root_item (executionTree : ExecutionTree) (root : loc)
    (item : modconfig.ModTreeItem) : M unit :=
  match item with
  | modconfig.ControlItem control => AddControl control root
  | _ =>
      let* itemGroup := NewResultGroup executionTree item root in
      modifyGroup root (fun g => with_Groups (Groups g ++ [itemGroup]) g)
  end.

Definition is_control (item : modconfig.ModTreeItem) : bool :=
  match item with
  | modconfig.ControlItem _ => true
  | _ => false
  end.

(** The root items for which [NewRootResultGroup] creates a group. *)
Definition group_items (items : list modconfig.ModTreeItem)
  : list modconfig.ModTreeItem :=
  List.filter (fun item => negb (is_control item)) items.

(** The synthetic root. *)
Definition root_group : ResultGroup :=
  {| GroupId := RootResultGroupName;
     Title := EmptyString;
     Description := EmptyString;
     Groups := [];
     Tags := ∅;
     Summary := NewGroupSummary;
     Severity := ∅;
     ControlRuns := [];
     GroupItem := None;
     Parent := None;
     Duration := 0;
     DimensionKeys := [] |}.

(** ** A small workspace, for the concrete cases *)

Module sample.
Definition aws : modconfig.Mod := modconfig.mkMod "aws".

Definition tree : ExecutionTree := mkExecutionTree (mkWorkspace aws).

Definition item (name : string) : modconfig.ItemBase :=
  modconfig.mkItemBase name EmptyString EmptyString ∅ (Some aws).

Definition control (name severity : string) : modconfig.ModTreeItem :=
  modconfig.ControlItem (modconfig.mkControl (item name) severity).

(** Two benchmarks under the root: [b1] with two controls of severity
    "high" and an empty nested benchmark, and [b2] with nothing in it. *)
Definition items : list modconfig.ModTreeItem :=
  [ modconfig.BenchmarkItem (item "aws.benchmark.b1")
      [ control "aws.control.c1" "high";
        control "aws.control.c2" "high";
        modconfig.BenchmarkItem (item "aws.benchmark.nested") [] ];
    modconfig.BenchmarkItem (item "aws.benchmark.b2") [] ].

(** The state a computation leaves, the untouched state if it fails. *)
Definition after {A} (m : M A) (w : World) : World :=
  match m w with
  | Some (_, w') => w'
  | None => w
  end.

(** The built tree: root 0, b1 at 1, nested at 2 (left out), b2 at 3;
    runs 0 and 1 under b1. *)
Definition built : World := after (NewRootResultGroup tree items) empty_world.

Definition one_alarm : StatusSummary :=
  controlstatus.mkStatusSummary 1 0 0 0 0.

Definition first_done : World :=
  after (complete_run 0 one_alarm 600000 ["region"]) built.

Definition both_done : World :=
  after (complete_run 1 one_alarm 600000 ["account_id"]) first_done.

Definition severity_at (w : World) (l : loc) (severity : string)
  : option StatusSummary :=
  match groups w !! l with
  | Some g => GroupSummary.Severity (Summary g) !! severity
  | None => None
  end.

Definition env (cancelled dry : bool) (acquire : option string)
    (outcome : Outcome) : Env :=
  {| ctxErr := fun _ => if cancelled then Some "context canceled" else None;
     dryRun := fun _ => dry;
     acquireErr := fun _ => acquire;
     runExecute := fun _ w => (outcome, w) |}.

Definition sched (w : World) (n : nat) : Sched := mkSched w 0 n [] None [].
End sample.

(** The claim of C3 as it is stated: every attached child group, under
    the root as well, counts at least one control run. *)
Definition pruned_everywhere (w : World) : Prop :=
  forall i g c,
    groups w !! i = Some g -> c ∈ Groups g ->
    exists n, ControlRunCount c w = Some (n, w) /\ 0 < n.

(** The claim of C9 as it is stated: along the lock events of an update,
    at most one group lock is held at any time. *)
Definition one_lock_at_a_time (tr : list Event) : Prop := max_held [] tr <= 1.

(** What a group is, as opposed to what is aggregated in it. *)
Definition identity_of (g : ResultGroup) :=
  (GroupId g, Title g, Description g, Tags g, GroupItem g,
   Parent g, Groups g, ControlRuns g).

(** The durations recorded on the runs are Go values. *)
Definition durations_in_int (w : World) : Prop :=
  forall r c, runs w !! r = Some c -> in_int (RunDuration c).

(** What the walk keeps: the tree, what each group is, the number of runs
    and their durations; and every slot it takes goes to a goroutine it
    starts. *)
Record walked (s s' : Sched) : Prop := mk_walked {
  wk_shape : same_shape (world s) (world s');
  wk_identity : forall i,
    identity_of <$> groups (world s') !! i =
    identity_of <$> groups (world s) !! i;
  wk_runs : length (runs (world s')) = length (runs (world s));
  wk_durations : forall r,
    RunDuration <$> runs (world s') !! r = RunDuration <$> runs (world s) !! r;
  wk_slots : slots s' + length (spawned s) = slots s + length (spawned s')
}.

(** What a run that reaches a terminal state adds to each group of its
    chain: its summary, the severity entry if its control declares a
    severity, its rounded duration and its dimension keys. *)
Definition push_effect (c : ControlRun) (summary : StatusSummary)
    (g : ResultGroup) : ResultGroup :=
  add_keys (RunKeys c)
    (add_duration (time.Round (RunDuration c) time.Millisecond)
       ((if String.eqb (modconfig.ControlSeverity (Control c)) EmptyString
         then id
         else set_severity (modconfig.ControlSeverity (Control c)) summary)
          (add_status summary g))).

(** The world after [push_updates]. *)
Definition pushed (c : ControlRun) (summary : StatusSummary) (w : World)
  : World :=
  after_chain (add_keys (RunKeys c)) (Group c)
    (after_chain (add_duration (time.Round (RunDuration c) time.Millisecond))
       (Group c)
       (severity_step c summary
          (after_chain (add_status summary) (Group c) w))).

(** The world after the run [r] has been put in the terminal state [c] and
    has pushed [summary]. *)
Definition terminated (r : rloc) (c : ControlRun) (summary : StatusSummary)
    (w : World) : World :=
  pushed c summary
    (mkWorld (groups w) (<[r := c]> (runs w)) (held w) (trace w)).

(** The run [x] belongs to the subtree of the group [i]. *)
Definition run_below (w : World) (i : loc) (x : rloc) : bool :=
  match runs w !! x with
  | Some c => bool_decide (i ∈ ancestors (groups w) (Group c))
  | None => false
  end.

(** How many of the runs [xs] belong to the subtree of [i]. *)
Definition count_below (w : World) (i : loc) (xs : list rloc) : nat :=
  length (List.filter (run_below w i) xs).

(** [n] times the unit [u] added to a summary, each time with Go's
    addition. *)
Definition add_units (n : nat) (u : StatusSummary) (st : StatusSummary)
  : StatusSummary :=
  Nat.iter n (fun st => controlstatus.add st u) st.

(** The control runs that a group lists. *)
Definition runs_of (h : list ResultGroup) (i : loc) : list rloc :=
  match h !! i with
  | Some g => ControlRuns g
  | None => []
  end.

(** The control runs of a group and of the groups below it: the group's own
    runs first, then those of each child's subtree, child after child. *)
Definition walk_order (h : list ResultGroup) (r : loc) : option (list rloc) :=
  match descendants h r with
  | Some ds => Some ((r :: ds) ≫= runs_of h)
  | None => None
  end.

(** [for k := range m]: Go visits the keys of a map in an order it does not
    specify. [AllTagKeys] sorts what it has collected, so the order taken
    here does not show in its result. *)
Definition map_keys (m : gmap string string) : list string :=
  (map_to_list m).*1.

(** The loop of [AllTagKeys] over [r.Groups]; [rec] is the recursive call
    on a child. *)
Fixpoint child_tag_keys (rec : loc -> option (list string)) (gs : list loc)
    (tags : list string) : option (list string) :=
  match gs with
  | [] => Some tags
  | child :: gs' =>
      match rec child with
      | Some ks => child_tag_keys rec gs' (tags ++ ks)
      | None => None
      end
  end.

(** The loop of [AllTagKeys] over [r.ControlRuns]. *)
Fixpoint run_tag_keys (rs : list ControlRun) (cs : list rloc)
    (tags : list string) : option (list string) :=
  match cs with
  | [] => Some tags
  | run :: cs' =>
      match rs !! run with
      | Some c =>
          run_tag_keys rs cs'
            (tags ++ map_keys (modconfig.Tags (modconfig.ControlBase (Control c))))
      | None => None
      end
  end.

Fixpoint AllTagKeys_fuel (fuel : nat) (w : World) (r : loc)
  : option (list string) :=
  match fuel with
  | O => None
  | S fuel' =>
      match groups w !! r with
      | Some g =>
          let tags := [] in
          let tags := tags ++ map_keys (Tags g) in
          match child_tag_keys (AllTagKeys_fuel fuel' w) (Groups g) tags with
          | Some tags =>
              match run_tag_keys (runs w) (ControlRuns g) tags with
              | Some tags =>
                  let tags := utils.StringSliceDistinct tags in
                  Some (sort.Strings tags)
              | None => None
              end
          | None => None
          end
      | None => None
      end
  end.

(** [AllTagKeys]: the tag keys of a group, of the groups below it and of
    the controls of their runs. *)
Definition AllTagKeys (r : loc) : M (list string) :=
  fun w => match AllTagKeys_fuel (length (groups w)) w r with
           | Some tags => Some (tags, w)
           | None => None
           end.

(** The tag keys that one group contributes: its own, and those of the
    controls of the runs it lists. *)
Definition tag_key_at (w : World) (i : loc) (k : string) : Prop :=
  exists g, groups w !! i = Some g /\
    (is_Some (Tags g !! k) \/
     exists run c,
       run ∈ ControlRuns g /\ runs w !! run = Some c /\
       is_Some (modconfig.Tags (modconfig.ControlBase (Control c)) !! k)).

(** What one iteration of the loop of [execute] does to a run that it does
    not hand to a goroutine: the run is put in the terminal state [c], its
    summary [u] is pushed up from its group, and the call [a] is made. *)
Definition decided (c : ControlRun) (u : StatusSummary) (a : Action)
    (x : rloc) (s : Sched) : Sched :=
  mkSched (terminated x c u (world s))
    (S (clock s)) (slots s) (spawned s) (panicking s) (log s ++ [a]).

(** What one iteration of the loop of [execute] leaves when the run it
    reaches is [c]. *)
Definition execute_run_result (env : Env) (x : rloc) (c : ControlRun)
    (s : Sched) : Sched :=
  match ctxErr env (clock s) with
  | Some cause =>
      decided (with_run_error cause c) error_unit (ActSetError x cause) x s
  | None =>
      if dryRun env (clock s)
      then decided (with_run_skipped c) skip_unit (ActSkip x) x s
      else
        match acquireErr env (clock s) with
        | Some err =>
            decided (with_run_error err c) error_unit (ActSetError x err) x s
        | None =>
            mkSched (world s) (S (clock s)) (S (slots s)) (spawned s ++ [x])
              (panicking s) (log s ++ [ActAcquire; ActGo x])
        end
  end.

(** The state in which the walk of the sample tree starts: nothing
    reached, no slot taken, no goroutine. *)
Definition sample_start : Sched := sample.sched sample.built 0.

(** The state that the walk of the sample tree from its root leaves. *)
Definition walk_result (env : Env) : Sched :=
  match execute env 0 sample_start with
  | Some (_, s') => s'
  | None => sample_start
  end.

(** The group of the benchmark b1 in the sample tree. *)
Definition sample_b1 : ResultGroup :=
  default root_group (groups (world sample_start) !! 1).

(** A workspace with tags, for the concrete cases of [AllTagKeys]: a
    benchmark tagged [service] and [cis] with one control tagged [cis] and
    [severity]. *)
Definition tagged_items : list modconfig.ModTreeItem :=
  [ modconfig.BenchmarkItem
      (modconfig.mkItemBase "aws.benchmark.cis" EmptyString EmptyString
         (list_to_map [("service", "iam"); ("cis", "true")])
         (Some sample.aws))
      [ modconfig.ControlItem
          (modconfig.mkControl
             (modconfig.mkItemBase "aws.control.mfa" EmptyString EmptyString
                (list_to_map [("cis", "true"); ("severity", "high")])
                (Some sample.aws))
             "high") ] ].

Definition tagged_built : World :=
  sample.after (NewRootResultGroup sample.tree tagged_items) empty_world.

(** The three updates that add to what a group has aggregated. *)
Inductive Update : Type :=
| UpSummary (l : loc) (summary : StatusSummary)
| UpDuration (l : loc) (d : Z)
| UpKeys (l : loc) (keys : list string).

Definition run_update (u : Update) : M unit :=
  match u with
  | UpSummary l summary => updateSummary l summary
  | UpDuration l d => addDuration l d
  | UpKeys l keys => addDimensionKeys l keys
  end.

Definition update_target (u : Update) : loc :=
  match u with
  | UpSummary l _ => l
  | UpDuration l _ => l
  | UpKeys l _ => l
  end.

Definition update_effect (u : Update) : ResultGroup -> ResultGroup :=
  match u with
  | UpSummary _ summary => add_status summary
  | UpDuration _ d => add_duration (time.Round d time.Millisecond)
  | UpKeys _ keys => add_keys keys
  end.

(** The receiver exists, and a duration is a Go value. *)
Definition update_ok (w : World) (u : Update) : Prop :=
  update_target u < length (groups w) /\
  match u with
  | UpDuration _ d => in_int d
  | _ => True
  end.

(** The groups after a list of updates, the chains taken in [h0]. *)
Definition updated (h0 : list ResultGroup) (us : list Update)
    (h : list ResultGroup) : list ResultGroup :=
  foldl (fun h u => alter_chain (update_effect u)
                      (ancestors h0 (update_target u)) h) h us.

(** The sum of the summaries of the runs of the subtree of [i]. *)
Definition subtree_summary (w : World) (i : loc) : StatusSummary :=
  controlstatus.sum
    (RunSummary <$> filter (fun c => i ∈ ancestors (groups w) (Group c)) (runs w)).

(** The run that [AddControl] creates for a control under a group. *)
Definition new_run (control : modconfig.Control) (group : loc) : ControlRun :=
  {| Control := control;
     RunSummary := controlstatus.zero;
     Status := RunReady;
     RunKeys := [];
     RunErr := None;
     RunDuration := 0;
     Group := group |}.

(** The controls for which [NewResultGroup] creates a run when it builds
    the group of [item]: the children that are controls, and the same for
    the children that are benchmarks. A child of any other kind is passed
    over, with everything below it. *)
Fixpoint controls_below (item : modconfig.ModTreeItem) : nat :=
  let children :=
    fix children (cs : list modconfig.ModTreeItem) : nat :=
      match cs with
      | [] => 0
      | c :: cs' =>
          match c with
          | modconfig.ControlItem _ => 1
          | modconfig.BenchmarkItem _ _ => controls_below c
          | modconfig.OtherItem _ _ => 0
          end + children cs'
      end in
  match item with
  | modconfig.ControlItem _ => 0
  | modconfig.BenchmarkItem _ cs => children cs
  | modconfig.OtherItem _ cs => children cs
  end.

Definition child_controls (c : modconfig.ModTreeItem) : nat :=
  match c with
  | modconfig.ControlItem _ => 1
  | modconfig.BenchmarkItem _ _ => controls_below c
  | modconfig.OtherItem _ _ => 0
  end.

(** The controls among a list of items, in order. *)
Definition control_children (cs : list modconfig.ModTreeItem)
  : list modconfig.Control :=
  omap (fun c => match c with
                 | modconfig.ControlItem control => Some control
                 | _ => None
                 end) cs.

(** The children for which [NewResultGroup] keeps the group it builds: the
    benchmarks with a control below them, in order. *)
Definition attached_children (cs : list modconfig.ModTreeItem)
  : list modconfig.ModTreeItem :=
  List.filter (fun c => match c with
                        | modconfig.BenchmarkItem _ _ =>
                            (0 <? controls_below c)%nat
                        | _ => false
                        end) cs.

(** The control runs that [NewRootResultGroup] creates for a root item. *)
Definition root_controls (item : modconfig.ModTreeItem) : nat :=
  match item with
  | modconfig.ControlItem _ => 1
  | _ => controls_below item
  end.

(** What a group takes from the item and the parent it was built for. *)
Definition static_of (g : ResultGroup) :=
  (GroupId g, Title g, Description g, Tags g, GroupItem g, Parent g).

(** The group at [b] was built for the item [c] under the group [a]. *)
Definition group_of_item (w : World) (a b : loc) (c : modconfig.ModTreeItem)
  : Prop :=
  exists gb, groups w !! b = Some gb /\ static_of gb = static_of (new_group c a).

(** The run at [r] is the one created for [control] under the group [a]. *)
Definition run_of_control (w : World) (a : loc) (r : rloc)
    (control : modconfig.Control) : Prop :=
  runs w !! r = Some (new_run control a).

(** Below [a], children come after their parent. *)
Definition upward (w : World) (a : loc) : Prop :=
  forall i g, a < i -> groups w !! i = Some g ->
              forall y, y ∈ Groups g -> i < y.

(** The subtree of [b] counts [n] runs, with fuel no more than the groups
    from [b] on. *)
Definition counted (w : World) (b : loc) (n : nat) : Prop :=
  exists fuel, fuel + b <= length (groups w) /\
               ControlRunCount_fuel fuel (groups w) b = Some n.

(** What [NewResultGroup] has laid out when it returns. *)
Record laid_out (item : modconfig.ModTreeItem) (parent : loc) (w w' : World)
  : Prop := mk_laid_out {
  lay_runs : length (runs w') = length (runs w) + controls_below item;
  lay_count : counted w' (length (groups w)) (controls_below item);
  lay_group : exists g,
    groups w' !! length (groups w) = Some g /\
    static_of g = static_of (new_group item parent) /\
    Forall2 (group_of_item w' (length (groups w))) (Groups g)
      (attached_children (modconfig.GetChildren item)) /\
    Forall2 (run_of_control w' (length (groups w))) (ControlRuns g)
      (control_children (modconfig.GetChildren item))
}.

Definition lays_out (item : modconfig.ModTreeItem) : Prop :=
  forall executionTree parent w w',
    NewResultGroup executionTree item parent w =
      Some (length (groups w), w') ->
    laid_out item parent w w'.

(** * Properties *)

(** Closing a goal about the sample workspace by evaluation. *)
Ltac by_compute :=
  vm_compute;
  repeat match goal with
         | |- _ /\ _ => split
         | |- _ -> False => let H := fresh in intros H; discriminate H
         | |- _ = _ => reflexivity
         end.

(** ** Machine integers *)

Lemma wrap_int_in_int z : in_int (wrap_int z).
Proof.
  unfold in_int, wrap_int, int_min, int_max.
  pose proof (Z.mod_pos_bound (z + 2 ^ 63) (2 ^ 64)) as H. lia.
Qed.

Lemma wrap_int_id z : in_int z -> wrap_int z = z.
Proof.
  unfold in_int, wrap_int, int_min, int_max. intros H.
  rewrite Z.mod_small; lia.
Qed.

Lemma wrap_int_add_l a b : wrap_int (wrap_int a + b) = wrap_int (a + b).
Proof.
  unfold wrap_int. f_equal.
  replace ((a + 2 ^ 63) `mod` 2 ^ 64 - 2 ^ 63 + b + 2 ^ 63)%Z
    with ((a + 2 ^ 63) `mod` 2 ^ 64 + b)%Z by lia.
  rewrite Zplus_mod_idemp_l. f_equal. lia.
Qed.

Lemma wrap_int_add_r a b : wrap_int (a + wrap_int b) = wrap_int (a + b).
Proof. rewrite (Z.add_comm a), wrap_int_add_l. f_equal. lia. Qed.

Lemma int_add_comm a b : int_add a b = int_add b a.
Proof. unfold int_add. f_equal. lia. Qed.

Lemma int_add_assoc a b c : int_add (int_add a b) c = int_add a (int_add b c).
Proof.
  unfold int_add. rewrite wrap_int_add_l, wrap_int_add_r. f_equal. lia.
Qed.

Lemma int_add_0_l a : in_int a -> int_add 0 a = a.
Proof. intros. unfold int_add. by rewrite Z.add_0_l, wrap_int_id. Qed.

Lemma int_add_in_int a b : in_int (int_add a b).
Proof. apply wrap_int_in_int. Qed.

Lemma int_add_exact a b : in_int (a + b) -> int_add a b = (a + b)%Z.
Proof. apply wrap_int_id. Qed.

(** ** Status summaries form a commutative monoid under Go's addition *)

Lemma summary_add_comm a b : controlstatus.add a b = controlstatus.add b a.
Proof. unfold controlstatus.add. f_equal; apply int_add_comm. Qed.

Lemma summary_add_assoc a b c :
  controlstatus.add (controlstatus.add a b) c =
  controlstatus.add a (controlstatus.add b c).
Proof. unfold controlstatus.add. simpl. f_equal; apply int_add_assoc. Qed.

Lemma summary_add_zero_l a :
  valid_summary a -> controlstatus.add controlstatus.zero a = a.
Proof.
  intros (?&?&?&?&?). destruct a; unfold controlstatus.add; simpl in *.
  f_equal; by apply int_add_0_l.
Qed.

Lemma summary_add_valid a b : valid_summary (controlstatus.add a b).
Proof. repeat split; apply int_add_in_int. Qed.

Lemma summary_zero_valid : valid_summary controlstatus.zero.
Proof. repeat split; unfold in_int, int_min, int_max; simpl; lia. Qed.

Lemma summary_sum_valid l : valid_summary (controlstatus.sum l).
Proof.
  destruct l; simpl; [apply summary_zero_valid | apply summary_add_valid].
Qed.

Lemma summary_sum_cons a l :
  controlstatus.sum (a :: l) = controlstatus.add a (controlstatus.sum l).
Proof. reflexivity. Qed.

(** Raising one summand by [s] raises the sum by [s]. *)
Lemma summary_sum_bump `{EqDecision A} (f f' : A -> StatusSummary) (s : StatusSummary)
    (x : A) (l : list A) :
  NoDup l -> x ∈ l ->
  f' x = controlstatus.add (f x) s ->
  (forall y, y ∈ l -> y <> x -> f' y = f y) ->
  controlstatus.sum (f' <$> l) = controlstatus.add (controlstatus.sum (f <$> l)) s.
Proof.
  induction l as [|a l IH]; intros Hnd Hin Hx Hother.
  - by apply elem_of_nil in Hin.
  - apply NoDup_cons in Hnd as [Hna Hnd].
    rewrite !fmap_cons, !summary_sum_cons.
    destruct (decide (a = x)) as [->|Hne].
    + rewrite Hx.
      assert (f' <$> l = f <$> l) as ->.
      { apply list_fmap_ext. intros i y Hy. apply Hother.
        - right. by eapply list_elem_of_lookup_2.
        - intros ->. apply Hna. by eapply list_elem_of_lookup_2. }
      rewrite !summary_add_assoc. f_equal. apply summary_add_comm.
    + rewrite (Hother a); [|left|done].
      apply elem_of_cons in Hin as [->|Hin]; [done|].
      rewrite IH; [|done..|].
      * by rewrite summary_add_assoc.
      * intros y Hy Hyx. apply Hother; [by right|done].
Qed.

Lemma summary_sum_same {A} (f f' : A -> StatusSummary) (l : list A) :
  (forall y, y ∈ l -> f' y = f y) ->
  controlstatus.sum (f' <$> l) = controlstatus.sum (f <$> l).
Proof.
  intros H. f_equal. apply list_fmap_ext. intros i y Hy.
  apply H. by eapply list_elem_of_lookup_2.
Qed.

(** ** Heap primitives *)

Lemma modifyGroup_alter l f w g :
  groups w !! l = Some g ->
  modifyGroup l f w =
    Some (tt, mkWorld (alter f l (groups w)) (runs w) (held w) (trace w)).
Proof.
  intros Hl. unfold modifyGroup, bind, getGroup, setGroup. rewrite Hl.
  do 3 f_equal. apply list_eq. intros j.
  destruct (decide (l = j)) as [<-|Hne].
  - rewrite list_lookup_alter_eq, Hl.
    apply list_lookup_insert_eq. by eapply lookup_lt_Some.
  - by rewrite list_lookup_insert_ne, list_lookup_alter_ne.
Qed.

Lemma alter_id_at {A} (f : A -> A) (l : list A) i :
  (forall x, l !! i = Some x -> f x = x) -> alter f i l = l.
Proof.
  intros H. apply list_eq. intros j. destruct (decide (i = j)) as [<-|Hne].
  - rewrite list_lookup_alter_eq. destruct (l !! i) eqn:E; simpl; [|done].
    by rewrite H.
  - by rewrite list_lookup_alter_ne.
Qed.

(** ** The chain of ancestors *)

Lemma ancestors_fuel_enough h fuel1 fuel2 l :
  parents_below h -> l < fuel1 -> l < fuel2 ->
  ancestors_fuel fuel1 h l = ancestors_fuel fuel2 h l.
Proof.
  intros Hpb. revert fuel1 fuel2.
  induction (lt_wf l) as [l _ IH]. intros [|f1] [|f2] H1 H2; try lia.
  simpl. destruct (h !! l) as [g|] eqn:Hl; [|done].
  destruct (Parent g) as [p|] eqn:Hp; [|done].
  f_equal. pose proof (Hpb _ _ _ Hl Hp). apply IH; lia.
Qed.

Lemma ancestors_unfold h l g :
  parents_below h -> h !! l = Some g ->
  ancestors h l = l :: match Parent g with
                       | Some p => ancestors h p
                       | None => []
                       end.
Proof.
  intros Hpb Hl. unfold ancestors.
  pose proof (lookup_lt_Some _ _ _ Hl) as Hlt.
  rewrite (ancestors_fuel_enough h (length h) (S l) l) by (done || lia).
  simpl. rewrite Hl. f_equal.
  destruct (Parent g) as [p|] eqn:Hp; [|done].
  pose proof (Hpb _ _ _ Hl Hp). apply ancestors_fuel_enough; [done|lia..].
Qed.

Lemma ancestors_unallocated h l : h !! l = None -> ancestors h l = [].
Proof.
  intros Hl. unfold ancestors. destruct (length h); simpl; [done|].
  by rewrite Hl.
Qed.

Lemma ancestors_le h l x : parents_below h -> x ∈ ancestors h l -> x <= l.
Proof.
  intros Hpb. induction (lt_wf l) as [l _ IH]. intros Hx.
  destruct (h !! l) as [g|] eqn:Hl.
  - rewrite (ancestors_unfold h l g) in Hx by done.
    apply elem_of_cons in Hx as [->|Hx]; [lia|].
    destruct (Parent g) as [p|] eqn:Hp; [|by apply elem_of_nil in Hx].
    pose proof (Hpb _ _ _ Hl Hp). apply IH in Hx; lia.
  - rewrite ancestors_unallocated in Hx by done. by apply elem_of_nil in Hx.
Qed.

Lemma ancestors_allocated h l x :
  parents_below h -> x ∈ ancestors h l -> is_Some (h !! x).
Proof.
  intros Hpb. induction (lt_wf l) as [l _ IH]. intros Hx.
  destruct (h !! l) as [g|] eqn:Hl.
  - rewrite (ancestors_unfold h l g) in Hx by done.
    apply elem_of_cons in Hx as [->|Hx]; [by eexists|].
    destruct (Parent g) as [p|] eqn:Hp; [|by apply elem_of_nil in Hx].
    pose proof (Hpb _ _ _ Hl Hp). apply (IH p); [lia|done].
  - rewrite ancestors_unallocated in Hx by done. by apply elem_of_nil in Hx.
Qed.

Lemma ancestors_self h l : is_Some (h !! l) -> l ∈ ancestors h l.
Proof.
  intros [g Hl]. unfold ancestors.
  pose proof (lookup_lt_Some _ _ _ Hl).
  destruct (length h); [lia|]. simpl. rewrite Hl. left.
Qed.

Lemma ancestors_NoDup h l : parents_below h -> NoDup (ancestors h l).
Proof.
  intros Hpb. induction (lt_wf l) as [l _ IH].
  destruct (h !! l) as [g|] eqn:Hl.
  - rewrite (ancestors_unfold h l g) by done. apply NoDup_cons. split.
    + destruct (Parent g) as [p|] eqn:Hp; [|apply not_elem_of_nil].
      intros Hin. apply ancestors_le in Hin; [|done].
      pose proof (Hpb _ _ _ Hl Hp). lia.
    + destruct (Parent g) as [p|] eqn:Hp; [|apply NoDup_nil_2].
      apply IH. by eapply Hpb.
  - rewrite ancestors_unallocated by done. apply NoDup_nil_2.
Qed.

(** The chain only reads the [Parent] fields at or below its start. *)
Lemma ancestors_ext h h' l :
  parents_below h -> length h' = length h ->
  (forall i, i <= l -> Parent <$> h' !! i = Parent <$> h !! i) ->
  ancestors h' l = ancestors h l.
Proof.
  intros Hpb Hlen. unfold ancestors. rewrite Hlen.
  generalize (length h) as fuel. intros fuel. revert l.
  induction fuel as [|fuel IH]; intros l Hagree; [done|].
  simpl. pose proof (Hagree l (le_n _)) as Hl.
  destruct (h !! l) as [g|] eqn:E, (h' !! l) as [g'|] eqn:E'; simplify_eq/=;
    [|done].
  rewrite Hl. f_equal. destruct (Parent g) as [p|] eqn:Hp; [|done].
  apply IH. intros i Hi. apply Hagree. pose proof (Hpb _ _ _ E Hp). lia.
Qed.

(** ** The common shape of the aggregation methods *)

Lemma alter_chain_lookup_in f chain h i :
  NoDup chain -> i ∈ chain -> alter_chain f chain h !! i = f <$> h !! i.
Proof.
  induction chain as [|x chain IH]; intros Hnd Hin.
  - by apply elem_of_nil in Hin.
  - apply NoDup_cons in Hnd as [Hx Hnd]. simpl.
    destruct (decide (x = i)) as [->|Hne].
    + rewrite list_lookup_alter_eq. f_equal.
      clear IH Hnd Hin. induction chain as [|y chain IH]; [done|].
      simpl. apply not_elem_of_cons in Hx as [? ?].
      rewrite list_lookup_alter_ne by done. by apply IH.
    + rewrite list_lookup_alter_ne by done.
      apply elem_of_cons in Hin as [->|Hin]; [done|]. by apply IH.
Qed.

Lemma alter_chain_lookup_out f chain h i :
  i ∉ chain -> alter_chain f chain h !! i = h !! i.
Proof.
  induction chain as [|x chain IH]; intros Hin; [done|].
  apply not_elem_of_cons in Hin as [? ?]. simpl.
  rewrite list_lookup_alter_ne by done. by apply IH.
Qed.

Lemma alter_chain_lookup f chain h i :
  NoDup chain ->
  alter_chain f chain h !! i =
    if decide (i ∈ chain) then f <$> h !! i else h !! i.
Proof.
  intros. case_decide.
  - by apply alter_chain_lookup_in.
  - by apply alter_chain_lookup_out.
Qed.

Lemma length_alter_chain f chain h :
  length (alter_chain f chain h) = length h.
Proof.
  induction chain as [|x chain IH]; [done|]. simpl. by rewrite length_alter.
Qed.

Lemma alter_chain_commute f g chain h l :
  l ∉ chain ->
  alter_chain f chain (alter g l h) = alter g l (alter_chain f chain h).
Proof.
  induction chain as [|x chain IH]; intros Hl; [done|].
  apply not_elem_of_cons in Hl as [? ?]. simpl.
  rewrite IH by done. by apply list_alter_alter_ne.
Qed.

Lemma parents_below_alter f l h :
  (forall g, Parent (f g) = Parent g) ->
  parents_below h -> parents_below (alter f l h).
Proof.
  intros Hf Hpb i g p Hi Hp.
  destruct (decide (l = i)) as [->|Hne].
  - rewrite list_lookup_alter_eq in Hi.
    destruct (h !! i) as [g0|] eqn:E; simplify_eq/=.
    rewrite Hf in Hp. by eapply Hpb.
  - rewrite list_lookup_alter_ne in Hi by done. by eapply Hpb.
Qed.

Lemma ancestors_alter f l h x :
  (forall g, Parent (f g) = Parent g) ->
  parents_below h ->
  ancestors (alter f l h) x = ancestors h x.
Proof.
  intros Hf Hpb. apply ancestors_ext; [done|apply length_alter|].
  intros i _. destruct (decide (l = i)) as [->|Hne].
  - rewrite list_lookup_alter_eq. destruct (h !! i); simpl; [|done].
    by rewrite Hf.
  - by rewrite list_lookup_alter_ne.
Qed.

Lemma filter_ne_id (held : list loc) l :
  l ∉ held -> filter (λ x, x ≠ l) held = held.
Proof.
  induction held as [|y held IH]; intros Hl; [done|].
  apply not_elem_of_cons in Hl as [? ?].
  rewrite filter_cons_True by done. f_equal. by apply IH.
Qed.

Lemma upward_fuel_spec pre post fuel l w :
  (forall g, Parent (pre g) = Parent g) ->
  parents_below (groups w) ->
  l < length (groups w) ->
  (forall x, x ∈ ancestors (groups w) l -> x ∉ held w) ->
  l < fuel ->
  upward_fuel pre post fuel l w =
    Some (tt, mkWorld
                (alter_chain (post ∘ pre) (ancestors (groups w) l) (groups w))
                (runs w) (held w)
                (trace w ++ (EvLock <$> ancestors (groups w) l)
                         ++ (EvUnlock <$> reverse (ancestors (groups w) l)))).
Proof.
  intros Hpre. revert fuel w.
  induction (lt_wf l) as [l _ IH]. intros fuel w Hpb Hl Hheld Hfuel.
  destruct fuel as [|fuel]; [lia|].
  destruct (lookup_lt_is_Some_2 _ _ Hl) as [g Hg].
  assert (l ∉ held w) as Hlh.
  { apply Hheld. apply ancestors_self. by eexists. }
  simpl. unfold bind at 1. unfold Lock.
  rewrite bool_decide_eq_false_2 by done.
  unfold bind at 1.
  rewrite (modifyGroup_alter _ _ _ g) by done.
  unfold bind at 1. unfold bind at 1. unfold getGroup at 1. simpl.
  rewrite list_lookup_alter_eq, Hg. simpl. rewrite Hpre.
  rewrite (ancestors_unfold _ _ _ Hpb Hg).
  destruct (Parent g) as [p|] eqn:Hp.
  - pose proof (Hpb _ _ _ Hg Hp) as Hpl.
    rewrite IH; simpl.
    + rewrite ancestors_alter by done.
      unfold bind at 1.
      assert (l ∉ ancestors (groups w) p) as Hlp.
      { intros Hin. apply ancestors_le in Hin; [lia|done]. }
      erewrite modifyGroup_alter; simpl.
      2:{ rewrite alter_chain_lookup_out by done.
          rewrite list_lookup_alter_eq, Hg. done. }
      unfold Unlock. simpl.
      rewrite bool_decide_eq_true_2 by left.
      do 3 f_equal.
      * rewrite alter_chain_commute by done.
        by rewrite list_alter_alter_eq.
      * rewrite filter_cons_False by naive_solver.
        by apply filter_ne_id.
      * rewrite reverse_cons, fmap_app. simpl.
        by rewrite <-!(assoc_L (++)).
    + lia.
    + simpl. by apply parents_below_alter.
    + simpl. rewrite length_alter. lia.
    + simpl. rewrite ancestors_alter by done. intros x Hx.
      apply not_elem_of_cons. split.
      * apply ancestors_le in Hx; [lia|done].
      * apply Hheld. rewrite (ancestors_unfold _ _ _ Hpb Hg), Hp. by right.
    + lia.
  - unfold ret. simpl. unfold bind at 1.
    erewrite modifyGroup_alter; simpl.
    2:{ rewrite list_lookup_alter_eq, Hg. done. }
    unfold Unlock. simpl. rewrite bool_decide_eq_true_2 by left.
    do 3 f_equal.
    * by rewrite list_alter_alter_eq.
    * rewrite filter_cons_False by naive_solver.
      by apply filter_ne_id.
    * by rewrite <-!(assoc_L (++)).
Qed.

Lemma modifyGroup_id l w :
  l < length (groups w) -> modifyGroup l id w = Some (tt, w).
Proof.
  intros Hl. destruct (lookup_lt_is_Some_2 _ _ Hl) as [g Hg].
  rewrite (modifyGroup_alter _ _ _ g) by done.
  rewrite list_alter_id by done. by destruct w.
Qed.

Lemma modifyGroup_length l f w w' :
  modifyGroup l f w = Some (tt, w') ->
  length (groups w') = length (groups w) /\ l < length (groups w).
Proof.
  unfold modifyGroup, bind, getGroup, setGroup.
  destruct (groups w !! l) as [g|] eqn:Hg; [|done]. intros [= <-]. simpl.
  rewrite length_insert. split; [done|]. by eapply lookup_lt_Some.
Qed.

Lemma modifyGroup_compose l f g w :
  (modifyGroup l f ;;; modifyGroup l g) w = modifyGroup l (g ∘ f) w.
Proof.
  unfold modifyGroup, bind, getGroup, setGroup. simpl.
  destruct (groups w !! l) as [x|] eqn:Hx; [|done]. simpl.
  rewrite list_lookup_insert_eq by (by eapply lookup_lt_Some).
  simpl. by rewrite list_insert_insert_eq.
Qed.

Lemma upward_fuel_length pre post fuel r w w' :
  upward_fuel pre post fuel r w = Some (tt, w') ->
  length (groups w') = length (groups w).
Proof.
  revert r w w'. induction fuel as [|fuel IH]; intros r w w'; [done|].
  simpl. unfold bind at 1. unfold Lock.
  case_bool_decide; [done|].
  unfold bind at 1.
  destruct (modifyGroup r pre _) as [[[] w1]|] eqn:H1; [|done].
  apply modifyGroup_length in H1 as [H1 _]. simpl in H1.
  unfold bind at 1. unfold bind at 1. unfold getGroup at 1.
  destruct (groups w1 !! r) as [g|] eqn:Hg; [|done].
  destruct (Parent g) as [p|].
  - destruct (upward_fuel pre post fuel p w1) as [[[] w2]|] eqn:H2; [|done].
    apply IH in H2. unfold bind at 1.
    destruct (modifyGroup r post w2) as [[[] w3]|] eqn:H3; [|done].
    apply modifyGroup_length in H3 as [H3 _].
    unfold Unlock. case_bool_decide; [|done]. intros [= <-]. simpl.
    congruence.
  - unfold ret, bind at 1.
    destruct (modifyGroup r post w1) as [[[] w3]|] eqn:H3; [|done].
    apply modifyGroup_length in H3 as [H3 _].
    unfold Unlock. case_bool_decide; [|done]. intros [= <-]. simpl.
    congruence.
Qed.

Lemma bind_cong_r {S A B} (m : ST S A) (k1 k2 : A -> ST S B) s :
  (forall a s', m s = Some (a, s') -> k1 a s' = k2 a s') ->
  bind m k1 s = bind m k2 s.
Proof. intros H. unfold bind. destruct (m s) as [[a s']|]; [|done]. by apply H. Qed.

Lemma getGroup_Some l w g w' :
  getGroup l w = Some (g, w') -> w' = w /\ groups w !! l = Some g.
Proof.
  unfold getGroup. destruct (groups w !! l); [|done]. by intros [= <- <-].
Qed.

Lemma Lock_groups l w w' :
  Lock l w = Some (tt, w') -> groups w' = groups w.
Proof. unfold Lock. case_bool_decide; [done|]. by intros [= <-]. Qed.

(** After the walk up from the parent the receiver is still allocated, so
    a method without a second mutation is the common shape with the
    identity as second mutation. *)
Lemma upward_tail_id pre fuel r (rec : loc -> M unit) w1 :
  r < length (groups w1) ->
  (forall p, rec p w1 = upward_fuel pre id fuel p w1) ->
  ((let* g := getGroup r in
    match Parent g with
    | Some parent => rec parent
    | None => ret tt
    end) ;;; Unlock r) w1 =
  ((let* g := getGroup r in
    match Parent g with
    | Some parent => upward_fuel pre id fuel parent
    | None => ret tt
    end) ;;; modifyGroup r id ;;; Unlock r) w1.
Proof.
  intros Hr Hrec. unfold bind.
  destruct (getGroup r w1) as [[g w1']|] eqn:Hg; [|done].
  apply getGroup_Some in Hg as [-> Hg].
  destruct (Parent g) as [p|].
  - rewrite Hrec.
    destruct (upward_fuel pre id fuel p w1) as [[[] w2]|] eqn:H2; [|done].
    apply upward_fuel_length in H2.
    rewrite modifyGroup_id; [done|lia].
  - unfold ret. rewrite modifyGroup_id; [done|lia].
Qed.

Lemma updateSummary_upward fuel r summary w :
  updateSummary_fuel fuel r summary w =
  upward_fuel (add_status summary) id fuel r w.
Proof.
  revert r w. induction fuel as [|fuel IH]; intros r w; [done|].
  simpl. apply bind_cong_r. intros [] w0 H0. apply Lock_groups in H0.
  apply bind_cong_r. intros [] w1 H1.
  apply modifyGroup_length in H1 as [H1 Hr].
  apply (upward_tail_id _ _ _ (fun p => updateSummary_fuel fuel p summary));
    [lia|]. intros p. apply IH.
Qed.

Lemma bind_assoc {S A B C} (m : ST S A) (k : A -> ST S B) (k' : B -> ST S C) s :
  bind (bind m k) k' s = bind m (fun a => bind (k a) k') s.
Proof. unfold bind. by destruct (m s) as [[a s']|]. Qed.

Lemma updateSeverityCounts_upward fuel r severity summary w :
  updateSeverityCounts_fuel fuel r severity summary w =
  upward_fuel (set_severity severity summary) id fuel r w.
Proof.
  revert r w. induction fuel as [|fuel IH]; intros r w; [done|].
  simpl. apply bind_cong_r. intros [] w0 H0.
  rewrite bind_assoc.
  unfold modifyGroup. rewrite (bind_assoc (getGroup r)).
  apply bind_cong_r. intros g w0' Hg.
  apply getGroup_Some in Hg as [-> Hg].
  change (setGroup r (with_Summary _ g)) with
    (setGroup r (set_severity severity summary g)).
  rewrite bind_assoc.
  apply bind_cong_r. intros [] w1 H1.
  assert (groups w1 !! r = Some (set_severity severity summary g) /\
          r < length (groups w1)) as [Hg1 Hr].
  { unfold setGroup in H1. injection H1 as <-. simpl.
    pose proof (lookup_lt_Some _ _ _ Hg).
    rewrite length_insert, list_lookup_insert_eq; done. }
  transitivity
    (((let* g := getGroup r in
       match Parent g with
       | Some parent => updateSeverityCounts_fuel fuel parent severity summary
       | None => ret tt
       end) ;;; Unlock r) w1).
  { unfold bind, getGroup. by rewrite Hg1. }
  apply (upward_tail_id _ _ _
           (fun p => updateSeverityCounts_fuel fuel p severity summary));
    [lia|]. intros p. apply IH.
Qed.

Lemma addDimensionKeys_upward fuel r keys w :
  addDimensionKeys_fuel fuel r keys w =
  upward_fuel
    (fun g => with_DimensionKeys (DimensionKeys g ++ keys) g)
    (fun g => with_DimensionKeys
                (sort.Strings (utils.StringSliceDistinct (DimensionKeys g))) g)
    fuel r w.
Proof.
  revert r w. induction fuel as [|fuel IH]; intros r w; [done|].
  simpl. apply bind_cong_r. intros [] w0 H0.
  apply bind_cong_r. intros [] w1 H1.
  unfold bind at 1 5.
  assert ((let* g := getGroup r in
           match Parent g with
           | Some parent => addDimensionKeys_fuel fuel parent keys
           | None => ret tt
           end) w1 =
          (let* g := getGroup r in
           match Parent g with
           | Some parent =>
               upward_fuel
                 (fun g => with_DimensionKeys (DimensionKeys g ++ keys) g)
                 (fun g => with_DimensionKeys
                             (sort.Strings
                                (utils.StringSliceDistinct (DimensionKeys g))) g)
                 fuel parent
           | None => ret tt
           end) w1) as ->.
  { apply bind_cong_r. intros g ? _. destruct (Parent g); [apply IH|done]. }
  match goal with |- match ?m with _ => _ end = _ =>
    destruct m as [[[] w2]|]; [|done] end.
  rewrite <-bind_assoc. unfold bind at 1 3.
  by rewrite modifyGroup_compose.
Qed.

(** ** Rounding a duration to the millisecond *)

Lemma wrap_int_over z :
  (int_max < z <= int_max + 2 ^ 64)%Z -> wrap_int z = (z - 2 ^ 64)%Z.
Proof.
  unfold wrap_int, int_max. intros H.
  replace (z + 2 ^ 63)%Z with ((z - 2 ^ 64 + 2 ^ 63) + 1 * 2 ^ 64)%Z by lia.
  rewrite Z_mod_plus_full, Z.mod_small; lia.
Qed.

Lemma wrap_int_under z :
  (int_min - 2 ^ 64 <= z < int_min)%Z -> wrap_int z = (z + 2 ^ 64)%Z.
Proof.
  unfold wrap_int, int_min. intros H.
  replace (z + 2 ^ 63)%Z with ((z + 2 ^ 64 + 2 ^ 63) + (-1) * 2 ^ 64)%Z by lia.
  rewrite Z_mod_plus_full, Z.mod_small; lia.
Qed.

Lemma lessThanHalf_small x :
  (0 <= x < time.Millisecond)%Z ->
  time.lessThanHalf x time.Millisecond = bool_decide (2 * x < time.Millisecond)%Z.
Proof.
  unfold time.lessThanHalf, time.uint64, time.Millisecond. intros H.
  rewrite (Z.mod_small x), (Z.mod_small (x + x)), (Z.mod_small 1000000) by lia.
  case_bool_decide; [apply Z.ltb_lt | apply Z.ltb_ge]; lia.
Qed.

(** A multiple of a millisecond is left as it is. *)
Lemma Round_multiple k :
  in_int k -> Z.rem k time.Millisecond = 0%Z ->
  time.Round k time.Millisecond = k.
Proof.
  intros Hk Hr. unfold time.Round. rewrite Hr.
  change (time.Millisecond <=? 0)%Z with false. cbv iota.
  change (int_sub 0 0) with 0%Z.
  change (time.lessThanHalf 0 time.Millisecond) with true. cbv iota.
  destruct (k <? 0)%Z.
  - unfold int_add. rewrite Z.add_0_r. by apply wrap_int_id.
  - unfold int_sub. rewrite Z.sub_0_r. by apply wrap_int_id.
Qed.

Lemma Round_range d :
  in_int d ->
  let R := time.Round d time.Millisecond in
  in_int R /\
  (Z.rem R time.Millisecond = 0%Z \/ R = time.maxDuration \/ R = time.minDuration).
Proof.
  intros Hd. unfold time.Round.
  change (time.Millisecond <=? 0)%Z with false. cbv iota zeta.
  assert (time.Millisecond = 1000000%Z) as Hms by reflexivity.
  pose proof (Z.quot_rem d time.Millisecond ltac:(by rewrite Hms)) as Hqr.
  assert (d < 0 -> - time.Millisecond < Z.rem d time.Millisecond <= 0)%Z as Hbn.
  { intros Hneg.
    pose proof (Z.rem_bound_pos (- d) time.Millisecond ltac:(lia)
                  ltac:(by rewrite Hms)) as Hb.
    rewrite Z.rem_opp_l in Hb by (by rewrite Hms). lia. }
  pose proof (Z.rem_bound_pos d time.Millisecond) as Hbp.
  remember (d ÷ time.Millisecond)%Z as q eqn:Hq.
  remember (Z.rem d time.Millisecond) as r0 eqn:Hr0'.
  clear Hq Hr0'.
  assert (in_int time.maxDuration /\ in_int time.minDuration) as [Hmax Hmin].
  { unfold in_int, time.maxDuration, time.minDuration, int_max, int_min. lia. }
  unfold in_int, int_min, int_max in Hd.
  destruct (Z.ltb_spec d 0) as [Hneg|Hpos].
  - assert (- time.Millisecond < r0 <= 0)%Z as Hr0 by lia.
    assert (int_sub 0 r0 = (- r0)%Z) as ->.
    { unfold int_sub. rewrite wrap_int_id; [lia|].
      unfold in_int, int_min, int_max. lia. }
    rewrite lessThanHalf_small by lia. case_bool_decide.
    + assert (int_add d (- r0) = (time.Millisecond * q)%Z) as ->.
      { unfold int_add. rewrite wrap_int_id; [lia|].
        unfold in_int, int_min, int_max. lia. }
      split.
      * unfold in_int, int_min, int_max. lia.
      * left. rewrite Z.mul_comm. apply Z.rem_mul. by rewrite Hms.
    + assert (int_add (int_sub d time.Millisecond) (- r0) =
              wrap_int (time.Millisecond * (q - 1))) as ->.
      { unfold int_add, int_sub. rewrite wrap_int_add_l. f_equal. lia. }
      destruct (decide (int_min <= time.Millisecond * (q - 1))%Z) as [Hin|Hout].
      * rewrite wrap_int_id by (unfold in_int, int_min, int_max in *; lia).
        destruct (Z.ltb_spec (time.Millisecond * (q - 1)) d); [|lia].
        split; [unfold in_int, int_min, int_max in *; lia|].
        left. rewrite Z.mul_comm. apply Z.rem_mul. by rewrite Hms.
      * rewrite wrap_int_under by (unfold int_min in *; lia).
        destruct (Z.ltb_spec (time.Millisecond * (q - 1) + 2 ^ 64) d);
          [unfold int_min in *; lia|].
        split; [done|]. by right; right.
  - assert (0 <= r0 < time.Millisecond)%Z as Hr0 by lia.
    rewrite lessThanHalf_small by lia. case_bool_decide.
    + assert (int_sub d r0 = (time.Millisecond * q)%Z) as ->.
      { unfold int_sub. rewrite wrap_int_id; [lia|].
        unfold in_int, int_min, int_max. lia. }
      split.
      * unfold in_int, int_min, int_max. lia.
      * left. rewrite Z.mul_comm. apply Z.rem_mul. by rewrite Hms.
    + assert (int_sub (int_add d time.Millisecond) r0 =
              wrap_int (time.Millisecond * (q + 1))) as ->.
      { unfold int_add, int_sub.
        replace (wrap_int (d + time.Millisecond) - r0)%Z
          with (wrap_int (d + time.Millisecond) + - r0)%Z by lia.
        rewrite wrap_int_add_l. f_equal. lia. }
      destruct (decide (time.Millisecond * (q + 1) <= int_max)%Z) as [Hin|Hout].
      * rewrite wrap_int_id by (unfold in_int, int_min, int_max in *; lia).
        destruct (Z.ltb_spec d (time.Millisecond * (q + 1))); [|lia].
        split; [unfold in_int, int_min, int_max in *; lia|].
        left. rewrite Z.mul_comm. apply Z.rem_mul. by rewrite Hms.
      * rewrite wrap_int_over by (unfold int_max in *; lia).
        destruct (Z.ltb_spec d (time.Millisecond * (q + 1) - 2 ^ 64));
          [unfold int_max in *; lia|].
        split; [done|]. by right; left.
Qed.

Lemma Round_in_int d : in_int d -> in_int (time.Round d time.Millisecond).
Proof. intros Hd. by destruct (Round_range d Hd). Qed.

(** Rounding again changes nothing. *)
Lemma Round_idempotent d :
  in_int d ->
  time.Round (time.Round d time.Millisecond) time.Millisecond =
  time.Round d time.Millisecond.
Proof.
  intros Hd. destruct (Round_range d Hd) as [Hin [Hm|[->| ->]]].
  - by apply Round_multiple.
  - by vm_compute.
  - by vm_compute.
Qed.

Lemma addDuration_upward fuel r d w :
  in_int d ->
  addDuration_fuel fuel r d w =
  upward_fuel (add_duration (time.Round d time.Millisecond)) id fuel r w.
Proof.
  revert r d w. induction fuel as [|fuel IH]; intros r d w Hd; [done|].
  simpl. apply bind_cong_r. intros [] w0 H0.
  apply bind_cong_r. intros [] w1 H1.
  apply modifyGroup_length in H1 as [H1 Hr].
  apply (upward_tail_id _ _ _
           (fun p => addDuration_fuel fuel p (time.Round d time.Millisecond)));
    [lia|]. intros p. rewrite IH by by apply Round_in_int.
  by rewrite Round_idempotent.
Qed.

(** ** What each aggregation method does *)

Lemma upward_spec pre post l w :
  (forall g, Parent (pre g) = Parent g) ->
  parents_below (groups w) ->
  l < length (groups w) ->
  held w = [] ->
  upward_fuel pre post (length (groups w)) l w =
    Some (tt, after_chain (post ∘ pre) l w).
Proof.
  intros Hpre Hpb Hl Hheld. rewrite upward_fuel_spec; try done.
  intros x _. rewrite Hheld. apply not_elem_of_nil.
Qed.

Lemma updateSummary_spec l summary w :
  parents_below (groups w) -> l < length (groups w) -> held w = [] ->
  updateSummary l summary w = Some (tt, after_chain (add_status summary) l w).
Proof.
  intros. unfold updateSummary. rewrite updateSummary_upward.
  by rewrite upward_spec.
Qed.

Lemma updateSeverityCounts_spec l severity summary w :
  parents_below (groups w) -> l < length (groups w) -> held w = [] ->
  updateSeverityCounts l severity summary w =
    Some (tt, after_chain (set_severity severity summary) l w).
Proof.
  intros. unfold updateSeverityCounts. rewrite updateSeverityCounts_upward.
  by rewrite upward_spec.
Qed.

Lemma addDuration_spec l d w :
  in_int d ->
  parents_below (groups w) -> l < length (groups w) -> held w = [] ->
  addDuration l d w =
    Some (tt, after_chain (add_duration (time.Round d time.Millisecond)) l w).
Proof.
  intros. unfold addDuration. rewrite addDuration_upward by done.
  by rewrite upward_spec.
Qed.

Lemma addDimensionKeys_spec l keys w :
  parents_below (groups w) -> l < length (groups w) -> held w = [] ->
  addDimensionKeys l keys w = Some (tt, after_chain (add_keys keys) l w).
Proof.
  intros. unfold addDimensionKeys. rewrite addDimensionKeys_upward.
  by rewrite upward_spec.
Qed.

Lemma add_status_shape s : shape_preserving (add_status s).
Proof. done. Qed.
Lemma set_severity_shape sev s : shape_preserving (set_severity sev s).
Proof. done. Qed.
Lemma add_duration_shape d : shape_preserving (add_duration d).
Proof. done. Qed.
Lemma add_keys_shape keys : shape_preserving (add_keys keys).
Proof. done. Qed.

Lemma alter_chain_parents_below f chain h :
  shape_preserving f -> parents_below h -> parents_below (alter_chain f chain h).
Proof.
  intros Hf Hpb. induction chain as [|x chain IH]; [done|]. simpl.
  apply parents_below_alter; [|done]. intros g. apply Hf.
Qed.

Lemma alter_chain_ancestors f chain h x :
  shape_preserving f -> parents_below h ->
  ancestors (alter_chain f chain h) x = ancestors h x.
Proof.
  intros Hf Hpb. induction chain as [|y chain IH]; [done|]. simpl.
  rewrite ancestors_alter; [done|intros g; apply Hf|].
  by apply alter_chain_parents_below.
Qed.

Lemma after_chain_lookup f l w i :
  parents_below (groups w) ->
  groups (after_chain f l w) !! i =
    if decide (i ∈ ancestors (groups w) l) then f <$> groups w !! i
    else groups w !! i.
Proof. intros Hpb. apply alter_chain_lookup. by apply ancestors_NoDup. Qed.

Lemma after_chain_parents_below f l w :
  shape_preserving f -> parents_below (groups w) ->
  parents_below (groups (after_chain f l w)).
Proof. intros. by apply alter_chain_parents_below. Qed.

Lemma after_chain_ancestors f l w x :
  shape_preserving f -> parents_below (groups w) ->
  ancestors (groups (after_chain f l w)) x = ancestors (groups w) x.
Proof. intros. by apply alter_chain_ancestors. Qed.

Lemma after_chain_length f l w :
  length (groups (after_chain f l w)) = length (groups w).
Proof. apply length_alter_chain. Qed.

Lemma same_shape_refl w : same_shape w w.
Proof. by split. Qed.

Lemma same_shape_trans w1 w2 w3 :
  same_shape w1 w2 -> same_shape w2 w3 -> same_shape w1 w3.
Proof.
  intros [H1 H2 H3] [H1' H2' H3']. split; intros; congruence.
Qed.

Lemma same_shape_group w w' i g' :
  same_shape w w' -> groups w' !! i = Some g' ->
  exists g, groups w !! i = Some g /\ Parent g = Parent g' /\
            Groups g = Groups g' /\ ControlRuns g = ControlRuns g'.
Proof.
  intros [H _ _] Hg'. specialize (H i). rewrite Hg' in H.
  destruct (groups w !! i) as [g|]; simplify_eq/=. by exists g.
Qed.

Lemma same_shape_group_inv w w' i g :
  same_shape w w' -> groups w !! i = Some g ->
  exists g', groups w' !! i = Some g' /\ Parent g = Parent g' /\
             Groups g = Groups g' /\ ControlRuns g = ControlRuns g'.
Proof.
  intros [H _ _] Hg. specialize (H i). rewrite Hg in H.
  destruct (groups w' !! i) as [g'|]; simplify_eq/=. by exists g'.
Qed.

Lemma same_shape_run w w' r c' :
  same_shape w w' -> runs w' !! r = Some c' ->
  exists c, runs w !! r = Some c /\ Group c = Group c'.
Proof.
  intros [_ H _] Hc'. specialize (H r). rewrite Hc' in H.
  destruct (runs w !! r) as [c|]; simplify_eq/=. by exists c.
Qed.

Lemma same_shape_run_inv w w' r c :
  same_shape w w' -> runs w !! r = Some c ->
  exists c', runs w' !! r = Some c' /\ Group c = Group c'.
Proof.
  intros [_ H _] Hc. specialize (H r). rewrite Hc in H.
  destruct (runs w' !! r) as [c'|]; simplify_eq/=. by exists c'.
Qed.

Lemma same_shape_wf w w' : same_shape w w' -> wf_tree w -> wf_tree w'.
Proof.
  intros Hss [Hch Hnd Hpar Hatt Hruns Hrnd Hrg Hul]. split.
  - intros i g' c Hg' Hc.
    destruct (same_shape_group _ _ _ _ Hss Hg') as (g & Hg & _ & HG & _).
    rewrite <-HG in Hc. destruct (Hch _ _ _ Hg Hc) as [Hlt (gc & Hgc & Hp)].
    split; [done|].
    destruct (same_shape_group_inv _ _ _ _ Hss Hgc) as (gc' & ? & ? & _).
    exists gc'. split; congruence.
  - intros i g' Hg'.
    destruct (same_shape_group _ _ _ _ Hss Hg') as (g & Hg & _ & HG & _).
    rewrite <-HG. by eapply Hnd.
  - intros i g' p Hg' Hp.
    destruct (same_shape_group _ _ _ _ Hss Hg') as (g & Hg & HP & _).
    eapply Hpar; [done|congruence].
  - intros i g' p gp' Hg' Hp Hgp' Hne.
    destruct (same_shape_group _ _ _ _ Hss Hg') as (g & Hg & HP & HG & HC).
    destruct (same_shape_group _ _ _ _ Hss Hgp') as (gp & Hgp & _ & HG' & _).
    rewrite <-HG'.
    apply (Hatt i g p gp Hg); [congruence|done|by rewrite HG, HC].
  - intros i g' r Hg' Hr.
    destruct (same_shape_group _ _ _ _ Hss Hg') as (g & Hg & _ & _ & HC).
    rewrite <-HC in Hr. destruct (Hruns _ _ _ Hg Hr) as (c & Hc & Hgc).
    destruct (same_shape_run_inv _ _ _ _ Hss Hc) as (c' & ? & ?).
    exists c'. split; congruence.
  - intros i g' Hg'.
    destruct (same_shape_group _ _ _ _ Hss Hg') as (g & Hg & _ & _ & HC).
    rewrite <-HC. by eapply Hrnd.
  - intros r c' Hc'.
    destruct (same_shape_run _ _ _ _ Hss Hc') as (c & Hc & HG).
    destruct (Hrg _ _ Hc) as (g & Hg & Hr).
    destruct (same_shape_group_inv _ _ _ _ Hss Hg) as (g' & ? & _ & _ & HC).
    exists g'. rewrite <-HG, <-HC. done.
  - destruct Hss as [_ _ ->]. done.
Qed.

Lemma wf_parents_below w : wf_tree w -> parents_below (groups w).
Proof. intros Hwf i g p. apply (wf_parent _ Hwf). Qed.

Lemma after_chain_same_shape f l w :
  shape_preserving f -> parents_below (groups w) ->
  same_shape w (after_chain f l w).
Proof.
  intros Hf Hpb. split; [|done..]. intros i.
  rewrite after_chain_lookup by done. case_decide; [|done].
  destruct (groups w !! i) as [g|]; [|done]. simpl.
  by destruct (Hf g) as (-> & -> & ->).
Qed.

Lemma same_shape_ancestors w w' l :
  same_shape w w' -> parents_below (groups w) ->
  ancestors (groups w') l = ancestors (groups w) l.
Proof.
  intros Hss Hpb. apply ancestors_ext; [done| |].
  - apply Nat.le_antisymm; apply Nat.nlt_ge; intros Hlt.
    + destruct (lookup_lt_is_Some_2 _ _ Hlt) as [g Hg].
      destruct (same_shape_group _ _ _ _ Hss Hg) as (g' & Hg' & _).
      apply lookup_lt_Some in Hg'. lia.
    + destruct (lookup_lt_is_Some_2 _ _ Hlt) as [g Hg].
      destruct (same_shape_group_inv _ _ _ _ Hss Hg) as (g' & Hg' & _).
      apply lookup_lt_Some in Hg'. lia.
  - intros i _. pose proof (ss_groups _ _ Hss i) as H.
    destruct (groups w' !! i), (groups w !! i); simplify_eq/=; congruence.
Qed.

(** ** Completion of a run *)

Lemma severity_step_groups c s w :
  parents_below (groups w) ->
  parents_below (groups (severity_step c s w)) /\
  length (groups (severity_step c s w)) = length (groups w) /\
  held (severity_step c s w) = held w /\
  runs (severity_step c s w) = runs w /\
  (forall x, ancestors (groups (severity_step c s w)) x = ancestors (groups w) x).
Proof.
  intros Hpb. unfold severity_step.
  destruct (String.eqb _ _); [done|].
  split; [by apply after_chain_parents_below|].
  split; [apply after_chain_length|].
  do 2 (split; [done|]). intros x. by apply after_chain_ancestors.
Qed.

Lemma complete_run_spec r c summary d keys w :
  wf_tree w -> runs w !! r = Some c -> in_int d ->
  complete_run r summary d keys w = Some (tt, completed r c summary d keys w).
Proof.
  intros Hwf Hc Hd.
  pose proof (wf_parents_below _ Hwf) as Hpb.
  destruct (wf_run_group _ Hwf _ _ Hc) as (g & Hg & _).
  pose proof (lookup_lt_Some _ _ _ Hg) as Hl.
  pose proof (wf_unlocked _ Hwf) as Hheld.
  unfold complete_run, completed.
  unfold bind at 1. unfold getRun. rewrite Hc.
  unfold bind at 1. unfold setRun at 1.
  set (w1 := mkWorld (groups w) _ (held w) (trace w)).
  unfold bind at 1. rewrite updateSummary_spec by done.
  set (w2 := after_chain (add_status summary) (Group c) w1).
  assert (parents_below (groups w2)) as Hpb2
    by by apply after_chain_parents_below.
  assert (length (groups w2) = length (groups w)) as Hlen2
    by (unfold w2; by rewrite after_chain_length).
  unfold bind at 1.
  assert ((if String.eqb (modconfig.ControlSeverity (Control c)) EmptyString
           then ret tt
           else updateSeverityCounts (Group c)
                  (modconfig.ControlSeverity (Control c)) summary) w2 =
          Some (tt, severity_step c summary w2)) as ->.
  { unfold severity_step. destruct (String.eqb _ _); [done|].
    apply updateSeverityCounts_spec; [done|lia|done]. }
  destruct (severity_step_groups c summary w2 Hpb2)
    as (Hpb3 & Hlen3 & Hheld3 & _ & _).
  set (w3 := severity_step c summary w2) in *.
  assert (held w3 = []) as Hheld3' by (rewrite Hheld3; exact Hheld).
  unfold bind at 1. rewrite addDuration_spec; [|done|done|lia|done].
  rewrite addDimensionKeys_spec; [done| | |done].
  - by apply after_chain_parents_below.
  - rewrite after_chain_length. lia.
Qed.

Lemma completed_same_shape r c summary d keys w :
  parents_below (groups w) -> runs w !! r = Some c ->
  same_shape w (completed r c summary d keys w).
Proof.
  intros Hpb Hc. unfold completed.
  set (w1 := mkWorld (groups w) _ (held w) (trace w)).
  assert (same_shape w w1) as H1.
  { split; [done| |done]. intros x. simpl.
    destruct (decide (r = x)) as [<-|Hne].
    - rewrite list_lookup_insert_eq by (by eapply lookup_lt_Some).
      by rewrite Hc.
    - by rewrite list_lookup_insert_ne. }
  set (w2 := after_chain (add_status summary) (Group c) w1).
  assert (same_shape w1 w2) as H2 by by apply after_chain_same_shape.
  assert (parents_below (groups w2)) as Hpb2
    by by apply after_chain_parents_below.
  assert (same_shape w2 (severity_step c summary w2)) as H3.
  { unfold severity_step. destruct (String.eqb _ _);
      [apply same_shape_refl|by apply after_chain_same_shape]. }
  destruct (severity_step_groups c summary w2 Hpb2) as (Hpb3 & _).
  set (w3 := severity_step c summary w2) in *.
  set (w4 := after_chain (add_duration _) (Group c) w3).
  assert (same_shape w3 w4) as H4 by by apply after_chain_same_shape.
  assert (parents_below (groups w4)) as Hpb4
    by by apply after_chain_parents_below.
  eapply same_shape_trans; [exact H1|].
  eapply same_shape_trans; [exact H2|].
  eapply same_shape_trans; [exact H3|].
  eapply same_shape_trans; [exact H4|].
  by apply after_chain_same_shape.
Qed.

Lemma completed_runs r c summary d keys w :
  runs (completed r c summary d keys w) =
  <[r := with_run_result summary RunComplete d keys c]> (runs w).
Proof.
  unfold completed. simpl. unfold severity_step.
  by destruct (String.eqb _ _).
Qed.

(** The fields of a group after a completion. *)
Lemma completed_group r c summary d keys w i g :
  parents_below (groups w) -> groups w !! i = Some g ->
  exists g',
    groups (completed r c summary d keys w) !! i = Some g' /\
    GroupSummary.Status (Summary g') =
      (if decide (i ∈ ancestors (groups w) (Group c))
       then controlstatus.add (GroupSummary.Status (Summary g)) summary
       else GroupSummary.Status (Summary g)) /\
    Duration g' =
      (if decide (i ∈ ancestors (groups w) (Group c))
       then int_add (Duration g) (time.Round d time.Millisecond)
       else Duration g) /\
    DimensionKeys g' =
      (if decide (i ∈ ancestors (groups w) (Group c))
       then sort.Strings (utils.StringSliceDistinct (DimensionKeys g ++ keys))
       else DimensionKeys g).
Proof.
  intros Hpb Hg. unfold completed.
  set (w1 := mkWorld (groups w) _ (held w) (trace w)).
  set (w2 := after_chain (add_status summary) (Group c) w1).
  assert (parents_below (groups w2)) as Hpb2
    by by apply after_chain_parents_below.
  destruct (severity_step_groups c summary w2 Hpb2)
    as (Hpb3 & _ & _ & _ & Hanc3).
  assert (forall x, ancestors (groups w2) x = ancestors (groups w) x) as Hanc2.
  { intros x. unfold w2. by rewrite after_chain_ancestors. }
  assert (exists g3,
             groups (severity_step c summary w2) !! i = Some g3 /\
             GroupSummary.Status (Summary g3) =
               (if decide (i ∈ ancestors (groups w) (Group c))
                then controlstatus.add (GroupSummary.Status (Summary g)) summary
                else GroupSummary.Status (Summary g)) /\
             Duration g3 = Duration g /\ DimensionKeys g3 = DimensionKeys g)
    as (g3 & Hg3 & HS3 & HD3 & HK3).
  { assert (groups w2 !! i =
            Some (if decide (i ∈ ancestors (groups w) (Group c))
                  then add_status summary g else g)) as Hg2.
    { unfold w2. rewrite after_chain_lookup by done. simpl. rewrite Hg.
      by case_decide. }
    unfold severity_step. destruct (String.eqb _ _).
    - eexists. split; [exact Hg2|]. by case_decide.
    - rewrite after_chain_lookup by done. rewrite Hanc2, Hg2.
      case_decide; eexists; (split; [reflexivity|done]). }
  set (w3 := severity_step c summary w2) in *.
  set (w4 := after_chain (add_duration _) (Group c) w3).
  assert (groups w4 !! i =
          Some (if decide (i ∈ ancestors (groups w) (Group c))
                then add_duration (time.Round d time.Millisecond) g3 else g3))
    as Hg4.
  { unfold w4. rewrite after_chain_lookup by done.
    rewrite Hanc3, Hanc2, Hg3. by case_decide. }
  assert (parents_below (groups w4)) as Hpb4
    by by apply after_chain_parents_below.
  assert (forall x, ancestors (groups w4) x = ancestors (groups w) x) as Hanc4.
  { intros x. unfold w4. rewrite after_chain_ancestors by done.
    by rewrite Hanc3, Hanc2. }
  pose proof (after_chain_lookup (add_keys keys) (Group c) w4 i Hpb4) as Hg5.
  rewrite Hanc4, Hg4 in Hg5.
  case_decide; eexists; (split; [exact Hg5|]); simpl;
    rewrite ?HD3, ?HK3; done.
Qed.

(** ** Children on a chain *)

Lemma chain_parent_closed h l y gy i :
  parents_below h ->
  y ∈ ancestors h l -> h !! y = Some gy -> Parent gy = Some i ->
  i ∈ ancestors h l.
Proof.
  intros Hpb. induction (lt_wf l) as [l _ IH]. intros Hy Hgy Hp.
  destruct (h !! l) as [g|] eqn:Hl.
  - rewrite (ancestors_unfold h l g) in Hy |- * by done.
    apply elem_of_cons in Hy as [Heq|Hy].
    + subst y. rewrite Hl in Hgy. injection Hgy as <-. rewrite Hp. right.
      apply ancestors_self. apply lookup_lt_is_Some_2.
      pose proof (Hpb _ _ _ Hl Hp). apply lookup_lt_Some in Hl. lia.
    + destruct (Parent g) as [p|] eqn:Hpg; [|by apply elem_of_nil in Hy].
      right. apply (IH p); [by eapply Hpb|done..].
  - rewrite ancestors_unallocated in Hy by done. by apply elem_of_nil in Hy.
Qed.

Lemma chain_child_unique h l y1 y2 g1 g2 i :
  parents_below h ->
  y1 ∈ ancestors h l -> y2 ∈ ancestors h l ->
  h !! y1 = Some g1 -> h !! y2 = Some g2 ->
  Parent g1 = Some i -> Parent g2 = Some i ->
  y1 = y2.
Proof.
  intros Hpb. induction (lt_wf l) as [l _ IH]. intros Hy1 Hy2 H1 H2 Hp1 Hp2.
  destruct (h !! l) as [g|] eqn:Hl.
  - rewrite (ancestors_unfold h l g) in Hy1, Hy2 by done.
    assert (forall y gy, y ∈ match Parent g with
                                | Some p => ancestors h p
                                | None => []
                                end ->
                         h !! y = Some gy -> Parent gy = Some i ->
                         Parent g = Some i -> False) as Hcontra.
    { intros y gy Hy Hgy Hpy Hpg. rewrite Hpg in Hy.
      apply ancestors_le in Hy; [|done].
      pose proof (Hpb _ _ _ Hgy Hpy). lia. }
    apply elem_of_cons in Hy1 as [Heq1|Hy1], Hy2 as [Heq2|Hy2].
    + congruence.
    + exfalso. subst y1. rewrite Hl in H1. injection H1 as <-.
      by eapply Hcontra.
    + exfalso. subst y2. rewrite Hl in H2. injection H2 as <-.
      by eapply Hcontra.
    + destruct (Parent g) as [p|] eqn:Hpg; [|by apply elem_of_nil in Hy1].
      apply (IH p); [by eapply Hpb|done..].
  - rewrite ancestors_unallocated in Hy1 by done. by apply elem_of_nil in Hy1.
Qed.

(** A group that holds something and lies under [i] on its chain reaches
    [i] through an attached child of [i]. *)
Lemma chain_child_exists w l g i gi :
  wf_tree w ->
  groups w !! l = Some g -> ControlRuns g <> [] \/ Groups g <> [] ->
  i ∈ ancestors (groups w) l -> i <> l -> groups w !! i = Some gi ->
  exists y, y ∈ Groups gi /\ y ∈ ancestors (groups w) l.
Proof.
  intros Hwf. pose proof (wf_parents_below _ Hwf) as Hpb.
  revert g. induction (lt_wf l) as [l _ IH]. intros g Hl Hne Hi Hil Hgi.
  rewrite (ancestors_unfold _ l g) in Hi |- * by done.
  apply elem_of_cons in Hi as [->|Hi]; [done|].
  destruct (Parent g) as [p|] eqn:Hp; [|by apply elem_of_nil in Hi].
  pose proof (Hpb _ _ _ Hl Hp) as Hpl.
  destruct (lookup_lt_is_Some_2 (groups w) p) as [gp Hgp].
  { apply lookup_lt_Some in Hl. lia. }
  pose proof (wf_attached _ Hwf _ _ _ _ Hl Hp Hgp Hne) as Hatt.
  destruct (decide (i = p)) as [->|Hip].
  - rewrite Hgp in Hgi. injection Hgi as <-. exists l. split; [done|left].
  - destruct (IH p Hpl gp Hgp) as (y & Hy & Hyc); [|done..|].
    + right. intros Hnil. rewrite Hnil in Hatt. by apply elem_of_nil in Hatt.
    + exists y. split; [done|by right].
Qed.

Lemma chain_no_child_of_start w l g y :
  wf_tree w -> groups w !! l = Some g -> y ∈ Groups g ->
  y ∉ ancestors (groups w) l.
Proof.
  intros Hwf Hl Hy Hin.
  destruct (wf_children _ Hwf _ _ _ Hl Hy) as [Hlt _].
  apply ancestors_le in Hin; [lia|by apply wf_parents_below].
Qed.

(** The number of children of a group on a chain: one for a proper
    ancestor of the start, none otherwise. *)
Lemma chain_children_cases w l g i gi :
  wf_tree w ->
  groups w !! l = Some g -> ControlRuns g <> [] \/ Groups g <> [] ->
  groups w !! i = Some gi ->
  (i ∈ ancestors (groups w) l /\ i <> l /\
   exists y, y ∈ Groups gi /\ y ∈ ancestors (groups w) l /\
             forall y', y' ∈ Groups gi -> y' <> y ->
                        y' ∉ ancestors (groups w) l) \/
  ((i ∉ ancestors (groups w) l \/ i = l) /\
   forall y, y ∈ Groups gi -> y ∉ ancestors (groups w) l).
Proof.
  intros Hwf Hl Hne Hgi. pose proof (wf_parents_below _ Hwf) as Hpb.
  destruct (decide (i ∈ ancestors (groups w) l /\ i <> l)) as [[Hi Hil]|Hno].
  - left. split; [done|]. split; [done|].
    destruct (chain_child_exists w l g i gi) as (y & Hy & Hyc); try done.
    exists y. split; [done|]. split; [done|]. intros y' Hy' Hne' Hyc'.
    destruct (wf_children _ Hwf _ _ _ Hgi Hy) as [_ (gy & Hgy & Hpy)].
    destruct (wf_children _ Hwf _ _ _ Hgi Hy') as [_ (gy' & Hgy' & Hpy')].
    apply Hne'. by eapply (chain_child_unique (groups w) l y' y).
  - right. split.
    + destruct (decide (i = l)) as [Heq|Hil]; [by right|left].
      intros Hi. apply Hno. by split.
    + intros y Hy Hyc.
      destruct (decide (i = l)) as [->|Hil].
      * by eapply chain_no_child_of_start.
      * destruct (wf_children _ Hwf _ _ _ Hgi Hy) as [_ (gy & Hgy & Hpy)].
        apply Hno. split; [|done]. by eapply chain_parent_closed.
Qed.

(** ** The invariants of the aggregation *)

Lemma status_of_completed r c summary d keys w y :
  parents_below (groups w) ->
  status_of (completed r c summary d keys w) y =
    if decide (y ∈ ancestors (groups w) (Group c))
    then controlstatus.add (status_of w y) summary
    else status_of w y.
Proof.
  intros Hpb. unfold status_of at 1.
  destruct (groups w !! y) as [g|] eqn:Hg.
  - destruct (completed_group r c summary d keys w y g Hpb Hg)
      as (g' & -> & -> & _).
    unfold status_of. by rewrite Hg.
  - assert (groups (completed r c summary d keys w) !! y = None) as ->.
    { destruct (groups (completed r c summary d keys w) !! y) as [g'|] eqn:Hg';
        [|done].
      destruct (decide (length (groups w) <= y)) as [Hle|Hlt].
      - unfold completed in Hg'. apply lookup_lt_Some in Hg'.
        rewrite !after_chain_length in Hg'.
        unfold severity_step in Hg'.
        destruct (String.eqb _ _); rewrite ?after_chain_length in Hg';
          simpl in Hg'; lia.
      - apply lookup_ge_None in Hg. lia. }
    unfold status_of. rewrite Hg. case_decide; [|done].
    apply ancestors_allocated in H; [|done]. rewrite Hg in H.
    by destruct H.
Qed.

Lemma run_summary_of_completed r c summary d keys w x :
  runs w !! r = Some c ->
  run_summary_of (completed r c summary d keys w) x =
    if decide (x = r) then summary else run_summary_of w x.
Proof.
  intros Hc. unfold run_summary_of. rewrite completed_runs.
  case_decide as Hx.
  - subst x. by rewrite list_lookup_insert_eq by (by eapply lookup_lt_Some).
  - by rewrite list_lookup_insert_ne.
Qed.

Lemma summary_inv_completes r c summary d keys w :
  wf_tree w -> summary_inv w -> runs w !! r = Some c ->
  RunSummary c = controlstatus.zero -> valid_summary summary ->
  summary_inv (completed r c summary d keys w).
Proof.
  intros Hwf Hinv Hc Hzero Hvalid i g' Hg'.
  pose proof (wf_parents_below _ Hwf) as Hpb.
  destruct (same_shape_group _ _ _ _ (completed_same_shape r c summary d keys w
              Hpb Hc) Hg') as (g & Hg & _ & HG & HC).
  destruct (completed_group r c summary d keys w i g Hpb Hg)
    as (g'' & Hg'' & HS & _).
  rewrite Hg' in Hg''. injection Hg'' as <-.
  rewrite HS, <-HG, <-HC, (Hinv i g Hg). clear HS.
  destruct (wf_run_group _ Hwf _ _ Hc) as (gl & Hgl & Hrl).
  assert (ControlRuns gl <> [] \/ Groups gl <> []) as Hne.
  { left. intros Hnil. rewrite Hnil in Hrl. by apply elem_of_nil in Hrl. }
  set (R := controlstatus.sum (run_summary_of w <$> ControlRuns g)).
  set (C := controlstatus.sum (status_of w <$> Groups g)).
  (* the runs of the group *)
  assert (controlstatus.sum
            (run_summary_of (completed r c summary d keys w) <$> ControlRuns g) =
          if decide (i = Group c) then controlstatus.add R summary else R)
    as ->.
  { case_decide as Hi.
    - subst i. rewrite Hgl in Hg. injection Hg as <-.
      apply (summary_sum_bump _ _ _ r); [by eapply wf_runs_nodup|done| |].
      + rewrite run_summary_of_completed by done.
        rewrite decide_True by done. unfold run_summary_of.
        by rewrite Hc, Hzero, summary_add_zero_l.
      + intros x _ Hx. rewrite run_summary_of_completed by done.
        by rewrite decide_False.
    - apply summary_sum_same. intros x Hx.
      rewrite run_summary_of_completed by done.
      rewrite decide_False; [done|]. intros ->.
      destruct (wf_runs _ Hwf _ _ _ Hg Hx) as (c' & Hc' & Hgc').
      congruence. }
  (* the child groups *)
  destruct (chain_children_cases w (Group c) gl i g Hwf Hgl Hne Hg)
    as [(Hi & Hil & y & Hy & Hyc & Huniq)|[Hi Hnone]].
  - rewrite decide_True by done. rewrite decide_False by done.
    assert (controlstatus.sum
              (status_of (completed r c summary d keys w) <$> Groups g) =
            controlstatus.add C summary) as ->.
    { apply (summary_sum_bump _ _ _ y); [by eapply wf_nodup|done| |].
      - rewrite status_of_completed by done. by rewrite decide_True.
      - intros y' Hy' Hne'. rewrite status_of_completed by done.
        rewrite decide_False; [done|]. by apply Huniq. }
    by rewrite summary_add_assoc.
  - assert (controlstatus.sum
              (status_of (completed r c summary d keys w) <$> Groups g) = C)
      as ->.
    { apply summary_sum_same. intros y Hy.
      rewrite status_of_completed by done.
      rewrite decide_False; [done|]. by apply Hnone. }
    destruct Hi as [Hi| ->].
    + rewrite decide_False by done. rewrite decide_False; [done|].
      intros ->. apply Hi. apply ancestors_self. by eexists.
    + rewrite decide_True by (apply ancestors_self; by eexists).
      rewrite decide_True by done.
      rewrite !summary_add_assoc. f_equal. apply summary_add_comm.
Qed.

Lemma unfinished_zero_completes r c summary d keys w :
  unfinished_zero w -> runs w !! r = Some c ->
  unfinished_zero (completed r c summary d keys w).
Proof.
  intros Hinv Hc r' c' Hc' Hst. rewrite completed_runs in Hc'.
  destruct (decide (r = r')) as [<-|Hne].
  - rewrite list_lookup_insert_eq in Hc' by (by eapply lookup_lt_Some).
    injection Hc' as <-. simpl in Hst. by destruct Hst.
  - rewrite list_lookup_insert_ne in Hc' by done. by eapply Hinv.
Qed.

Lemma sorted_distinct_keys (l : list string) :
  StronglySorted String.le (sort.Strings (utils.StringSliceDistinct l)) /\
  NoDup (sort.Strings (utils.StringSliceDistinct l)) /\
  forall k, k ∈ sort.Strings (utils.StringSliceDistinct l) <-> k ∈ l.
Proof.
  unfold sort.Strings, utils.StringSliceDistinct. split; [|split].
  - apply StronglySorted_merge_sort; apply _.
  - rewrite merge_sort_Permutation. apply NoDup_remove_dups.
  - intros k. rewrite merge_sort_Permutation. apply elem_of_remove_dups.
Qed.

Lemma keys_inv_completes r c summary d keys w :
  wf_tree w -> keys_inv w -> runs w !! r = Some c -> RunKeys c = [] ->
  keys_inv (completed r c summary d keys w).
Proof.
  intros Hwf Hinv Hc Hnokeys i g' Hg'.
  pose proof (wf_parents_below _ Hwf) as Hpb.
  pose proof (completed_same_shape r c summary d keys w Hpb Hc) as Hss.
  destruct (same_shape_group _ _ _ _ Hss Hg') as (g & Hg & _).
  destruct (completed_group r c summary d keys w i g Hpb Hg)
    as (g'' & Hg'' & _ & _ & HK).
  rewrite Hg' in Hg''. injection Hg'' as <-.
  destruct (Hinv i g Hg) as (Hsorted & Hnd & Hmem).
  assert (forall k,
            (exists r' c', runs (completed r c summary d keys w) !! r' = Some c' /\
                           in_subtree (completed r c summary d keys w) i c' /\
                           k ∈ RunKeys c') <->
            (k ∈ DimensionKeys g \/
             (i ∈ ancestors (groups w) (Group c) /\ k ∈ keys))) as Hsub.
  { intros k. unfold in_subtree. rewrite completed_runs. split.
    - intros (r' & c' & Hc' & Hin & Hk).
      rewrite (same_shape_ancestors _ _ _ Hss Hpb) in Hin.
      destruct (decide (r = r')) as [<-|Hne].
      + rewrite list_lookup_insert_eq in Hc' by (by eapply lookup_lt_Some).
        injection Hc' as <-. right. done.
      + rewrite list_lookup_insert_ne in Hc' by done.
        left. apply Hmem. by exists r', c'.
    - intros [Hk|[Hi Hk]].
      + apply Hmem in Hk as (r' & c' & Hc' & Hin & Hk).
        assert (r <> r') as Hne.
        { intros <-. rewrite Hc in Hc'. injection Hc' as <-.
          rewrite Hnokeys in Hk. by apply elem_of_nil in Hk. }
        exists r', c'. rewrite list_lookup_insert_ne by done.
        by rewrite (same_shape_ancestors _ _ _ Hss Hpb).
      + exists r, (with_run_result summary RunComplete d keys c).
        rewrite list_lookup_insert_eq by (by eapply lookup_lt_Some).
        by rewrite (same_shape_ancestors _ _ _ Hss Hpb). }
  rewrite HK. case_decide as Hi.
  - destruct (sorted_distinct_keys (DimensionKeys g ++ keys))
      as (Hs & Hn & Hm).
    split; [done|]. split; [done|]. intros k.
    rewrite Hm, Hsub, elem_of_app. tauto.
  - split; [done|]. split; [done|]. intros k. rewrite Hsub, Hmem. tauto.
Qed.

Lemma summary_sum_zeros {A} (l : list A) :
  controlstatus.sum ((fun _ => controlstatus.zero) <$> l) = controlstatus.zero.
Proof.
  induction l as [|a l IH]; [done|].
  by rewrite fmap_cons, summary_sum_cons, IH.
Qed.

Lemma fresh_summary_inv w : wf_tree w -> fresh w -> summary_inv w.
Proof.
  intros Hwf [Hg Hr] i g Hi.
  destruct (Hg i g Hi) as (-> & _). simpl.
  rewrite (summary_sum_same (fun _ => controlstatus.zero) (run_summary_of w)).
  2:{ intros r Hin. destruct (wf_runs _ Hwf _ _ _ Hi Hin) as (c & Hc & _).
      unfold run_summary_of. rewrite Hc. by destruct (Hr r c Hc) as (_ & -> & _). }
  rewrite (summary_sum_same (fun _ => controlstatus.zero) (status_of w)).
  2:{ intros y Hin.
      destruct (wf_children _ Hwf _ _ _ Hi Hin) as [_ (gy & Hgy & _)].
      unfold status_of. rewrite Hgy. by destruct (Hg y gy Hgy) as (-> & _). }
  by rewrite !summary_sum_zeros.
Qed.

Lemma fresh_keys_inv w : fresh w -> keys_inv w.
Proof.
  intros [Hg Hr] i g Hi. destruct (Hg i g Hi) as (_ & _ & _ & ->).
  split; [constructor|]. split; [constructor|]. intros k. split.
  - intros Hk. by apply elem_of_nil in Hk.
  - intros (r & c & Hc & _ & Hk). destruct (Hr r c Hc) as (_ & _ & Hnil).
    rewrite Hnil in Hk. by apply elem_of_nil in Hk.
Qed.

Lemma fresh_unfinished_zero w : fresh w -> unfinished_zero w.
Proof. intros [_ Hr] r c Hc _. by destruct (Hr r c Hc) as (_ & ? & ?). Qed.

Lemma fresh_quiet w : wf_tree w -> fresh w -> quiet w.
Proof.
  intros. split; [done|by apply fresh_summary_inv|by apply fresh_keys_inv|
                  by apply fresh_unfinished_zero].
Qed.

Lemma completes_quiet w w' : quiet w -> completes w w' -> quiet w'.
Proof.
  intros [Hwf Hs Hk Hu] [r c summary d keys Hc Hst Hvalid Hd Hrun].
  rewrite (complete_run_spec r c summary d keys w) in Hrun by done.
  injection Hrun as <-.
  destruct (Hu r c Hc Hst) as [Hzero Hnokeys].
  pose proof (wf_parents_below _ Hwf) as Hpb. split.
  - eapply same_shape_wf; [|done]. by apply completed_same_shape.
  - by apply summary_inv_completes.
  - by apply keys_inv_completes.
  - by apply unfinished_zero_completes.
Qed.

Lemma rtc_completes_quiet w w' : quiet w -> rtc completes w w' -> quiet w'.
Proof.
  intros Hq Hrtc. induction Hrtc as [|w1 w2 w3 H12 _ IH]; [done|].
  apply IH. by eapply completes_quiet.
Qed.

(** ** The builder *)

Lemma bind_cong_l {S A B} (m1 m2 : ST S A) (k : A -> ST S B) s :
  m1 s = m2 s -> bind m1 k s = bind m2 k s.
Proof. unfold bind. by intros ->. Qed.

Lemma NewResultGroup_unfold executionTree treeItem parent w :
  NewResultGroup executionTree treeItem parent w =
  (let* group := allocGroup (new_group treeItem parent) in
   build_children executionTree group (modconfig.GetChildren treeItem) ;;;
   ret group) w.
Proof.
  assert (forall group cs w1,
             (fix children (cs : list modconfig.ModTreeItem) : M unit :=
                match cs with
                | [] => ret tt
                | c :: cs' =>
                    match c with
                    | modconfig.BenchmarkItem _ _ =>
                        let* benchmarkGroup :=
                          NewResultGroup executionTree c group in
                        let* n := ControlRunCount benchmarkGroup in
                        if (0 <? n)%nat
                        then modifyGroup group
                               (fun g => with_Groups
                                           (Groups g ++ [benchmarkGroup]) g)
                        else ret tt
                    | _ => ret tt
                    end ;;;
                    match c with
                    | modconfig.ControlItem control => AddControl control group
                    | _ => ret tt
                    end ;;;
                    children cs'
                end) cs w1 = build_children executionTree group cs w1) as Hloop.
  { intros group cs. induction cs as [|c cs IH]; intros w1; [done|].
    simpl. apply bind_cong_r. intros _ w2 _.
    apply bind_cong_r. intros _ w3 _. apply IH. }
  destruct treeItem as [c|b cs|b cs]; [reflexivity| |].
  - change (NewResultGroup executionTree (modconfig.BenchmarkItem b cs) parent w)
      with ((let* group := allocGroup
                             (new_group (modconfig.BenchmarkItem b cs) parent) in
             (fix children (cs : list modconfig.ModTreeItem) : M unit :=
                match cs with
                | [] => ret tt
                | c :: cs' =>
                    match c with
                    | modconfig.BenchmarkItem _ _ =>
                        let* benchmarkGroup :=
                          NewResultGroup executionTree c group in
                        let* n := ControlRunCount benchmarkGroup in
                        if (0 <? n)%nat
                        then modifyGroup group
                               (fun g => with_Groups
                                           (Groups g ++ [benchmarkGroup]) g)
                        else ret tt
                    | _ => ret tt
                    end ;;;
                    match c with
                    | modconfig.ControlItem control => AddControl control group
                    | _ => ret tt
                    end ;;;
                    children cs'
                end) cs ;;; ret group) w).
    apply bind_cong_r. intros group w1 _. apply bind_cong_l, Hloop.
  - change (NewResultGroup executionTree (modconfig.OtherItem b cs) parent w)
      with ((let* group := allocGroup
                             (new_group (modconfig.OtherItem b cs) parent) in
             (fix children (cs : list modconfig.ModTreeItem) : M unit :=
                match cs with
                | [] => ret tt
                | c :: cs' =>
                    match c with
                    | modconfig.BenchmarkItem _ _ =>
                        let* benchmarkGroup :=
                          NewResultGroup executionTree c group in
                        let* n := ControlRunCount benchmarkGroup in
                        if (0 <? n)%nat
                        then modifyGroup group
                               (fun g => with_Groups
                                           (Groups g ++ [benchmarkGroup]) g)
                        else ret tt
                    | _ => ret tt
                    end ;;;
                    match c with
                    | modconfig.ControlItem control => AddControl control group
                    | _ => ret tt
                    end ;;;
                    children cs'
                end) cs ;;; ret group) w).
    apply bind_cong_r. intros group w1 _. apply bind_cong_l, Hloop.
Qed.

Lemma ModTreeItem_nested_ind (P : modconfig.ModTreeItem -> Prop) :
  (forall c, P (modconfig.ControlItem c)) ->
  (forall b cs, Forall P cs -> P (modconfig.BenchmarkItem b cs)) ->
  (forall b cs, Forall P cs -> P (modconfig.OtherItem b cs)) ->
  forall i, P i.
Proof.
  intros Hc Hb Ho.
  fix IH 1. intros [c|b cs|b cs].
  - apply Hc.
  - apply Hb. induction cs as [|x cs IHcs]; constructor; [apply IH|apply IHcs].
  - apply Ho. induction cs as [|x cs IHcs]; constructor; [apply IH|apply IHcs].
Qed.

(** ** Counting control runs *)

Lemma count_groups_stable (rec rec' : loc -> option nat) gs count n :
  (forall c m, c ∈ gs -> rec c = Some m -> rec' c = Some m) ->
  count_groups rec gs count = Some n -> count_groups rec' gs count = Some n.
Proof.
  revert count. induction gs as [|g gs IH]; intros count Hrec; [done|].
  simpl. destruct (rec g) as [m|] eqn:Hm; [|done].
  rewrite (Hrec g m); [|left|done]. apply IH.
  intros c m' Hc. apply Hrec. by right.
Qed.

Lemma count_groups_total (rec : loc -> option nat) gs count :
  (forall c, c ∈ gs -> is_Some (rec c)) ->
  is_Some (count_groups rec gs count).
Proof.
  revert count. induction gs as [|g gs IH]; intros count Hrec; [by eexists|].
  simpl. destruct (Hrec g) as [m ->]; [left|]. apply IH.
  intros c Hc. apply Hrec. by right.
Qed.

Lemma count_groups_ge (rec : loc -> option nat) gs count n :
  count_groups rec gs count = Some n -> count <= n.
Proof.
  revert count. induction gs as [|g gs IH]; intros count; simpl.
  - intros [= ->]. lia.
  - destruct (rec g) as [m|]; [|done]. intros H%IH. lia.
Qed.

Lemma count_groups_gt (rec : loc -> option nat) gs count n c :
  c ∈ gs -> (forall m, rec c = Some m -> 0 < m) ->
  count_groups rec gs count = Some n -> count < n.
Proof.
  revert count. induction gs as [|g gs IH]; intros count Hc Hpos.
  - by apply elem_of_nil in Hc.
  - simpl. destruct (rec g) as [m|] eqn:Hm; [|done]. intros Hn.
    apply elem_of_cons in Hc as [->|Hc].
    + apply count_groups_ge in Hn. specialize (Hpos m Hm). lia.
    + apply (IH _ Hc Hpos) in Hn. lia.
Qed.

(** The count of a group reads only the groups allocated after it, and
    more fuel does not change it. *)
Lemma count_stable h h' fuel fuel' c n :
  (forall i g, c <= i -> h !! i = Some g ->
               h' !! i = Some g /\ forall y, y ∈ Groups g -> i < y) ->
  fuel <= fuel' ->
  ControlRunCount_fuel fuel h c = Some n ->
  ControlRunCount_fuel fuel' h' c = Some n.
Proof.
  revert fuel' c n. induction fuel as [|fuel IH]; intros fuel' c n Hagree Hle;
    [done|].
  destruct fuel' as [|fuel']; [lia|]. simpl.
  destruct (h !! c) as [g|] eqn:Hg; [|done].
  destruct (Hagree c g (le_n _) Hg) as [-> Hup].
  apply count_groups_stable. intros y m Hy. apply IH; [|lia].
  intros i gi Hi. apply Hagree. specialize (Hup y Hy). lia.
Qed.

Lemma count_total h fuel c :
  (forall i g, c <= i -> h !! i = Some g ->
               forall y, y ∈ Groups g -> i < y < length h) ->
  c < length h -> length h - c <= fuel ->
  is_Some (ControlRunCount_fuel fuel h c).
Proof.
  revert c. induction fuel as [|fuel IH]; intros c Hup Hc Hfuel; [lia|].
  simpl. destruct (lookup_lt_is_Some_2 _ _ Hc) as [g Hg]. rewrite Hg.
  apply count_groups_total. intros y Hy.
  destruct (Hup c g (le_n _) Hg y Hy) as [Hcy Hylen].
  apply IH; [|done|lia].
  intros i gi Hi. apply Hup. lia.
Qed.

(** A group that counts no control run holds nothing, given that its
    attached children count at least one. *)
Lemma count_zero_empty h fuel c g :
  ControlRunCount_fuel fuel h c = Some 0 -> h !! c = Some g ->
  (forall y m fuel', y ∈ Groups g ->
                     ControlRunCount_fuel fuel' h y = Some m -> 0 < m) ->
  ControlRuns g = [] /\ Groups g = [].
Proof.
  destruct fuel as [|fuel]; [done|]. simpl. intros Hcount Hg Hpos.
  rewrite Hg in Hcount. pose proof (count_groups_ge _ _ _ _ Hcount) as Hle.
  split; [apply length_zero_iff_nil; lia|].
  destruct (Groups g) as [|y ys] eqn:HG; [done|]. exfalso.
  assert (length (ControlRuns g) < 0); [|lia].
  eapply (count_groups_gt _ _ _ _ y); [left| |exact Hcount].
  intros m Hm. eapply Hpos; [left|exact Hm].
Qed.

(** ** The invariant of the builder *)

Lemma grows_refl a w : grows a w w.
Proof. split; try done. intros g Hg. by exists g. Qed.

Lemma grows_trans a w1 w2 w3 : grows a w1 w2 -> grows a w2 w3 -> grows a w1 w3.
Proof.
  intros H1 H2. split.
  - intros j x Hj Hx. eapply gr_above; [done..|]. by eapply gr_above.
  - intros g Hg.
    destruct (gr_at _ _ _ H1 g Hg) as (g2 & Hg2 & ? & ? & ? & ?).
    destruct (gr_at _ _ _ H2 g2 Hg2) as (g3 & Hg3 & ? & ? & ? & ?).
    exists g3. split; [done|]. repeat split; try congruence; set_solver.
  - intros r c Hc. eapply gr_runs; [done|]. by eapply gr_runs.
  - pose proof (gr_len _ _ _ H1). pose proof (gr_len _ _ _ H2). lia.
  - pose proof (gr_rlen _ _ _ H1). pose proof (gr_rlen _ _ _ H2). lia.
  - rewrite (gr_held _ _ _ H2). apply (gr_held _ _ _ H1).
  - rewrite (gr_trace _ _ _ H2). apply (gr_trace _ _ _ H1).
Qed.

(** Children point upward in the part under [a]. *)
Lemma under_ok_upward w a ra i g y :
  under_ok w a ra -> a <= i -> groups w !! i = Some g -> y ∈ Groups g ->
  i < y < length (groups w).
Proof.
  intros Hu Hi Hg Hy.
  destruct (go_children _ _ _ (uo_groups _ _ _ Hu i g Hi Hg) y Hy)
    as [Hlt (gy & Hgy & _)].
  split; [done|]. by eapply lookup_lt_Some.
Qed.

Lemma counts_pos_stable w w' a ra c :
  under_ok w a ra -> a <= c ->
  (forall j x, c <= j -> groups w !! j = Some x -> groups w' !! j = Some x) ->
  length (groups w) <= length (groups w') ->
  counts_pos w c -> counts_pos w' c.
Proof.
  intros Hu Hc Hkeep Hlen (n & Hn & Hpos). exists n. split; [|done].
  eapply count_stable; [|exact Hlen|exact Hn].
  intros i g Hi Hgi. split; [by apply Hkeep|].
  intros y Hy. eapply under_ok_upward; [done|lia|done..].
Qed.

Lemma counts_pos_grows w w' a ra c :
  under_ok w a ra -> grows a w w' -> a < c ->
  counts_pos w c -> counts_pos w' c.
Proof.
  intros Hu Hg Hc. eapply counts_pos_stable; [done|lia| |apply (gr_len _ _ _ Hg)].
  intros j x Hj. eapply gr_above; [done|lia].
Qed.

Lemma group_ok_grows w w' a i g :
  grows a w w' -> a < i -> group_ok w i g -> group_ok w' i g.
Proof.
  intros Hg Hi [Hch Hnd Hr Hrnd Hf]. split; try done.
  - intros c Hc. destruct (Hch c Hc) as [Hlt (gc & Hgc & Hp)].
    split; [done|]. exists gc. split; [|done].
    eapply gr_above; [done|lia|done].
  - intros r Hin. destruct (Hr r Hin) as (c & Hc & HG).
    exists c. split; [|done]. by eapply gr_runs.
Qed.

Lemma link_ok_grows w w' a ra i g :
  under_ok w a ra -> grows a w w' -> a < i -> groups w !! i = Some g ->
  link_ok w a i g -> link_ok w' a i g.
Proof.
  intros Hu Hg Hi Hgi [(p & gp & Hp & Hpi & Hgp & Hatt) Hpr]. split.
  - destruct (decide (p = a)) as [->|Hpa].
    + destruct (gr_at _ _ _ Hg gp Hgp) as (gp' & Hgp' & _ & _ & Hsub & _).
      exists a, gp'. repeat split; try done. intros Hne. apply Hsub. by apply Hatt.
    + exists p, gp. repeat split; try done; try lia.
      eapply gr_above; [done|lia|done].
  - intros c Hc. eapply counts_pos_grows; [done..| |by apply Hpr].
    destruct (under_ok_upward w a ra i g c); [done|lia|done..|lia].
Qed.

Lemma run_ok_grows w w' a r c :
  grows a w w' -> run_ok w a r c -> run_ok w' a r c.
Proof.
  intros Hg [(Ha & g & Hgc & Hr) Hf Hd]. split; [|done|done]. split; [done|].
  destruct (decide (Group c = a)) as [Heq|Hne].
  - rewrite Heq in *.
    destruct (gr_at _ _ _ Hg g Hgc) as (g' & Hg' & _ & _ & _ & Hsub).
    exists g'. split; [done|]. by apply Hsub.
  - exists g. split; [|done]. eapply gr_above; [done|lia|done].
Qed.

(** After a step, the part under [a] is in order as soon as the group [a]
    itself and what the step added are. *)
Lemma under_ok_step w w' a ra :
  under_ok w a ra -> grows a w w' ->
  (forall g, groups w' !! a = Some g -> group_ok w' a g) ->
  (forall i g, length (groups w) <= i -> groups w' !! i = Some g ->
               group_ok w' i g /\ link_ok w' a i g) ->
  (forall r c, length (runs w) <= r -> runs w' !! r = Some c ->
               run_ok w' a r c) ->
  a < length (groups w) ->
  under_ok w' a ra.
Proof.
  intros Hu Hg Hat Hnew Hrnew Ha. split.
  - intros i g Hi Hgi. destruct (decide (i = a)) as [->|Hia]; [by apply Hat|].
    destruct (decide (i < length (groups w))) as [Hlt|Hge].
    + destruct (lookup_lt_is_Some_2 _ _ Hlt) as [g0 Hg0].
      pose proof (gr_above _ _ _ Hg i g0 ltac:(lia) Hg0) as Hg0'.
      rewrite Hgi in Hg0'. injection Hg0' as <-.
      eapply group_ok_grows; [done|lia|]. eapply uo_groups; [done| |done]. lia.
    + apply Hnew; [lia|done].
  - intros i g Hi Hgi.
    destruct (decide (i < length (groups w))) as [Hlt|Hge].
    + destruct (lookup_lt_is_Some_2 _ _ Hlt) as [g0 Hg0].
      pose proof (gr_above _ _ _ Hg i g0 ltac:(lia) Hg0) as Hg0'.
      rewrite Hgi in Hg0'. injection Hg0' as <-.
      eapply link_ok_grows; [done..|]. by eapply uo_links.
    + apply Hnew; [lia|done].
  - intros r c Hr Hc.
    destruct (decide (r < length (runs w))) as [Hlt|Hge].
    + destruct (lookup_lt_is_Some_2 _ _ Hlt) as [c0 Hc0].
      pose proof (gr_runs _ _ _ Hg r c0 Hc0) as Hc0'.
      rewrite Hc in Hc0'. injection Hc0' as <-.
      eapply run_ok_grows; [done|]. by eapply uo_runs.
    + apply Hrnew; [lia|done].
Qed.

Lemma AddControl_step w a ra control g :
  under_ok w a ra -> groups w !! a = Some g ->
  exists w',
    AddControl control a w = Some (tt, w') /\
    grows a w w' /\ under_ok w' a ra /\
    (forall j x, j <> a -> groups w !! j = Some x -> groups w' !! j = Some x) /\
    exists g', groups w' !! a = Some g' /\ Groups g' = Groups g.
Proof.
  intros Hu Hg.
  pose proof (lookup_lt_Some _ _ _ Hg) as Ha.
  set (c0 := {| Control := control; RunSummary := controlstatus.zero;
                Status := RunReady; RunKeys := []; RunErr := None;
                RunDuration := 0; Group := a |}).
  set (g' := with_ControlRuns (ControlRuns g ++ [length (runs w)]) g).
  exists (mkWorld (<[a := g']> (groups w)) (runs w ++ [c0]) (held w) (trace w)).
  assert (grows a w
            (mkWorld (<[a := g']> (groups w)) (runs w ++ [c0]) (held w) (trace w)))
    as Hgrows.
  { split; simpl; try done.
    - intros j x Hj Hx. by rewrite list_lookup_insert_ne by lia.
    - intros g0 Hg0. rewrite Hg in Hg0. injection Hg0 as <-. exists g'.
      rewrite list_lookup_insert_eq by done.
      repeat split; try done. simpl. set_solver.
    - intros r c Hc. by apply lookup_app_l_Some.
    - by rewrite length_insert.
    - rewrite length_app. lia. }
  split; [|split; [done|split; [|split]]].
  - unfold AddControl, bind, allocRun, modifyGroup, bind, getGroup, setGroup.
    simpl. by rewrite Hg.
  - apply (under_ok_step w _ a ra Hu Hgrows); [| | |done]; simpl.
    + intros g0. rewrite list_lookup_insert_eq by done. intros [= <-].
      destruct (uo_groups _ _ _ Hu a g (le_n _) Hg) as [Hch Hnd Hr Hrnd Hf].
      split; simpl; try done.
      * intros c Hc. destruct (Hch c Hc) as [Hlt (gc & Hgc & Hp)].
        split; [done|]. exists gc. split; [|done].
        by rewrite list_lookup_insert_ne by lia.
      * intros r Hin. apply elem_of_app in Hin as [Hin|Hin].
        -- destruct (Hr r Hin) as (c & Hc & HG). exists c. split; [|done].
           by apply lookup_app_l_Some.
        -- apply list_elem_of_singleton in Hin as ->. exists c0.
           split; [|done]. by rewrite lookup_app_r, Nat.sub_diag by lia.
      * apply NoDup_app. split; [done|]. split; [|apply NoDup_singleton].
        intros r Hin Hin'. apply list_elem_of_singleton in Hin' as ->.
        destruct (Hr _ Hin) as (c & Hc & _). apply lookup_lt_Some in Hc. lia.
    + intros i gi Hi Hgi. apply lookup_lt_Some in Hgi.
      rewrite length_insert in Hgi. lia.
    + intros r c Hr Hc.
      assert (r = length (runs w)) as ->.
      { apply lookup_lt_Some in Hc. rewrite length_app in Hc. simpl in Hc. lia. }
      rewrite lookup_app_r, Nat.sub_diag in Hc by lia. injection Hc as <-.
      split; [|done|done]. split; [simpl; lia|]. exists g'. simpl.
      rewrite list_lookup_insert_eq by done. split; [done|]. set_solver.
  - simpl. intros j x Hj Hx. by rewrite list_lookup_insert_ne.
  - exists g'. simpl. by rewrite list_lookup_insert_eq.
Qed.

Lemma built_len item parent w w' :
  built item parent w w' -> length (groups w) < length (groups w').
Proof.
  intros Hb. destruct (bt_root _ _ _ _ Hb) as (g & Hg & _).
  by eapply lookup_lt_Some.
Qed.

(** The child that [NewResultGroup] built under [a] is attached, or it
    holds nothing and is left out. *)
Lemma child_step w w2 a ra g item (attach : bool) :
  under_ok w a ra -> groups w !! a = Some g -> built item a w w2 ->
  (attach = false ->
   forall gb, groups w2 !! length (groups w) = Some gb -> ~ nonempty gb) ->
  exists w3,
    (if attach
     then modifyGroup a
            (fun g => with_Groups (Groups g ++ [length (groups w)]) g)
     else ret tt) w2 = Some (tt, w3) /\
    grows a w w3 /\ under_ok w3 a ra /\
    (forall j x, j <> a -> groups w !! j = Some x -> groups w3 !! j = Some x) /\
    (exists g3, groups w3 !! a = Some g3 /\
                Groups g3 = if attach then Groups g ++ [length (groups w)]
                            else Groups g) /\
    (forall c, length (groups w) <= c -> counts_pos w2 c -> counts_pos w3 c).
Proof.
  intros Hu Hg Hb Hempty.
  pose proof (lookup_lt_Some _ _ _ Hg) as Ha.
  pose proof (built_len _ _ _ _ Hb) as Hlen.
  pose proof (bt_groups _ _ _ _ Hb a g Hg) as Hg2.
  destruct (bt_root _ _ _ _ Hb) as (gb & Hgb & Hpb & _).
  set (b := length (groups w)) in *.
  set (g3 := if attach then with_Groups (Groups g ++ [b]) g else g).
  set (w3 := if attach
             then mkWorld (<[a := g3]> (groups w2)) (runs w2) (held w2) (trace w2)
             else w2).
  assert (forall j, j <> a -> groups w3 !! j = groups w2 !! j) as Hother.
  { intros j Hj. unfold w3. destruct attach; [|done]. simpl.
    by rewrite list_lookup_insert_ne. }
  assert (groups w3 !! a = Some g3) as Hg3.
  { unfold w3, g3. destruct attach; [|done]. simpl.
    apply list_lookup_insert_eq. lia. }
  assert (runs w3 = runs w2 /\ held w3 = held w2 /\ trace w3 = trace w2 /\
          length (groups w3) = length (groups w2)) as (Hr3 & Hh3 & Ht3 & Hl3).
  { unfold w3. destruct attach; [|done]. simpl. by rewrite length_insert. }
  assert (Parent g3 = Parent g /\ GroupId g3 = GroupId g /\
          ControlRuns g3 = ControlRuns g /\ Groups g ⊆ Groups g3 /\
          Summary g3 = Summary g /\ Severity g3 = Severity g /\
          Duration g3 = Duration g /\ DimensionKeys g3 = DimensionKeys g)
    as (HP3 & HI3 & HC3 & HG3 & HS3 & HV3 & HD3 & HK3).
  { unfold g3. destruct attach; simpl; repeat split; try done. set_solver. }
  assert (grows a w w3) as Hgrows.
  { split.
    - intros j x Hj Hx. rewrite Hother by lia. by eapply bt_groups.
    - intros g0 Hg0. rewrite Hg in Hg0. injection Hg0 as <-. exists g3.
      repeat split; try done. by rewrite HC3.
    - intros r c Hc. rewrite Hr3. by eapply bt_runs.
    - lia.
    - rewrite Hr3. by eapply bt_rlen.
    - rewrite Hh3. by eapply bt_held.
    - rewrite Ht3. by eapply bt_trace. }
  assert (grows a w2 w3) as Hgrows2.
  { split; try done; try lia.
    - intros j x Hj Hx. by rewrite Hother by lia.
    - intros g0 Hg0. rewrite Hg2 in Hg0. injection Hg0 as <-. exists g3.
      repeat split; try done. by rewrite HC3.
    - intros r c Hc. by rewrite Hr3.
    - by rewrite Hr3. }
  assert (forall c, b <= c -> counts_pos w2 c -> counts_pos w3 c) as Hcount.
  { intros c Hc. eapply counts_pos_stable;
      [apply (bt_under _ _ _ _ Hb)|done| |lia].
    intros j x Hj Hx. rewrite Hother; [done|]. unfold b in *. lia. }
  exists w3. split; [|split; [done|split; [|split; [|split; [|done]]]]].
  - unfold w3, g3. destruct attach; [|done].
    unfold modifyGroup, bind, getGroup, setGroup. by rewrite Hg2.
  - apply (under_ok_step w w3 a ra Hu Hgrows); [| | |done].
    + intros g0 Hg0. rewrite Hg3 in Hg0. injection Hg0 as <-.
      destruct (uo_groups _ _ _ Hu a g (le_n _) Hg) as [Hch Hnd Hr Hrnd Hf].
      split.
      * intros c Hc.
        assert (c ∈ Groups g \/ (attach = true /\ c = b)) as [Hc'|[_ ->]].
        { unfold g3 in Hc. destruct attach; [|by left]. simpl in Hc.
          apply elem_of_app in Hc as [?|Hc]; [by left|right].
          by apply list_elem_of_singleton in Hc. }
        -- destruct (Hch c Hc') as [Hlt (gc & Hgc & Hp)].
           split; [done|]. exists gc. split; [|done].
           by apply (gr_above _ _ _ Hgrows).
        -- split; [done|]. exists gb. split; [|done].
           rewrite Hother; [done|]. unfold b. lia.
      * unfold g3. destruct attach; [|done]. simpl.
        apply NoDup_app. split; [done|]. split; [|apply NoDup_singleton].
        intros c Hc Hc'. apply list_elem_of_singleton in Hc' as ->.
        destruct (Hch _ Hc) as [_ (gc & Hgc & _)].
        apply lookup_lt_Some in Hgc. unfold b in *. lia.
      * rewrite HC3. intros r Hin. destruct (Hr r Hin) as (c & Hc & HG).
        exists c. split; [|done]. by apply (gr_runs _ _ _ Hgrows).
      * by rewrite HC3.
      * by rewrite HS3, HV3, HD3, HK3.
    + intros i gi Hi Hgi.
      assert (i <> a) as Hia by (unfold b in *; lia).
      rewrite Hother in Hgi by done.
      split.
      * eapply group_ok_grows; [exact Hgrows2|unfold b in *; lia|].
        by eapply (uo_groups _ _ _ (bt_under _ _ _ _ Hb)).
      * destruct (decide (i = b)) as [->|Hib].
        -- rewrite Hgb in Hgi. injection Hgi as <-. split.
           ++ exists a, g3. repeat split; try done; try lia.
              intros Hne. unfold g3. destruct attach.
              ** simpl. set_solver.
              ** exfalso. by eapply Hempty.
           ++ intros c Hc. apply Hcount.
              ** destruct (under_ok_upward _ _ _ b gb c (bt_under _ _ _ _ Hb));
                   [done..|]. lia.
              ** by eapply (bt_pruned _ _ _ _ Hb).
        -- destruct (uo_links _ _ _ (bt_under _ _ _ _ Hb) i gi) as [Hpar Hpr];
             [unfold b in *; lia|done|].
           destruct Hpar as (p & gp & Hp & Hpi & Hgp & Hatt). split.
           ++ exists p, gp. repeat split; try done; try (unfold b in *; lia).
              rewrite Hother; [done|]. unfold b in *. lia.
           ++ intros c Hc. apply Hcount; [|by apply Hpr].
              destruct (under_ok_upward _ _ _ i gi c (bt_under _ _ _ _ Hb));
                [done..|]. lia.
    + intros r c Hr Hc. rewrite Hr3 in Hc.
      destruct (uo_runs _ _ _ (bt_under _ _ _ _ Hb) r c Hr Hc)
        as [(HGc & gc & Hgc & Hin) Hf Hd].
      split; [|done|done]. split; [unfold b in *; lia|].
      exists gc. split; [|done]. rewrite Hother; [done|]. unfold b in *. lia.
  - intros j x Hj Hx. rewrite Hother by done. by eapply bt_groups.
  - exists g3. split; [done|]. unfold g3. by destruct attach.
Qed.

Lemma count_deterministic h fuel fuel' c n m :
  (forall i g, c <= i -> h !! i = Some g -> forall y, y ∈ Groups g -> i < y) ->
  ControlRunCount_fuel fuel h c = Some n ->
  ControlRunCount_fuel fuel' h c = Some m -> n = m.
Proof.
  intros Hup Hn Hm.
  assert (forall i g, c <= i -> h !! i = Some g ->
                      h !! i = Some g /\ forall y, y ∈ Groups g -> i < y) as Hs.
  { intros i g Hi Hg. split; [done|]. by eapply Hup. }
  pose proof (count_stable h h fuel (fuel `max` fuel') c n Hs ltac:(lia) Hn).
  pose proof (count_stable h h fuel' (fuel `max` fuel') c m Hs ltac:(lia) Hm).
  congruence.
Qed.

Lemma ControlRunCount_built item a w w2 :
  built item a w w2 ->
  exists n,
    ControlRunCount (length (groups w)) w2 = Some (n, w2) /\
    (0 < n -> counts_pos w2 (length (groups w))) /\
    (n = 0 -> forall gb, groups w2 !! length (groups w) = Some gb ->
                         ~ nonempty gb).
Proof.
  intros Hb. pose proof (built_len _ _ _ _ Hb) as Hlen.
  pose proof (bt_under _ _ _ _ Hb) as Hu.
  destruct (count_total (groups w2) (length (groups w2)) (length (groups w)))
    as [n Hn]; [|done|lia|].
  { intros i g Hi Hg y Hy. by eapply under_ok_upward. }
  exists n. unfold ControlRunCount. rewrite Hn. split; [done|]. split.
  - intros Hpos. by exists n.
  - intros -> gb Hgb Hne.
    destruct (count_zero_empty _ _ _ gb Hn Hgb) as [Hr Hg].
    + intros y m fuel' Hy Hm.
      destruct (bt_pruned _ _ _ _ Hb gb y Hgb Hy) as (n' & Hn' & Hpos).
      assert (n' = m) as <-; [|done].
      eapply count_deterministic; [|exact Hn'|exact Hm].
      intros i g Hi Hg z Hz.
      destruct (under_ok_upward _ _ _ _ gb y Hu (le_n _) Hgb Hy) as [Hy1 _].
      destruct (under_ok_upward _ _ _ i g z Hu ltac:(lia) Hg Hz) as [Hz1 _].
      done.
    + destruct Hne as [Hne|Hne]; congruence.
Qed.

Lemma build_children_ok executionTree cs :
  Forall builds cs ->
  forall a ra w g,
    under_ok w a ra -> groups w !! a = Some g -> pruned_at w a ->
    exists w',
      build_children executionTree a cs w = Some (tt, w') /\
      grows a w w' /\ under_ok w' a ra /\ pruned_at w' a /\
      (forall j x, j <> a -> groups w !! j = Some x -> groups w' !! j = Some x).
Proof.
  induction 1 as [|c cs Hc _ IH]; intros a ra w g Hu Hg Hpr.
  - exists w. split; [done|]. split; [apply grows_refl|]. done.
  - assert (exists w1 g1,
               (match c with
                | modconfig.BenchmarkItem _ _ =>
                    let* benchmarkGroup := NewResultGroup executionTree c a in
                    let* n := ControlRunCount benchmarkGroup in
                    if (0 <? n)%nat
                    then modifyGroup a
                           (fun g => with_Groups (Groups g ++ [benchmarkGroup]) g)
                    else ret tt
                | _ => ret tt
                end ;;;
                match c with
                | modconfig.ControlItem control => AddControl control a
                | _ => ret tt
                end) w = Some (tt, w1) /\
               grows a w w1 /\ under_ok w1 a ra /\ pruned_at w1 a /\
               groups w1 !! a = Some g1 /\
               (forall j x, j <> a -> groups w !! j = Some x ->
                            groups w1 !! j = Some x))
      as (w1 & g1 & Hstep & Hgr1 & Hu1 & Hpr1 & Hg1 & Hkeep1).
    { destruct c as [control|b bcs|b bcs].
      - destruct (AddControl_step w a ra control g Hu Hg)
          as (w1 & Hadd & Hgr & Hu1 & Hkeep & g1 & Hg1 & HG1).
        exists w1, g1. split; [by unfold bind, ret|].
        split; [done|split; [done|split; [|split; [done|done]]]].
        intros g0 y Hg0 Hy. rewrite Hg1 in Hg0. injection Hg0 as <-.
        rewrite HG1 in Hy.
        apply (counts_pos_grows w w1 a ra y Hu Hgr); [|by eapply Hpr].
        by destruct (under_ok_upward _ _ _ a g y Hu (le_n _) Hg Hy).
      - destruct (Hc executionTree a w) as (w2 & Hnew & Hb).
        destruct (ControlRunCount_built _ _ _ _ Hb) as (n & Hcount & Hpos & Hzero).
        destruct (child_step w w2 a ra g _ (0 <? n)%nat Hu Hg Hb)
          as (w3 & Hatt & Hgr & Hu3 & Hkeep & (g3 & Hg3 & HG3) & Hcnt).
        { intros Hn. apply Hzero. apply Nat.ltb_ge in Hn. lia. }
        exists w3, g3. split.
        { unfold bind at 1. unfold bind at 1. rewrite Hnew.
          unfold bind at 1. rewrite Hcount.
          by destruct (0 <? n)%nat; rewrite Hatt. }
        split; [done|split; [done|split; [|split; [done|done]]]].
        intros g0 y Hg0 Hy. rewrite Hg3 in Hg0. injection Hg0 as <-.
        rewrite HG3 in Hy.
        assert (y ∈ Groups g \/ (0 < n /\ y = length (groups w))) as [Hy'|[Hn ->]].
        { destruct (Nat.ltb_spec 0 n); [|by left].
          apply elem_of_app in Hy as [?|Hy]; [by left|right].
          by apply list_elem_of_singleton in Hy. }
        + apply (counts_pos_grows w w3 a ra y Hu Hgr); [|by eapply Hpr].
          by destruct (under_ok_upward _ _ _ a g y Hu (le_n _) Hg Hy').
        + apply Hcnt; [done|]. by apply Hpos.
      - exists w, g. split; [by unfold bind, ret|].
        split; [apply grows_refl|]. done. }
    destruct (IH a ra w1 g1 Hu1 Hg1 Hpr1) as (w' & Hrest & Hgr' & Hu' & Hpr' & Hkeep').
    exists w'. split.
    { simpl. rewrite <-bind_assoc. unfold bind at 1. by rewrite Hstep. }
    split; [by eapply grows_trans|]. split; [done|split; [done|]].
    intros j x Hj Hx. apply Hkeep'; [done|]. by apply Hkeep1.
Qed.

Lemma NewResultGroup_builds treeItem : builds treeItem.
Proof.
  assert (forall item, Forall builds (modconfig.GetChildren item) -> builds item)
    as Hitem.
  { intros item Hcs executionTree parent w.
    set (a := length (groups w)).
    set (w1 := mkWorld (groups w ++ [new_group item parent]) (runs w) (held w)
                 (trace w)).
    assert (groups w1 !! a = Some (new_group item parent)) as Hg1.
    { simpl. by rewrite lookup_app_r, Nat.sub_diag by (unfold a; lia). }
    assert (under_ok w1 a (length (runs w))) as Hu1.
    { split.
      - intros i g Hi Hg.
        assert (i = a) as ->.
        { apply lookup_lt_Some in Hg. simpl in Hg.
          rewrite length_app in Hg. simpl in Hg. unfold a in *. lia. }
        rewrite Hg1 in Hg. injection Hg as <-.
        split; simpl; try done; try apply NoDup_nil_2;
          intros x Hx; by apply elem_of_nil in Hx.
      - intros i g Hi Hg. apply lookup_lt_Some in Hg. simpl in Hg.
        rewrite length_app in Hg. simpl in Hg. unfold a in *. lia.
      - intros r c Hr Hc. apply lookup_lt_Some in Hc. simpl in Hc. lia. }
    assert (pruned_at w1 a) as Hpr1.
    { intros g c Hg Hc. rewrite Hg1 in Hg. injection Hg as <-.
      by apply elem_of_nil in Hc. }
    destruct (build_children_ok executionTree _ Hcs a _ w1 _ Hu1 Hg1 Hpr1)
      as (w' & Hloop & Hgr & Hu' & Hpr' & Hkeep).
    exists w'. split.
    { rewrite NewResultGroup_unfold. unfold bind at 1. unfold allocGroup.
      fold a. fold w1. unfold bind, ret. by rewrite Hloop. }
    destruct (gr_at _ _ _ Hgr _ Hg1) as (g' & Hg' & HP & HI & _).
    split.
    - intros j x Hx. apply Hkeep.
      + apply lookup_lt_Some in Hx. unfold a. lia.
      + simpl. by apply lookup_app_l_Some.
    - intros r c Hc. by apply (gr_runs _ _ _ Hgr).
    - apply (gr_rlen _ _ _ Hgr).
    - apply (gr_held _ _ _ Hgr).
    - apply (gr_trace _ _ _ Hgr).
    - exists g'. by repeat split.
    - done.
    - intros g c Hg Hc. by eapply Hpr'. }
  induction treeItem as [c|b cs IH|b cs IH] using ModTreeItem_nested_ind;
    apply Hitem; simpl; [constructor|done..].
Qed.

Lemma root_items_ok executionTree items :
  forall a ra w g,
    under_ok w a ra -> groups w !! a = Some g ->
    exists w' g',
      for_each items (root_item executionTree a) w = Some (tt, w') /\
      grows a w w' /\ under_ok w' a ra /\
      groups w' !! a = Some g' /\
      length (Groups g') = length (Groups g) + length (group_items items).
Proof.
  induction items as [|item items IH]; intros a ra w g Hu Hg.
  - exists w, g. split; [done|]. split; [apply grows_refl|].
    split; [done|]. split; [done|]. simpl. lia.
  - assert (exists w1 g1,
               root_item executionTree a item w = Some (tt, w1) /\
               grows a w w1 /\ under_ok w1 a ra /\ groups w1 !! a = Some g1 /\
               length (Groups g1) =
                 length (Groups g) + length (group_items [item]))
      as (w1 & g1 & Hstep & Hgr1 & Hu1 & Hg1 & Hlen1).
    { assert (exists w1 g1,
                 (let* itemGroup := NewResultGroup executionTree item a in
                  modifyGroup a
                    (fun g => with_Groups (Groups g ++ [itemGroup]) g)) w =
                   Some (tt, w1) /\
                 grows a w w1 /\ under_ok w1 a ra /\ groups w1 !! a = Some g1 /\
                 length (Groups g1) = length (Groups g) + 1)
        as Hgroup.
      { destruct (NewResultGroup_builds item executionTree a w)
          as (w2 & Hnew & Hb).
        destruct (child_step w w2 a ra g _ true Hu Hg Hb)
          as (w3 & Hatt & Hgr & Hu3 & _ & (g3 & Hg3 & HG3) & _); [done|].
        exists w3, g3. split; [unfold bind; by rewrite Hnew|].
        split; [done|]. split; [done|]. split; [done|].
        rewrite HG3, length_app. simpl. lia. }
      destruct item as [control|b cs|b cs]; [|exact Hgroup..].
      destruct (AddControl_step w a ra control g Hu Hg)
        as (w1 & Hadd & Hgr & Hu1 & _ & g1 & Hg1 & HG1).
      exists w1, g1. split; [done|]. split; [done|]. split; [done|].
      split; [done|]. rewrite HG1. simpl. lia. }
    destruct (IH a ra w1 g1 Hu1 Hg1) as (w' & g' & Hrest & Hgr' & Hu' & Hg' & Hlen').
    exists w', g'. split.
    { simpl. unfold bind. by rewrite Hstep. }
    split; [by eapply grows_trans|]. split; [done|]. split; [done|].
    rewrite Hlen', Hlen1. unfold group_items. simpl.
    destruct (negb (is_control item)); simpl; lia.
Qed.

Lemma NewRootResultGroup_unfold executionTree rootItems w :
  NewRootResultGroup executionTree rootItems w =
  (let* root := allocGroup root_group in
   for_each rootItems (root_item executionTree root) ;;; ret root) w.
Proof. reflexivity. Qed.

(** The tree that [NewRootResultGroup] builds in an empty heap. *)
Lemma NewRootResultGroup_ok executionTree rootItems :
  exists w,
    NewRootResultGroup executionTree rootItems empty_world = Some (0, w) /\
    wf_tree w /\ fresh w /\ pruned_below w 0 /\ trace w = [] /\
    exists g, groups w !! 0 = Some g /\ Parent g = None /\
              GroupId g = RootResultGroupName /\
              length (Groups g) = length (group_items rootItems).
Proof.
  set (w1 := mkWorld [root_group] [] [] []).
  assert (under_ok w1 0 0) as Hu1.
  { split.
    - intros i g _ Hg. unfold w1 in Hg. simpl in Hg.
      destruct i as [|i]; [|done]. injection Hg as <-.
      split; simpl; try done; try apply NoDup_nil_2;
        intros x Hx; by apply elem_of_nil in Hx.
    - intros i g Hi Hg. unfold w1 in Hg. simpl in Hg.
      destruct i as [|i]; [lia|done].
    - intros r c _ Hc. unfold w1 in Hc. done. }
  destruct (root_items_ok executionTree rootItems 0 0 w1 root_group Hu1 eq_refl)
    as (w & g0 & Hloop & Hgr & Hu & Hg0 & Hlen0).
  destruct (gr_at _ _ _ Hgr root_group eq_refl) as (g0' & Hg0' & HP & HI & _).
  rewrite Hg0 in Hg0'. injection Hg0' as <-.
  exists w. split.
  { rewrite NewRootResultGroup_unfold. unfold bind at 1. unfold allocGroup.
    simpl. fold w1. unfold bind, ret. by rewrite Hloop. }
  assert (forall i g, groups w !! i = Some g -> Parent g = None -> i = 0) as Hroot.
  { intros i g Hg Hp. destruct (decide (i = 0)) as [|Hne]; [done|].
    destruct (lo_parent _ _ _ _ (uo_links _ _ _ Hu i g ltac:(lia) Hg))
      as (p & gp & Hp' & _). congruence. }
  split; [|split; [|split; [|split]]].
  - split.
    + intros i g c Hg. by apply (go_children _ _ _ (uo_groups _ _ _ Hu i g
                                   ltac:(lia) Hg)).
    + intros i g Hg. by apply (go_nodup _ _ _ (uo_groups _ _ _ Hu i g
                                 ltac:(lia) Hg)).
    + intros i g p Hg Hp. destruct (decide (i = 0)) as [->|Hne].
      * rewrite Hg0 in Hg. injection Hg as <-. simpl in HP. congruence.
      * destruct (lo_parent _ _ _ _ (uo_links _ _ _ Hu i g ltac:(lia) Hg))
          as (p' & gp & Hp' & Hlt & _). rewrite Hp in Hp'.
        injection Hp' as <-. lia.
    + intros i g p gp Hg Hp Hgp Hne. destruct (decide (i = 0)) as [->|Hi].
      * rewrite Hg0 in Hg. injection Hg as <-. simpl in HP. congruence.
      * destruct (lo_parent _ _ _ _ (uo_links _ _ _ Hu i g ltac:(lia) Hg))
          as (p' & gp' & Hp' & _ & Hgp' & Hatt). rewrite Hp in Hp'.
        injection Hp' as <-. rewrite Hgp in Hgp'. injection Hgp' as <-.
        by apply Hatt.
    + intros i g r Hg. by apply (go_runs _ _ _ (uo_groups _ _ _ Hu i g
                                   ltac:(lia) Hg)).
    + intros i g Hg. by apply (go_runs_nodup _ _ _ (uo_groups _ _ _ Hu i g
                                 ltac:(lia) Hg)).
    + intros r c Hc.
      by destruct (ro_group _ _ _ _ (uo_runs _ _ _ Hu r c ltac:(lia) Hc)).
    + by rewrite (gr_held _ _ _ Hgr).
  - split.
    + intros i g Hg. by apply (go_fresh _ _ _ (uo_groups _ _ _ Hu i g
                                 ltac:(lia) Hg)).
    + intros r c Hc. by apply (ro_fresh _ _ _ _ (uo_runs _ _ _ Hu r c
                                 ltac:(lia) Hc)).
  - intros i g c Hi Hg Hc.
    destruct (lo_pruned _ _ _ _ (uo_links _ _ _ Hu i g Hi Hg) c Hc)
      as (n & Hn & Hpos).
    exists n. unfold ControlRunCount. by rewrite Hn.
  - by rewrite (gr_trace _ _ _ Hgr).
  - exists g0. simpl in HP, HI, Hlen0. done.
Qed.

(** ** Lookups *)

Lemma find_group_spec h name gs :
  Forall (fun c => is_Some (h !! c)) gs ->
  find_group h name gs = Some (List.find (group_named h name) gs).
Proof.
  induction 1 as [|c gs [g Hg] _ IH]; [done|].
  simpl. unfold group_named at 1. rewrite Hg.
  destruct (String.eqb (GroupId g) name); [done|]. apply IH.
Qed.

Lemma find_run_spec rs name cs :
  Forall (fun r => is_Some (rs !! r)) cs ->
  find_run rs name cs = Some (List.find (run_named rs name) cs).
Proof.
  induction 1 as [|r cs [c Hc] _ IH]; [done|].
  simpl. unfold run_named at 1. rewrite Hc.
  destruct (String.eqb _ name); [done|]. apply IH.
Qed.

Lemma find_app_list {A} (f : A -> bool) l1 l2 :
  List.find f (l1 ++ l2) =
  match List.find f l1 with
  | Some x => Some x
  | None => List.find f l2
  end.
Proof.
  induction l1 as [|a l1 IH]; [done|]. simpl. by destruct (f a).
Qed.

Lemma find_child_group_spec (rec : loc -> option (option loc))
    (pre : loc -> option (list loc)) h name gs ds :
  Forall (fun c => is_Some (h !! c)) gs ->
  (forall c below, c ∈ gs -> pre c = Some below ->
                   rec c = Some (List.find (group_named h name) below)) ->
  preorder_groups pre gs = Some ds ->
  find_child_group rec h name gs = Some (List.find (group_named h name) ds).
Proof.
  intros Hall. revert ds. induction Hall as [|c gs [g Hg] _ IH];
    intros ds Hrec Hds.
  - by injection Hds as <-.
  - simpl in Hds.
    destruct (pre c) as [below|] eqn:Hbelow; [|done].
    destruct (preorder_groups pre gs) as [rest|] eqn:Hrest; [|done].
    injection Hds as <-. simpl. unfold group_named at 1. rewrite Hg.
    destruct (String.eqb (GroupId g) name); [done|].
    rewrite (Hrec c below); [|left|done].
    rewrite find_app_list.
    destruct (List.find (group_named h name) below); [done|].
    apply IH; [|done]. intros c' below' Hc'. apply Hrec. by right.
Qed.

Lemma GetChildGroupByName_fuel_spec h name fuel r ds :
  (forall i g c, h !! i = Some g -> c ∈ Groups g -> is_Some (h !! c)) ->
  descendants_fuel fuel h r = Some ds ->
  GetChildGroupByName_fuel fuel h name r =
    Some (List.find (group_named h name) ds).
Proof.
  intros Halloc. revert r ds. induction fuel as [|fuel IH]; intros r ds; [done|].
  simpl. destruct (h !! r) as [g|] eqn:Hg; [|done]. intros Hds.
  eapply find_child_group_spec; [|by intros; apply IH|exact Hds].
  apply Forall_forall. intros c Hc. by eapply Halloc.
Qed.

Lemma preorder_groups_total (pre : loc -> option (list loc)) gs :
  (forall c, c ∈ gs -> is_Some (pre c)) -> is_Some (preorder_groups pre gs).
Proof.
  induction gs as [|c gs IH]; intros Hpre; [by eexists|].
  simpl. destruct (Hpre c) as [below ->]; [left|].
  destruct IH as [rest ->]; [|by eexists].
  intros c' Hc'. apply Hpre. by right.
Qed.

Lemma descendants_total h fuel r :
  (forall i g, r <= i -> h !! i = Some g ->
               forall y, y ∈ Groups g -> i < y < length h) ->
  r < length h -> length h - r <= fuel ->
  is_Some (descendants_fuel fuel h r).
Proof.
  revert r. induction fuel as [|fuel IH]; intros r Hup Hr Hfuel; [lia|].
  simpl. destruct (lookup_lt_is_Some_2 _ _ Hr) as [g Hg]. rewrite Hg.
  apply preorder_groups_total. intros y Hy.
  destruct (Hup r g (le_n _) Hg y Hy) as [Hry Hylen].
  apply IH; [|done|lia]. intros i gi Hi. apply Hup. lia.
Qed.

Lemma wf_child_allocated w i g c :
  wf_tree w -> groups w !! i = Some g -> c ∈ Groups g ->
  i < c < length (groups w).
Proof.
  intros Hwf Hg Hc.
  destruct (wf_children _ Hwf _ _ _ Hg Hc) as [Hlt (gc & Hgc & _)].
  split; [done|]. by eapply lookup_lt_Some.
Qed.

(** ** The lookups *)

(** C10. The three lookups return and leave the tree as it is.
    [GetGroupByName] gives the first child group with that GroupId,
    [GetChildGroupByName] the first group with that GroupId among the
    descendants in depth-first pre-order, [GetControlRunByName] the first
    direct run whose control has that name; each gives nil when there is
    none. *)
Theorem C10_lookups_pure_total (w : World) (r : loc) (g : ResultGroup)
    (name : string) :
  wf_tree w -> groups w !! r = Some g ->
  GetGroupByName r name w =
    Some (List.find (group_named (groups w) name) (Groups g), w) /\
  (exists ds,
      descendants (groups w) r = Some ds /\
      GetChildGroupByName r name w =
        Some (List.find (group_named (groups w) name) ds, w)) /\
  GetControlRunByName r name w =
    Some (List.find (run_named (runs w) name) (ControlRuns g), w).
Proof.
  intros Hwf Hg. split; [|split].
  - unfold GetGroupByName, bind, getGroup. rewrite Hg.
    rewrite find_group_spec; [done|].
    apply Forall_forall. intros c Hc.
    destruct (wf_children _ Hwf _ _ _ Hg Hc) as [_ (gc & -> & _)]. by eexists.
  - destruct (descendants_total (groups w) (length (groups w)) r) as [ds Hds].
    + intros i gi _ Hgi y Hy. by eapply wf_child_allocated.
    + by eapply lookup_lt_Some.
    + lia.
    + exists ds. split; [done|]. unfold GetChildGroupByName.
      rewrite (GetChildGroupByName_fuel_spec _ _ _ _ ds); [done| |done].
      intros i gi c Hgi Hc.
      destruct (wf_children _ Hwf _ _ _ Hgi Hc) as [_ (gc & -> & _)].
      by eexists.
  - unfold GetControlRunByName, bind, getGroup. rewrite Hg.
    rewrite find_run_spec; [done|].
    apply Forall_forall. intros x Hx.
    destruct (wf_runs _ Hwf _ _ _ Hg Hx) as (c & -> & _). by eexists.
Qed.

Lemma sample_built_ok :
  NewRootResultGroup sample.tree sample.items empty_world =
    Some (0, sample.built) /\
  wf_tree sample.built /\ fresh sample.built.
Proof.
  destruct (NewRootResultGroup_ok sample.tree sample.items)
    as (w & Hbuild & Hwf & Hfresh & _).
  assert (sample.built = w) as ->.
  { unfold sample.built, sample.after. rewrite Hbuild. reflexivity. }
  split; [exact Hbuild|]. split; [exact Hwf|exact Hfresh].
Qed.

Lemma C10_lookups_pure_total_witness :
  GetGroupByName 0 "aws.benchmark.b2" sample.built =
    Some (Some 3, sample.built) /\
  GetChildGroupByName 0 "aws.benchmark.nested" sample.built =
    Some (None, sample.built) /\
  GetControlRunByName 1 "aws.control.c2" sample.built =
    Some (Some 1, sample.built).
Proof.
  destruct sample_built_ok as (_ & Hwf & _).
  split; [|split].
  - destruct (C10_lookups_pure_total sample.built 0
                (default root_group (groups sample.built !! 0))
                "aws.benchmark.b2" Hwf ltac:(by vm_compute)) as (H & _). exact H.
  - destruct (C10_lookups_pure_total sample.built 0
                (default root_group (groups sample.built !! 0))
                "aws.benchmark.nested" Hwf ltac:(by vm_compute)) as (_ & (ds & Hds & H) & _).
    rewrite H. vm_compute in Hds. injection Hds as <-.
    vm_compute. reflexivity.
  - destruct (C10_lookups_pure_total sample.built 1
                (default root_group (groups sample.built !! 1))
                "aws.control.c2" Hwf ltac:(by vm_compute)) as (_ & _ & H). exact H.
Defined.

(** ** The built tree *)

(** C4 (the code departs from it). [NewResultGroup] works out the short
    name for a node of the workspace mod but builds the group with the full
    name: the GroupId of the group it returns is always [treeItem.Name()].
    In the sample workspace the benchmark "aws.benchmark.b1", defined in the
    workspace mod "aws", keeps its qualified name, not "benchmark.b1". *)
Theorem C4_GroupId_is_full_name :
  (forall executionTree treeItem parent w,
      exists w' g,
        NewResultGroup executionTree treeItem parent w =
          Some (length (groups w), w') /\
        groups w' !! length (groups w) = Some g /\
        GroupId g = modconfig.Name treeItem) /\
  modconfig.GetMod (modconfig.BenchmarkItem (sample.item "aws.benchmark.b1") []) =
    Some (WsMod (workspace sample.tree)) /\
  modconfig.UnqualifiedResourceName "aws.benchmark.b1" = "benchmark.b1" /\
  GroupId <$> groups sample.built !! 1 = Some "aws.benchmark.b1".
Proof.
  split; [|by vm_compute].
  intros executionTree treeItem parent w.
  destruct (NewResultGroup_builds treeItem executionTree parent w)
    as (w' & Hnew & Hb).
  destruct (bt_root _ _ _ _ Hb) as (g & Hg & _ & Hid).
  by exists w', g.
Qed.

(** C3, as stated, fails: in the sample workspace the benchmark b2 has no
    control, and it is a child of the root. *)
Lemma C3_empty_group_under_root : ~ pruned_everywhere sample.built.
Proof.
  intros H.
  destruct (H 0 (default root_group (groups sample.built !! 0)) 3)
    as (n & Hn & Hpos); [by vm_compute|by vm_compute; set_solver|].
  vm_compute in Hn. injection Hn as <-. lia.
Qed.

(** ** Locks along the chain *)

Lemma locks_after_app held tr1 tr2 :
  locks_after held (tr1 ++ tr2) = locks_after (locks_after held tr1) tr2.
Proof.
  revert held. induction tr1 as [|[l|l] tr1 IH]; intros held; simpl; auto.
Qed.

Lemma max_held_app held tr1 tr2 :
  max_held held (tr1 ++ tr2) =
  max_held held tr1 `max` max_held (locks_after held tr1) tr2.
Proof.
  revert held. induction tr1 as [|[l|l] tr1 IH]; intros held; simpl.
  - destruct tr2 as [|[l|l] tr2]; simpl; lia.
  - rewrite IH. lia.
  - rewrite IH. lia.
Qed.

Lemma max_held_ge held tr : length held <= max_held held tr.
Proof. destruct tr as [|[l|l] tr]; simpl; lia. Qed.

Lemma lock_pattern_cons l chain :
  lock_pattern (l :: chain) = EvLock l :: lock_pattern chain ++ [EvUnlock l].
Proof.
  unfold lock_pattern. rewrite reverse_cons, fmap_app. simpl.
  by rewrite <-(assoc_L (++)).
Qed.

(** Along a chain the locks are taken one inside the other: at the root
    all of them are held, and at the end none is left. *)
Lemma lock_pattern_held held chain :
  NoDup chain -> (forall x, x ∈ chain -> x ∉ held) ->
  locks_after held (lock_pattern chain) = held /\
  max_held held (lock_pattern chain) = length held + length chain.
Proof.
  revert held. induction chain as [|l chain IH]; intros held Hnd Hdisj.
  - simpl. split; [done|]. lia.
  - apply NoDup_cons in Hnd as [Hl Hnd].
    rewrite lock_pattern_cons. simpl.
    destruct (IH (l :: held) Hnd) as [Hafter Hmax].
    { intros x Hx. apply not_elem_of_cons. split.
      - intros ->. done.
      - apply Hdisj. by right. }
    rewrite locks_after_app, max_held_app, Hafter, Hmax. simpl.
    rewrite filter_cons_False by (intros H; by apply H).
    rewrite filter_ne_id by (apply Hdisj; left).
    split; [done|]. pose proof (length_filter (λ x, x ≠ l) held). lia.
Qed.

(** C9, as stated, fails: updating the summary of b1 in the sample
    workspace locks b1, then the root while b1 is still locked. *)
Lemma C9_two_locks_held :
  trace (sample.after (updateSummary 1 sample.one_alarm) sample.built) =
    [EvLock 1; EvLock 0; EvUnlock 0; EvUnlock 1] /\
  ~ one_lock_at_a_time
      (trace (sample.after (updateSummary 1 sample.one_alarm) sample.built)).
Proof.
  split; [by vm_compute|]. unfold one_lock_at_a_time. vm_compute. lia.
Qed.

(** C9, amended. Each of the four aggregation methods locks the group,
    keeps the lock while it calls itself on the parent, and unlocks on
    return: the locks are taken from the group up to the root, released in
    the opposite order, all of them are held at once when the root is
    reached, and none is held afterwards. *)
Theorem C9_locks_nested_along_chain (w : World) (l : loc)
    (summary : StatusSummary) (severity : string) (d : Z)
    (keys : list string) :
  wf_tree w -> l < length (groups w) -> in_int d ->
  let chain := ancestors (groups w) l in
  (forall m : M unit,
      m = updateSummary l summary \/
      m = updateSeverityCounts l severity summary \/
      m = addDuration l d \/ m = addDimensionKeys l keys ->
      exists w',
        m w = Some (tt, w') /\ held w' = [] /\
        trace w' = trace w ++ (EvLock <$> chain) ++ (EvUnlock <$> reverse chain)) /\
  max_held [] ((EvLock <$> chain) ++ (EvUnlock <$> reverse chain)) =
    length chain /\
  locks_after [] ((EvLock <$> chain) ++ (EvUnlock <$> reverse chain)) = [].
Proof.
  intros Hwf Hl Hd chain.
  pose proof (wf_parents_below _ Hwf) as Hpb.
  pose proof (wf_unlocked _ Hwf) as Hheld.
  split; [|].
  - intros m [->|[->|[->| ->]]].
    + rewrite updateSummary_spec by done. eexists. by split.
    + rewrite updateSeverityCounts_spec by done. eexists. by split.
    + rewrite addDuration_spec by done. eexists. by split.
    + rewrite addDimensionKeys_spec by done. eexists. by split.
  - destruct (lock_pattern_held [] chain) as [Hafter Hmax].
    + by apply ancestors_NoDup.
    + intros x _. apply not_elem_of_nil.
    + split; [exact Hmax|exact Hafter].
Qed.

Lemma C9_locks_nested_along_chain_witness :
  max_held [] ((EvLock <$> ancestors (groups sample.built) 1) ++
               (EvUnlock <$> reverse (ancestors (groups sample.built) 1))) =
    length (ancestors (groups sample.built) 1).
Proof.
  destruct sample_built_ok as (_ & Hwf & _).
  destruct (C9_locks_nested_along_chain sample.built 1 sample.one_alarm "high"
              600000 ["region"] Hwf) as (_ & H & _).
  - vm_compute. lia.
  - by vm_compute.
  - exact H.
Defined.

(** ** Durations *)

Lemma after_chain_wf f l w :
  shape_preserving f -> wf_tree w -> wf_tree (after_chain f l w).
Proof.
  intros Hf Hwf. eapply same_shape_wf; [|done].
  apply after_chain_same_shape; [done|by apply wf_parents_below].
Qed.

Lemma repeat_addDuration l d N :
  in_int d ->
  forall w,
    wf_tree w -> l < length (groups w) ->
    exists wN,
      repeat_call N (addDuration l d) w = Some (tt, wN) /\
      forall i g,
        i ∈ ancestors (groups w) l -> groups w !! i = Some g ->
        in_int (Duration g) ->
        exists gN,
          groups wN !! i = Some gN /\
          Duration gN =
            wrap_int (Duration g + Z.of_nat N * time.Round d time.Millisecond).
Proof.
  intros Hd. induction N as [|N IH]; intros w Hwf Hl.
  - exists w. split; [done|]. intros i g _ Hg Hin. exists g. split; [done|].
    simpl. rewrite Z.add_0_r. by rewrite wrap_int_id.
  - pose proof (wf_parents_below _ Hwf) as Hpb.
    set (R := time.Round d time.Millisecond).
    set (w1 := after_chain (add_duration R) l w).
    destruct (IH w1) as (wN & Hrun & Hdur).
    { by apply after_chain_wf. }
    { unfold w1. by rewrite after_chain_length. }
    exists wN. split.
    { simpl. unfold bind. rewrite addDuration_spec; try done.
      by apply wf_unlocked. }
    intros i g Hi Hg Hin.
    destruct (Hdur i (add_duration R g)) as (gN & HgN & HD).
    { unfold w1. by rewrite after_chain_ancestors. }
    { unfold w1. rewrite after_chain_lookup by done.
      rewrite decide_True by done. by rewrite Hg. }
    { apply int_add_in_int. }
    exists gN. split; [done|]. rewrite HD. simpl. unfold int_add.
    rewrite wrap_int_add_l. f_equal. fold R. lia.
Qed.

(** C7. [addDuration] adds the duration rounded to the millisecond to the
    group and to every ancestor; what it hands to the parent is the rounded
    value, which rounding again leaves unchanged. So after N runs of
    duration d under a group whose duration was not negative, the group
    has at least N times the rounded d (exactly that much more than
    before, as long as the total fits a Duration). *)
Theorem C7_duration_rounded_before_sum (w : World) (l : loc) (d : Z) :
  wf_tree w -> l < length (groups w) -> in_int d ->
  let R := time.Round d time.Millisecond in
  time.Round R time.Millisecond = R /\
  (exists w',
      addDuration l d w = Some (tt, w') /\
      forall i g,
        groups w !! i = Some g ->
        exists g',
          groups w' !! i = Some g' /\
          Duration g' =
            if decide (i ∈ ancestors (groups w) l)
            then int_add (Duration g) R
            else Duration g) /\
  forall N : nat,
    exists wN,
      repeat_call N (addDuration l d) w = Some (tt, wN) /\
      forall i g,
        i ∈ ancestors (groups w) l -> groups w !! i = Some g ->
        in_int (Duration g) -> in_int (Duration g + Z.of_nat N * R) ->
        exists gN,
          groups wN !! i = Some gN /\
          Duration gN = (Duration g + Z.of_nat N * R)%Z /\
          (0 <= Duration g -> Z.of_nat N * R <= Duration gN)%Z.
Proof.
  intros Hwf Hl Hd R.
  pose proof (wf_parents_below _ Hwf) as Hpb.
  split; [by apply Round_idempotent|]. split.
  - eexists. split; [apply addDuration_spec; try done; by apply wf_unlocked|].
    intros i g Hg. rewrite after_chain_lookup by done. rewrite Hg.
    case_decide; by eexists.
  - intros N. destruct (repeat_addDuration l d N Hd w Hwf Hl) as (wN & Hrun & Hdur).
    exists wN. split; [done|]. intros i g Hi Hg Hin Hfit.
    destruct (Hdur i g Hi Hg Hin) as (gN & HgN & HD).
    exists gN. split; [done|]. rewrite HD, wrap_int_id by done.
    split; [done|]. fold R. lia.
Qed.

Lemma C7_duration_rounded_before_sum_witness :
  exists wN,
    repeat_call 2 (addDuration 1 600000) sample.built = Some (tt, wN) /\
    exists gN, groups wN !! 0 = Some gN /\ Duration gN = 2000000%Z.
Proof.
  destruct sample_built_ok as (_ & Hwf & _).
  destruct (C7_duration_rounded_before_sum sample.built 1 600000 Hwf)
    as (_ & _ & HN).
  - vm_compute. lia.
  - by_compute.
  - destruct (HN 2) as (wN & Hrun & Hdur). exists wN. split; [exact Hrun|].
    destruct (Hdur 0 (default root_group (groups sample.built !! 0)))
      as (gN & HgN & HD & _).
    + replace (ancestors (groups sample.built) 1) with [1; 0]
        by (vm_compute; reflexivity).
      apply elem_of_cons. right. apply elem_of_cons. left. reflexivity.
    + by_compute.
    + by_compute.
    + by_compute.
    + exists gN. split; [exact HgN|]. rewrite HD. by_compute.
Defined.

(** ** Quiescence *)

Lemma built_quiet executionTree rootItems root w0 :
  NewRootResultGroup executionTree rootItems empty_world = Some (root, w0) ->
  quiet w0.
Proof.
  intros Hbuild.
  destruct (NewRootResultGroup_ok executionTree rootItems)
    as (w' & Hbuild' & Hwf & Hfresh & _).
  rewrite Hbuild in Hbuild'. injection Hbuild' as _ ->.
  by apply fresh_quiet.
Qed.

(** C8. [addDimensionKeys] appends the keys to the group's list, hands the
    same keys to the parent, and only then removes the duplicates from the
    group's own list and sorts it: every group on the chain ends with the
    sorted, duplicate-free list of its old keys and the new ones. So in
    every state that completions lead to from a built tree, the
    DimensionKeys of every group are sorted, without duplicates, and are
    exactly the keys of the runs of its subtree. *)
Theorem C8_dimension_keys (executionTree : ExecutionTree)
    (rootItems : list modconfig.ModTreeItem) (root : loc) (w0 w : World) :
  NewRootResultGroup executionTree rootItems empty_world = Some (root, w0) ->
  rtc completes w0 w ->
  keys_inv w /\
  forall l keys,
    l < length (groups w) ->
    (forall fuel w1,
        addDimensionKeys_fuel fuel l keys w1 =
        upward_fuel
          (fun g => with_DimensionKeys (DimensionKeys g ++ keys) g)
          (fun g => with_DimensionKeys
                      (sort.Strings
                         (utils.StringSliceDistinct (DimensionKeys g))) g)
          fuel l w1) /\
    exists w',
      addDimensionKeys l keys w = Some (tt, w') /\
      forall i g,
        groups w !! i = Some g ->
        exists g',
          groups w' !! i = Some g' /\
          DimensionKeys g' =
            if decide (i ∈ ancestors (groups w) l)
            then sort.Strings
                   (utils.StringSliceDistinct (DimensionKeys g ++ keys))
            else DimensionKeys g.
Proof.
  intros Hbuild Hrtc.
  pose proof (rtc_completes_quiet _ _ (built_quiet _ _ _ _ Hbuild) Hrtc)
    as [Hwf _ Hkeys _].
  split; [done|]. intros l keys Hl.
  pose proof (wf_parents_below _ Hwf) as Hpb.
  split; [intros; apply addDimensionKeys_upward|].
  eexists. split; [apply addDimensionKeys_spec; try done; by apply wf_unlocked|].
  intros i g Hg. rewrite after_chain_lookup by done. rewrite Hg.
  case_decide; by eexists.
Qed.

(** C1. In every state that completions lead to from a built tree, the
    Status of every group is the field-wise sum of the summaries of its
    direct control runs and of the Status of its child groups; any run
    that has not finished can still complete; and [updateSummary] adds a
    summary once to the receiver and to each of its ancestors, and to no
    other group. *)
Theorem C1_summary_is_sum_of_parts (executionTree : ExecutionTree)
    (rootItems : list modconfig.ModTreeItem) (root : loc) (w0 w : World) :
  NewRootResultGroup executionTree rootItems empty_world = Some (root, w0) ->
  rtc completes w0 w ->
  summary_inv w /\
  (forall run c summary d keys,
      runs w !! run = Some c -> in_int d ->
      exists w', complete_run run summary d keys w = Some (tt, w')) /\
  forall l summary,
    l < length (groups w) ->
    exists w',
      updateSummary l summary w = Some (tt, w') /\
      forall i,
        status_of w' i =
          if decide (i ∈ ancestors (groups w) l)
          then controlstatus.add (status_of w i) summary
          else status_of w i.
Proof.
  intros Hbuild Hrtc.
  pose proof (rtc_completes_quiet _ _ (built_quiet _ _ _ _ Hbuild) Hrtc)
    as [Hwf Hsum _ _].
  pose proof (wf_parents_below _ Hwf) as Hpb.
  split; [done|]. split.
  - intros run c summary d keys Hc Hd. eexists. by apply complete_run_spec.
  - intros l summary Hl. eexists.
    split; [apply updateSummary_spec; try done; by apply wf_unlocked|].
    intros i. unfold status_of. rewrite after_chain_lookup by done.
    case_decide as Hi; [|done].
    destruct (ancestors_allocated _ _ _ Hpb Hi) as [g ->]. done.
Qed.

Lemma sample_completions : rtc completes sample.built sample.both_done.
Proof.
  apply (rtc_l _ _ sample.first_done).
  - apply (completes_intro _ _ 0
             (default (mkControlRun
                         (modconfig.mkControl (sample.item EmptyString) EmptyString)
                         controlstatus.zero RunReady [] None 0 0)
                (runs sample.built !! 0))
             sample.one_alarm 600000 ["region"]).
    + vm_compute. reflexivity.
    + left. vm_compute. reflexivity.
    + by_compute.
    + by_compute.
    + vm_compute. reflexivity.
  - apply rtc_once.
    apply (completes_intro _ _ 1
             (default (mkControlRun
                         (modconfig.mkControl (sample.item EmptyString) EmptyString)
                         controlstatus.zero RunReady [] None 0 0)
                (runs sample.first_done !! 1))
             sample.one_alarm 600000 ["account_id"]).
    + vm_compute. reflexivity.
    + left. vm_compute. reflexivity.
    + by_compute.
    + by_compute.
    + vm_compute. reflexivity.
Qed.

Lemma sample_build :
  NewRootResultGroup sample.tree sample.items empty_world =
    Some (0, sample.built).
Proof. vm_compute. reflexivity. Qed.

Lemma C1_summary_is_sum_of_parts_witness : summary_inv sample.both_done.
Proof.
  apply (C1_summary_is_sum_of_parts sample.tree sample.items 0 sample.built
           sample.both_done sample_build sample_completions).
Defined.

Lemma C8_dimension_keys_witness : keys_inv sample.both_done.
Proof.
  apply (C8_dimension_keys sample.tree sample.items 0 sample.built
           sample.both_done sample_build sample_completions).
Defined.

(** C2 (the code departs from it). [updateSeverityCounts] reads the old
    counts from [r.Severity] and stores the new ones in
    [r.Summary.Severity]; nothing writes [r.Severity], so every call starts
    from zero and replaces the entry. In the sample workspace two runs of
    severity "high" finish with one alarm each: Status counts two alarms,
    the entry for "high" counts one, in b1 and in the root. *)
Theorem C2_severity_entry_overwritten :
  sample.severity_at sample.first_done 1 "high" = Some sample.one_alarm /\
  sample.severity_at sample.both_done 1 "high" = Some sample.one_alarm /\
  sample.severity_at sample.both_done 0 "high" = Some sample.one_alarm /\
  status_of sample.both_done 1 = controlstatus.mkStatusSummary 2 0 0 0 0 /\
  status_of sample.both_done 0 = controlstatus.mkStatusSummary 2 0 0 0 0.
Proof. by_compute. Qed.

(** The general form of C2's defect: the stored entry is the sum of the
    summary and of the entry of [r.Severity], which the method leaves as
    it was. *)
Lemma updateSeverityCounts_replaces w l severity summary :
  wf_tree w -> l < length (groups w) ->
  exists w',
    updateSeverityCounts l severity summary w = Some (tt, w') /\
    forall i g,
      i ∈ ancestors (groups w) l -> groups w !! i = Some g ->
      exists g',
        groups w' !! i = Some g' /\ Severity g' = Severity g /\
        GroupSummary.Severity (Summary g') !! severity =
          Some (controlstatus.add
                  (default controlstatus.zero (Severity g !! severity))
                  summary).
Proof.
  intros Hwf Hl. pose proof (wf_parents_below _ Hwf) as Hpb.
  eexists. split.
  { apply updateSeverityCounts_spec; try done. by apply wf_unlocked. }
  intros i g Hi Hg. rewrite after_chain_lookup by done.
  rewrite decide_True by done. rewrite Hg. eexists. split; [done|].
  split; [done|]. simpl. apply lookup_insert_eq.
Qed.

(** ** Groups below a group *)

Lemma preorder_groups_ext (rec rec' : loc -> option (list loc)) gs :
  (forall c, c ∈ gs -> rec c = rec' c) ->
  preorder_groups rec gs = preorder_groups rec' gs.
Proof.
  induction gs as [|c gs IH]; intros H; [done|]. simpl.
  rewrite (H c) by left. rewrite IH; [done|].
  intros c' Hc'. apply H. by right.
Qed.

Lemma preorder_groups_elem (rec : loc -> option (list loc)) gs ds x :
  preorder_groups rec gs = Some ds ->
  x ∈ ds <-> exists c below, c ∈ gs /\ rec c = Some below /\ x ∈ c :: below.
Proof.
  revert ds. induction gs as [|c gs IH]; intros ds Hds.
  - injection Hds as <-. split.
    + by intros ?%elem_of_nil.
    + by intros (c & below & ?%elem_of_nil & _).
  - simpl in Hds.
    destruct (rec c) as [below|] eqn:Hbelow; [|done].
    destruct (preorder_groups rec gs) as [rest|] eqn:Hrest; [|done].
    injection Hds as <-.
    change (c :: below ++ rest) with ((c :: below) ++ rest).
    rewrite elem_of_app, (IH rest eq_refl). split.
    + intros [Hx|(c' & below' & Hc' & Hb' & Hx)].
      * exists c, below. split; [left|done].
      * exists c', below'. split; [by right|done].
    + intros (c' & below' & Hc' & Hb' & Hx).
      apply elem_of_cons in Hc' as [->|Hc'].
      * left. rewrite Hbelow in Hb'. by injection Hb' as <-.
      * right. by exists c', below'.
Qed.

Lemma preorder_groups_mono (rec rec' : loc -> option (list loc)) gs ds :
  (forall c below, c ∈ gs -> rec c = Some below -> rec' c = Some below) ->
  preorder_groups rec gs = Some ds -> preorder_groups rec' gs = Some ds.
Proof.
  revert ds. induction gs as [|c gs IH]; intros ds H Hds; [done|].
  simpl in *.
  destruct (rec c) as [below|] eqn:Hbelow; [|done].
  destruct (preorder_groups rec gs) as [rest|] eqn:Hrest; [|done].
  rewrite (H c below) by (done || left).
  rewrite (IH rest); [done| |done].
  intros c' b' Hc'. apply H. by right.
Qed.

Lemma descendants_fuel_mono h fuel fuel' r ds :
  fuel <= fuel' ->
  descendants_fuel fuel h r = Some ds -> descendants_fuel fuel' h r = Some ds.
Proof.
  revert fuel' r ds. induction fuel as [|fuel IH]; intros fuel' r ds Hle; [done|].
  destruct fuel' as [|fuel']; [lia|]. simpl.
  destruct (h !! r) as [g|]; [|done].
  apply preorder_groups_mono. intros c below _. apply IH. lia.
Qed.

Lemma descendants_allocated h r ds :
  descendants h r = Some ds -> is_Some (h !! r).
Proof.
  unfold descendants. destruct (length h); [done|]. simpl.
  by destruct (h !! r).
Qed.

Lemma descendants_wf w r :
  wf_tree w -> r < length (groups w) -> is_Some (descendants (groups w) r).
Proof.
  intros Hwf Hr. apply descendants_total; [|done|lia].
  intros i g _ Hg y Hy. by eapply wf_child_allocated.
Qed.

Lemma descendants_unfold w r g :
  wf_tree w -> groups w !! r = Some g ->
  descendants (groups w) r =
  preorder_groups (descendants (groups w)) (Groups g).
Proof.
  intros Hwf Hg. unfold descendants.
  pose proof (lookup_lt_Some _ _ _ Hg) as Hr.
  destruct (length (groups w)) as [|n] eqn:Hlen; [lia|].
  change (descendants_fuel (S n) (groups w) r)
    with (match groups w !! r with
          | Some g => preorder_groups (descendants_fuel n (groups w)) (Groups g)
          | None => None
          end).
  rewrite Hg. apply preorder_groups_ext. intros c Hc.
  destruct (wf_child_allocated _ _ _ _ Hwf Hg Hc) as [Hrc Hclen].
  destruct (descendants_total (groups w) n c) as [ds Hds]; [|done|lia|].
  { intros i gi _ Hgi y Hy. by eapply wf_child_allocated. }
  rewrite Hds. symmetry. by eapply descendants_fuel_mono; [|exact Hds]; lia.
Qed.

(** Induction from the leaves of a well-formed tree upward. *)
Lemma wf_tree_down_ind w (P : loc -> Prop) :
  wf_tree w ->
  (forall r g, groups w !! r = Some g ->
               (forall c, c ∈ Groups g -> P c) -> P r) ->
  forall r, r < length (groups w) -> P r.
Proof.
  intros Hwf Hstep.
  assert (forall n r, length (groups w) - r <= n -> r < length (groups w) ->
                      P r) as Hgen.
  { induction n as [|n IH]; intros r Hn Hr; [lia|].
    destruct (lookup_lt_is_Some_2 _ _ Hr) as [g Hg].
    apply (Hstep r g Hg). intros c Hc.
    destruct (wf_child_allocated _ _ _ _ Hwf Hg Hc) as [Hrc Hclen].
    apply IH; lia. }
  intros r Hr. by apply (Hgen (length (groups w))); [lia|].
Qed.

Lemma descendants_elem w r g ds x :
  wf_tree w -> groups w !! r = Some g -> descendants (groups w) r = Some ds ->
  x ∈ ds <-> exists c below, c ∈ Groups g /\
                             descendants (groups w) c = Some below /\
                             x ∈ c :: below.
Proof.
  intros Hwf Hg Hds. rewrite (descendants_unfold _ _ _ Hwf Hg) in Hds.
  by apply preorder_groups_elem.
Qed.

(** A group below [r] has [r] on its chain of parents. *)
Lemma descendants_ancestors w r ds x :
  wf_tree w -> descendants (groups w) r = Some ds -> x ∈ ds ->
  r < x /\ r ∈ ancestors (groups w) x.
Proof.
  intros Hwf Hds.
  destruct (descendants_allocated _ _ _ Hds) as [g0 Hg0].
  pose proof (lookup_lt_Some _ _ _ Hg0) as Hr.
  revert ds x Hds. clear g0 Hg0. revert r Hr.
  apply (wf_tree_down_ind w
           (fun r => forall ds x, descendants (groups w) r = Some ds ->
                                  x ∈ ds -> r < x /\ r ∈ ancestors (groups w) x));
    [done|].
  intros r g Hg IH ds x Hds Hx.
  apply (descendants_elem _ _ _ _ _ Hwf Hg Hds) in Hx
    as (c & below & Hc & Hbelow & Hx).
  destruct (wf_children _ Hwf _ _ _ Hg Hc) as [Hrc (gc & Hgc & Hpc)].
  pose proof (wf_parents_below _ Hwf) as Hpb.
  apply elem_of_cons in Hx as [->|Hx].
  - split; [done|]. rewrite (ancestors_unfold _ _ _ Hpb Hgc), Hpc.
    right. apply ancestors_self. by eexists.
  - destruct (IH c Hc below x Hbelow Hx) as [Hcx Hanc].
    split; [lia|]. by eapply chain_parent_closed.
Qed.

(** The groups below [r] are closed under taking children. *)
Lemma descendants_closed w r ds p gp j :
  wf_tree w -> descendants (groups w) r = Some ds ->
  p ∈ r :: ds -> groups w !! p = Some gp -> j ∈ Groups gp -> j ∈ ds.
Proof.
  intros Hwf Hds.
  destruct (descendants_allocated _ _ _ Hds) as [g0 Hg0].
  pose proof (lookup_lt_Some _ _ _ Hg0) as Hr.
  revert ds p gp j Hds. clear g0 Hg0. revert r Hr.
  apply (wf_tree_down_ind w
           (fun r => forall ds p gp j,
                       descendants (groups w) r = Some ds ->
                       p ∈ r :: ds -> groups w !! p = Some gp ->
                       j ∈ Groups gp -> j ∈ ds));
    [done|].
  intros r g Hg IH ds p gp j Hds Hp Hgp Hj.
  apply elem_of_cons in Hp as [->|Hp].
  - rewrite Hg in Hgp. injection Hgp as <-.
    destruct (wf_child_allocated _ _ _ _ Hwf Hg Hj) as [_ Hjlen].
    destruct (descendants_wf _ _ Hwf Hjlen) as [below Hbelow].
    apply (descendants_elem _ _ _ _ _ Hwf Hg Hds).
    exists j, below. split; [done|]. split; [done|left].
  - apply (descendants_elem _ _ _ _ _ Hwf Hg Hds) in Hp
      as (c & below & Hc & Hbelow & Hp).
    apply (descendants_elem _ _ _ _ _ Hwf Hg Hds).
    exists c, below. split; [done|]. split; [done|]. right.
    by eapply (IH c Hc below p gp j).
Qed.

(** A group that holds a run or a child group, and has [r] on its chain of
    parents, is [r] or below [r]. *)
Lemma ancestors_descendants w r ds j gj :
  wf_tree w -> descendants (groups w) r = Some ds ->
  groups w !! j = Some gj -> nonempty gj ->
  r ∈ ancestors (groups w) j -> j ∈ r :: ds.
Proof.
  intros Hwf Hds. pose proof (wf_parents_below _ Hwf) as Hpb.
  revert gj. induction (lt_wf j) as [j _ IH]. intros gj Hgj Hne Hanc.
  rewrite (ancestors_unfold _ _ _ Hpb Hgj) in Hanc.
  apply elem_of_cons in Hanc as [->|Hanc]; [left|].
  destruct (Parent gj) as [p|] eqn:Hp; [|by apply elem_of_nil in Hanc].
  pose proof (wf_parent _ Hwf _ _ _ Hgj Hp) as Hpj.
  destruct (ancestors_allocated _ _ _ Hpb Hanc) as [gr Hgr].
  destruct (groups w !! p) as [gp|] eqn:Hgp.
  2:{ rewrite (ancestors_unallocated _ _ Hgp) in Hanc.
      by apply elem_of_nil in Hanc. }
  pose proof (wf_attached _ Hwf _ _ _ _ Hgj Hp Hgp Hne) as Hjp.
  right. eapply (descendants_closed w r ds p gp j); [done..| |done|done].
  apply (IH p Hpj gp Hgp); [|done].
  right. intros Hnil. rewrite Hnil in Hjp. by apply elem_of_nil in Hjp.
Qed.

Lemma preorder_groups_NoDup (rec : loc -> option (list loc)) gs ds :
  NoDup gs ->
  (forall c below, c ∈ gs -> rec c = Some below -> NoDup (c :: below)) ->
  (forall c1 c2 b1 b2 x,
      c1 ∈ gs -> c2 ∈ gs -> rec c1 = Some b1 -> rec c2 = Some b2 ->
      x ∈ c1 :: b1 -> x ∈ c2 :: b2 -> c1 = c2) ->
  preorder_groups rec gs = Some ds -> NoDup ds.
Proof.
  intros Hnd. revert ds. induction Hnd as [|c gs Hc Hnd IH];
    intros ds Hsub Hdisj Hds.
  - injection Hds as <-. apply NoDup_nil_2.
  - simpl in Hds.
    destruct (rec c) as [below|] eqn:Hbelow; [|done].
    destruct (preorder_groups rec gs) as [rest|] eqn:Hrest; [|done].
    injection Hds as <-.
    change (c :: below ++ rest) with ((c :: below) ++ rest).
    apply NoDup_app. split; [|split].
    + apply Hsub; [left|done].
    + intros x Hx Hx'.
      apply (preorder_groups_elem _ _ _ _ Hrest) in Hx'
        as (c' & below' & Hc' & Hb' & Hx').
      assert (c = c') as <-.
      { apply (Hdisj c c' below below' x); [left|by right|done..]. }
      done.
    + apply IH; [| |done].
      * intros c' b' Hc'. apply Hsub. by right.
      * intros c1 c2 b1 b2 x H1 H2. apply Hdisj; by right.
Qed.

(** No group is reached twice on the way down. *)
Lemma descendants_NoDup w r ds :
  wf_tree w -> descendants (groups w) r = Some ds -> NoDup (r :: ds).
Proof.
  intros Hwf Hds.
  destruct (descendants_allocated _ _ _ Hds) as [g0 Hg0].
  pose proof (lookup_lt_Some _ _ _ Hg0) as Hr.
  revert ds Hds. clear g0 Hg0. revert r Hr.
  apply (wf_tree_down_ind w
           (fun r => forall ds, descendants (groups w) r = Some ds ->
                                NoDup (r :: ds)));
    [done|].
  intros r g Hg IH ds Hds. pose proof (wf_parents_below _ Hwf) as Hpb.
  apply NoDup_cons. split.
  - intros Hin. destruct (descendants_ancestors _ _ _ _ Hwf Hds Hin). lia.
  - rewrite (descendants_unfold _ _ _ Hwf Hg) in Hds.
    eapply preorder_groups_NoDup; [|by intros; apply IH| |exact Hds].
    + by eapply wf_nodup.
    + intros c1 c2 b1 b2 x H1 H2 Hb1 Hb2 Hx1 Hx2.
      destruct (wf_children _ Hwf _ _ _ Hg H1) as [_ (g1 & Hg1 & Hp1)].
      destruct (wf_children _ Hwf _ _ _ Hg H2) as [_ (g2 & Hg2 & Hp2)].
      assert (forall c b, descendants (groups w) c = Some b -> x ∈ c :: b ->
                          c ∈ ancestors (groups w) x) as Hup.
      { intros c b Hb Hx. apply elem_of_cons in Hx as [->|Hx].
        - apply ancestors_self. by eapply descendants_allocated.
        - by destruct (descendants_ancestors _ _ _ _ Hwf Hb Hx). }
      eapply (chain_child_unique (groups w) x c1 c2 g1 g2 r); eauto.
Qed.

(** ** The runs of a subtree *)

Lemma walk_order_wf w r :
  wf_tree w -> r < length (groups w) -> is_Some (walk_order (groups w) r).
Proof.
  intros Hwf Hr. unfold walk_order.
  destruct (descendants_wf _ _ Hwf Hr) as [ds ->]. by eexists.
Qed.

Lemma elem_of_runs_of w i x :
  wf_tree w -> x ∈ runs_of (groups w) i ->
  exists g c, groups w !! i = Some g /\ x ∈ ControlRuns g /\
              runs w !! x = Some c /\ Group c = i.
Proof.
  intros Hwf. unfold runs_of.
  destruct (groups w !! i) as [g|] eqn:Hg; [|by intros ?%elem_of_nil].
  intros Hx. destruct (wf_runs _ Hwf _ _ _ Hg Hx) as (c & Hc & Hgc).
  by exists g, c.
Qed.

(** The walk order holds every run of the subtree, each of them once. *)
Lemma walk_order_spec w r order :
  wf_tree w -> walk_order (groups w) r = Some order ->
  NoDup order /\
  forall x, x ∈ order <->
            exists c, runs w !! x = Some c /\ in_subtree w r c.
Proof.
  intros Hwf. unfold walk_order.
  destruct (descendants (groups w) r) as [ds|] eqn:Hds; [|done].
  intros [= <-]. split.
  - apply (NoDup_bind (runs_of (groups w)) (r :: ds)).
    + intros i1 i2 x _ _ H1 H2.
      destruct (elem_of_runs_of w _ _ Hwf H1) as (g1 & c1 & _ & _ & Hc1 & <-).
      destruct (elem_of_runs_of w _ _ Hwf H2) as (g2 & c2 & _ & _ & Hc2 & <-).
      congruence.
    + intros i _. unfold runs_of.
      destruct (groups w !! i) as [g|] eqn:Hg; [|apply NoDup_nil_2].
      by eapply wf_runs_nodup.
    + by apply (descendants_NoDup w).
  - intros x.
    rewrite (list_elem_of_bind (runs_of (groups w)) x (r :: ds)). split.
    + intros (i & Hx & Hi).
      destruct (elem_of_runs_of w _ _ Hwf Hx) as (g & c & Hg & _ & Hc & <-).
      exists c. split; [done|]. unfold in_subtree.
      apply elem_of_cons in Hi as [Heq|Hi].
      * rewrite <- Heq. apply ancestors_self. by eexists.
      * by destruct (descendants_ancestors _ _ _ _ Hwf Hds Hi).
    + intros (c & Hc & Hin).
      destruct (wf_run_group _ Hwf _ _ Hc) as (g & Hg & Hx).
      exists (Group c). split.
      * unfold runs_of. by rewrite Hg.
      * eapply ancestors_descendants; [done..| |done].
        left. intros Hnil. rewrite Hnil in Hx. by apply elem_of_nil in Hx.
Qed.

(** ** Tag keys *)

(** ** Counting the runs of a subtree *)

Lemma count_groups_spec (rec : loc -> option nat)
    (pre : loc -> option (list loc)) h gs ds n0 :
  (forall c below, c ∈ gs -> pre c = Some below ->
                   rec c = Some (length ((c :: below) ≫= runs_of h))) ->
  preorder_groups pre gs = Some ds ->
  count_groups rec gs n0 = Some (n0 + length (ds ≫= runs_of h)).
Proof.
  revert ds n0. induction gs as [|c gs IH]; intros ds n0 Hrec Hds.
  - injection Hds as <-. simpl. f_equal. lia.
  - simpl in Hds.
    destruct (pre c) as [below|] eqn:Hbelow; [|done].
    destruct (preorder_groups pre gs) as [rest|] eqn:Hrest; [|done].
    injection Hds as <-. cbn [count_groups].
    rewrite (Hrec c below) by (done || left).
    rewrite (IH rest); [|by intros c' b' Hc'; apply Hrec; right|done].
    f_equal. change (c :: below ++ rest) with ((c :: below) ++ rest).
    rewrite (bind_app (runs_of h)), length_app. lia.
Qed.

Lemma ControlRunCount_fuel_spec h fuel r ds :
  descendants_fuel fuel h r = Some ds ->
  ControlRunCount_fuel fuel h r = Some (length ((r :: ds) ≫= runs_of h)).
Proof.
  revert r ds. induction fuel as [|fuel IH]; intros r ds; [done|].
  cbn [ControlRunCount_fuel descendants_fuel].
  destruct (h !! r) as [g|] eqn:Hg; [|done]. intros Hds.
  rewrite (count_groups_spec _ (descendants_fuel fuel h) h _ ds);
    [|by intros; apply IH|done].
  f_equal. rewrite (bind_cons (runs_of h)), length_app.
  unfold runs_of at 2. by rewrite Hg.
Qed.

Lemma walk_order_allocated w r order x :
  wf_tree w -> walk_order (groups w) r = Some order -> x ∈ order ->
  x < length (runs w).
Proof.
  intros Hwf Horder Hx.
  destruct (walk_order_spec _ _ _ Hwf Horder) as [_ Hmem].
  apply Hmem in Hx as (c & Hc & _). by eapply lookup_lt_Some.
Qed.

(** ** Tag keys *)

Lemma elem_of_map_keys (m : gmap string string) k :
  k ∈ map_keys m <-> is_Some (m !! k).
Proof.
  unfold map_keys. rewrite list_elem_of_fmap. split.
  - intros ([k' v] & -> & Hin). apply elem_of_map_to_list in Hin. by exists v.
  - intros [v Hv]. exists (k, v). split; [done|]. by apply elem_of_map_to_list.
Qed.

Lemma child_tag_keys_spec (rec : loc -> option (list string))
    (pre : loc -> option (list loc)) (P : loc -> string -> Prop) gs ds tags :
  (forall c below, c ∈ gs -> pre c = Some below ->
     exists ks, rec c = Some ks /\
                forall k, k ∈ ks <-> exists i, i ∈ c :: below /\ P i k) ->
  preorder_groups pre gs = Some ds ->
  exists tags',
    child_tag_keys rec gs tags = Some tags' /\
    forall k, k ∈ tags' <-> k ∈ tags \/ exists i, i ∈ ds /\ P i k.
Proof.
  revert ds tags. induction gs as [|c gs IH]; intros ds tags Hrec Hds.
  - injection Hds as <-. exists tags. split; [done|]. intros k. split.
    + by left.
    + intros [?|(i & ?%elem_of_nil & _)]; done.
  - simpl in Hds.
    destruct (pre c) as [below|] eqn:Hbelow; [|done].
    destruct (preorder_groups pre gs) as [rest|] eqn:Hrest; [|done].
    injection Hds as <-.
    destruct (Hrec c below) as (ks & Hks & Hmem); [left|done|].
    destruct (IH rest (tags ++ ks)) as (tags' & Htags' & Hmem');
      [by intros c' b' Hc'; apply Hrec; right|done|].
    exists tags'. cbn [child_tag_keys]. rewrite Hks. split; [done|].
    intros k. rewrite Hmem', elem_of_app, Hmem.
    change (c :: below ++ rest) with ((c :: below) ++ rest).
    split.
    + intros [[?|(i & Hi & HP)]|(i & Hi & HP)]; [by left|right; exists i..].
      * split; [|done]. apply elem_of_app. by left.
      * split; [|done]. apply elem_of_app. by right.
    + intros [?|(i & Hi & HP)]; [by left; left|].
      apply elem_of_app in Hi as [Hi|Hi].
      * left. right. by exists i.
      * right. by exists i.
Qed.

Lemma run_tag_keys_spec (rs : list ControlRun) cs tags :
  Forall (fun run => is_Some (rs !! run)) cs ->
  exists tags',
    run_tag_keys rs cs tags = Some tags' /\
    forall k, k ∈ tags' <->
      k ∈ tags \/
      exists run c,
        run ∈ cs /\ rs !! run = Some c /\
        is_Some (modconfig.Tags (modconfig.ControlBase (Control c)) !! k).
Proof.
  intros Hall. revert tags.
  induction Hall as [|run cs [c Hc] _ IH]; intros tags.
  - exists tags. split; [done|]. intros k. split.
    + by left.
    + intros [?|(run & c & ?%elem_of_nil & _)]; done.
  - destruct (IH (tags ++
                  map_keys (modconfig.Tags (modconfig.ControlBase (Control c)))))
      as (tags' & Htags' & Hmem).
    exists tags'. cbn [run_tag_keys]. rewrite Hc. split; [done|].
    intros k. rewrite Hmem, elem_of_app, elem_of_map_keys. split.
    + intros [[?|Hk]|(run' & c' & Hin & Hc' & Hk)]; [by left| |].
      * right. exists run, c. split; [left|done].
      * right. exists run', c'. split; [by right|done].
    + intros [?|(run' & c' & Hin & Hc' & Hk)]; [by left; left|].
      apply elem_of_cons in Hin as [->|Hin].
      * left. right. rewrite Hc in Hc'. by injection Hc' as <-.
      * right. by exists run', c'.
Qed.

Lemma AllTagKeys_fuel_spec w fuel r ds :
  wf_tree w ->
  descendants_fuel fuel (groups w) r = Some ds ->
  exists tags,
    AllTagKeys_fuel fuel w r = Some tags /\
    StronglySorted String.le tags /\ NoDup tags /\
    forall k, k ∈ tags <-> exists i, i ∈ r :: ds /\ tag_key_at w i k.
Proof.
  intros Hwf. revert r ds. induction fuel as [|fuel IH]; intros r ds; [done|].
  cbn [AllTagKeys_fuel descendants_fuel].
  destruct (groups w !! r) as [g|] eqn:Hg; [|done]. intros Hds.
  destruct (child_tag_keys_spec (AllTagKeys_fuel fuel w)
              (descendants_fuel fuel (groups w)) (tag_key_at w)
              (Groups g) ds ([] ++ map_keys (Tags g)))
    as (tags1 & Htags1 & Hmem1); [|done|].
  { intros c below _ Hbelow.
    destruct (IH c below Hbelow) as (ks & Hks & _ & _ & Hmem). by exists ks. }
  destruct (run_tag_keys_spec (runs w) (ControlRuns g) tags1)
    as (tags2 & Htags2 & Hmem2).
  { apply Forall_forall. intros run Hrun.
    destruct (wf_runs _ Hwf _ _ _ Hg Hrun) as (c & Hc & _). by exists c. }
  rewrite Htags1, Htags2. eexists. split; [done|].
  destruct (sorted_distinct_keys tags2) as (Hsorted & Hnd & Hmem).
  split; [done|]. split; [done|].
  intros k. rewrite Hmem, Hmem2, Hmem1. simpl. rewrite elem_of_map_keys.
  split.
  - intros [[Hk|(i & Hi & HP)]|(run & c & Hrun & Hc & Hk)].
    + exists r. split; [left|]. exists g. split; [done|by left].
    + exists i. split; [by right|done].
    + exists r. split; [left|]. exists g. split; [done|].
      right. by exists run, c.
  - intros (i & Hi & HP). apply elem_of_cons in Hi as [->|Hi].
    + destruct HP as (g' & Hg' & HP). rewrite Hg in Hg'. injection Hg' as <-.
      destruct HP as [Hk|HP]; [by left; left|by right].
    + left. right. by exists i.
Qed.

(** ** What the traversals reach *)

(** X1. [ControlRunCount] returns on every well-formed tree, leaves the tree as
    it is, and its result is the number of control runs of the subtree: the
    runs whose owning group is the receiver or has the receiver on its chain
    of parents, each counted once. *)
Theorem ControlRunCount_counts_subtree (w : World) (r : loc) :
  wf_tree w -> r < length (groups w) ->
  exists order,
    ControlRunCount r w = Some (length order, w) /\
    NoDup order /\
    forall x, x ∈ order <-> exists c, runs w !! x = Some c /\ in_subtree w r c.
Proof.
  intros Hwf Hr.
  destruct (descendants_wf _ _ Hwf Hr) as [ds Hds].
  exists ((r :: ds) ≫= runs_of (groups w)). split.
  - unfold ControlRunCount.
    by rewrite (ControlRunCount_fuel_spec _ _ _ ds Hds).
  - apply (walk_order_spec w r _ Hwf). unfold walk_order. by rewrite Hds.
Qed.

Lemma ControlRunCount_counts_subtree_witness :
  exists order,
    ControlRunCount 0 sample.built = Some (length order, sample.built) /\
    NoDup order /\
    forall x, x ∈ order <->
              exists c, runs sample.built !! x = Some c /\
                        in_subtree sample.built 0 c.
Proof.
  apply (ControlRunCount_counts_subtree sample.built 0);
    [exact (proj1 (proj2 sample_built_ok))|vm_compute; lia].
Defined.

(** X2. [AllTagKeys] returns on every well-formed tree and leaves it as it is.
    Its result is sorted, has no duplicates, and holds exactly the tag keys
    of the receiver, of the groups below it, and of the controls of the runs
    that these groups list. *)
Theorem AllTagKeys_sorted_keys_of_subtree (w : World) (r : loc) :
  wf_tree w -> r < length (groups w) ->
  exists ds tags,
    descendants (groups w) r = Some ds /\
    AllTagKeys r w = Some (tags, w) /\
    StronglySorted String.le tags /\ NoDup tags /\
    forall k, k ∈ tags <-> exists i, i ∈ r :: ds /\ tag_key_at w i k.
Proof.
  intros Hwf Hr.
  destruct (descendants_wf _ _ Hwf Hr) as [ds Hds].
  destruct (AllTagKeys_fuel_spec w (length (groups w)) r ds Hwf Hds)
    as (tags & Htags & Hrest).
  exists ds, tags. split; [done|]. split; [|done].
  unfold AllTagKeys. by rewrite Htags.
Qed.

Lemma AllTagKeys_sorted_keys_of_subtree_witness :
  exists ds tags,
    descendants (groups tagged_built) 0 = Some ds /\
    AllTagKeys 0 tagged_built = Some (tags, tagged_built) /\
    StronglySorted String.le tags /\ NoDup tags /\
    forall k, k ∈ tags <-> exists i, i ∈ 0 :: ds /\ tag_key_at tagged_built i k.
Proof.
  apply (AllTagKeys_sorted_keys_of_subtree tagged_built 0);
    [|vm_compute; lia].
  apply (quiet_wf _ (built_quiet sample.tree tagged_items 0 tagged_built
                       ltac:(vm_compute; reflexivity))).
Defined.

Example tagged_all_keys :
  AllTagKeys 0 tagged_built = Some (["cis"; "service"; "severity"], tagged_built).
Proof. vm_compute. reflexivity. Qed.

(** ** Aggregation leaves the tree alone *)

Lemma sorted_distinct_ext (l1 l2 : list string) :
  (forall k, k ∈ l1 <-> k ∈ l2) ->
  sort.Strings (utils.StringSliceDistinct l1) =
  sort.Strings (utils.StringSliceDistinct l2).
Proof.
  intros H.
  destruct (sorted_distinct_keys l1) as (S1 & N1 & M1).
  destruct (sorted_distinct_keys l2) as (S2 & N2 & M2).
  apply (StronglySorted_unique String.le); [done..|].
  apply NoDup_Permutation; [done..|]. intros k. by rewrite M1, M2.
Qed.

Lemma after_chain_identity f l w i :
  (forall g, identity_of (f g) = identity_of g) ->
  parents_below (groups w) ->
  identity_of <$> groups (after_chain f l w) !! i =
  identity_of <$> groups w !! i.
Proof.
  intros Hf Hpb. rewrite after_chain_lookup by done.
  destruct (decide (i ∈ ancestors (groups w) l)); [|done].
  destruct (groups w !! i) as [g|]; [|done]. simpl. by rewrite Hf.
Qed.

(** X7. Each of the four aggregation methods returns on a well-formed tree and
    changes nothing of what makes the tree: the groups keep their
    identifiers, titles, descriptions, tags, items, parents, child groups
    and control runs; no run is touched; no lock stays held. *)
Theorem aggregation_keeps_the_tree (w : World) (l : loc)
    (summary : StatusSummary) (severity : string) (d : Z)
    (keys : list string) (m : M unit) :
  wf_tree w -> l < length (groups w) -> in_int d ->
  m = updateSummary l summary \/
  m = updateSeverityCounts l severity summary \/
  m = addDuration l d \/ m = addDimensionKeys l keys ->
  exists w',
    m w = Some (tt, w') /\
    length (groups w') = length (groups w) /\
    (forall i, identity_of <$> groups w' !! i = identity_of <$> groups w !! i) /\
    runs w' = runs w /\ held w' = [] /\ wf_tree w'.
Proof.
  intros Hwf Hl Hd Hm. pose proof (wf_parents_below _ Hwf) as Hpb.
  pose proof (wf_unlocked _ Hwf) as Hheld.
  assert (forall f, shape_preserving f ->
                    (forall g, identity_of (f g) = identity_of g) ->
                    m w = Some (tt, after_chain f l w) ->
                    exists w',
                      m w = Some (tt, w') /\
                      length (groups w') = length (groups w) /\
                      (forall i, identity_of <$> groups w' !! i =
                                 identity_of <$> groups w !! i) /\
                      runs w' = runs w /\ held w' = [] /\ wf_tree w') as Hgen.
  { intros f Hshape Hid Hrun. exists (after_chain f l w).
    split; [done|]. split; [apply after_chain_length|].
    split; [by intros i; apply after_chain_identity|].
    split; [done|]. split; [done|]. by apply after_chain_wf. }
  destruct Hm as [->|[->|[->| ->]]].
  - apply (Hgen (add_status summary));
      [apply add_status_shape|done|by apply updateSummary_spec].
  - apply (Hgen (set_severity severity summary));
      [apply set_severity_shape|done|by apply updateSeverityCounts_spec].
  - apply (Hgen (add_duration (time.Round d time.Millisecond)));
      [apply add_duration_shape|done|by apply addDuration_spec].
  - apply (Hgen (add_keys keys));
      [apply add_keys_shape|done|by apply addDimensionKeys_spec].
Qed.

Lemma aggregation_keeps_the_tree_witness :
  exists w',
    addDimensionKeys 1 ["region"] sample.built = Some (tt, w') /\
    length (groups w') = length (groups sample.built) /\
    (forall i, identity_of <$> groups w' !! i =
               identity_of <$> groups sample.built !! i) /\
    runs w' = runs sample.built /\ held w' = [] /\ wf_tree w'.
Proof.
  apply (aggregation_keeps_the_tree sample.built 1 sample.one_alarm "high"
           600000 ["region"] (addDimensionKeys 1 ["region"]));
    [exact (proj1 (proj2 sample_built_ok))|vm_compute; lia|by_compute|].
  right. right. right. reflexivity.
Defined.

(** ** The order of the updates does not matter *)

Lemma update_effect_shape u : shape_preserving (update_effect u).
Proof.
  destruct u; simpl;
    [apply add_status_shape|apply add_duration_shape|apply add_keys_shape].
Qed.

Lemma run_update_spec w u :
  wf_tree w -> update_ok w u ->
  run_update u w =
    Some (tt, after_chain (update_effect u) (update_target u) w).
Proof.
  intros Hwf [Hl Hu]. pose proof (wf_parents_below _ Hwf) as Hpb.
  pose proof (wf_unlocked _ Hwf) as Hheld.
  destruct u; simpl in *.
  - by apply updateSummary_spec.
  - by apply addDuration_spec.
  - by apply addDimensionKeys_spec.
Qed.

Lemma update_effect_comm u1 u2 g :
  update_effect u1 (update_effect u2 g) =
  update_effect u2 (update_effect u1 g).
Proof.
  destruct u1 as [l1 s1|l1 d1|l1 k1], u2 as [l2 s2|l2 d2|l2 k2]; try done;
    simpl.
  - unfold add_status, with_Summary. simpl. do 2 f_equal.
    rewrite !summary_add_assoc. f_equal. apply summary_add_comm.
  - unfold add_duration, with_Duration. simpl. f_equal.
    rewrite !int_add_assoc. f_equal. apply int_add_comm.
  - unfold add_keys, with_DimensionKeys. simpl. f_equal.
    apply sorted_distinct_ext. intros k. rewrite !elem_of_app.
    rewrite !(proj2 (proj2 (sorted_distinct_keys _))), !elem_of_app. tauto.
Qed.

Lemma for_each_run_update w us :
  wf_tree w -> Forall (update_ok w) us ->
  exists w',
    for_each us run_update w = Some (tt, w') /\
    groups w' = updated (groups w) us (groups w) /\
    runs w' = runs w /\ held w' = [] /\ wf_tree w' /\
    length (groups w') = length (groups w).
Proof.
  intros Hwf Hus.
  assert (forall w1,
             wf_tree w1 -> length (groups w1) = length (groups w) ->
             (forall x, ancestors (groups w1) x = ancestors (groups w) x) ->
             exists w',
               for_each us run_update w1 = Some (tt, w') /\
               groups w' = updated (groups w) us (groups w1) /\
               runs w' = runs w1 /\ held w' = [] /\ wf_tree w' /\
               length (groups w') = length (groups w)) as Hgen.
  { induction Hus as [|u us Hu _ IH]; intros w1 Hwf1 Hlen Hanc.
    - exists w1. split; [done|]. split; [done|]. split; [done|].
      split; [by apply wf_unlocked|]. done.
    - pose proof (wf_parents_below _ Hwf1) as Hpb1.
      assert (update_ok w1 u) as Hu1.
      { destruct Hu as [Hl Hd]. split; [by rewrite Hlen|done]. }
      destruct (IH (after_chain (update_effect u) (update_target u) w1))
        as (w' & Hrest & Hg & Hr & Hh & Hwf' & Hlen').
      + apply after_chain_wf; [apply update_effect_shape|done].
      + by rewrite after_chain_length.
      + intros x. rewrite after_chain_ancestors;
          [apply Hanc|apply update_effect_shape|done].
      + exists w'. cbn [for_each]. unfold bind.
        rewrite (run_update_spec w1 u Hwf1 Hu1).
        split; [done|]. split; [|done].
        rewrite Hg. unfold updated. cbn [foldl]. f_equal.
        simpl. by rewrite Hanc. }
  by apply Hgen.
Qed.

Lemma updated_swap h0 h u1 u2 :
  parents_below h0 ->
  updated h0 [u1; u2] h = updated h0 [u2; u1] h.
Proof.
  intros Hpb. unfold updated. simpl. apply list_eq. intros i.
  rewrite !alter_chain_lookup by by apply ancestors_NoDup.
  destruct (decide (i ∈ ancestors h0 (update_target u1))),
           (decide (i ∈ ancestors h0 (update_target u2)));
    try done.
  destruct (h !! i) as [g|]; [|done]. simpl. f_equal.
  apply update_effect_comm.
Qed.

Lemma updated_Permutation h0 us us' :
  parents_below h0 -> us ≡ₚ us' ->
  forall h, updated h0 us h = updated h0 us' h.
Proof.
  intros Hpb. induction 1 as [|u us us' _ IH|u1 u2 us|us1 us2 us3 _ IH1 _ IH2];
    intros h.
  - done.
  - apply IH.
  - change (updated h0 (u2 :: u1 :: us) h)
      with (updated h0 us (updated h0 [u2; u1] h)).
    change (updated h0 (u1 :: u2 :: us) h)
      with (updated h0 us (updated h0 [u1; u2] h)).
    by rewrite updated_swap.
  - by rewrite IH1.
Qed.

(** X8. Calls of [updateSummary], [addDuration] and [addDimensionKeys], on
    whatever groups, may come in any order: every order of the same calls
    returns and leaves the same groups. (The calls of
    [updateSeverityCounts] are not among them.) *)
Theorem aggregation_order_independent (w : World) (us us' : list Update) :
  wf_tree w -> Forall (update_ok w) us -> us ≡ₚ us' ->
  exists w1 w2,
    for_each us run_update w = Some (tt, w1) /\
    for_each us' run_update w = Some (tt, w2) /\
    groups w1 = groups w2 /\ runs w1 = runs w2 /\
    held w1 = [] /\ held w2 = [].
Proof.
  intros Hwf Hus Hperm.
  assert (Forall (update_ok w) us') as Hus' by by rewrite <- Hperm.
  destruct (for_each_run_update w us Hwf Hus)
    as (w1 & H1 & Hg1 & Hr1 & Hh1 & _).
  destruct (for_each_run_update w us' Hwf Hus')
    as (w2 & H2 & Hg2 & Hr2 & Hh2 & _).
  exists w1, w2. split; [done|]. split; [done|].
  split; [|split; [congruence|done]].
  rewrite Hg1, Hg2. apply updated_Permutation; [|done].
  by apply wf_parents_below.
Qed.

Lemma aggregation_order_independent_witness :
  exists w1 w2,
    for_each [UpSummary 1 sample.one_alarm; UpKeys 1 ["region"]]
      run_update sample.built = Some (tt, w1) /\
    for_each [UpKeys 1 ["region"]; UpSummary 1 sample.one_alarm]
      run_update sample.built = Some (tt, w2) /\
    groups w1 = groups w2 /\ runs w1 = runs w2 /\
    held w1 = [] /\ held w2 = [].
Proof.
  apply (aggregation_order_independent sample.built
           [UpSummary 1 sample.one_alarm; UpKeys 1 ["region"]]
           [UpKeys 1 ["region"]; UpSummary 1 sample.one_alarm]);
    [exact (proj1 (proj2 sample_built_ok))| |apply perm_swap].
  apply Forall_cons; split; [split; [vm_compute; lia|exact I]|].
  apply Forall_cons; split; [split; [vm_compute; lia|exact I]|].
  apply Forall_nil_2.
Defined.

(** X9. [addDimensionKeys] is idempotent: a second call with the same keys on
    the same group changes no group. Keys that several runs share are kept
    once, however often they are added. *)
Theorem addDimensionKeys_idempotent (w : World) (l : loc)
    (keys : list string) :
  wf_tree w -> l < length (groups w) ->
  exists w1 w2,
    addDimensionKeys l keys w = Some (tt, w1) /\
    addDimensionKeys l keys w1 = Some (tt, w2) /\
    groups w2 = groups w1.
Proof.
  intros Hwf Hl. pose proof (wf_parents_below _ Hwf) as Hpb.
  pose proof (wf_unlocked _ Hwf) as Hheld.
  set (w1 := after_chain (add_keys keys) l w).
  assert (wf_tree w1) as Hwf1 by (apply after_chain_wf; [apply add_keys_shape|done]).
  exists w1, (after_chain (add_keys keys) l w1).
  split; [by apply addDimensionKeys_spec|].
  split.
  { apply addDimensionKeys_spec; [by apply wf_parents_below| |by apply wf_unlocked].
    unfold w1. by rewrite after_chain_length. }
  apply list_eq. intros i.
  rewrite after_chain_lookup by by apply wf_parents_below.
  destruct (decide (i ∈ ancestors (groups w1) l)) as [Hin|]; [|done].
  unfold w1 in *. rewrite after_chain_ancestors in Hin
    by (apply add_keys_shape || done).
  rewrite after_chain_lookup by done. rewrite decide_True by done.
  destruct (groups w !! i) as [g|]; [|done]. simpl. f_equal.
  unfold add_keys, with_DimensionKeys. simpl. f_equal.
  apply sorted_distinct_ext. intros k. rewrite elem_of_app.
  rewrite (proj2 (proj2 (sorted_distinct_keys _))), elem_of_app. tauto.
Qed.

Lemma addDimensionKeys_idempotent_witness :
  exists w1 w2,
    addDimensionKeys 1 ["region"; "account_id"] sample.built = Some (tt, w1) /\
    addDimensionKeys 1 ["region"; "account_id"] w1 = Some (tt, w2) /\
    groups w2 = groups w1.
Proof.
  apply (addDimensionKeys_idempotent sample.built 1 ["region"; "account_id"]);
    [exact (proj1 (proj2 sample_built_ok))|vm_compute; lia].
Defined.

(** X10. [updateSeverityCounts] returns on a well-formed tree. On the receiver
    and on each group above it, it stores under [severity], in the
    severity map of the group's summary, the entry of the group's own
    severity map (zero if there is none) plus the summary. It changes
    neither the group's own severity map, nor the status counts, nor any
    other entry; groups off the chain and all runs stay as they are. *)
Theorem updateSeverityCounts_writes_summary_map (w : World) (l : loc)
    (severity : string) (summary : StatusSummary) :
  wf_tree w -> l < length (groups w) ->
  exists w',
    updateSeverityCounts l severity summary w = Some (tt, w') /\
    runs w' = runs w /\ held w' = [] /\
    forall i g,
      groups w !! i = Some g ->
      exists g',
        groups w' !! i = Some g' /\
        Severity g' = Severity g /\
        GroupSummary.Status (Summary g') = GroupSummary.Status (Summary g) /\
        GroupSummary.Severity (Summary g') =
          if decide (i ∈ ancestors (groups w) l)
          then <[severity :=
                   controlstatus.add
                     (default controlstatus.zero (Severity g !! severity))
                     summary]> (GroupSummary.Severity (Summary g))
          else GroupSummary.Severity (Summary g).
Proof.
  intros Hwf Hl. pose proof (wf_parents_below _ Hwf) as Hpb.
  pose proof (wf_unlocked _ Hwf) as Hheld.
  exists (after_chain (set_severity severity summary) l w).
  split; [by apply updateSeverityCounts_spec|].
  split; [done|]. split; [done|].
  intros i g Hg. rewrite after_chain_lookup by done. rewrite Hg.
  destruct (decide (i ∈ ancestors (groups w) l)); simpl; by eexists.
Qed.

Lemma updateSeverityCounts_writes_summary_map_witness :
  exists w',
    updateSeverityCounts 1 "high" sample.one_alarm sample.built =
      Some (tt, w') /\
    runs w' = runs sample.built /\ held w' = [] /\
    forall i g,
      groups sample.built !! i = Some g ->
      exists g',
        groups w' !! i = Some g' /\
        Severity g' = Severity g /\
        GroupSummary.Status (Summary g') = GroupSummary.Status (Summary g) /\
        GroupSummary.Severity (Summary g') =
          if decide (i ∈ ancestors (groups sample.built) 1)
          then <["high" :=
                   controlstatus.add
                     (default controlstatus.zero (Severity g !! "high"))
                     sample.one_alarm]> (GroupSummary.Severity (Summary g))
          else GroupSummary.Severity (Summary g).
Proof.
  apply (updateSeverityCounts_writes_summary_map sample.built 1 "high"
           sample.one_alarm);
    [exact (proj1 (proj2 sample_built_ok))|vm_compute; lia].
Defined.

(** ** The status of a group as a sum over its subtree *)

Lemma summary_sum_filter_insert (P : ControlRun -> Prop)
    `{!forall c, Decision (P c)} (l : list ControlRun) r c c' :
  l !! r = Some c -> (P c' <-> P c) -> RunSummary c = controlstatus.zero ->
  controlstatus.sum (RunSummary <$> filter P (<[r := c']> l)) =
    if decide (P c)
    then controlstatus.add (controlstatus.sum (RunSummary <$> filter P l))
           (RunSummary c')
    else controlstatus.sum (RunSummary <$> filter P l).
Proof.
  intros Hr HP Hzero. revert r Hr.
  induction l as [|x l IH]; intros [|r] Hr; simpl in Hr; try done.
  - injection Hr as ->. change (<[0 := c']> (c :: l)) with (c' :: l).
    rewrite !filter_cons.
    destruct (decide (P c)) as [Hc|Hc].
    + rewrite decide_True by tauto. rewrite !fmap_cons, !summary_sum_cons.
      rewrite Hzero, summary_add_zero_l by apply summary_sum_valid.
      apply summary_add_comm.
    + by rewrite decide_False by tauto.
  - change (<[S r := c']> (x :: l)) with (x :: <[r := c']> l).
    rewrite !filter_cons.
    destruct (decide (P x)) as [Hx|Hx].
    + rewrite !fmap_cons, !summary_sum_cons. rewrite (IH r Hr).
      destruct (decide (P c)); [|done]. by rewrite summary_add_assoc.
    + apply (IH r Hr).
Qed.

Lemma subtree_summary_completed r c summary d keys w i :
  wf_tree w -> runs w !! r = Some c -> RunSummary c = controlstatus.zero ->
  subtree_summary (completed r c summary d keys w) i =
    if decide (i ∈ ancestors (groups w) (Group c))
    then controlstatus.add (subtree_summary w i) summary
    else subtree_summary w i.
Proof.
  intros Hwf Hc Hzero. pose proof (wf_parents_below _ Hwf) as Hpb.
  unfold subtree_summary. rewrite completed_runs.
  rewrite (list_filter_iff _
             (fun x => i ∈ ancestors (groups w) (Group x))).
  2:{ intros x.
      by rewrite (same_shape_ancestors w _ _
                    (completed_same_shape r c summary d keys w Hpb Hc) Hpb). }
  by rewrite (summary_sum_filter_insert _ _ r c
                (with_run_result summary RunComplete d keys c) Hc).
Qed.

Lemma subtree_summary_fresh w i :
  fresh w -> subtree_summary w i = controlstatus.zero.
Proof.
  intros Hfresh. unfold subtree_summary.
  assert (Forall (fun c => RunSummary c = controlstatus.zero) (runs w)) as Hall.
  { apply Forall_forall. intros c Hin.
    apply list_elem_of_lookup in Hin as [r Hr].
    by destruct (fresh_run _ Hfresh _ _ Hr) as (_ & ? & _). }
  induction Hall as [|c l Hc _ IH]; [done|].
  rewrite filter_cons. destruct (decide _); [|done].
  rewrite fmap_cons, summary_sum_cons, IH, Hc. done.
Qed.

(** The only group without a parent in a built tree is the root, so the
    chain of parents of every group ends there. *)
Lemma built_under_root executionTree rootItems root w :
  NewRootResultGroup executionTree rootItems empty_world = Some (root, w) ->
  root = 0 /\ forall i, i < length (groups w) -> 0 ∈ ancestors (groups w) i.
Proof.
  intros Hbuild.
  set (w1 := mkWorld [root_group] [] [] []).
  assert (under_ok w1 0 0) as Hu1.
  { split.
    - intros i g _ Hg. unfold w1 in Hg. simpl in Hg.
      destruct i as [|i]; [|done]. injection Hg as <-.
      split; simpl; try done; try apply NoDup_nil_2;
        intros x Hx; by apply elem_of_nil in Hx.
    - intros i g Hi Hg. unfold w1 in Hg. simpl in Hg.
      destruct i as [|i]; [lia|done].
    - intros r c _ Hc. unfold w1 in Hc. done. }
  destruct (root_items_ok executionTree rootItems 0 0 w1 root_group Hu1 eq_refl)
    as (w' & g0 & Hloop & Hgr & Hu & Hg0 & _).
  assert (root = 0 /\ w = w') as [-> ->].
  { rewrite NewRootResultGroup_unfold in Hbuild.
    unfold bind at 1, allocGroup in Hbuild. simpl in Hbuild. fold w1 in Hbuild.
    unfold bind, ret in Hbuild. rewrite Hloop in Hbuild.
    by injection Hbuild as <- <-. }
  split; [done|].
  destruct (built_quiet _ _ _ _ Hbuild) as [Hwf _ _ _].
  pose proof (wf_parents_below _ Hwf) as Hpb.
  intros i. induction (lt_wf i) as [i _ IH]. intros Hi.
  destruct (lookup_lt_is_Some_2 _ _ Hi) as [g Hg].
  rewrite (ancestors_unfold _ _ _ Hpb Hg).
  destruct (decide (i = 0)) as [->|Hne]; [left|]. right.
  destruct (lo_parent _ _ _ _ (uo_links _ _ _ Hu i g ltac:(lia) Hg))
    as (p & gp & Hp & Hlt & Hgp & _).
  rewrite Hp. apply IH; [lia|]. by eapply lookup_lt_Some.
Qed.

(** X11. At every state that completions of runs reach from a freshly built
    tree, the status counts of each group are the sum of the summaries of
    the control runs of its subtree, and those of the root are the sum over
    all control runs. *)
Theorem status_is_sum_over_subtree (executionTree : ExecutionTree)
    (rootItems : list modconfig.ModTreeItem) (root : loc) (w0 w : World) :
  NewRootResultGroup executionTree rootItems empty_world = Some (root, w0) ->
  rtc completes w0 w ->
  (forall i g,
      groups w !! i = Some g ->
      GroupSummary.Status (Summary g) = subtree_summary w i) /\
  status_of w root = controlstatus.sum (RunSummary <$> runs w).
Proof.
  intros Hbuild Hrtc.
  pose proof (built_quiet _ _ _ _ Hbuild) as Hq0.
  destruct (built_under_root _ _ _ _ Hbuild) as [-> Hroot0].
  destruct (NewRootResultGroup_ok executionTree rootItems)
    as (w0' & Hbuild' & _ & Hfresh & _).
  rewrite Hbuild in Hbuild'. injection Hbuild' as <-.
  assert ((forall i g,
              groups w !! i = Some g ->
              GroupSummary.Status (Summary g) = subtree_summary w i) /\
          same_shape w0 w /\ quiet w) as (Hinv & Hshape & Hq).
  { revert w Hrtc.
    apply (rtc_ind_r
             (fun w => (forall i g,
                           groups w !! i = Some g ->
                           GroupSummary.Status (Summary g) = subtree_summary w i) /\
                       same_shape w0 w /\ quiet w) w0).
    - split; [|split; [apply same_shape_refl|done]].
      intros i g Hg. rewrite subtree_summary_fresh by done.
      destruct (fresh_group _ Hfresh _ _ Hg) as (-> & _). done.
    - intros w1 w2 Hrtc Hstep (Hinv & Hshape & Hq1).
      pose proof (quiet_wf _ Hq1) as Hwf1.
      pose proof (wf_parents_below _ Hwf1) as Hpb1.
      pose proof (completes_quiet _ _ Hq1 Hstep) as Hq2.
      destruct Hstep as [run c summary d keys Hc Hst Hvalid Hd Hrun].
      rewrite (complete_run_spec _ _ _ _ _ _ Hwf1 Hc Hd) in Hrun.
      injection Hrun as <-.
      pose proof (completed_same_shape run c summary d keys w1 Hpb1 Hc)
        as Hshape12.
      split; [|split; [by eapply same_shape_trans|done]].
      intros i g' Hg'.
      destruct (same_shape_group _ _ _ _ Hshape12 Hg') as (g & Hg & _).
      destruct (completed_group run c summary d keys w1 i g Hpb1 Hg)
        as (g2 & Hg2 & Hstatus & _).
      rewrite Hg' in Hg2. injection Hg2 as <-.
      rewrite Hstatus, subtree_summary_completed; [|done..|].
      + rewrite (Hinv i g Hg). done.
      + by destruct (quiet_unfinished _ Hq1 _ _ Hc Hst). }
  split; [done|].
  pose proof (quiet_wf _ Hq0) as Hwf0.
  pose proof (wf_parents_below _ Hwf0) as Hpb0.
  assert (0 < length (groups w0)) as Hlen0.
  { destruct (NewRootResultGroup_ok executionTree rootItems)
      as (w0' & Hbuild' & _ & _ & _ & _ & g0 & Hg0 & _).
    rewrite Hbuild in Hbuild'. injection Hbuild' as <-.
    by eapply lookup_lt_Some. }
  destruct (lookup_lt_is_Some_2 _ _ Hlen0) as [g0 Hg0].
  destruct (same_shape_group_inv _ _ _ _ Hshape Hg0) as (g & Hg & _).
  unfold status_of. rewrite Hg, (Hinv 0 g Hg). unfold subtree_summary.
  do 2 f_equal. apply list_eq. intros r.
  assert (forall l : list ControlRun,
             Forall (fun c => 0 ∈ ancestors (groups w) (Group c)) l ->
             filter (fun c => 0 ∈ ancestors (groups w) (Group c)) l = l)
    as Hall.
  { induction 1 as [|c l Hc _ IH]; [done|].
    rewrite filter_cons, decide_True by done. by rewrite IH. }
  rewrite Hall; [done|]. apply Forall_forall. intros c Hin.
  apply list_elem_of_lookup in Hin as [x Hx].
  destruct (same_shape_run _ _ _ _ Hshape Hx) as (c0 & Hc0 & HG).
  rewrite (same_shape_ancestors _ _ _ Hshape Hpb0), <- HG.
  apply Hroot0.
  destruct (wf_run_group _ Hwf0 _ _ Hc0) as (gc & Hgc & _).
  by eapply lookup_lt_Some.
Qed.

Lemma status_is_sum_over_subtree_witness :
  (forall i g,
      groups sample.both_done !! i = Some g ->
      GroupSummary.Status (Summary g) = subtree_summary sample.both_done i) /\
  status_of sample.both_done 0 =
    controlstatus.sum (RunSummary <$> runs sample.both_done).
Proof.
  apply (status_is_sum_over_subtree sample.tree sample.items 0 sample.built
           sample.both_done);
    [exact sample_build|exact sample_completions].
Defined.

(** ** The layout of a built tree *)

Lemma controls_below_unfold item :
  controls_below item =
  sum_list (child_controls <$> modconfig.GetChildren item).
Proof.
  assert (forall cs,
             (fix children (cs : list modconfig.ModTreeItem) : nat :=
                match cs with
                | [] => 0
                | c :: cs' =>
                    match c with
                    | modconfig.ControlItem _ => 1
                    | modconfig.BenchmarkItem _ _ => controls_below c
                    | modconfig.OtherItem _ _ => 0
                    end + children cs'
                end) cs = sum_list (child_controls <$> cs)) as H.
  { induction cs as [|c cs IH]; [done|]. rewrite fmap_cons. simpl.
    rewrite <- IH. by destruct c. }
  destruct item as [c|b cs|b cs]; [done|apply H|apply H].
Qed.

Lemma control_children_cons c cs :
  control_children (c :: cs) =
  match c with
  | modconfig.ControlItem control => control :: control_children cs
  | _ => control_children cs
  end.
Proof. by destruct c. Qed.

Lemma attached_children_cons c cs :
  attached_children (c :: cs) =
  if match c with
     | modconfig.BenchmarkItem _ _ => (0 <? controls_below c)%nat
     | _ => false
     end
  then c :: attached_children cs
  else attached_children cs.
Proof. reflexivity. Qed.

Lemma attached_controls cs :
  length (control_children cs) +
  sum_list (controls_below <$> attached_children cs) =
  sum_list (child_controls <$> cs).
Proof.
  induction cs as [|c cs IH]; [done|].
  rewrite fmap_cons, control_children_cons, attached_children_cons.
  cbn [sum_list sum_list_with id]. rewrite <- IH.
  destruct c as [control|b cs0|b cs0]; cbn [child_controls length].
  - lia.
  - destruct (0 <? controls_below (modconfig.BenchmarkItem b cs0))%nat eqn:Hpos.
    + rewrite fmap_cons. cbn [sum_list sum_list_with id]. lia.
    + apply Nat.ltb_ge in Hpos. lia.
  - lia.
Qed.

Lemma AddControl_effect control a w g :
  groups w !! a = Some g ->
  AddControl control a w =
    Some (tt, mkWorld
                (<[a := with_ControlRuns (ControlRuns g ++ [length (runs w)]) g]>
                   (groups w))
                (runs w ++ [new_run control a]) (held w) (trace w)).
Proof.
  intros Hg.
  unfold AddControl, bind, allocRun, modifyGroup, bind, getGroup, setGroup.
  simpl. by rewrite Hg.
Qed.

Lemma attach_effect a b w g :
  groups w !! a = Some g ->
  modifyGroup a (fun g => with_Groups (Groups g ++ [b]) g) w =
    Some (tt, mkWorld (<[a := with_Groups (Groups g ++ [b]) g]> (groups w))
                (runs w) (held w) (trace w)).
Proof.
  intros Hg. unfold modifyGroup, bind, getGroup, setGroup. by rewrite Hg.
Qed.

Lemma build_children_control executionTree a control cs w g :
  groups w !! a = Some g ->
  build_children executionTree a (modconfig.ControlItem control :: cs) w =
  build_children executionTree a cs
    (mkWorld
       (<[a := with_ControlRuns (ControlRuns g ++ [length (runs w)]) g]>
          (groups w))
       (runs w ++ [new_run control a]) (held w) (trace w)).
Proof.
  intros Hg. cbn [build_children]. unfold bind at 1, ret. unfold bind at 1.
  by rewrite (AddControl_effect control a w g Hg).
Qed.

Lemma build_children_other executionTree a b cs0 cs w :
  build_children executionTree a (modconfig.OtherItem b cs0 :: cs) w =
  build_children executionTree a cs w.
Proof. reflexivity. Qed.

Lemma build_children_benchmark executionTree a b cs0 cs w w1 g n :
  NewResultGroup executionTree (modconfig.BenchmarkItem b cs0) a w =
    Some (length (groups w), w1) ->
  ControlRunCount_fuel (length (groups w1)) (groups w1) (length (groups w)) =
    Some n ->
  groups w1 !! a = Some g ->
  build_children executionTree a (modconfig.BenchmarkItem b cs0 :: cs) w =
  build_children executionTree a cs
    (if (0 <? n)%nat
     then mkWorld (<[a := with_Groups (Groups g ++ [length (groups w)]) g]>
                     (groups w1))
            (runs w1) (held w1) (trace w1)
     else w1).
Proof.
  intros Hnew Hcount Hg. cbn [build_children].
  unfold bind at 1. unfold bind at 1. rewrite Hnew.
  unfold bind at 1, ControlRunCount. rewrite Hcount.
  destruct (0 <? n)%nat.
  - rewrite (attach_effect a _ w1 g Hg). reflexivity.
  - reflexivity.
Qed.

Lemma counted_standard w b n :
  upward w (pred b) -> 0 < b -> counted w b n ->
  ControlRunCount_fuel (length (groups w)) (groups w) b = Some n.
Proof.
  intros Hup Hb (fuel & Hfuel & Hcount).
  apply (count_stable (groups w) (groups w) fuel); [|lia|done].
  intros i g Hi Hg. split; [done|]. apply (Hup i g); [lia|done].
Qed.

Lemma counted_stable w w' b n :
  upward w (pred b) -> 0 < b ->
  (forall i g, b <= i -> groups w !! i = Some g -> groups w' !! i = Some g) ->
  length (groups w) <= length (groups w') ->
  counted w b n -> counted w' b n.
Proof.
  intros Hup Hb Hframe Hlen (fuel & Hfuel & Hcount).
  exists fuel. split; [lia|].
  apply (count_stable (groups w) (groups w') fuel); [|lia|done].
  intros i g Hi Hg. split; [by apply Hframe|]. apply (Hup i g); [lia|done].
Qed.

Lemma built_upward item parent w w' :
  built item parent w w' -> 0 < length (groups w) ->
  upward w' (pred (length (groups w))).
Proof.
  intros Hbuilt Hlen i g Hi Hg y Hy.
  destruct (go_children _ _ _
              (uo_groups _ _ _ (bt_under _ _ _ _ Hbuilt) i g ltac:(lia) Hg)
              y Hy) as [Hlt _].
  done.
Qed.

Lemma count_groups_Forall2 {A} (rec : loc -> option nat) (n : A -> nat)
    bs (cs : list A) n0 :
  Forall2 (fun b c => rec b = Some (n c)) bs cs ->
  count_groups rec bs n0 = Some (n0 + sum_list (n <$> cs)).
Proof.
  intros H. revert n0. induction H as [|b c bs cs Hb _ IH]; intros n0.
  - simpl. f_equal. lia.
  - cbn [count_groups]. rewrite Hb, IH, fmap_cons.
    cbn [sum_list sum_list_with id]. f_equal. lia.
Qed.

(** One child group built under [a], and attached or not. *)
Lemma child_laid_out executionTree c a w w1 g (attach : bool) :
  lays_out c ->
  NewResultGroup executionTree c a w = Some (length (groups w), w1) ->
  built c a w w1 -> groups w !! a = Some g -> upward w a ->
  let b := length (groups w) in
  let g2 := if attach then with_Groups (Groups g ++ [b]) g else g in
  let w2 := if attach
            then mkWorld (<[a := g2]> (groups w1)) (runs w1) (held w1) (trace w1)
            else w1 in
  (groups w1 !! a = Some g /\
   ControlRunCount_fuel (length (groups w1)) (groups w1) b =
     Some (controls_below c) /\
   groups w2 !! a = Some g2 /\ upward w2 a /\ a < b /\
   group_of_item w2 a b c /\ counted w2 b (controls_below c) /\
   upward w2 (pred b) /\
   (forall j x, j <> a -> groups w !! j = Some x -> groups w2 !! j = Some x) /\
   (forall r x, runs w !! r = Some x -> runs w2 !! r = Some x) /\
   length (runs w2) = length (runs w) + controls_below c /\
   length (groups w) < length (groups w2)).
Proof.
  intros Hlays Hnew Hbuilt Hg Hup b g2 w2.
  pose proof (Hlays _ _ _ _ Hnew) as [Hruns Hcount Hgroup].
  pose proof (lookup_lt_Some _ _ _ Hg) as Ha. fold b in Ha.
  pose proof (bt_groups _ _ _ _ Hbuilt _ _ Hg) as Hg1.
  pose proof (built_len _ _ _ _ Hbuilt) as Hlen. fold b in Hlen.
  assert (upward w1 (pred b)) as Hup1
    by (apply (built_upward _ _ _ _ Hbuilt); lia).
  assert (forall j, j <> a -> groups w2 !! j = groups w1 !! j) as Hne.
  { intros j Hj. unfold w2. destruct attach; [|done]. simpl.
    by rewrite list_lookup_insert_ne. }
  assert (length (groups w2) = length (groups w1)) as Hlen2.
  { unfold w2. destruct attach; [|done]. simpl. by rewrite length_insert. }
  assert (runs w2 = runs w1) as Hruns2 by (unfold w2; by destruct attach).
  split; [done|].
  split; [apply counted_standard; [done|lia|done]|].
  split.
  { unfold w2, g2. destruct attach; [|done]. simpl.
    apply list_lookup_insert_eq. by eapply lookup_lt_Some. }
  split.
  { intros i gi Hi Hgi. rewrite Hne in Hgi by lia.
    destruct (decide (i < b)) as [Hlt|Hge].
    - destruct (lookup_lt_is_Some_2 (groups w) i Hlt) as [x Hx].
      rewrite (bt_groups _ _ _ _ Hbuilt _ _ Hx) in Hgi. injection Hgi as <-.
      by apply (Hup i x).
    - apply (Hup1 i gi); [lia|done]. }
  split; [done|].
  split.
  { destruct Hgroup as (gb & Hgb & Hstatic & _). exists gb.
    rewrite Hne by lia. done. }
  split.
  { apply (counted_stable w1); [done|lia| |lia|done].
    intros i x Hi Hx. rewrite Hne by lia. done. }
  split.
  { intros i gi Hi Hgi. rewrite Hne in Hgi by lia.
    apply (Hup1 i gi); done. }
  split.
  { intros j x Hj Hx. rewrite Hne by done. by eapply bt_groups. }
  split.
  { intros r x Hx. rewrite Hruns2. by eapply bt_runs. }
  split; [by rewrite Hruns2|]. by rewrite Hlen2.
Qed.

Lemma child_transport w2 w' a b c n :
  a < b -> group_of_item w2 a b c -> counted w2 b n -> upward w2 (pred b) ->
  (forall j x, j <> a -> groups w2 !! j = Some x -> groups w' !! j = Some x) ->
  length (groups w2) <= length (groups w') ->
  a < b /\ group_of_item w' a b c /\ counted w' b n.
Proof.
  intros Hab (gb & Hgb & Hstatic) Hcount Hup Hframe Hlen.
  split; [done|]. split.
  - exists gb. split; [|done]. apply Hframe; [lia|done].
  - apply (counted_stable w2); [done|lia| |done|done].
    intros i x Hi. apply Hframe. lia.
Qed.

(** The children loop of [NewResultGroup]: what it adds to the group [a]. *)
Lemma build_children_laid_out executionTree a cs :
  Forall lays_out cs ->
  forall w w' g,
    groups w !! a = Some g -> upward w a ->
    build_children executionTree a cs w = Some (tt, w') ->
    exists g' bs rs,
      groups w' !! a = Some g' /\ static_of g' = static_of g /\
      Groups g' = Groups g ++ bs /\ ControlRuns g' = ControlRuns g ++ rs /\
      Forall2 (fun b c => a < b /\ group_of_item w' a b c /\
                          counted w' b (controls_below c))
        bs (attached_children cs) /\
      Forall2 (run_of_control w' a) rs (control_children cs) /\
      length (runs w') = length (runs w) + sum_list (child_controls <$> cs) /\
      (forall j x, j <> a -> groups w !! j = Some x -> groups w' !! j = Some x) /\
      (forall r c, runs w !! r = Some c -> runs w' !! r = Some c) /\
      length (groups w) <= length (groups w') /\ upward w' a.
Proof.
  induction 1 as [|c cs Hc Hcs IH]; intros w w' g Hg Hup Hloop.
  - injection Hloop as <-. exists g, [], [].
    rewrite !app_nil_r. simpl.
    split; [done|]. split; [done|]. split; [done|]. split; [done|].
    split; [apply Forall2_nil_2|]. split; [apply Forall2_nil_2|].
    split; [lia|]. done.
  - pose proof (lookup_lt_Some _ _ _ Hg) as Ha.
    destruct c as [control|b0 cs0|b0 cs0].
    + rewrite (build_children_control _ _ _ _ _ _ Hg) in Hloop.
      set (g2 := with_ControlRuns (ControlRuns g ++ [length (runs w)]) g) in *.
      set (w2 := mkWorld (<[a := g2]> (groups w))
                   (runs w ++ [new_run control a]) (held w) (trace w)) in *.
      destruct (IH w2 w' g2) as (g' & bs & rs & Hg' & Hst & HG & HR & Hbs &
                                 Hrs & Hlen & Hframe & Hrframe & Hglen & Hup');
        [by apply list_lookup_insert_eq| |done|].
      { intros i gi Hi Hgi. unfold w2 in Hgi. simpl in Hgi.
        rewrite list_lookup_insert_ne in Hgi by lia. by apply (Hup i gi). }
      exists g', bs, (length (runs w) :: rs).
      split; [done|]. split; [done|]. split; [done|].
      split; [by rewrite HR; unfold g2; simpl; rewrite <- app_assoc|].
      split; [done|].
      split.
      { rewrite control_children_cons. apply Forall2_cons. split; [|done].
        apply Hrframe. unfold w2. simpl.
        by rewrite lookup_app_r, Nat.sub_diag by lia. }
      split.
      { rewrite Hlen, fmap_cons. unfold w2. simpl. rewrite length_app.
        simpl. lia. }
      split.
      { intros j x Hj Hx. apply Hframe; [done|]. unfold w2. simpl.
        by rewrite list_lookup_insert_ne. }
      split.
      { intros r x Hx. apply Hrframe. unfold w2. simpl.
        by apply lookup_app_l_Some. }
      split; [|done].
      unfold w2 in Hglen. simpl in Hglen. by rewrite length_insert in Hglen.
    + destruct (NewResultGroup_builds (modconfig.BenchmarkItem b0 cs0)
                  executionTree a w) as (w1 & Hnew & Hbuilt).
      destruct (child_laid_out executionTree _ a w w1 g
                  (0 <? controls_below (modconfig.BenchmarkItem b0 cs0))%nat
                  Hc Hnew Hbuilt Hg Hup)
        as (Hg1 & Hcount & Hg2 & Hup2 & Hab & Hitem & Hcounted & Hupb &
            Hframe2 & Hrframe2 & Hrlen2 & Hglen2).
      rewrite (build_children_benchmark _ _ _ _ _ _ _ _ _ Hnew Hcount Hg1)
        in Hloop.
      set (b := length (groups w)) in *.
      rewrite attached_children_cons.
      destruct (0 <? controls_below (modconfig.BenchmarkItem b0 cs0))%nat
        eqn:Hpos.
      * set (g2 := with_Groups (Groups g ++ [b]) g) in *.
        set (w2 := mkWorld (<[a := g2]> (groups w1)) (runs w1) (held w1)
                     (trace w1)) in *.
        destruct (IH w2 w' g2 Hg2 Hup2 Hloop)
          as (g' & bs & rs & Hg' & Hst & HG & HR & Hbs & Hrs & Hlen & Hframe &
              Hrframe & Hglen & Hup').
        exists g', (b :: bs), rs.
        split; [done|]. split; [done|].
        split; [by rewrite HG; unfold g2; simpl; rewrite <- app_assoc|].
        split; [done|].
        split.
        { apply Forall2_cons. split; [|done].
          by apply (child_transport w2 w'). }
        split; [done|].
        split; [rewrite Hlen, Hrlen2, fmap_cons; simpl; lia|].
        split; [by intros j x Hj Hx; apply Hframe, Hframe2|].
        split; [by intros r x Hx; apply Hrframe, Hrframe2|].
        split; [lia|done].
      * destruct (IH w1 w' g Hg2 Hup2 Hloop)
          as (g' & bs & rs & Hg' & Hst & HG & HR & Hbs & Hrs & Hlen & Hframe &
              Hrframe & Hglen & Hup').
        exists g', bs, rs.
        split; [done|]. split; [done|]. split; [done|]. split; [done|].
        split; [done|]. split; [done|].
        split; [rewrite Hlen, Hrlen2, fmap_cons; simpl; lia|].
        split; [by intros j x Hj Hx; apply Hframe, Hframe2|].
        split; [by intros r x Hx; apply Hrframe, Hrframe2|].
        split; [lia|done].
    + rewrite build_children_other in Hloop.
      destruct (IH w w' g Hg Hup Hloop)
        as (g' & bs & rs & Hg' & Hst & HG & HR & Hbs & Hrs & Hlen & Hframe &
            Hrframe & Hglen & Hup').
      exists g', bs, rs.
      split; [done|]. split; [done|]. split; [done|]. split; [done|].
      split; [done|]. split; [done|].
      split; [by rewrite Hlen, fmap_cons|]. done.
Qed.
Lemma lays_out_of_children item :
  Forall lays_out (modconfig.GetChildren item) -> lays_out item.
Proof.
  intros Hcs executionTree parent w w' Hnew.
  rewrite NewResultGroup_unfold in Hnew.
  unfold bind at 1, allocGroup in Hnew.
  set (a := length (groups w)) in *.
  set (w0 := mkWorld (groups w ++ [new_group item parent]) (runs w) (held w)
               (trace w)) in *.
  unfold bind, ret in Hnew.
  destruct (build_children executionTree a (modconfig.GetChildren item) w0)
    as [[[] w'']|] eqn:Hloop; [|done].
  injection Hnew as <-.
  assert (groups w0 !! a = Some (new_group item parent)) as Hg0.
  { unfold w0, a. simpl. by rewrite lookup_app_r, Nat.sub_diag by lia. }
  assert (upward w0 a) as Hup0.
  { intros i g Hi Hg. apply lookup_lt_Some in Hg. unfold w0 in Hg.
    simpl in Hg. rewrite length_app in Hg. simpl in Hg. fold a in Hg. lia. }
  destruct (build_children_laid_out executionTree a _ Hcs w0 w''
              (new_group item parent) Hg0 Hup0 Hloop)
    as (g' & bs & rs & Hg' & Hst & HG & HR & Hbs & Hrs & Hlen & Hframe &
        Hrframe & Hglen & Hup').
  simpl in HG, HR. subst bs rs.
  pose proof (lookup_lt_Some _ _ _ Hg') as Ha'.
  split; fold a.
  - rewrite Hlen, controls_below_unfold. done.
  - exists (length (groups w'') - a). split; [lia|].
    destruct (length (groups w'') - a) as [|k] eqn:Hk; [lia|].
    cbn [ControlRunCount_fuel]. rewrite Hg'.
    rewrite (count_groups_Forall2 _ controls_below (Groups g')
               (attached_children (modconfig.GetChildren item))).
    + f_equal. rewrite (Forall2_length _ _ _ Hrs).
      rewrite attached_controls. by rewrite controls_below_unfold.
    + eapply Forall2_impl; [exact Hbs|].
      intros b c (Hab & _ & fuel & Hfuel & Hcount). simpl.
      apply (count_stable (groups w'') (groups w'') fuel); [|lia|done].
      intros i gi Hi Hgi. split; [done|]. apply (Hup' i gi); [lia|done].
  - exists g'. split; [done|]. split; [done|]. split; [|done].
    eapply Forall2_impl; [exact Hbs|]. by intros b c (_ & ? & _).
Qed.

Lemma NewResultGroup_lays_out item : lays_out item.
Proof.
  induction item as [c|b cs IH|b cs IH] using ModTreeItem_nested_ind;
    apply lays_out_of_children; simpl; [apply Forall_nil_2|done|done].
Qed.

(** The loop of [NewRootResultGroup]: what it adds to the root [a]. *)
Lemma root_item_control executionTree a control items w g :
  groups w !! a = Some g ->
  for_each (modconfig.ControlItem control :: items) (root_item executionTree a) w =
  for_each items (root_item executionTree a)
    (mkWorld
       (<[a := with_ControlRuns (ControlRuns g ++ [length (runs w)]) g]>
          (groups w))
       (runs w ++ [new_run control a]) (held w) (trace w)).
Proof.
  intros Hg. cbn [for_each root_item]. unfold bind at 1.
  by rewrite (AddControl_effect control a w g Hg).
Qed.

Lemma root_item_group executionTree a item items w w1 g :
  is_control item = false ->
  NewResultGroup executionTree item a w = Some (length (groups w), w1) ->
  groups w1 !! a = Some g ->
  for_each (item :: items) (root_item executionTree a) w =
  for_each items (root_item executionTree a)
    (mkWorld (<[a := with_Groups (Groups g ++ [length (groups w)]) g]>
                (groups w1))
       (runs w1) (held w1) (trace w1)).
Proof.
  intros Hitem Hnew Hg. cbn [for_each]. unfold bind at 1.
  assert (root_item executionTree a item w =
          Some (tt, mkWorld
                      (<[a := with_Groups (Groups g ++ [length (groups w)]) g]>
                         (groups w1))
                      (runs w1) (held w1) (trace w1))) as ->; [|done].
  destruct item as [c|b cs|b cs]; [done| |];
    unfold root_item, bind; rewrite Hnew; apply (attach_effect a _ w1 g Hg).
Qed.

Lemma group_items_cons item items :
  group_items (item :: items) =
  if is_control item then group_items items else item :: group_items items.
Proof. unfold group_items. simpl. by destruct (is_control item). Qed.

Lemma root_items_laid_out executionTree a items :
  forall w w' g,
    groups w !! a = Some g -> upward w a ->
    for_each items (root_item executionTree a) w = Some (tt, w') ->
    exists g' bs rs,
      groups w' !! a = Some g' /\ static_of g' = static_of g /\
      Groups g' = Groups g ++ bs /\ ControlRuns g' = ControlRuns g ++ rs /\
      Forall2 (fun b c => a < b /\ group_of_item w' a b c /\
                          counted w' b (controls_below c))
        bs (group_items items) /\
      Forall2 (run_of_control w' a) rs (control_children items) /\
      length (runs w') = length (runs w) + sum_list (root_controls <$> items) /\
      (forall j x, j <> a -> groups w !! j = Some x -> groups w' !! j = Some x) /\
      (forall r c, runs w !! r = Some c -> runs w' !! r = Some c) /\
      length (groups w) <= length (groups w') /\ upward w' a.
Proof.
  induction items as [|item items IH]; intros w w' g Hg Hup Hloop.
  - injection Hloop as <-. exists g, [], [].
    rewrite !app_nil_r. simpl.
    split; [done|]. split; [done|]. split; [done|]. split; [done|].
    split; [apply Forall2_nil_2|]. split; [apply Forall2_nil_2|].
    split; [lia|]. done.
  - pose proof (lookup_lt_Some _ _ _ Hg) as Ha.
    destruct (is_control item) eqn:Hkind.
    + destruct item as [control|b0 cs0|b0 cs0]; try done.
      rewrite (root_item_control _ _ _ _ _ _ Hg) in Hloop.
      set (g2 := with_ControlRuns (ControlRuns g ++ [length (runs w)]) g) in *.
      set (w2 := mkWorld (<[a := g2]> (groups w))
                   (runs w ++ [new_run control a]) (held w) (trace w)) in *.
      destruct (IH w2 w' g2) as (g' & bs & rs & Hg' & Hst & HG & HR & Hbs &
                                 Hrs & Hlen & Hframe & Hrframe & Hglen & Hup');
        [by apply list_lookup_insert_eq| |done|].
      { intros i gi Hi Hgi. unfold w2 in Hgi. simpl in Hgi.
        rewrite list_lookup_insert_ne in Hgi by lia. by apply (Hup i gi). }
      exists g', bs, (length (runs w) :: rs).
      split; [done|]. split; [done|]. split; [done|].
      split; [by rewrite HR; unfold g2; simpl; rewrite <- app_assoc|].
      split; [done|].
      split.
      { rewrite control_children_cons. apply Forall2_cons. split; [|done].
        apply Hrframe. unfold w2. simpl.
        by rewrite lookup_app_r, Nat.sub_diag by lia. }
      split.
      { rewrite Hlen, fmap_cons. unfold w2. simpl. rewrite length_app.
        simpl. lia. }
      split.
      { intros j x Hj Hx. apply Hframe; [done|]. unfold w2. simpl.
        by rewrite list_lookup_insert_ne. }
      split.
      { intros r x Hx. apply Hrframe. unfold w2. simpl.
        by apply lookup_app_l_Some. }
      split; [|done].
      unfold w2 in Hglen. simpl in Hglen. by rewrite length_insert in Hglen.
    + destruct (NewResultGroup_builds item executionTree a w)
        as (w1 & Hnew & Hbuilt).
      destruct (child_laid_out executionTree item a w w1 g true
                  (NewResultGroup_lays_out item) Hnew Hbuilt Hg Hup)
        as (Hg1 & Hcount & Hg2 & Hup2 & Hab & Hitem & Hcounted & Hupb &
            Hframe2 & Hrframe2 & Hrlen2 & Hglen2).
      rewrite (root_item_group _ _ _ _ _ _ _ Hkind Hnew Hg1) in Hloop.
      set (b := length (groups w)) in *.
      set (g2 := with_Groups (Groups g ++ [b]) g) in *.
      set (w2 := mkWorld (<[a := g2]> (groups w1)) (runs w1) (held w1)
                   (trace w1)) in *.
      destruct (IH w2 w' g2 Hg2 Hup2 Hloop)
        as (g' & bs & rs & Hg' & Hst & HG & HR & Hbs & Hrs & Hlen & Hframe &
            Hrframe & Hglen & Hup').
      exists g', (b :: bs), rs.
      split; [done|]. split; [done|].
      split; [by rewrite HG; unfold g2; simpl; rewrite <- app_assoc|].
      split; [done|].
      split.
      { rewrite group_items_cons, Hkind. apply Forall2_cons. split; [|done].
        by apply (child_transport w2 w'). }
      split.
      { rewrite control_children_cons. by destruct item. }
      split.
      { rewrite Hlen, Hrlen2, fmap_cons.
        assert (root_controls item = controls_below item) as ->
            by by destruct item.
        simpl. lia. }
      split; [by intros j x Hj Hx; apply Hframe, Hframe2|].
      split; [by intros r x Hx; apply Hrframe, Hrframe2|].
      split; [lia|done].
Qed.

Lemma root_controls_sum items :
  length (control_children items) +
  sum_list (controls_below <$> group_items items) =
  sum_list (root_controls <$> items).
Proof.
  induction items as [|item items IH]; [done|].
  rewrite fmap_cons, control_children_cons, group_items_cons.
  cbn [sum_list sum_list_with id]. rewrite <- IH.
  destruct item as [control|b cs|b cs]; cbn [is_control root_controls length].
  - lia.
  - rewrite fmap_cons. cbn [sum_list sum_list_with id]. lia.
  - rewrite fmap_cons. cbn [sum_list sum_list_with id]. lia.
Qed.

(** ** What the builder makes of its input *)

(** X12. [NewResultGroup] returns for every item, parent and heap. The group it
    returns is new; it takes its identifier, title, description and tags
    from the item, keeps the item, and points to the given parent. The
    groups and runs that were there stay as they were: the parent itself is
    not touched, attaching the new group is left to the caller. *)
Theorem NewResultGroup_leaves_the_rest (executionTree : ExecutionTree)
    (treeItem : modconfig.ModTreeItem) (parent : loc) (w : World) :
  exists w' g,
    NewResultGroup executionTree treeItem parent w =
      Some (length (groups w), w') /\
    groups w' !! length (groups w) = Some g /\
    GroupId g = modconfig.Name treeItem /\
    Title g = modconfig.GetTitle treeItem /\
    Description g = modconfig.GetDescription treeItem /\
    Tags g = modconfig.GetTags treeItem /\
    GroupItem g = Some treeItem /\ Parent g = Some parent /\
    (forall j x, groups w !! j = Some x -> groups w' !! j = Some x) /\
    (forall r c, runs w !! r = Some c -> runs w' !! r = Some c) /\
    held w' = held w /\ trace w' = trace w.
Proof.
  destruct (NewResultGroup_builds treeItem executionTree parent w)
    as (w' & Hnew & Hbuilt).
  destruct (lay_group _ _ _ _ (NewResultGroup_lays_out treeItem _ _ _ _ Hnew))
    as (g & Hg & Hst & _).
  exists w', g. injection Hst as HI HT HD HTg HIt HP.
  split; [done|]. split; [done|]. split; [done|]. split; [done|].
  split; [done|]. split; [done|]. split; [done|]. split; [done|].
  split; [apply (bt_groups _ _ _ _ Hbuilt)|].
  split; [apply (bt_runs _ _ _ _ Hbuilt)|].
  split; [apply (bt_held _ _ _ _ Hbuilt)|apply (bt_trace _ _ _ _ Hbuilt)].
Qed.

(** X13. The group that [NewResultGroup] returns lists one control run for each
    child of the item that is a control, in the order of the children, each
    ready and owned by the group; and one child group for each child that is
    a benchmark with at least one control below it, in the order of the
    children, each built for its benchmark with the group as parent.
    Benchmarks without a control below them, and children that are neither
    a control nor a benchmark, leave nothing in the group. *)
Theorem NewResultGroup_children_in_order (executionTree : ExecutionTree)
    (treeItem : modconfig.ModTreeItem) (parent : loc) (w : World) :
  exists w' g,
    NewResultGroup executionTree treeItem parent w =
      Some (length (groups w), w') /\
    groups w' !! length (groups w) = Some g /\
    Forall2 (group_of_item w' (length (groups w))) (Groups g)
      (attached_children (modconfig.GetChildren treeItem)) /\
    Forall2 (run_of_control w' (length (groups w))) (ControlRuns g)
      (control_children (modconfig.GetChildren treeItem)).
Proof.
  destruct (NewResultGroup_builds treeItem executionTree parent w)
    as (w' & Hnew & Hbuilt).
  destruct (lay_group _ _ _ _ (NewResultGroup_lays_out treeItem _ _ _ _ Hnew))
    as (g & Hg & _ & Hgs & Hrs).
  by exists w', g.
Qed.

(** X14. [NewResultGroup] creates exactly one control run for every control
    that the item reaches through benchmarks, and [ControlRunCount] of the
    group it returns is that number. *)
Theorem NewResultGroup_counts_controls (executionTree : ExecutionTree)
    (treeItem : modconfig.ModTreeItem) (parent : loc) (w : World) :
  exists w',
    NewResultGroup executionTree treeItem parent w =
      Some (length (groups w), w') /\
    length (runs w') = length (runs w) + controls_below treeItem /\
    ControlRunCount (length (groups w)) w' =
      Some (controls_below treeItem, w').
Proof.
  destruct (NewResultGroup_builds treeItem executionTree parent w)
    as (w' & Hnew & Hbuilt).
  destruct (NewResultGroup_lays_out treeItem _ _ _ _ Hnew)
    as [Hruns (fuel & Hfuel & Hcount) _].
  exists w'. split; [done|]. split; [done|].
  unfold ControlRunCount.
  rewrite (count_stable (groups w') (groups w') fuel (length (groups w'))
             (length (groups w)) (controls_below treeItem)); [done| |lia|done].
  intros i g Hi Hg. split; [done|]. intros y Hy.
  by destruct (go_children _ _ _
                 (uo_groups _ _ _ (bt_under _ _ _ _ Hbuilt) i g Hi Hg) y Hy).
Qed.

Lemma NewRootResultGroup_laid_out executionTree rootItems :
  exists w g,
    NewRootResultGroup executionTree rootItems empty_world = Some (0, w) /\
    groups w !! 0 = Some g /\
    Forall2 (fun b c => 0 < b /\ group_of_item w 0 b c /\
                        counted w b (controls_below c))
      (Groups g) (group_items rootItems) /\
    Forall2 (run_of_control w 0) (ControlRuns g)
      (control_children rootItems) /\
    length (runs w) = sum_list (root_controls <$> rootItems) /\
    upward w 0.
Proof.
  destruct (NewRootResultGroup_ok executionTree rootItems)
    as (w & Hbuild & _).
  pose proof Hbuild as Hloop. rewrite NewRootResultGroup_unfold in Hloop.
  unfold bind at 1, allocGroup in Hloop. simpl in Hloop.
  set (w1 := mkWorld [root_group] [] [] []) in *.
  unfold bind, ret in Hloop.
  destruct (for_each rootItems (root_item executionTree 0) w1)
    as [[[] w']|] eqn:Hfor; [|done].
  injection Hloop as <-.
  destruct (root_items_laid_out executionTree 0 rootItems w1 w' root_group)
    as (g' & bs & rs & Hg' & _ & HG & HR & Hbs & Hrs & Hlen & _ & _ & _ & Hup');
    [done| |done|].
  { intros i g Hi Hg. apply lookup_lt_Some in Hg. simpl in Hg. lia. }
  simpl in HG, HR, Hlen. subst bs rs. by exists w', g'.
Qed.

(** X15. The root that [NewRootResultGroup] returns lists one control run for
    each root item that is a control, and one child group for each root
    item that is not, both in the order of the items; a group is listed
    whether or not there is a control below it. *)
Theorem NewRootResultGroup_children_in_order
    (executionTree : ExecutionTree)
    (rootItems : list modconfig.ModTreeItem) :
  exists w g,
    NewRootResultGroup executionTree rootItems empty_world = Some (0, w) /\
    groups w !! 0 = Some g /\
    Forall2 (group_of_item w 0) (Groups g) (group_items rootItems) /\
    Forall2 (run_of_control w 0) (ControlRuns g) (control_children rootItems).
Proof.
  destruct (NewRootResultGroup_laid_out executionTree rootItems)
    as (w & g & Hbuild & Hg & Hgs & Hrs & _).
  exists w, g. split; [done|]. split; [done|]. split; [|done].
  eapply Forall2_impl; [exact Hgs|]. by intros b c (_ & ? & _).
Qed.

(** X16. [NewRootResultGroup] creates exactly one control run for every control
    among the root items or reached from a root item through benchmarks;
    [ControlRunCount] of the root is the number of all control runs. *)
Theorem NewRootResultGroup_one_run_per_control
    (executionTree : ExecutionTree)
    (rootItems : list modconfig.ModTreeItem) :
  exists w,
    NewRootResultGroup executionTree rootItems empty_world = Some (0, w) /\
    length (runs w) = sum_list (root_controls <$> rootItems) /\
    ControlRunCount 0 w = Some (length (runs w), w).
Proof.
  destruct (NewRootResultGroup_laid_out executionTree rootItems)
    as (w & g & Hbuild & Hg & Hgs & Hrs & Hlen & Hup).
  exists w. split; [done|]. split; [done|].
  unfold ControlRunCount.
  pose proof (lookup_lt_Some _ _ _ Hg) as Hpos.
  destruct (length (groups w)) as [|k] eqn:Hk; [lia|].
  cbn [ControlRunCount_fuel]. rewrite Hg.
  rewrite (count_groups_Forall2 _ controls_below (Groups g)
             (group_items rootItems)).
  - rewrite (Forall2_length _ _ _ Hrs), root_controls_sum, Hlen. done.
  - eapply Forall2_impl; [exact Hgs|].
    intros b c (Hb & _ & fuel & Hfuel & Hcount). simpl.
    apply (count_stable (groups w) (groups w) fuel); [|lia|done].
    intros i gi Hi Hgi. split; [done|]. apply (Hup i gi); [lia|done].
Qed.

(** ** The built tree as a whole *)

Lemma Forall2_elem_of_l {A B} (R : A -> B -> Prop) l k x :
  Forall2 R l k -> x ∈ l -> exists y, y ∈ k /\ R x y.
Proof.
  intros H Hx. apply list_elem_of_lookup in Hx as [i Hi].
  destruct (Forall2_lookup_l _ _ _ _ _ H Hi) as (y & Hy & HR).
  exists y. split; [|done]. by eapply list_elem_of_lookup_2.
Qed.

Lemma Forall2_elem_of_r {A B} (R : A -> B -> Prop) l k y :
  Forall2 R l k -> y ∈ k -> exists x, x ∈ l /\ R x y.
Proof.
  intros H Hy. apply list_elem_of_lookup in Hy as [i Hi].
  destruct (Forall2_lookup_r _ _ _ _ _ H Hi) as (x & Hx & HR).
  exists x. split; [|done]. by eapply list_elem_of_lookup_2.
Qed.

Lemma find_first_match {A} (f : A -> bool) (l : list A) x :
  x ∈ l -> f x = true -> exists y, List.find f l = Some y /\ y ∈ l /\ f y = true.
Proof.
  intros Hx Hf. destruct (List.find f l) as [y|] eqn:Hfind.
  - apply find_some in Hfind as [Hin Hy]. exists y.
    split; [done|]. split; [by apply list_elem_of_In|done].
  - apply list_elem_of_In in Hx.
    pose proof (find_none _ _ Hfind x Hx). congruence.
Qed.

(** X17. [NewRootResultGroup] returns for every list of root items. The tree it
    leaves has the root at the head of the heap, with the root identifier
    and no parent; every other group has a parent, and following the
    parents from any group ends at the root. Child and parent links agree,
    every control run is listed once by the group it points to, nothing is
    aggregated yet, every run is ready, and no group lock was taken. *)
Theorem NewRootResultGroup_well_formed (executionTree : ExecutionTree)
    (rootItems : list modconfig.ModTreeItem) :
  exists w g,
    NewRootResultGroup executionTree rootItems empty_world = Some (0, w) /\
    wf_tree w /\ fresh w /\ held w = [] /\ trace w = [] /\
    groups w !! 0 = Some g /\
    GroupId g = RootResultGroupName /\ Parent g = None /\
    (forall i gi, groups w !! i = Some gi -> Parent gi = None -> i = 0) /\
    (forall i, i < length (groups w) -> 0 ∈ ancestors (groups w) i).
Proof.
  destruct (NewRootResultGroup_ok executionTree rootItems)
    as (w & Hbuild & Hwf & Hfresh & _ & Htrace & g & Hg & HP & HI & _).
  destruct (built_under_root _ _ _ _ Hbuild) as [_ Hroot].
  exists w, g.
  split; [done|]. split; [done|]. split; [done|].
  split; [by apply wf_unlocked|]. split; [done|]. split; [done|].
  split; [done|]. split; [done|]. split; [|done].
  intros i gi Hgi Hpi.
  pose proof (Hroot i (lookup_lt_Some _ _ _ Hgi)) as Hin.
  rewrite (ancestors_unfold _ _ _ (wf_parents_below _ Hwf) Hgi), Hpi in Hin.
  by apply list_elem_of_singleton in Hin.
Qed.

(** X18. Building and looking up: in the tree that [NewRootResultGroup] builds,
    a root item that is a control is found by [GetControlRunByName] at the
    root under the name of the control, and a root item that is not a
    control is found by [GetGroupByName] at the root under its name. What
    is found carries that name and hangs under the root. *)
Theorem root_items_found_by_name (executionTree : ExecutionTree)
    (rootItems : list modconfig.ModTreeItem) (item : modconfig.ModTreeItem) :
  item ∈ rootItems ->
  exists w,
    NewRootResultGroup executionTree rootItems empty_world = Some (0, w) /\
    match item with
    | modconfig.ControlItem control =>
        exists r c,
          GetControlRunByName 0 (modconfig.ControlName control) w =
            Some (Some r, w) /\
          runs w !! r = Some c /\
          modconfig.ControlName (Control c) = modconfig.ControlName control /\
          Group c = 0
    | _ =>
        exists b gb,
          GetGroupByName 0 (modconfig.Name item) w = Some (Some b, w) /\
          groups w !! b = Some gb /\
          GroupId gb = modconfig.Name item /\ Parent gb = Some 0
    end.
Proof.
  intros Hitem.
  destruct (NewRootResultGroup_laid_out executionTree rootItems)
    as (w & g & Hbuild & Hg & Hgs & Hrs & _).
  exists w. split; [done|].
  assert (forall control,
             item = modconfig.ControlItem control ->
             exists r c,
               GetControlRunByName 0 (modconfig.ControlName control) w =
                 Some (Some r, w) /\
               runs w !! r = Some c /\
               modconfig.ControlName (Control c) =
                 modconfig.ControlName control /\
               Group c = 0) as Hcontrol.
  { intros control ->.
    assert (control ∈ control_children rootItems) as Hin.
    { unfold control_children. apply list_elem_of_omap.
      by exists (modconfig.ControlItem control). }
    destruct (Forall2_elem_of_r _ _ _ _ Hrs Hin) as (r0 & Hr0 & Hrun0).
    destruct (find_first_match
                (run_named (runs w) (modconfig.ControlName control))
                (ControlRuns g) r0 Hr0) as (r & Hfind & Hr & Hnamed).
    { unfold run_named. unfold run_of_control in Hrun0. rewrite Hrun0. simpl.
      apply String.eqb_refl. }
    destruct (Forall2_elem_of_l _ _ _ _ Hrs Hr) as (control' & _ & Hrun).
    exists r, (new_run control' 0).
    unfold run_named in Hnamed. unfold run_of_control in Hrun.
    rewrite Hrun in Hnamed. simpl in Hnamed.
    apply String.eqb_eq in Hnamed.
    split; [|done].
    unfold GetControlRunByName, bind, getGroup. rewrite Hg.
    rewrite find_run_spec; [by rewrite Hfind|].
    apply Forall_forall. intros x Hx.
    destruct (Forall2_elem_of_l _ _ _ _ Hrs Hx) as (y & _ & Hy).
    by eexists. }
  assert (is_control item = false ->
          exists b gb,
            GetGroupByName 0 (modconfig.Name item) w = Some (Some b, w) /\
            groups w !! b = Some gb /\
            GroupId gb = modconfig.Name item /\ Parent gb = Some 0) as Hgroup.
  { intros Hkind.
    assert (item ∈ group_items rootItems) as Hin.
    { unfold group_items. apply list_elem_of_In, filter_In.
      split; [by apply list_elem_of_In|by rewrite Hkind]. }
    destruct (Forall2_elem_of_r _ _ _ _ Hgs Hin)
      as (b0 & Hb0 & _ & (gb0 & Hgb0 & Hst0) & _).
    destruct (find_first_match
                (group_named (groups w) (modconfig.Name item))
                (Groups g) b0 Hb0) as (b & Hfind & Hb & Hnamed).
    { unfold group_named. rewrite Hgb0. injection Hst0 as -> _.
      apply String.eqb_refl. }
    destruct (Forall2_elem_of_l _ _ _ _ Hgs Hb)
      as (item' & _ & _ & (gb & Hgb & Hst) & _).
    exists b, gb. unfold group_named in Hnamed. rewrite Hgb in Hnamed.
    apply String.eqb_eq in Hnamed. injection Hst as _ _ _ _ _ HP.
    split; [|done].
    unfold GetGroupByName, bind, getGroup. rewrite Hg.
    rewrite find_group_spec; [by rewrite Hfind|].
    apply Forall_forall. intros x Hx.
    destruct (Forall2_elem_of_l _ _ _ _ Hgs Hx)
      as (y & _ & _ & (gx & Hgx & _) & _).
    by eexists. }
  destruct item as [control|b cs|b cs];
    [by apply Hcontrol|by apply Hgroup|by apply Hgroup].
Qed.

Lemma root_items_found_by_name_witness :
  exists w,
    NewRootResultGroup sample.tree sample.items empty_world = Some (0, w) /\
    exists b gb,
      GetGroupByName 0 "aws.benchmark.b2" w = Some (Some b, w) /\
      groups w !! b = Some gb /\
      GroupId gb = "aws.benchmark.b2" /\ Parent gb = Some 0.
Proof.
  apply (root_items_found_by_name sample.tree sample.items
           (modconfig.BenchmarkItem (sample.item "aws.benchmark.b2") [])).
  right. left.
Defined.


(** ** Reaching a terminal state *)

Lemma push_updates_spec c summary w :
  parents_below (groups w) -> Group c < length (groups w) -> held w = [] ->
  in_int (RunDuration c) ->
  push_updates c summary w = Some (tt, pushed c summary w).
Proof.
  intros Hpb Hl Hheld Hd. unfold push_updates, pushed.
  unfold bind at 1. rewrite updateSummary_spec by done.
  set (w2 := after_chain (add_status summary) (Group c) w).
  assert (parents_below (groups w2)) as Hpb2
    by by apply after_chain_parents_below.
  assert (length (groups w2) = length (groups w)) as Hlen2
    by (unfold w2; by rewrite after_chain_length).
  unfold bind at 1.
  assert ((if String.eqb (modconfig.ControlSeverity (Control c)) EmptyString
           then ret tt
           else updateSeverityCounts (Group c)
                  (modconfig.ControlSeverity (Control c)) summary) w2 =
          Some (tt, severity_step c summary w2)) as ->.
  { unfold severity_step. destruct (String.eqb _ _); [done|].
    apply updateSeverityCounts_spec; [done|lia|done]. }
  destruct (severity_step_groups c summary w2 Hpb2)
    as (Hpb3 & Hlen3 & Hheld3 & _ & _).
  set (w3 := severity_step c summary w2) in *.
  assert (held w3 = []) as Hheld3' by (rewrite Hheld3; exact Hheld).
  unfold bind at 1. rewrite addDuration_spec; [|done|done|lia|done].
  rewrite addDimensionKeys_spec; [done| | |done].
  - by apply after_chain_parents_below.
  - rewrite after_chain_length. lia.
Qed.

Lemma pushed_lookup c summary w i :
  parents_below (groups w) ->
  groups (pushed c summary w) !! i =
    if decide (i ∈ ancestors (groups w) (Group c))
    then push_effect c summary <$> groups w !! i
    else groups w !! i.
Proof.
  intros Hpb. unfold pushed.
  set (w2 := after_chain (add_status summary) (Group c) w).
  assert (parents_below (groups w2)) as Hpb2
    by by apply after_chain_parents_below.
  assert (forall x, ancestors (groups w2) x = ancestors (groups w) x) as Hanc2.
  { intros x. unfold w2. by rewrite after_chain_ancestors. }
  destruct (severity_step_groups c summary w2 Hpb2)
    as (Hpb3 & _ & _ & _ & Hanc3).
  assert (groups (severity_step c summary w2) !! i =
          if decide (i ∈ ancestors (groups w) (Group c))
          then (fun g =>
                  (if String.eqb (modconfig.ControlSeverity (Control c))
                        EmptyString
                   then id
                   else set_severity (modconfig.ControlSeverity (Control c))
                          summary) (add_status summary g)) <$> groups w !! i
          else groups w !! i) as Hg3.
  { unfold severity_step. destruct (String.eqb _ _).
    - unfold w2. rewrite after_chain_lookup by done. by case_decide.
    - rewrite after_chain_lookup by done. rewrite Hanc2. unfold w2.
      rewrite after_chain_lookup by done. case_decide; [|done].
      by destruct (groups w !! i). }
  set (w3 := severity_step c summary w2) in *.
  set (w4 := after_chain
               (add_duration (time.Round (RunDuration c) time.Millisecond))
               (Group c) w3).
  assert (parents_below (groups w4)) as Hpb4
    by by apply after_chain_parents_below.
  assert (forall x, ancestors (groups w4) x = ancestors (groups w) x) as Hanc4.
  { intros x. unfold w4. rewrite after_chain_ancestors by done.
    by rewrite Hanc3, Hanc2. }
  rewrite after_chain_lookup by done. rewrite Hanc4.
  unfold w4. rewrite after_chain_lookup by done. rewrite Hanc3, Hanc2, Hg3.
  case_decide; [|done]. by destruct (groups w !! i).
Qed.

Lemma pushed_runs c summary w : runs (pushed c summary w) = runs w.
Proof. unfold pushed. simpl. unfold severity_step. by destruct (String.eqb _ _). Qed.

Lemma pushed_held c summary w : held (pushed c summary w) = held w.
Proof. unfold pushed. simpl. unfold severity_step. by destruct (String.eqb _ _). Qed.

Lemma push_effect_identity c summary g :
  identity_of (push_effect c summary g) = identity_of g.
Proof. unfold push_effect. by destruct (String.eqb _ _). Qed.

Lemma push_effect_status c summary g :
  GroupSummary.Status (Summary (push_effect c summary g)) =
  controlstatus.add (GroupSummary.Status (Summary g)) summary.
Proof. unfold push_effect. by destruct (String.eqb _ _). Qed.

Lemma terminated_runs r c summary w :
  runs (terminated r c summary w) = <[r := c]> (runs w).
Proof. unfold terminated. by rewrite pushed_runs. Qed.

Lemma terminated_lookup r c summary w i :
  parents_below (groups w) ->
  groups (terminated r c summary w) !! i =
    if decide (i ∈ ancestors (groups w) (Group c))
    then push_effect c summary <$> groups w !! i
    else groups w !! i.
Proof. intros Hpb. unfold terminated. by rewrite pushed_lookup. Qed.

Lemma terminated_identity r c summary w i :
  parents_below (groups w) ->
  identity_of <$> groups (terminated r c summary w) !! i =
  identity_of <$> groups w !! i.
Proof.
  intros Hpb. rewrite terminated_lookup by done. case_decide; [|done].
  destruct (groups w !! i) as [g|]; [|done]. simpl.
  by rewrite push_effect_identity.
Qed.

Lemma terminated_same_shape r c0 c summary w :
  parents_below (groups w) -> runs w !! r = Some c0 -> Group c = Group c0 ->
  same_shape w (terminated r c summary w).
Proof.
  intros Hpb Hc0 HG. split.
  - intros i. pose proof (terminated_identity r c summary w i Hpb) as Hid.
    destruct (groups (terminated r c summary w) !! i) as [g'|],
             (groups w !! i) as [g|]; simpl in *; try done.
    unfold identity_of in Hid. congruence.
  - intros x. rewrite terminated_runs.
    destruct (decide (r = x)) as [<-|Hne].
    + rewrite list_lookup_insert_eq by (by eapply lookup_lt_Some).
      rewrite Hc0. simpl. by rewrite HG.
    + by rewrite list_lookup_insert_ne.
  - unfold terminated. by rewrite pushed_held.
Qed.

Lemma terminate_spec r c0 c summary w :
  wf_tree w -> runs w !! r = Some c0 -> Group c = Group c0 ->
  in_int (RunDuration c) ->
  (setRun r c ;;; push_updates c summary) w =
    Some (tt, terminated r c summary w).
Proof.
  intros Hwf Hc0 HG Hd. unfold bind, setRun, terminated.
  apply push_updates_spec; simpl; [by apply wf_parents_below| |
                                   by apply wf_unlocked|done].
  rewrite HG. destruct (wf_run_group _ Hwf _ _ Hc0) as (g & Hg & _).
  by eapply lookup_lt_Some.
Qed.

Lemma setError_spec run err c s :
  wf_tree (world s) -> runs (world s) !! run = Some c ->
  in_int (RunDuration c) ->
  setError run err s =
    Some (tt, mkSched
                (terminated run (with_run_error err c) error_unit (world s))
                (clock s) (slots s) (spawned s) (panicking s)
                (log s ++ [ActSetError run err])).
Proof.
  intros Hwf Hc Hd. unfold setError, bind at 1, emit, modify, lift.
  cbn [world clock slots spawned panicking log].
  unfold bind at 1, getRun. rewrite Hc.
  by rewrite (terminate_spec run c (with_run_error err c)).
Qed.

Lemma skip_spec run c s :
  wf_tree (world s) -> runs (world s) !! run = Some c ->
  in_int (RunDuration c) ->
  skip run s =
    Some (tt, mkSched
                (terminated run (with_run_skipped c) skip_unit (world s))
                (clock s) (slots s) (spawned s) (panicking s)
                (log s ++ [ActSkip run])).
Proof.
  intros Hwf Hc Hd. unfold skip, bind at 1, emit, modify, lift.
  cbn [world clock slots spawned panicking log].
  unfold bind at 1, getRun. rewrite Hc.
  by rewrite (terminate_spec run c (with_run_skipped c)).
Qed.

(** ** One iteration of the loop of [execute] *)

Lemma execute_run_fate env x c s :
  wf_tree (world s) -> runs (world s) !! x = Some c ->
  in_int (RunDuration c) ->
  execute_run env x s = Some (tt, execute_run_result env x c s).
Proof.
  intros Hwf Hc Hd. unfold execute_run, execute_run_result, bind at 1, tick.
  destruct (ctxErr env (clock s)) as [cause|];
    [|destruct (dryRun env (clock s));
      [|unfold Acquire; destruct (acquireErr env (clock s)) as [err|]]].
  - by rewrite (setError_spec x cause c).
  - by rewrite (skip_spec x c).
  - unfold bind at 1, ret. by rewrite (setError_spec x err c).
  - unfold go, bind, ret, emit, modify. simpl.
    by rewrite <- (assoc_L (++)).
Qed.

(** ** The walk of [execute] *)

Lemma walked_refl s : walked s s.
Proof. split; [apply same_shape_refl|done..]. Qed.

Lemma walked_trans s1 s2 s3 : walked s1 s2 -> walked s2 s3 -> walked s1 s3.
Proof.
  intros [? Hi ? Hd ?] [? Hi' ? Hd' ?]. split.
  - by eapply same_shape_trans.
  - intros i. by rewrite Hi', Hi.
  - congruence.
  - intros r. by rewrite Hd', Hd.
  - lia.
Qed.

Lemma walked_wf s s' : walked s s' -> wf_tree (world s) -> wf_tree (world s').
Proof. intros Hw. apply same_shape_wf, (wk_shape _ _ Hw). Qed.

Lemma walked_durations s s' :
  walked s s' -> durations_in_int (world s) -> durations_in_int (world s').
Proof.
  intros Hw Hd r c' Hc'. pose proof (wk_durations _ _ Hw r) as H.
  rewrite Hc' in H. destruct (runs (world s) !! r) as [c|] eqn:Hc; [|done].
  simpl in H. injection H as ->. by apply (Hd r c).
Qed.

Lemma walked_length s s' :
  walked s s' -> length (groups (world s')) = length (groups (world s)).
Proof.
  intros Hw. apply Nat.le_antisymm; apply Nat.nlt_ge; intros Hlt.
  - destruct (lookup_lt_is_Some_2 _ _ Hlt) as [g Hg].
    destruct (same_shape_group _ _ _ _ (wk_shape _ _ Hw) Hg)
      as (g' & Hg' & _).
    apply lookup_lt_Some in Hg'. lia.
  - destruct (lookup_lt_is_Some_2 _ _ Hlt) as [g Hg].
    destruct (same_shape_group_inv _ _ _ _ (wk_shape _ _ Hw) Hg)
      as (g' & Hg' & _).
    apply lookup_lt_Some in Hg'. lia.
Qed.

(** A run put in a terminal state: what the step keeps. *)
Lemma decided_walked c0 c u a x s :
  wf_tree (world s) -> runs (world s) !! x = Some c0 ->
  Group c = Group c0 -> RunDuration c = RunDuration c0 ->
  walked s (decided c u a x s) /\
  (forall y, y <> x ->
             runs (world (decided c u a x s)) !! y = runs (world s) !! y) /\
  (forall i, i ∉ ancestors (groups (world s)) (Group c0) ->
             groups (world (decided c u a x s)) !! i = groups (world s) !! i).
Proof.
  intros Hwf Hc0 HG HD. pose proof (wf_parents_below _ Hwf) as Hpb.
  pose proof (lookup_lt_Some _ _ _ Hc0) as Hx.
  unfold decided.
  split; [split|split]; cbn [world slots spawned].
  - by apply (terminated_same_shape x c0).
  - intros i. by apply terminated_identity.
  - by rewrite terminated_runs, length_insert.
  - intros r. rewrite terminated_runs.
    destruct (decide (x = r)) as [<-|Hne].
    + rewrite list_lookup_insert_eq by done. rewrite Hc0. simpl. by rewrite HD.
    + by rewrite list_lookup_insert_ne.
  - lia.
  - intros y Hy. rewrite terminated_runs. by rewrite list_lookup_insert_ne.
  - intros i Hi. rewrite terminated_lookup by done. rewrite HG.
    by rewrite decide_False.
Qed.

Lemma execute_run_result_walked env x c s :
  wf_tree (world s) -> runs (world s) !! x = Some c ->
  walked s (execute_run_result env x c s) /\
  clock (execute_run_result env x c s) = S (clock s) /\
  (forall y, y <> x ->
             runs (world (execute_run_result env x c s)) !! y =
             runs (world s) !! y) /\
  (forall i, i ∉ ancestors (groups (world s)) (Group c) ->
             groups (world (execute_run_result env x c s)) !! i =
             groups (world s) !! i).
Proof.
  intros Hwf Hc. unfold execute_run_result.
  destruct (ctxErr env (clock s)) as [cause|];
    [|destruct (dryRun env (clock s));
      [|destruct (acquireErr env (clock s)) as [err|]]].
  - destruct (decided_walked c (with_run_error cause c) error_unit
                (ActSetError x cause) x s Hwf Hc eq_refl eq_refl)
      as (Hw & Hr & Hg).
    done.
  - destruct (decided_walked c (with_run_skipped c) skip_unit
                (ActSkip x) x s Hwf Hc eq_refl eq_refl) as (Hw & Hr & Hg).
    done.
  - destruct (decided_walked c (with_run_error err c) error_unit
                (ActSetError x err) x s Hwf Hc eq_refl eq_refl)
      as (Hw & Hr & Hg).
    done.
  - cbn [world clock]. split; [|done].
    split; cbn [world slots spawned]; [apply same_shape_refl|done..|].
    rewrite length_app. simpl. lia.
Qed.

Lemma execute_run_walked env x s :
  wf_tree (world s) -> durations_in_int (world s) ->
  x < length (runs (world s)) ->
  exists s',
    execute_run env x s = Some (tt, s') /\ walked s s' /\
    clock s' = S (clock s) /\
    (forall y, y <> x -> runs (world s') !! y = runs (world s) !! y) /\
    (forall i c, runs (world s) !! x = Some c ->
                 i ∉ ancestors (groups (world s)) (Group c) ->
                 groups (world s') !! i = groups (world s) !! i).
Proof.
  intros Hwf Hd Hx. destruct (lookup_lt_is_Some_2 _ _ Hx) as [c Hc].
  exists (execute_run_result env x c s).
  destruct (execute_run_result_walked env x c s Hwf Hc) as (Hw & Hcl & Hr & Hg).
  split; [apply execute_run_fate; [done..|by apply (Hd x)]|].
  split; [done|]. split; [done|]. split; [done|].
  intros i c' Hc'. rewrite Hc in Hc'. injection Hc' as <-. apply Hg.
Qed.

(** Whenever an iteration returns, it has kept the tree. *)
Lemma execute_run_inv env x s s' :
  wf_tree (world s) -> durations_in_int (world s) ->
  execute_run env x s = Some (tt, s') ->
  walked s s' /\ clock s' = S (clock s).
Proof.
  intros Hwf Hd Hrun.
  destruct (decide (x < length (runs (world s)))) as [Hx|Hx].
  - destruct (execute_run_walked env x s Hwf Hd Hx)
      as (s1 & Hrun1 & Hw & Hcl & _).
    rewrite Hrun in Hrun1. by injection Hrun1 as <-.
  - assert (runs (world s) !! x = None) as Hnone
      by (apply lookup_ge_None; lia).
    revert Hrun. unfold execute_run, bind at 1, tick.
    destruct (ctxErr env (clock s)) as [cause|];
      [|destruct (dryRun env (clock s));
        [|unfold Acquire; destruct (acquireErr env (clock s)) as [err|]]].
    + unfold setError, bind at 1, emit, modify, lift.
      cbn [world]. unfold bind at 1, getRun. by rewrite Hnone.
    + unfold skip, bind at 1, emit, modify, lift.
      cbn [world]. unfold bind at 1, getRun. by rewrite Hnone.
    + unfold bind at 1, ret. unfold setError, bind at 1, emit, modify, lift.
      cbn [world]. unfold bind at 1, getRun. by rewrite Hnone.
    + unfold go, bind, ret, emit, modify. simpl. intros [= <-].
      split; [|done].
      split; cbn [world slots spawned]; [apply same_shape_refl|done..|].
      rewrite length_app. simpl. lia.
Qed.

Lemma for_each_app {S A} (xs ys : list A) (body : A -> ST S unit) s :
  for_each (xs ++ ys) body s = (for_each xs body ;;; for_each ys body) s.
Proof.
  revert s. induction xs as [|x xs IH]; intros s; [done|].
  simpl. unfold bind.
  destruct (body x s) as [[u s1]|]; [|done]. by rewrite IH.
Qed.

Lemma same_shape_in_subtree w w' x c c' i :
  same_shape w w' -> parents_below (groups w) ->
  runs w !! x = Some c -> runs w' !! x = Some c' ->
  (i ∈ ancestors (groups w') (Group c') <->
   i ∈ ancestors (groups w) (Group c)).
Proof.
  intros Hss Hpb Hc Hc'.
  destruct (same_shape_run _ _ _ _ Hss Hc') as (c0 & Hc0 & HG).
  rewrite Hc in Hc0. injection Hc0 as <-.
  by rewrite (same_shape_ancestors _ _ _ Hss Hpb), HG.
Qed.

(** The loop over a list of runs: it returns, keeps the tree, and touches
    only the runs of the list and the groups above them. *)
Lemma for_each_execute_run env xs s :
  wf_tree (world s) -> durations_in_int (world s) ->
  (forall x, x ∈ xs -> x < length (runs (world s))) ->
  exists s',
    for_each xs (execute_run env) s = Some (tt, s') /\
    walked s s' /\ clock s' = clock s + length xs /\
    (forall y, y ∉ xs -> runs (world s') !! y = runs (world s) !! y) /\
    (forall i,
        (forall x c, x ∈ xs -> runs (world s) !! x = Some c ->
                     i ∉ ancestors (groups (world s)) (Group c)) ->
        groups (world s') !! i = groups (world s) !! i).
Proof.
  revert s. induction xs as [|x xs IH]; intros s Hwf Hd Halloc.
  - exists s. split; [done|]. split; [apply walked_refl|].
    split; [simpl; lia|]. done.
  - destruct (execute_run_walked env x s Hwf Hd (Halloc x ltac:(left)))
      as (s1 & Hx & Hw1 & Hcl1 & Hr1 & Hg1).
    destruct (IH s1) as (s' & Hrest & Hw & Hcl & Hr & Hg).
    { by eapply walked_wf. }
    { by eapply walked_durations. }
    { intros y Hy. rewrite (wk_runs _ _ Hw1). apply Halloc. by right. }
    exists s'. cbn [for_each]. unfold bind. rewrite Hx.
    split; [done|]. split; [by eapply walked_trans|].
    split; [simpl; lia|]. split.
    + intros y Hy. apply not_elem_of_cons in Hy as [Hne Hy].
      rewrite (Hr y Hy). by apply Hr1.
    + intros i Hi. rewrite Hg.
      * destruct (lookup_lt_is_Some_2 _ _ (Halloc x ltac:(left))) as [c Hc].
        apply (Hg1 i c Hc). apply (Hi x c); [left|done].
      * intros y c1 Hy Hc1.
        destruct (same_shape_run _ _ _ _ (wk_shape _ _ Hw1) Hc1)
          as (c0 & Hc0 & HG).
        rewrite (same_shape_in_subtree (world s) (world s1) y c0 c1 i
                   (wk_shape _ _ Hw1) (wf_parents_below _ Hwf) Hc0 Hc1).
        apply (Hi y c0); [by right|done].
Qed.

(** ** The order of the walk *)

Lemma for_each_inv {A} (I : Sched -> Prop) (body : A -> X unit) xs s s' :
  (forall x s1 s2, I s1 -> body x s1 = Some (tt, s2) -> I s2) ->
  I s -> for_each xs body s = Some (tt, s') -> I s'.
Proof.
  intros Hbody. revert s. induction xs as [|x xs IH]; intros s Hs.
  - by intros [= <-].
  - simpl. unfold bind. destruct (body x s) as [[[] s1]|] eqn:Hx; [|done].
    apply IH. by eapply Hbody.
Qed.

Lemma execute_children_spec env (I : Sched -> Prop) (rec : loc -> X unit)
    (pre : loc -> option (list loc)) h gs ds s :
  (forall x s1 s2, I s1 -> execute_run env x s1 = Some (tt, s2) -> I s2) ->
  (forall c below s1,
      c ∈ gs -> pre c = Some below -> I s1 ->
      rec c s1 = for_each ((c :: below) ≫= runs_of h) (execute_run env) s1) ->
  preorder_groups pre gs = Some ds -> I s ->
  for_each gs rec s = for_each (ds ≫= runs_of h) (execute_run env) s.
Proof.
  intros Hinv. revert ds s.
  induction gs as [|c gs IH]; intros ds s Hrec Hds Hs.
  - by injection Hds as <-.
  - simpl in Hds.
    destruct (pre c) as [below|] eqn:Hbelow; [|done].
    destruct (preorder_groups pre gs) as [rest|] eqn:Hrest; [|done].
    injection Hds as <-.
    change (c :: below ++ rest) with ((c :: below) ++ rest).
    rewrite (bind_app (runs_of h)), for_each_app.
    change (for_each (c :: gs) rec s)
      with ((rec c ;;; for_each gs rec) s).
    unfold bind. rewrite (Hrec c below s) by (done || left).
    destruct (for_each ((c :: below) ≫= runs_of h) (execute_run env) s)
      as [[[] s1]|] eqn:Hc; [|done].
    apply IH; [by intros c' b' s' Hc'; apply Hrec; right|done|].
    by eapply (for_each_inv I (execute_run env)).
Qed.

(** [execute] is the body of its loop applied to the runs of the subtree in
    walk order, at every state of an invariant that the body keeps and
    that fixes the child groups and the runs of each group. *)
Lemma execute_fuel_spec env (I : Sched -> Prop) h fuel r ds s :
  (forall x s1 s2, I s1 -> execute_run env x s1 = Some (tt, s2) -> I s2) ->
  (forall s1 i, I s1 ->
                (fun g => (Groups g, ControlRuns g)) <$> groups (world s1) !! i =
                (fun g => (Groups g, ControlRuns g)) <$> h !! i) ->
  descendants_fuel fuel h r = Some ds -> I s ->
  execute_fuel fuel env r s =
  for_each ((r :: ds) ≫= runs_of h) (execute_run env) s.
Proof.
  intros Hinv Hshape. revert r ds s.
  induction fuel as [|fuel IH]; intros r ds s; [done|].
  cbn [execute_fuel descendants_fuel]. intros Hds Hs.
  unfold bind at 1, lift, getGroup.
  pose proof (Hshape s r Hs) as Hr.
  destruct (h !! r) as [gh|] eqn:Hgh; [|done].
  destruct (groups (world s) !! r) as [g|] eqn:Hg; [|done].
  simpl in Hr. injection Hr as HG HR.
  replace (mkSched (world s) (clock s) (slots s) (spawned s) (panicking s)
             (log s)) with s by by destruct s.
  rewrite (bind_cons (runs_of h)), for_each_app.
  unfold runs_of at 1. rewrite Hgh, HR, HG. unfold bind.
  destruct (for_each (ControlRuns gh) (execute_run env) s)
    as [[[] s1]|] eqn:Hown; [|done].
  apply (execute_children_spec env I _ (descendants_fuel fuel h));
    [done|by intros; apply IH|done|].
  by eapply (for_each_inv I (execute_run env)).
Qed.

Lemma execute_fuel_walk env fuel r ds s :
  wf_tree (world s) -> durations_in_int (world s) ->
  descendants_fuel fuel (groups (world s)) r = Some ds ->
  execute_fuel fuel env r s =
  for_each ((r :: ds) ≫= runs_of (groups (world s))) (execute_run env) s.
Proof.
  intros Hwf Hd Hds.
  apply (execute_fuel_spec env
           (fun s1 => wf_tree (world s1) /\ durations_in_int (world s1) /\
                      walked s s1)); [| |done|].
  - intros x s1 s2 (Hwf1 & Hd1 & Hw1) Hrun.
    destruct (execute_run_inv env x s1 s2 Hwf1 Hd1 Hrun) as [Hw _].
    split; [by eapply walked_wf|]. split; [by eapply walked_durations|].
    by eapply walked_trans.
  - intros s1 i (_ & _ & Hw1). pose proof (wk_identity _ _ Hw1 i) as Hid.
    destruct (groups (world s1) !! i) as [g1|],
             (groups (world s) !! i) as [g|]; simpl in *; try done.
    unfold identity_of in Hid. congruence.
  - split; [done|]. split; [done|apply walked_refl].
Qed.

Lemma execute_spec env r s ds :
  wf_tree (world s) -> durations_in_int (world s) ->
  descendants (groups (world s)) r = Some ds ->
  execute env r s =
  for_each ((r :: ds) ≫= runs_of (groups (world s))) (execute_run env) s.
Proof. intros Hwf Hd Hds. unfold execute. by apply execute_fuel_walk. Qed.

(** The runs of a built tree have the duration they were created with. *)
Lemma built_durations executionTree rootItems root w :
  NewRootResultGroup executionTree rootItems empty_world = Some (root, w) ->
  durations_in_int w.
Proof.
  intros Hbuild.
  set (w1 := mkWorld [root_group] [] [] []).
  assert (under_ok w1 0 0) as Hu1.
  { split.
    - intros i g _ Hg. unfold w1 in Hg. simpl in Hg.
      destruct i as [|i]; [|done]. injection Hg as <-.
      split; simpl; try done; try apply NoDup_nil_2;
        intros x Hx; by apply elem_of_nil in Hx.
    - intros i g Hi Hg. unfold w1 in Hg. simpl in Hg.
      destruct i as [|i]; [lia|done].
    - intros r c _ Hc. unfold w1 in Hc. done. }
  destruct (root_items_ok executionTree rootItems 0 0 w1 root_group Hu1 eq_refl)
    as (w' & g0 & Hloop & Hgr & Hu & Hg0 & _).
  assert (w = w') as ->.
  { rewrite NewRootResultGroup_unfold in Hbuild.
    unfold bind at 1, allocGroup in Hbuild. simpl in Hbuild. fold w1 in Hbuild.
    unfold bind, ret in Hbuild. rewrite Hloop in Hbuild.
    by injection Hbuild as _ <-. }
  intros r c Hc.
  rewrite (ro_duration _ _ _ _ (uo_runs _ _ _ Hu r c ltac:(lia) Hc)).
  unfold in_int, int_min, int_max. lia.
Qed.

Lemma sample_durations : durations_in_int (world sample_start).
Proof. apply (built_durations sample.tree sample.items 0), sample_build. Qed.

Lemma sample_wf : wf_tree (world sample_start).
Proof. exact (proj1 (proj2 sample_built_ok)). Qed.

(** ** The walk of [execute] over a whole subtree *)

(** Two groups on one chain of parents: one is above the other. *)
Lemma ancestors_comparable h l i r :
  parents_below h -> i ∈ ancestors h l -> r ∈ ancestors h l ->
  r ∈ ancestors h i \/ i ∈ ancestors h r.
Proof.
  intros Hpb. induction (lt_wf l) as [l _ IH]. intros Hi Hr.
  destruct (h !! l) as [g|] eqn:Hl.
  - rewrite (ancestors_unfold h l g) in Hi, Hr by done.
    apply elem_of_cons in Hi as [->|Hi].
    { left. rewrite (ancestors_unfold h l g) by done. done. }
    apply elem_of_cons in Hr as [->|Hr].
    { right. rewrite (ancestors_unfold h l g) by done. by right. }
    destruct (Parent g) as [p|] eqn:Hp; [|by apply elem_of_nil in Hi].
    apply (IH p); [by eapply Hpb|done..].
  - rewrite ancestors_unallocated in Hi by done. by apply elem_of_nil in Hi.
Qed.

Lemma execute_walk env r s :
  wf_tree (world s) -> durations_in_int (world s) ->
  r < length (groups (world s)) ->
  exists order s',
    walk_order (groups (world s)) r = Some order /\
    execute env r s = Some (tt, s') /\
    for_each order (execute_run env) s = Some (tt, s') /\
    walked s s' /\ clock s' = clock s + length order /\
    (forall y, y ∉ order -> runs (world s') !! y = runs (world s) !! y) /\
    (forall i,
        (forall x c, x ∈ order -> runs (world s) !! x = Some c ->
                     i ∉ ancestors (groups (world s)) (Group c)) ->
        groups (world s') !! i = groups (world s) !! i).
Proof.
  intros Hwf Hd Hr.
  destruct (descendants_wf _ _ Hwf Hr) as [ds Hds].
  pose proof (execute_spec env r s ds Hwf Hd Hds) as Hexec.
  assert (walk_order (groups (world s)) r =
            Some ((r :: ds) ≫= runs_of (groups (world s)))) as Horder.
  { unfold walk_order. by rewrite Hds. }
  revert Hexec Horder.
  generalize ((r :: ds) ≫= runs_of (groups (world s))).
  intros order Hexec Horder.
  destruct (for_each_execute_run env order s Hwf Hd)
    as (s' & Hloop & Hw & Hcl & Hruns & Hgroups).
  { intros x Hx. by eapply walk_order_allocated. }
  exists order, s'. split; [done|]. split; [by rewrite Hexec|]. done.
Qed.

(** ** Runs below a group *)

Lemma run_below_same_shape w w' i x :
  same_shape w w' -> parents_below (groups w) ->
  run_below w' i x = run_below w i x.
Proof.
  intros Hss Hpb. unfold run_below.
  pose proof (ss_runs _ _ Hss x) as HG.
  destruct (runs w' !! x) as [c'|], (runs w !! x) as [c|]; simpl in *;
    try done.
  injection HG as ->. by rewrite (same_shape_ancestors _ _ _ Hss Hpb).
Qed.

Lemma count_below_same_shape w w' i xs :
  same_shape w w' -> parents_below (groups w) ->
  count_below w' i xs = count_below w i xs.
Proof.
  intros Hss Hpb. unfold count_below. f_equal.
  induction xs as [|x xs IH]; [done|]. simpl.
  by rewrite IH, (run_below_same_shape w w').
Qed.

Lemma count_below_cons w i x xs :
  count_below w i (x :: xs) =
  (if run_below w i x then 1 else 0) + count_below w i xs.
Proof. unfold count_below. simpl. by destruct (run_below w i x). Qed.

Lemma add_units_succ n u st :
  add_units (S n) u st = add_units n u (controlstatus.add st u).
Proof. unfold add_units. by rewrite Nat.iter_succ_r. Qed.

(** With Go's addition, [n] errors added to a summary. *)
Lemma add_units_error n st :
  valid_summary st ->
  add_units n error_unit st =
    {| controlstatus.Alarm := controlstatus.Alarm st;
       controlstatus.Ok := controlstatus.Ok st;
       controlstatus.Info := controlstatus.Info st;
       controlstatus.Skip := controlstatus.Skip st;
       controlstatus.Error :=
         wrap_int (controlstatus.Error st + Z.of_nat n) |}.
Proof.
  intros (Ha & Ho & Hi & Hs & He). induction n as [|n IH].
  - destruct st. unfold add_units. simpl in *. f_equal.
    by rewrite Z.add_0_r, wrap_int_id.
  - change (add_units (S n) error_unit st)
      with (controlstatus.add (add_units n error_unit st) error_unit).
    rewrite IH.
    unfold controlstatus.add, error_unit, int_add. simpl.
    rewrite !Z.add_0_r, !wrap_int_id by done. f_equal.
    rewrite wrap_int_add_l. f_equal. lia.
Qed.

Lemma add_units_skip n st :
  valid_summary st ->
  add_units n skip_unit st =
    {| controlstatus.Alarm := controlstatus.Alarm st;
       controlstatus.Ok := controlstatus.Ok st;
       controlstatus.Info := controlstatus.Info st;
       controlstatus.Skip :=
         wrap_int (controlstatus.Skip st + Z.of_nat n);
       controlstatus.Error := controlstatus.Error st |}.
Proof.
  intros (Ha & Ho & Hi & Hs & He). induction n as [|n IH].
  - destruct st. unfold add_units. simpl in *. f_equal.
    by rewrite Z.add_0_r, wrap_int_id.
  - change (add_units (S n) skip_unit st)
      with (controlstatus.add (add_units n skip_unit st) skip_unit).
    rewrite IH.
    unfold controlstatus.add, skip_unit, int_add. simpl.
    rewrite !Z.add_0_r.
    rewrite (wrap_int_id (controlstatus.Alarm st)),
      (wrap_int_id (controlstatus.Ok st)),
      (wrap_int_id (controlstatus.Info st)),
      (wrap_int_id (controlstatus.Error st)) by done.
    f_equal. rewrite wrap_int_add_l. f_equal. lia.
Qed.

(** A loop that takes every run of [xs] to the same kind of terminal state
    without starting a goroutine: each run is changed by [f], and each
    group gets one unit [u] for every run of [xs] below it. *)
Lemma for_each_terminated env (f : ControlRun -> ControlRun)
    (u : StatusSummary) (a : rloc -> Action) (xs : list rloc) (s : Sched) :
  (forall c, Group (f c) = Group c /\ RunDuration (f c) = RunDuration c) ->
  (forall x c s1, clock s <= clock s1 ->
                  execute_run_result env x c s1 = decided (f c) u (a x) x s1) ->
  wf_tree (world s) -> durations_in_int (world s) -> NoDup xs ->
  (forall x, x ∈ xs -> x < length (runs (world s))) ->
  exists s',
    for_each xs (execute_run env) s = Some (tt, s') /\
    (forall x c, runs (world s) !! x = Some c ->
                 runs (world s') !! x =
                   Some (if decide (x ∈ xs) then f c else c)) /\
    (forall i g,
        groups (world s) !! i = Some g ->
        exists g',
          groups (world s') !! i = Some g' /\
          GroupSummary.Status (Summary g') =
            add_units (count_below (world s) i xs) u
              (GroupSummary.Status (Summary g))) /\
    slots s' = slots s /\ spawned s' = spawned s /\
    log s' = log s ++ (a <$> xs).
Proof.
  intros Hf. revert s.
  induction xs as [|x xs IH]; intros s Hbody Hwf Hd Hnd Halloc.
  - exists s. split; [done|]. split.
    { intros x c Hc. rewrite decide_False; [done|]. apply not_elem_of_nil. }
    split; [intros i g Hg; by exists g|].
    by rewrite app_nil_r.
  - apply NoDup_cons in Hnd as [Hx Hnd].
    pose proof (wf_parents_below _ Hwf) as Hpb.
    destruct (lookup_lt_is_Some_2 _ _ (Halloc x ltac:(left))) as [c Hc].
    destruct (Hf c) as [HG HD].
    pose proof (execute_run_fate env x c s Hwf Hc (Hd x c Hc)) as Hrun.
    rewrite (Hbody x c s (le_n _)) in Hrun.
    destruct (decided_walked c (f c) u (a x) x s Hwf Hc HG HD)
      as (Hw1 & Hr1 & _).
    set (s1 := decided (f c) u (a x) x s) in *.
    destruct (IH s1) as (s' & Hrest & Hruns & Hgroups & Hsl & Hsp & Hl).
    { intros y cy s2 Hcl. apply Hbody. unfold s1, decided in Hcl.
      simpl in Hcl. lia. }
    { by eapply walked_wf. }
    { by eapply walked_durations. }
    { done. }
    { intros y Hy. rewrite (wk_runs _ _ Hw1). apply Halloc. by right. }
    exists s'. cbn [for_each]. unfold bind. rewrite Hrun.
    split; [done|]. split; [|split].
    + intros y cy Hcy. destruct (decide (y = x)) as [->|Hne].
      * rewrite Hc in Hcy. injection Hcy as <-.
        rewrite (Hruns x (f c)).
        -- rewrite decide_False by done. by rewrite decide_True by left.
        -- unfold s1, decided. cbn [world]. rewrite terminated_runs.
           apply list_lookup_insert_eq. by eapply lookup_lt_Some.
      * rewrite (Hruns y cy) by (by rewrite Hr1).
        destruct (decide (y ∈ xs)) as [Hin|Hout].
        -- by rewrite decide_True by by right.
        -- rewrite decide_False; [done|].
           intros [?|?]%elem_of_cons; done.
    + intros i g Hg.
      assert (groups (world s1) !! i =
              Some (if decide (i ∈ ancestors (groups (world s)) (Group c))
                    then push_effect (f c) u g else g)) as Hg1.
      { unfold s1, decided. cbn [world]. rewrite terminated_lookup by done.
        rewrite HG, Hg. by case_decide. }
      destruct (Hgroups i _ Hg1) as (g' & Hg' & Hst).
      exists g'. split; [done|]. rewrite Hst.
      rewrite (count_below_same_shape (world s) (world s1))
        by (done || apply (wk_shape _ _ Hw1)).
      rewrite count_below_cons. unfold run_below. rewrite Hc.
      destruct (decide (i ∈ ancestors (groups (world s)) (Group c)))
        as [Hin|Hout].
      * rewrite bool_decide_eq_true_2 by done.
        change (1 + count_below (world s) i xs)
          with (S (count_below (world s) i xs)).
        by rewrite add_units_succ, push_effect_status.
      * by rewrite bool_decide_eq_false_2 by done.
    + split; [by rewrite Hsl|]. split; [by rewrite Hsp|].
      rewrite Hl. unfold s1, decided. cbn [log]. by rewrite <- app_assoc.
Qed.

Lemma execute_all_terminated env (f : ControlRun -> ControlRun)
    (u : StatusSummary) (a : rloc -> Action) (r : loc) (s : Sched) :
  (forall c, Group (f c) = Group c /\ RunDuration (f c) = RunDuration c) ->
  (forall x c s1, clock s <= clock s1 ->
                  execute_run_result env x c s1 = decided (f c) u (a x) x s1) ->
  wf_tree (world s) -> durations_in_int (world s) ->
  r < length (groups (world s)) ->
  exists order s',
    walk_order (groups (world s)) r = Some order /\
    execute env r s = Some (tt, s') /\
    slots s' = slots s /\ spawned s' = spawned s /\
    log s' = log s ++ (a <$> order) /\
    same_shape (world s) (world s') /\
    (forall x c,
        runs (world s) !! x = Some c ->
        runs (world s') !! x =
          Some (if decide (r ∈ ancestors (groups (world s)) (Group c))
                then f c else c)) /\
    (forall i g,
        groups (world s) !! i = Some g ->
        exists g',
          groups (world s') !! i = Some g' /\
          identity_of g' = identity_of g /\
          GroupSummary.Status (Summary g') =
            add_units (count_below (world s) i order) u
              (GroupSummary.Status (Summary g))).
Proof.
  intros Hf Hbody Hwf Hd Hr.
  destruct (execute_walk env r s Hwf Hd Hr)
    as (order & s' & Horder & Hexec & Hloop & Hw & _).
  destruct (walk_order_spec _ _ _ Hwf Horder) as [Hnd Hmem].
  destruct (for_each_terminated env f u a order s Hf Hbody Hwf Hd Hnd)
    as (s2 & Hloop2 & Hruns & Hgroups & Hsl & Hsp & Hl).
  { intros x Hx. by eapply walk_order_allocated. }
  rewrite Hloop in Hloop2. injection Hloop2 as <-.
  exists order, s'.
  split; [done|]. split; [done|]. split; [done|]. split; [done|].
  split; [done|]. split; [apply (wk_shape _ _ Hw)|]. split.
  - intros x c Hc. rewrite (Hruns x c Hc).
    destruct (decide (x ∈ order)) as [Hin|Hout].
    + apply Hmem in Hin as (c' & Hc' & Hsub).
      rewrite Hc in Hc'. injection Hc' as <-.
      by rewrite decide_True by exact Hsub.
    + rewrite decide_False; [done|]. intros Hsub. apply Hout, Hmem.
      by exists c.
  - intros i g Hg. destruct (Hgroups i g Hg) as (g' & Hg' & Hst).
    exists g'. split; [done|]. split; [|done].
    pose proof (wk_identity _ _ Hw i) as Hid. rewrite Hg, Hg' in Hid.
    simpl in Hid. congruence.
Qed.

(** X3. [execute] returns on every well-formed tree, whatever the surroundings
    answer. What it does is the body of its loop over the control runs,
    applied to each control run of the subtree exactly once, in this order:
    the receiver's own runs, then the subtree of each child group, child
    after child. It keeps the tree and what each group is; what it
    aggregates goes to groups of the subtree and to the groups above the
    receiver, every other group and every run outside the subtree is left
    as it was; and it takes as many limiter slots as it starts
    goroutines. *)
Theorem execute_decides_each_run_once (env : Env) (r : loc) (s : Sched) :
  wf_tree (world s) -> durations_in_int (world s) ->
  r < length (groups (world s)) ->
  exists order s',
    walk_order (groups (world s)) r = Some order /\
    execute env r s = Some (tt, s') /\
    for_each order (execute_run env) s = Some (tt, s') /\
    NoDup order /\
    (forall x, x ∈ order <->
               exists c, runs (world s) !! x = Some c /\
                         in_subtree (world s) r c) /\
    clock s' = clock s + length order /\
    same_shape (world s) (world s') /\
    (forall i, identity_of <$> groups (world s') !! i =
               identity_of <$> groups (world s) !! i) /\
    (forall i, r ∉ ancestors (groups (world s)) i ->
               i ∉ ancestors (groups (world s)) r ->
               groups (world s') !! i = groups (world s) !! i) /\
    (forall x, x ∉ order -> runs (world s') !! x = runs (world s) !! x) /\
    slots s' + length (spawned s) = slots s + length (spawned s').
Proof.
  intros Hwf Hd Hr.
  destruct (execute_walk env r s Hwf Hd Hr)
    as (order & s' & Horder & Hexec & Hloop & Hw & Hcl & Hruns & Hgroups).
  destruct (walk_order_spec _ _ _ Hwf Horder) as [Hnd Hmem].
  exists order, s'.
  split; [done|]. split; [done|]. split; [done|]. split; [done|].
  split; [done|]. split; [done|]. split; [apply (wk_shape _ _ Hw)|].
  split; [apply (wk_identity _ _ Hw)|].
  split; [|split; [done|apply (wk_slots _ _ Hw)]].
  intros i Hri Hir. apply Hgroups. intros x c Hx Hc Hi.
  apply Hmem in Hx as (c' & Hc' & Hsub).
  rewrite Hc in Hc'. injection Hc' as <-.
  destruct (ancestors_comparable _ _ _ _ (wf_parents_below _ Hwf) Hi Hsub);
    done.
Qed.

Lemma execute_decides_each_run_once_witness :
  exists order s',
    walk_order (groups (world sample_start)) 0 = Some order /\
    execute (sample.env true false None Returned) 0
      sample_start = Some (tt, s') /\
    for_each order (execute_run (sample.env true false None Returned))
      sample_start = Some (tt, s') /\
    NoDup order /\
    (forall x, x ∈ order <->
               exists c, runs (world sample_start) !! x = Some c /\
                         in_subtree (world sample_start) 0 c) /\
    clock s' = clock sample_start + length order /\
    same_shape (world sample_start) (world s') /\
    (forall i, identity_of <$> groups (world s') !! i =
               identity_of <$> groups (world sample_start) !! i) /\
    (forall i, 0 ∉ ancestors (groups (world sample_start)) i ->
               i ∉ ancestors (groups (world sample_start)) 0 ->
               groups (world s') !! i = groups (world sample_start) !! i) /\
    (forall x, x ∉ order ->
               runs (world s') !! x = runs (world sample_start) !! x) /\
    slots s' + length (spawned sample_start) =
      slots sample_start + length (spawned s').
Proof.
  apply (execute_decides_each_run_once
           (sample.env true false None Returned) 0 sample_start);
    [exact sample_wf|exact sample_durations|vm_compute; lia].
Defined.

(** X4. When the context is cancelled before the walk starts, [execute] marks
    every control run of the subtree as errored with the cancellation cause,
    in walk order, takes no limiter slot and starts no goroutine. Each of
    these runs counts as one error in every group above it: the status of a
    group grows by one error for every run of the walk below it, which, the
    counters being Go values, adds their number to its error counter and
    leaves its other counters. The tree, what each group is, and the runs
    outside the subtree are left as they were. *)
Theorem execute_cancelled_errors_every_run (env : Env) (cause : string)
    (r : loc) (s : Sched) :
  wf_tree (world s) -> durations_in_int (world s) ->
  r < length (groups (world s)) ->
  (forall n, clock s <= n -> ctxErr env n = Some cause) ->
  exists order s',
    walk_order (groups (world s)) r = Some order /\
    execute env r s = Some (tt, s') /\
    slots s' = slots s /\ spawned s' = spawned s /\
    log s' = log s ++ ((fun x => ActSetError x cause) <$> order) /\
    same_shape (world s) (world s') /\
    (forall x c,
        runs (world s) !! x = Some c ->
        runs (world s') !! x =
          Some (if decide (r ∈ ancestors (groups (world s)) (Group c))
                then with_run_error cause c else c)) /\
    (forall i g,
        groups (world s) !! i = Some g ->
        exists g',
          groups (world s') !! i = Some g' /\
          identity_of g' = identity_of g /\
          GroupSummary.Status (Summary g') =
            add_units (count_below (world s) i order) error_unit
              (GroupSummary.Status (Summary g)) /\
          (valid_summary (GroupSummary.Status (Summary g)) ->
           GroupSummary.Status (Summary g') =
             {| controlstatus.Alarm :=
                  controlstatus.Alarm (GroupSummary.Status (Summary g));
                controlstatus.Ok :=
                  controlstatus.Ok (GroupSummary.Status (Summary g));
                controlstatus.Info :=
                  controlstatus.Info (GroupSummary.Status (Summary g));
                controlstatus.Skip :=
                  controlstatus.Skip (GroupSummary.Status (Summary g));
                controlstatus.Error :=
                  wrap_int
                    (controlstatus.Error (GroupSummary.Status (Summary g)) +
                     Z.of_nat (count_below (world s) i order)) |})).
Proof.
  intros Hwf Hd Hr Hctx.
  destruct (execute_all_terminated env (with_run_error cause) error_unit
              (fun x => ActSetError x cause) r s)
    as (order & s' & Horder & Hexec & Hsl & Hsp & Hl & Hss & Hruns & Hgroups);
    [done| |done..|].
  { intros x c s1 Hcl. unfold execute_run_result. by rewrite (Hctx _ Hcl). }
  exists order, s'.
  split; [done|]. split; [done|]. split; [done|]. split; [done|].
  split; [done|]. split; [done|]. split; [done|].
  intros i g Hg. destruct (Hgroups i g Hg) as (g' & Hg' & Hid & Hst).
  exists g'. split; [done|]. split; [done|]. split; [done|].
  intros Hvalid. by rewrite Hst, add_units_error.
Qed.

Lemma execute_cancelled_errors_every_run_witness :
  exists order s',
    walk_order (groups (world sample_start)) 0 = Some order /\
    execute (sample.env true false None Returned) 0
      sample_start = Some (tt, s') /\
    slots s' = slots sample_start /\
    spawned s' = spawned sample_start /\
    log s' = log sample_start ++
             ((fun x => ActSetError x "context canceled") <$> order) /\
    same_shape (world sample_start) (world s') /\
    (forall x c,
        runs (world sample_start) !! x = Some c ->
        runs (world s') !! x =
          Some (if decide (0 ∈ ancestors (groups (world sample_start))
                                  (Group c))
                then with_run_error "context canceled" c else c)) /\
    (forall i g,
        groups (world sample_start) !! i = Some g ->
        exists g',
          groups (world s') !! i = Some g' /\
          identity_of g' = identity_of g /\
          GroupSummary.Status (Summary g') =
            add_units (count_below (world sample_start) i order) error_unit
              (GroupSummary.Status (Summary g)) /\
          (valid_summary (GroupSummary.Status (Summary g)) ->
           GroupSummary.Status (Summary g') =
             {| controlstatus.Alarm :=
                  controlstatus.Alarm (GroupSummary.Status (Summary g));
                controlstatus.Ok :=
                  controlstatus.Ok (GroupSummary.Status (Summary g));
                controlstatus.Info :=
                  controlstatus.Info (GroupSummary.Status (Summary g));
                controlstatus.Skip :=
                  controlstatus.Skip (GroupSummary.Status (Summary g));
                controlstatus.Error :=
                  wrap_int
                    (controlstatus.Error (GroupSummary.Status (Summary g)) +
                     Z.of_nat (count_below (world sample_start) i order)) |})).
Proof.
  apply (execute_cancelled_errors_every_run
           (sample.env true false None Returned) "context canceled" 0
           sample_start);
    [exact sample_wf|exact sample_durations|vm_compute; lia|reflexivity].
Defined.

(** X5. In a dry run (the flag set, the context not cancelled), [execute] takes
    every control run of the subtree to its terminal state by [skip], in
    walk order, and neither takes a limiter slot nor starts a goroutine: no
    control is executed. Each of these runs counts as one skip in every
    group above it: the status of a group grows by one skip for every run
    of the walk below it, which, the counters being Go values, adds their
    number to its skip counter and leaves its other counters. *)
Theorem execute_dry_run_skips_every_run (env : Env) (r : loc) (s : Sched) :
  wf_tree (world s) -> durations_in_int (world s) ->
  r < length (groups (world s)) ->
  (forall n, clock s <= n -> ctxErr env n = None /\ dryRun env n = true) ->
  exists order s',
    walk_order (groups (world s)) r = Some order /\
    execute env r s = Some (tt, s') /\
    slots s' = slots s /\ spawned s' = spawned s /\
    log s' = log s ++ (ActSkip <$> order) /\
    same_shape (world s) (world s') /\
    (forall x c,
        runs (world s) !! x = Some c ->
        runs (world s') !! x =
          Some (if decide (r ∈ ancestors (groups (world s)) (Group c))
                then with_run_skipped c else c)) /\
    (forall i g,
        groups (world s) !! i = Some g ->
        exists g',
          groups (world s') !! i = Some g' /\
          identity_of g' = identity_of g /\
          GroupSummary.Status (Summary g') =
            add_units (count_below (world s) i order) skip_unit
              (GroupSummary.Status (Summary g)) /\
          (valid_summary (GroupSummary.Status (Summary g)) ->
           GroupSummary.Status (Summary g') =
             {| controlstatus.Alarm :=
                  controlstatus.Alarm (GroupSummary.Status (Summary g));
                controlstatus.Ok :=
                  controlstatus.Ok (GroupSummary.Status (Summary g));
                controlstatus.Info :=
                  controlstatus.Info (GroupSummary.Status (Summary g));
                controlstatus.Skip :=
                  wrap_int
                    (controlstatus.Skip (GroupSummary.Status (Summary g)) +
                     Z.of_nat (count_below (world s) i order));
                controlstatus.Error :=
                  controlstatus.Error (GroupSummary.Status (Summary g)) |})).
Proof.
  intros Hwf Hd Hr Hdry.
  destruct (execute_all_terminated env with_run_skipped skip_unit
              ActSkip r s)
    as (order & s' & Horder & Hexec & Hsl & Hsp & Hl & Hss & Hruns & Hgroups);
    [done| |done..|].
  { intros x c s1 Hcl. unfold execute_run_result.
    destruct (Hdry _ Hcl) as [-> ->]. done. }
  exists order, s'.
  split; [done|]. split; [done|]. split; [done|]. split; [done|].
  split; [done|]. split; [done|]. split; [done|].
  intros i g Hg. destruct (Hgroups i g Hg) as (g' & Hg' & Hid & Hst).
  exists g'. split; [done|]. split; [done|]. split; [done|].
  intros Hvalid. by rewrite Hst, add_units_skip.
Qed.

Lemma execute_dry_run_skips_every_run_witness :
  exists order s',
    walk_order (groups (world sample_start)) 0 = Some order /\
    execute (sample.env false true None Returned) 0
      sample_start = Some (tt, s') /\
    slots s' = slots sample_start /\
    spawned s' = spawned sample_start /\
    log s' = log sample_start ++ (ActSkip <$> order) /\
    same_shape (world sample_start) (world s') /\
    (forall x c,
        runs (world sample_start) !! x = Some c ->
        runs (world s') !! x =
          Some (if decide (0 ∈ ancestors (groups (world sample_start))
                                  (Group c))
                then with_run_skipped c else c)) /\
    (forall i g,
        groups (world sample_start) !! i = Some g ->
        exists g',
          groups (world s') !! i = Some g' /\
          identity_of g' = identity_of g /\
          GroupSummary.Status (Summary g') =
            add_units (count_below (world sample_start) i order) skip_unit
              (GroupSummary.Status (Summary g)) /\
          (valid_summary (GroupSummary.Status (Summary g)) ->
           GroupSummary.Status (Summary g') =
             {| controlstatus.Alarm :=
                  controlstatus.Alarm (GroupSummary.Status (Summary g));
                controlstatus.Ok :=
                  controlstatus.Ok (GroupSummary.Status (Summary g));
                controlstatus.Info :=
                  controlstatus.Info (GroupSummary.Status (Summary g));
                controlstatus.Skip :=
                  wrap_int
                    (controlstatus.Skip (GroupSummary.Status (Summary g)) +
                     Z.of_nat (count_below (world sample_start) i order));
                controlstatus.Error :=
                  controlstatus.Error (GroupSummary.Status (Summary g)) |})).
Proof.
  apply (execute_dry_run_skips_every_run
           (sample.env false true None Returned) 0 sample_start);
    [exact sample_wf|exact sample_durations|vm_compute; lia|].
  intros n _. split; reflexivity.
Defined.

Lemma for_each_started (env : Env) (xs : list rloc) (s : Sched) :
  (forall n, clock s <= n ->
             ctxErr env n = None /\ dryRun env n = false /\
             acquireErr env n = None) ->
  exists s',
    for_each xs (execute_run env) s = Some (tt, s') /\
    world s' = world s /\
    slots s' = slots s + length xs /\
    spawned s' = spawned s ++ xs /\
    panicking s' = panicking s /\
    log s' = log s ++ (xs ≫= fun x => [ActAcquire; ActGo x]).
Proof.
  revert s. induction xs as [|x xs IH]; intros s Henv.
  - exists s. simpl. rewrite !app_nil_r. repeat split; try done; lia.
  - destruct (Henv (clock s) (le_n _)) as (Hctx & Hdry & Hacq).
    set (s1 := mkSched (world s) (S (clock s)) (S (slots s)) (spawned s ++ [x])
                 (panicking s) ((log s ++ [ActAcquire]) ++ [ActGo x])).
    assert (execute_run env x s = Some (tt, s1)) as Hx.
    { unfold execute_run, bind at 1, tick. rewrite Hctx, Hdry.
      unfold Acquire. by rewrite Hacq. }
    destruct (IH s1) as (s' & Hrest & Hw & Hsl & Hsp & Hp & Hl).
    { intros n Hn. apply Henv. simpl in Hn. lia. }
    exists s'. cbn [for_each]. unfold bind. rewrite Hx.
    split; [done|]. split; [done|]. simpl in *.
    split; [lia|]. split; [by rewrite Hsp, <- app_assoc|].
    split; [done|]. by rewrite Hl, <- !app_assoc.
Qed.

(** X6. When nothing stands in the way (context not cancelled, no dry run,
    every acquisition succeeds), [execute] takes one limiter slot and starts
    one goroutine for every control run of the subtree, in walk order, and
    itself changes neither a group nor a run. *)
Theorem execute_starts_one_goroutine_per_run (env : Env) (r : loc)
    (s : Sched) :
  wf_tree (world s) -> r < length (groups (world s)) ->
  (forall n, clock s <= n ->
             ctxErr env n = None /\ dryRun env n = false /\
             acquireErr env n = None) ->
  exists order s',
    walk_order (groups (world s)) r = Some order /\
    execute env r s = Some (tt, s') /\
    world s' = world s /\
    slots s' = slots s + length order /\
    spawned s' = spawned s ++ order /\
    log s' = log s ++ (order ≫= fun x => [ActAcquire; ActGo x]).
Proof.
  intros Hwf Hr Henv.
  destruct (descendants_wf _ _ Hwf Hr) as [ds Hds].
  destruct (for_each_started env ((r :: ds) ≫= runs_of (groups (world s))) s
              Henv) as (s' & Hloop & Hw & Hsl & Hsp & _ & Hl).
  exists ((r :: ds) ≫= runs_of (groups (world s))), s'.
  split; [unfold walk_order; by rewrite Hds|].
  split; [|done]. rewrite <- Hloop. unfold execute.
  apply (execute_fuel_spec env
           (fun s1 => world s1 = world s /\ clock s <= clock s1));
    [| |done|split; [done|lia]].
  - intros x s1 s2 [Hw1 Hcl] Hrun.
    destruct (Henv _ Hcl) as (Hctx & Hdry & Hacq). revert Hrun.
    unfold execute_run, bind at 1, tick. rewrite Hctx, Hdry.
    unfold Acquire. rewrite Hacq. unfold go, bind, ret, emit, modify. simpl.
    intros [= <-]. simpl. split; [done|lia].
  - intros s1 i [-> _]. done.
Qed.

Lemma execute_starts_one_goroutine_per_run_witness :
  exists order s',
    walk_order (groups (world sample_start)) 0 = Some order /\
    execute (sample.env false false None Returned) 0
      sample_start = Some (tt, s') /\
    world s' = world sample_start /\
    slots s' = slots sample_start + length order /\
    spawned s' = spawned sample_start ++ order /\
    log s' = log sample_start ++
             (order ≫= fun x => [ActAcquire; ActGo x]).
Proof.
  apply (execute_starts_one_goroutine_per_run
           (sample.env false false None Returned) 0
           sample_start);
    [exact (proj1 (proj2 sample_built_ok))|vm_compute; lia|].
  intros n _. split; [|split]; reflexivity.
Defined.

(** ** The dispatch loop *)

Lemma for_each_ext_inv {A} (I : Sched -> Prop) (body body' : A -> X unit)
    xs s :
  (forall x s1 s2, x ∈ xs -> I s1 -> body x s1 = Some (tt, s2) -> I s2) ->
  (forall x s1, x ∈ xs -> I s1 -> body x s1 = body' x s1) ->
  I s -> for_each xs body s = for_each xs body' s.
Proof.
  revert s. induction xs as [|x xs IH]; intros s Hinv Hext Hs; [done|].
  cbn [for_each]. unfold bind. rewrite <- (Hext x s) by (done || left).
  destruct (body x s) as [[[] s1]|] eqn:Hx; [|done].
  apply IH.
  - intros y s2 s3 Hy. apply Hinv. by right.
  - intros y s2 Hy. apply Hext. by right.
  - apply (Hinv x s s1); [left|done..].
Qed.

(** Fuel beyond the groups that come after the receiver changes nothing. *)
Lemma execute_fuel_enough env fuel r s :
  wf_tree (world s) -> durations_in_int (world s) ->
  r < length (groups (world s)) -> length (groups (world s)) - r <= fuel ->
  execute_fuel fuel env r s = execute env r s.
Proof.
  intros Hwf Hd Hr Hfuel.
  destruct (descendants_wf _ _ Hwf Hr) as [ds Hds].
  destruct (descendants_total (groups (world s)) fuel r) as [ds2 Hds2];
    [|done..|].
  { intros i g _ Hg y Hy. by eapply wf_child_allocated. }
  assert (ds2 = ds) as ->.
  { unfold descendants in Hds.
    destruct (decide (fuel <= length (groups (world s)))) as [Hle|Hgt].
    - pose proof (descendants_fuel_mono _ _ _ _ _ Hle Hds2). congruence.
    - pose proof (descendants_fuel_mono (groups (world s))
                    (length (groups (world s))) fuel r ds ltac:(lia) Hds).
      congruence. }
  by rewrite (execute_fuel_walk env fuel r ds), (execute_spec env r s ds).
Qed.

(** C5. [execute] is the loop over the direct control runs of the group,
    followed by the loop over its child groups. In the first loop the fate
    of each run is decided in this order, at the state that the runs
    before it have left: if the context is already cancelled the run is
    marked errored with the cancellation cause, and no limiter slot is
    taken; otherwise, if the dry-run flag is set, the run is marked skipped
    and is not executed; otherwise a slot is acquired, and if that fails
    the run is marked errored with the acquisition error and no slot is
    held. Only a successful acquisition takes a slot and starts the
    goroutine. In every case the loop goes on with the next run. *)
Theorem C5_execute_run_fate (env : Env) (r : loc) (g : ResultGroup)
    (s : Sched) :
  wf_tree (world s) -> durations_in_int (world s) ->
  groups (world s) !! r = Some g ->
  execute env r s =
    (for_each (ControlRuns g) (execute_run env) ;;;
     for_each (Groups g) (execute env)) s /\
  forall before run rest,
    ControlRuns g = before ++ run :: rest ->
    exists c s1 s2,
      for_each before (execute_run env) s = Some (tt, s1) /\
      runs (world s) !! run = Some c /\ runs (world s1) !! run = Some c /\
      execute_run env run s1 = Some (tt, s2) /\
      for_each (ControlRuns g) (execute_run env) s =
        for_each rest (execute_run env) s2 /\
      clock s1 = clock s + length before /\ clock s2 = S (clock s1) /\
      match ctxErr env (clock s1) with
      | Some cause =>
          world s2 =
            terminated run (with_run_error cause c) error_unit (world s1) /\
          runs (world s2) !! run = Some (with_run_error cause c) /\
          slots s2 = slots s1 /\ spawned s2 = spawned s1 /\
          log s2 = log s1 ++ [ActSetError run cause]
      | None =>
          if dryRun env (clock s1) then
            world s2 =
              terminated run (with_run_skipped c) skip_unit (world s1) /\
            runs (world s2) !! run = Some (with_run_skipped c) /\
            slots s2 = slots s1 /\ spawned s2 = spawned s1 /\
            log s2 = log s1 ++ [ActSkip run]
          else
            match acquireErr env (clock s1) with
            | Some err =>
                world s2 =
                  terminated run (with_run_error err c) error_unit
                    (world s1) /\
                runs (world s2) !! run = Some (with_run_error err c) /\
                slots s2 = slots s1 /\ spawned s2 = spawned s1 /\
                log s2 = log s1 ++ [ActSetError run err]
            | None =>
                world s2 = world s1 /\
                slots s2 = S (slots s1) /\ spawned s2 = spawned s1 ++ [run] /\
                log s2 = log s1 ++ [ActAcquire; ActGo run]
            end
      end.
Proof.
  intros Hwf Hd Hg. pose proof (lookup_lt_Some _ _ _ Hg) as Hr. split.
  - unfold execute at 1.
    destruct (length (groups (world s))) as [|n] eqn:Hlen; [lia|].
    cbn [execute_fuel]. unfold bind at 1, lift, getGroup. rewrite Hg.
    replace (mkSched (world s) (clock s) (slots s) (spawned s) (panicking s)
               (log s)) with s by by destruct s.
    unfold bind.
    destruct (for_each (ControlRuns g) (execute_run env) s)
      as [[[] s1]|] eqn:Hown; [|done].
    assert (forall c s2,
               c ∈ Groups g ->
               wf_tree (world s2) /\ durations_in_int (world s2) /\
               walked s s2 ->
               c < length (groups (world s2)) /\
               length (groups (world s2)) - c <= n) as Hchild.
    { intros c s2 Hc (_ & _ & Hw2).
      destruct (wf_child_allocated _ _ _ _ Hwf Hg Hc) as [Hrc Hcl].
      rewrite (walked_length _ _ Hw2). lia. }
    apply (for_each_ext_inv
             (fun s2 => wf_tree (world s2) /\ durations_in_int (world s2) /\
                        walked s s2)).
    + intros c s2 s3 Hc (Hwf2 & Hd2 & Hw2) Hrun.
      destruct (Hchild c s2 Hc) as [Hc2 Hfuel]; [done|].
      rewrite execute_fuel_enough in Hrun by done.
      destruct (execute_walk env c s2 Hwf2 Hd2 Hc2)
        as (order & s3' & _ & Hexec & _ & Hw3 & _).
      rewrite Hrun in Hexec. injection Hexec as <-.
      split; [by eapply walked_wf|]. split; [by eapply walked_durations|].
      by eapply walked_trans.
    + intros c s2 Hc (Hwf2 & Hd2 & Hw2).
      destruct (Hchild c s2 Hc) as [Hc2 Hfuel]; [done|].
      by apply execute_fuel_enough.
    + destruct (for_each_execute_run env (ControlRuns g) s Hwf Hd)
        as (s1' & Hown' & Hw1 & _).
      { intros x Hx. destruct (wf_runs _ Hwf _ _ _ Hg Hx) as (c & Hc & _).
        by eapply lookup_lt_Some. }
      rewrite Hown in Hown'. injection Hown' as <-.
      split; [by eapply walked_wf|]. split; [by eapply walked_durations|done].
  - intros before run rest Hsplit.
    pose proof (wf_runs_nodup _ Hwf _ _ Hg) as Hnd. rewrite Hsplit in Hnd.
    apply NoDup_app in Hnd as (_ & Hdisj & _).
    destruct (wf_runs _ Hwf r g run Hg) as (c & Hc & _).
    { rewrite Hsplit. apply elem_of_app. right. left. }
    destruct (for_each_execute_run env before s Hwf Hd)
      as (s1 & Hbefore & Hw1 & Hcl1 & Hr1 & _).
    { intros x Hx. destruct (wf_runs _ Hwf r g x Hg) as (cx & Hcx & _).
      - rewrite Hsplit. apply elem_of_app. by left.
      - by eapply lookup_lt_Some. }
    assert (runs (world s1) !! run = Some c) as Hc1.
    { rewrite Hr1; [done|]. intros Hin. apply (Hdisj run Hin). left. }
    pose proof (walked_wf _ _ Hw1 Hwf) as Hwf1.
    pose proof (walked_durations _ _ Hw1 Hd) as Hd1.
    pose proof (execute_run_fate env run c s1 Hwf1 Hc1 (Hd1 run c Hc1))
      as Hrun.
    exists c, s1, (execute_run_result env run c s1).
    split; [done|]. split; [done|]. split; [done|]. split; [done|].
    split.
    { rewrite Hsplit, for_each_app. unfold bind. rewrite Hbefore.
      cbn [for_each]. unfold bind. by rewrite Hrun. }
    split; [done|].
    split; [by destruct (execute_run_result_walked env run c s1 Hwf1 Hc1)
              as (_ & ? & _)|].
    pose proof (lookup_lt_Some _ _ _ Hc1) as Hlt.
    unfold execute_run_result.
    destruct (ctxErr env (clock s1)) as [cause|];
      [|destruct (dryRun env (clock s1));
        [|destruct (acquireErr env (clock s1)) as [err|]]];
      unfold decided; cbn [world slots spawned log];
      rewrite ?terminated_runs, ?list_lookup_insert_eq by done; done.
Qed.

Lemma C5_execute_run_fate_witness :
  execute (sample.env true false None Returned) 1 sample_start =
    (for_each (ControlRuns sample_b1)
       (execute_run (sample.env true false None Returned)) ;;;
     for_each (Groups sample_b1)
       (execute (sample.env true false None Returned))) sample_start /\
  exists c s1 s2,
    for_each [] (execute_run (sample.env true false None Returned))
      sample_start = Some (tt, s1) /\
    runs (world sample_start) !! 0 = Some c /\
    runs (world s1) !! 0 = Some c /\
    execute_run (sample.env true false None Returned) 0 s1 = Some (tt, s2) /\
    for_each (ControlRuns sample_b1)
      (execute_run (sample.env true false None Returned)) sample_start =
      for_each [1] (execute_run (sample.env true false None Returned)) s2 /\
    clock s1 = clock sample_start + length ([] : list rloc) /\
    clock s2 = S (clock s1) /\
    match ctxErr (sample.env true false None Returned) (clock s1) with
    | Some cause =>
        world s2 =
          terminated 0 (with_run_error cause c) error_unit (world s1) /\
        runs (world s2) !! 0 = Some (with_run_error cause c) /\
        slots s2 = slots s1 /\ spawned s2 = spawned s1 /\
        log s2 = log s1 ++ [ActSetError 0 cause]
    | None =>
        if dryRun (sample.env true false None Returned) (clock s1) then
          world s2 =
            terminated 0 (with_run_skipped c) skip_unit (world s1) /\
          runs (world s2) !! 0 = Some (with_run_skipped c) /\
          slots s2 = slots s1 /\ spawned s2 = spawned s1 /\
          log s2 = log s1 ++ [ActSkip 0]
        else
          match acquireErr (sample.env true false None Returned) (clock s1)
          with
          | Some err =>
              world s2 =
                terminated 0 (with_run_error err c) error_unit (world s1) /\
              runs (world s2) !! 0 = Some (with_run_error err c) /\
              slots s2 = slots s1 /\ spawned s2 = spawned s1 /\
              log s2 = log s1 ++ [ActSetError 0 err]
          | None =>
              world s2 = world s1 /\
              slots s2 = S (slots s1) /\ spawned s2 = spawned s1 ++ [0] /\
              log s2 = log s1 ++ [ActAcquire; ActGo 0]
          end
    end.
Proof.
  destruct (C5_execute_run_fate (sample.env true false None Returned) 1
              sample_b1 sample_start sample_wf sample_durations
              ltac:(vm_compute; reflexivity)) as [Hloop Hfate].
  split; [exact Hloop|]. apply (Hfate [] 0 [1]). vm_compute. reflexivity.
Defined.

(** C6. The goroutine that [execute] starts for a run releases the limiter
    slot exactly once, whether the run's own execute returns or panics; a
    panic is stopped by the deferred function and becomes the error of the
    run, which counts as one error in every group above the run, and the
    goroutine ends normally. For the panic to become the error of the run,
    the run's own execute must have left a well-formed tree in which the
    run exists with a duration that is a Go value. *)
Theorem C6_dispatched_releases_once (env : Env) (run : rloc) (s : Sched)
    (k : nat) :
  slots s = S k -> panicking s = None ->
  (forall v, (runExecute env run (world s)).1 = Panicked v ->
             wf_tree (runExecute env run (world s)).2 /\
             exists c, runs (runExecute env run (world s)).2 !! run = Some c /\
                       in_int (RunDuration c)) ->
  exists s',
    dispatched env run s = Some (ExitNormal, s') /\
    slots s' = k /\ panicking s' = None /\ spawned s' = spawned s /\
    match (runExecute env run (world s)).1 with
    | Returned =>
        world s' = (runExecute env run (world s)).2 /\
        log s' = log s ++ [ActExecute run; ActRelease]
    | Panicked v =>
        (exists c, runs (runExecute env run (world s)).2 !! run = Some c /\
                   runs (world s') !! run = Some (with_run_error (ToError v) c) /\
                   world s' =
                     terminated run (with_run_error (ToError v) c) error_unit
                       (runExecute env run (world s)).2 /\
                   forall i g,
                     groups (runExecute env run (world s)).2 !! i = Some g ->
                     exists g',
                       groups (world s') !! i = Some g' /\
                       identity_of g' = identity_of g /\
                       GroupSummary.Status (Summary g') =
                         if decide (i ∈ ancestors
                                          (groups (runExecute env run (world s)).2)
                                          (Group c))
                         then controlstatus.add
                                (GroupSummary.Status (Summary g)) error_unit
                         else GroupSummary.Status (Summary g)) /\
        log s' = log s ++ [ActExecute run; ActSetError run (ToError v);
                           ActRelease]
    end.
Proof.
  intros Hslots Hpanic Hready.
  destruct (runExecute env run (world s)) as [out w'] eqn:Hexec. simpl in *.
  destruct out as [|v].
  - unfold dispatched, run_execute, bind, emit, modify, recover, ret, Release,
      goroutine_exit. simpl.
    rewrite Hexec. simpl. rewrite Hpanic, Hslots.
    eexists. split; [reflexivity|]. simpl.
    by rewrite <-(assoc_L (++)).
  - destruct (Hready v eq_refl) as (Hwf & c & Hc & Hd).
    pose proof (wf_parents_below _ Hwf) as Hpb.
    pose proof (lookup_lt_Some _ _ _ Hc) as Hlt.
    unfold dispatched. unfold bind at 1.
    unfold run_execute, bind at 1, emit, modify.
    cbn [world clock slots spawned panicking log]. rewrite Hexec.
    unfold bind at 1. unfold bind at 1. unfold recover at 1.
    cbn [world clock slots spawned panicking log].
    rewrite (setError_spec run (ToError v) c) by done.
    cbn [world clock slots spawned panicking log].
    unfold bind at 1, Release. cbn [world clock slots spawned panicking log].
    rewrite Hslots. unfold goroutine_exit.
    cbn [world clock slots spawned panicking log].
    eexists. split; [reflexivity|].
    cbn [world clock slots spawned panicking log].
    split; [done|]. split; [done|]. split; [done|]. split.
    + exists c. split; [done|]. split.
      { rewrite terminated_runs. by apply list_lookup_insert_eq. }
      split; [done|].
      intros i g Hg. rewrite terminated_lookup by done. rewrite Hg.
      cbn [Group with_run_error].
      destruct (decide (i ∈ ancestors (groups w') (Group c))).
      * eexists. split; [reflexivity|].
        by rewrite push_effect_identity, push_effect_status.
      * by exists g.
    + by rewrite <-!(assoc_L (++)).
Qed.

Lemma C6_dispatched_releases_once_witness :
  exists s',
    dispatched (sample.env false false None (Panicked "boom")) 0
      (sample.sched sample.built 1) = Some (ExitNormal, s') /\
    slots s' = 0 /\ panicking s' = None.
Proof.
  destruct (C6_dispatched_releases_once
              (sample.env false false None (Panicked "boom")) 0
              (sample.sched sample.built 1) 0 eq_refl eq_refl)
    as (s' & Hrun & Hslots & Hpanic & _).
  { intros v _. split; [exact sample_wf|].
    exists (new_run (modconfig.mkControl (sample.item "aws.control.c1") "high")
              1).
    split; [vm_compute; reflexivity|].
    unfold in_int, int_min, int_max. simpl. lia. }
  exists s'. split; [exact Hrun|]. split; [exact Hslots|exact Hpanic].
Defined.

(** ** Pruning *)

(** C3, amended. Below the top level a group is attached to its parent
    only if it counts at least one control run; at the top level nothing is
    pruned: the groups attached to the root are, one for one and in order,
    the groups built for the root items that are not controls, whatever
    they contain. *)
Theorem C3_pruned_below_top_level (executionTree : ExecutionTree)
    (rootItems : list modconfig.ModTreeItem) (root : loc) (w : World) :
  NewRootResultGroup executionTree rootItems empty_world = Some (root, w) ->
  pruned_below w root /\
  exists g, groups w !! root = Some g /\
            length (Groups g) = length (group_items rootItems) /\
            Forall2 (group_of_item w root) (Groups g) (group_items rootItems).
Proof.
  intros Hbuild.
  destruct (NewRootResultGroup_ok executionTree rootItems)
    as (w' & Hbuild' & _ & _ & Hpr & _).
  rewrite Hbuild in Hbuild'. injection Hbuild' as Hroot Hw. subst root w'.
  split; [done|].
  destruct (NewRootResultGroup_laid_out executionTree rootItems)
    as (w2 & g & Hbuild2 & Hg & Hgs & _).
  rewrite Hbuild in Hbuild2. injection Hbuild2 as <-.
  assert (Forall2 (group_of_item w 0) (Groups g) (group_items rootItems))
    as Hall.
  { eapply Forall2_impl; [exact Hgs|]. by intros b c (_ & ? & _). }
  exists g. split; [done|]. split; [by eapply Forall2_length|done].
Qed.

Lemma C3_pruned_below_top_level_witness :
  pruned_below sample.built 0 /\
  exists g, groups sample.built !! 0 = Some g /\
            length (Groups g) = length (group_items sample.items) /\
            Forall2 (group_of_item sample.built 0) (Groups g)
              (group_items sample.items).
Proof.
  apply (C3_pruned_below_top_level sample.tree sample.items 0 sample.built).
  exact sample_build.
Defined.

(** ** Building and executing *)

(** X19. Building and executing: in the tree that [NewRootResultGroup] builds,
    [execute] at the root decides every control run, each exactly once;
    there are as many of them as controls among the root items or below
    them through benchmarks. *)
Theorem execute_reaches_every_control (executionTree : ExecutionTree)
    (rootItems : list modconfig.ModTreeItem) (root : loc) (env : Env)
    (s : Sched) :
  NewRootResultGroup executionTree rootItems empty_world =
    Some (root, world s) ->
  exists order s',
    execute env root s = Some (tt, s') /\
    for_each order (execute_run env) s = Some (tt, s') /\
    order ≡ₚ seq 0 (length (runs (world s))) /\
    length order = sum_list (root_controls <$> rootItems).
Proof.
  intros Hbuild.
  pose proof (quiet_wf _ (built_quiet _ _ _ _ Hbuild)) as Hwf.
  pose proof (built_durations _ _ _ _ Hbuild) as Hd.
  destruct (built_under_root _ _ _ _ Hbuild) as [-> Hroot].
  destruct (NewRootResultGroup_laid_out executionTree rootItems)
    as (w & g & Hbuild' & Hg & _ & _ & Hlen & _).
  rewrite Hbuild in Hbuild'. injection Hbuild' as <-.
  pose proof (lookup_lt_Some _ _ _ Hg) as Hpos.
  destruct (execute_walk env 0 s Hwf Hd Hpos)
    as (order & s' & Horder & Hexec & Hloop & _).
  destruct (walk_order_spec _ _ _ Hwf Horder) as [Hnd Hmem].
  assert (order ≡ₚ seq 0 (length (runs (world s)))) as Hperm.
  { apply NoDup_Permutation; [done|apply NoDup_seq|].
    intros x. rewrite Hmem, elem_of_seq. split.
    - intros (c & Hc & _). apply lookup_lt_Some in Hc. lia.
    - intros [_ Hx]. destruct (lookup_lt_is_Some_2 (runs (world s)) x) as [c Hc];
        [lia|].
      exists c. split; [done|]. apply Hroot.
      destruct (wf_run_group _ Hwf _ _ Hc) as (gc & Hgc & _).
      by eapply lookup_lt_Some. }
  exists order, s'. split; [done|]. split; [done|]. split; [done|].
  by rewrite Hperm, length_seq.
Qed.

Lemma execute_reaches_every_control_witness :
  exists order s',
    execute (sample.env false false None Returned) 0 sample_start =
      Some (tt, s') /\
    for_each order (execute_run (sample.env false false None Returned))
      sample_start = Some (tt, s') /\
    order ≡ₚ seq 0 (length (runs (world sample_start))) /\
    length order = sum_list (root_controls <$> sample.items).
Proof.
  apply (execute_reaches_every_control sample.tree sample.items 0
           (sample.env false false None Returned) sample_start).
  exact sample_build.
Defined.

(** ** Lookups and the parent chain *)

(** Every group below [r] is listed among the child groups of some
    group. *)
Lemma descendants_listed w r ds x :
  wf_tree w -> descendants (groups w) r = Some ds -> x ∈ ds ->
  exists p gp, groups w !! p = Some gp /\ x ∈ Groups gp.
Proof.
  intros Hwf Hds.
  destruct (descendants_allocated _ _ _ Hds) as [g0 Hg0].
  pose proof (lookup_lt_Some _ _ _ Hg0) as Hr.
  revert ds x Hds. clear g0 Hg0. revert r Hr.
  apply (wf_tree_down_ind w
           (fun r => forall ds x, descendants (groups w) r = Some ds ->
                                  x ∈ ds ->
                                  exists p gp, groups w !! p = Some gp /\
                                               x ∈ Groups gp));
    [done|].
  intros r g Hg IH ds x Hds Hx.
  apply (descendants_elem _ _ _ _ _ Hwf Hg Hds) in Hx
    as (c & below & Hc & Hbelow & Hx).
  apply elem_of_cons in Hx as [->|Hx].
  - by exists r, g.
  - by apply (IH c Hc below x Hbelow Hx).
Qed.

(** X20. [GetChildGroupByName] returns on every well-formed tree and leaves it
    as it is. A group it returns carries the name, lies below the
    receiver (it is not the receiver, and following its parents leads to
    the receiver) and is listed among the child groups of its parent. So a
    group that the builder left out of the tree, which has its parent set
    but is not listed by it, is never found, whatever its name. When
    nothing is found, no group that holds a run or a child group and has
    the receiver above it carries the name. *)
Theorem GetChildGroupByName_finds_below (w : World) (r : loc)
    (name : string) :
  wf_tree w -> r < length (groups w) ->
  exists res,
    GetChildGroupByName r name w = Some (res, w) /\
    match res with
    | Some b =>
        exists gb p gp,
          groups w !! b = Some gb /\ GroupId gb = name /\
          r < b /\ r ∈ ancestors (groups w) b /\
          Parent gb = Some p /\ groups w !! p = Some gp /\ b ∈ Groups gp
    | None =>
        forall j gj,
          groups w !! j = Some gj -> nonempty gj ->
          r ∈ ancestors (groups w) j -> j <> r -> GroupId gj <> name
    end /\
    (forall j gj p gp,
        groups w !! j = Some gj -> Parent gj = Some p ->
        groups w !! p = Some gp -> j ∉ Groups gp ->
        res <> Some j).
Proof.
  intros Hwf Hr.
  destruct (descendants_wf _ _ Hwf Hr) as [ds Hds].
  exists (List.find (group_named (groups w) name) ds). split.
  { unfold GetChildGroupByName.
    rewrite (GetChildGroupByName_fuel_spec (groups w) name _ r ds); [done| |done].
    intros i g c Hg Hc.
    destruct (wf_children _ Hwf _ _ _ Hg Hc) as [_ (gc & Hgc & _)].
    by exists gc. }
  assert (forall b,
             List.find (group_named (groups w) name) ds = Some b ->
             exists gb p gp,
               groups w !! b = Some gb /\ GroupId gb = name /\
               r < b /\ r ∈ ancestors (groups w) b /\
               Parent gb = Some p /\ groups w !! p = Some gp /\
               b ∈ Groups gp) as Hfound.
  { intros b Hfind. apply find_some in Hfind as [Hin Hnamed].
    apply list_elem_of_In in Hin. unfold group_named in Hnamed.
    destruct (groups w !! b) as [gb|] eqn:Hgb; [|done].
    apply String.eqb_eq in Hnamed.
    destruct (descendants_ancestors _ _ _ _ Hwf Hds Hin) as [Hlt Hanc].
    destruct (descendants_listed _ _ _ _ Hwf Hds Hin) as (p & gp & Hgp & Hb).
    destruct (wf_children _ Hwf _ _ _ Hgp Hb) as [_ (gb' & Hgb' & Hp)].
    rewrite Hgb in Hgb'. injection Hgb' as <-.
    by exists gb, p, gp. }
  split.
  - destruct (List.find (group_named (groups w) name) ds) as [b|] eqn:Hfind.
    + by apply Hfound.
    + intros j gj Hgj Hne Hanc Hjr Hname.
      pose proof (ancestors_descendants _ _ _ _ _ Hwf Hds Hgj Hne Hanc) as Hin.
      apply elem_of_cons in Hin as [?|Hin]; [done|].
      apply list_elem_of_In in Hin.
      pose proof (find_none _ _ Hfind j Hin) as Hnamed.
      unfold group_named in Hnamed. rewrite Hgj in Hnamed.
      apply String.eqb_neq in Hnamed. done.
  - intros j gj p gp Hgj Hp Hgp Hout Hfind.
    destruct (Hfound j Hfind)
      as (gb & p' & gp' & Hgb & _ & _ & _ & Hp' & Hgp' & Hin).
    rewrite Hgj in Hgb. injection Hgb as <-.
    rewrite Hp in Hp'. injection Hp' as <-.
    rewrite Hgp in Hgp'. injection Hgp' as <-. done.
Qed.

Lemma GetChildGroupByName_finds_below_witness :
  exists res,
    GetChildGroupByName 0 "aws.benchmark.nested" sample.built =
      Some (res, sample.built) /\
    match res with
    | Some b =>
        exists gb p gp,
          groups sample.built !! b = Some gb /\
          GroupId gb = "aws.benchmark.nested" /\
          0 < b /\ 0 ∈ ancestors (groups sample.built) b /\
          Parent gb = Some p /\ groups sample.built !! p = Some gp /\
          b ∈ Groups gp
    | None =>
        forall j gj,
          groups sample.built !! j = Some gj -> nonempty gj ->
          0 ∈ ancestors (groups sample.built) j -> j <> 0 ->
          GroupId gj <> "aws.benchmark.nested"
    end /\
    (forall j gj p gp,
        groups sample.built !! j = Some gj -> Parent gj = Some p ->
        groups sample.built !! p = Some gp -> j ∉ Groups gp ->
        res <> Some j).
Proof.
  apply (GetChildGroupByName_finds_below sample.built 0 "aws.benchmark.nested");
    [exact (proj1 (proj2 sample_built_ok))|vm_compute; lia].
Defined.

(** ** Cancellation and dry run on a built tree *)

Lemma ancestors_trans h l i r :
  parents_below h -> i ∈ ancestors h l -> r ∈ ancestors h i ->
  r ∈ ancestors h l.
Proof.
  intros Hpb. induction (lt_wf l) as [l _ IH]. intros Hi Hr.
  destruct (h !! l) as [g|] eqn:Hl.
  - rewrite (ancestors_unfold h l g) in Hi by done.
    apply elem_of_cons in Hi as [->|Hi]; [done|].
    rewrite (ancestors_unfold h l g) by done. right.
    destruct (Parent g) as [p|] eqn:Hp; [|by apply elem_of_nil in Hi].
    apply (IH p); [by eapply Hpb|done..].
  - rewrite ancestors_unallocated in Hi by done. by apply elem_of_nil in Hi.
Qed.

(** Of the runs that the walk from [r] reaches, those below a group [i] of
    the subtree of [r] are the runs that [ControlRunCount] counts at [i]. *)
Lemma count_below_walk w r order i :
  wf_tree w -> walk_order (groups w) r = Some order ->
  i < length (groups w) -> r ∈ ancestors (groups w) i ->
  ControlRunCount i w = Some (count_below w i order, w).
Proof.
  intros Hwf Horder Hi Hri. pose proof (wf_parents_below _ Hwf) as Hpb.
  destruct (walk_order_spec _ _ _ Hwf Horder) as [Hnd Hmem].
  destruct (descendants_wf _ _ Hwf Hi) as [ds Hds].
  assert (walk_order (groups w) i =
            Some ((i :: ds) ≫= runs_of (groups w))) as Horder_i.
  { unfold walk_order. by rewrite Hds. }
  destruct (walk_order_spec _ _ _ Hwf Horder_i) as [Hnd_i Hmem_i].
  unfold ControlRunCount.
  rewrite (ControlRunCount_fuel_spec _ _ _ ds Hds).
  do 2 f_equal. unfold count_below. symmetry. apply Permutation_length.
  apply NoDup_Permutation;
    [by apply NoDup_ListNoDup, List.NoDup_filter, NoDup_ListNoDup|done|].
  intros x. rewrite Hmem_i, list_elem_of_In, filter_In, <- list_elem_of_In.
  rewrite Hmem. unfold run_below. split.
  - intros [(c & Hc & _) Hbelow]. rewrite Hc in Hbelow.
    exists c. split; [done|]. by apply bool_decide_eq_true_1 in Hbelow.
  - intros (c & Hc & Hsub). split.
    + exists c. split; [done|]. by apply (ancestors_trans _ _ i).
    + rewrite Hc. by apply bool_decide_eq_true_2.
Qed.

(** What holds of a tree that has just been built. *)
Lemma built_start executionTree rootItems root w :
  NewRootResultGroup executionTree rootItems empty_world = Some (root, w) ->
  root = 0 /\ wf_tree w /\ fresh w /\ durations_in_int w /\
  forall i, i < length (groups w) -> 0 ∈ ancestors (groups w) i.
Proof.
  intros Hbuild.
  destruct (built_under_root _ _ _ _ Hbuild) as [-> Hroot].
  destruct (NewRootResultGroup_ok executionTree rootItems)
    as (w' & Hbuild' & Hwf & Hfresh & _).
  rewrite Hbuild in Hbuild'. injection Hbuild' as <-.
  split; [done|]. split; [done|]. split; [done|].
  split; [by eapply built_durations|done].
Qed.

(** X21. Cancelling before any dispatch: in the tree that
    [NewRootResultGroup] builds, when the context is cancelled before
    [execute] starts at the root, no slot is taken and no goroutine is
    started; every control run ends in the error state with the
    cancellation cause recorded and one error as its own summary; and in
    every group the error counter is the number of control runs of its
    subtree, which is what [ControlRunCount] returns for it, while every
    other counter is zero. *)
Theorem cancelled_tree_counts_errors (executionTree : ExecutionTree)
    (rootItems : list modconfig.ModTreeItem) (root : loc) (env : Env)
    (cause : string) (s : Sched) :
  NewRootResultGroup executionTree rootItems empty_world =
    Some (root, world s) ->
  (forall n, clock s <= n -> ctxErr env n = Some cause) ->
  exists s',
    execute env root s = Some (tt, s') /\
    slots s' = slots s /\ spawned s' = spawned s /\
    (forall x c,
        runs (world s) !! x = Some c ->
        runs (world s') !! x = Some (with_run_error cause c)) /\
    (forall i g,
        groups (world s) !! i = Some g ->
        exists g' n,
          groups (world s') !! i = Some g' /\
          ControlRunCount i (world s) = Some (n, world s) /\
          GroupSummary.Status (Summary g') =
            {| controlstatus.Alarm := 0; controlstatus.Ok := 0;
               controlstatus.Info := 0; controlstatus.Skip := 0;
               controlstatus.Error := wrap_int (Z.of_nat n) |}).
Proof.
  intros Hbuild Hctx.
  destruct (built_start _ _ _ _ Hbuild) as (-> & Hwf & Hfresh & Hd & Hroot).
  assert (0 < length (groups (world s))) as Hpos.
  { destruct (NewRootResultGroup_ok executionTree rootItems)
      as (w' & Hbuild' & _ & _ & _ & _ & g0 & Hg0 & _).
    rewrite Hbuild in Hbuild'. injection Hbuild' as <-.
    by eapply lookup_lt_Some. }
  destruct (execute_all_terminated env (with_run_error cause) error_unit
              (fun x => ActSetError x cause) 0 s)
    as (order & s' & Horder & Hexec & Hsl & Hsp & _ & _ & Hruns & Hgroups);
    [done| |done..|].
  { intros x c s1 Hcl. unfold execute_run_result. by rewrite (Hctx _ Hcl). }
  exists s'. split; [done|]. split; [done|]. split; [done|]. split.
  - intros x c Hc. rewrite (Hruns x c Hc). rewrite decide_True; [done|].
    apply Hroot. destruct (wf_run_group _ Hwf _ _ Hc) as (gc & Hgc & _).
    by eapply lookup_lt_Some.
  - intros i g Hg. pose proof (lookup_lt_Some _ _ _ Hg) as Hi.
    destruct (Hgroups i g Hg) as (g' & Hg' & _ & Hst).
    exists g', (count_below (world s) i order).
    split; [done|].
    split; [by apply (count_below_walk _ 0); [| | |apply Hroot]|].
    rewrite Hst.
    destruct (fresh_group _ Hfresh _ _ Hg) as (-> & _).
    by rewrite add_units_error by apply summary_zero_valid.
Qed.

Lemma cancelled_tree_counts_errors_witness :
  exists s',
    execute (sample.env true false None Returned) 0 sample_start =
      Some (tt, s') /\
    slots s' = slots sample_start /\ spawned s' = spawned sample_start /\
    (forall x c,
        runs (world sample_start) !! x = Some c ->
        runs (world s') !! x = Some (with_run_error "context canceled" c)) /\
    (forall i g,
        groups (world sample_start) !! i = Some g ->
        exists g' n,
          groups (world s') !! i = Some g' /\
          ControlRunCount i (world sample_start) =
            Some (n, world sample_start) /\
          GroupSummary.Status (Summary g') =
            {| controlstatus.Alarm := 0; controlstatus.Ok := 0;
               controlstatus.Info := 0; controlstatus.Skip := 0;
               controlstatus.Error := wrap_int (Z.of_nat n) |}).
Proof.
  apply (cancelled_tree_counts_errors sample.tree sample.items 0
           (sample.env true false None Returned) "context canceled"
           sample_start);
    [exact sample_build|reflexivity].
Defined.

(** X22. Dry run: in the tree that [NewRootResultGroup] builds, when the
    dry-run flag is set and the context is live, [execute] at the root
    executes no control: no slot is taken and no goroutine is started;
    every control run ends in its terminal state with one skip as its own
    summary; and in every group the skip counter is the number of control
    runs of its subtree, which is what [ControlRunCount] returns for it,
    while every other counter is zero. *)
Theorem dry_run_tree_counts_skips (executionTree : ExecutionTree)
    (rootItems : list modconfig.ModTreeItem) (root : loc) (env : Env)
    (s : Sched) :
  NewRootResultGroup executionTree rootItems empty_world =
    Some (root, world s) ->
  (forall n, clock s <= n -> ctxErr env n = None /\ dryRun env n = true) ->
  exists s',
    execute env root s = Some (tt, s') /\
    slots s' = slots s /\ spawned s' = spawned s /\
    (forall x c,
        runs (world s) !! x = Some c ->
        runs (world s') !! x = Some (with_run_skipped c)) /\
    (forall i g,
        groups (world s) !! i = Some g ->
        exists g' n,
          groups (world s') !! i = Some g' /\
          ControlRunCount i (world s) = Some (n, world s) /\
          GroupSummary.Status (Summary g') =
            {| controlstatus.Alarm := 0; controlstatus.Ok := 0;
               controlstatus.Info := 0;
               controlstatus.Skip := wrap_int (Z.of_nat n);
               controlstatus.Error := 0 |}).
Proof.
  intros Hbuild Hdry.
  destruct (built_start _ _ _ _ Hbuild) as (-> & Hwf & Hfresh & Hd & Hroot).
  assert (0 < length (groups (world s))) as Hpos.
  { destruct (NewRootResultGroup_ok executionTree rootItems)
      as (w' & Hbuild' & _ & _ & _ & _ & g0 & Hg0 & _).
    rewrite Hbuild in Hbuild'. injection Hbuild' as <-.
    by eapply lookup_lt_Some. }
  destruct (execute_all_terminated env with_run_skipped skip_unit
              ActSkip 0 s)
    as (order & s' & Horder & Hexec & Hsl & Hsp & _ & _ & Hruns & Hgroups);
    [done| |done..|].
  { intros x c s1 Hcl. unfold execute_run_result.
    destruct (Hdry _ Hcl) as [-> ->]. done. }
  exists s'. split; [done|]. split; [done|]. split; [done|]. split.
  - intros x c Hc. rewrite (Hruns x c Hc). rewrite decide_True; [done|].
    apply Hroot. destruct (wf_run_group _ Hwf _ _ Hc) as (gc & Hgc & _).
    by eapply lookup_lt_Some.
  - intros i g Hg. pose proof (lookup_lt_Some _ _ _ Hg) as Hi.
    destruct (Hgroups i g Hg) as (g' & Hg' & _ & Hst).
    exists g', (count_below (world s) i order).
    split; [done|].
    split; [by apply (count_below_walk _ 0); [| | |apply Hroot]|].
    rewrite Hst.
    destruct (fresh_group _ Hfresh _ _ Hg) as (-> & _).
    by rewrite add_units_skip by apply summary_zero_valid.
Qed.

Lemma dry_run_tree_counts_skips_witness :
  exists s',
    execute (sample.env false true None Returned) 0 sample_start =
      Some (tt, s') /\
    slots s' = slots sample_start /\ spawned s' = spawned sample_start /\
    (forall x c,
        runs (world sample_start) !! x = Some c ->
        runs (world s') !! x = Some (with_run_skipped c)) /\
    (forall i g,
        groups (world sample_start) !! i = Some g ->
        exists g' n,
          groups (world s') !! i = Some g' /\
          ControlRunCount i (world sample_start) =
            Some (n, world sample_start) /\
          GroupSummary.Status (Summary g') =
            {| controlstatus.Alarm := 0; controlstatus.Ok := 0;
               controlstatus.Info := 0;
               controlstatus.Skip := wrap_int (Z.of_nat n);
               controlstatus.Error := 0 |}).
Proof.
  apply (dry_run_tree_counts_skips sample.tree sample.items 0
           (sample.env false true None Returned) sample_start);
    [exact sample_build|].
  intros n _. split; reflexivity.
Defined.

(** The sample tree after a walk with the context cancelled, and after a
    dry run: two errors, respectively two skips, at b1 and at the root,
    nothing at the two empty benchmarks. *)
Example sample_cancelled_counts :
  status_of (world (walk_result (sample.env true false None Returned)))
    <$> [0; 1; 2; 3] =
    [controlstatus.mkStatusSummary 0 0 0 0 2;
     controlstatus.mkStatusSummary 0 0 0 0 2;
     controlstatus.zero; controlstatus.zero] /\
  (fun c => (Status c, RunSummary c, RunErr c)) <$>
    runs (world (walk_result (sample.env true false None Returned))) =
    [(RunError, error_unit, Some "context canceled");
     (RunError, error_unit, Some "context canceled")].
Proof. vm_compute. split; reflexivity. Qed.

Example sample_dry_run_counts :
  status_of (world (walk_result (sample.env false true None Returned)))
    <$> [0; 1; 2; 3] =
    [controlstatus.mkStatusSummary 0 0 0 2 0;
     controlstatus.mkStatusSummary 0 0 0 2 0;
     controlstatus.zero; controlstatus.zero] /\
  (fun c => (Status c, RunSummary c, RunErr c)) <$>
    runs (world (walk_result (sample.env false true None Returned))) =
    [(RunComplete, skip_unit, None); (RunComplete, skip_unit, None)].
Proof. vm_compute. split; reflexivity. Qed.
